(** * Speech segmentation of the Congressional Record: a shallow embedding

    This development embeds in Rocq the text-segmentation core of the
    repository:

    - [speaker_scraper.py]: the pattern catalog, the event scanner and the
      turn assembler ([scrape]), the artifact stripper ([_clean_extraneous])
      and the NOTE-block stripper ([_strip_note_blocks]);
    - [parse_CRECB_data/3-add_debate_titles.py]: the title block detector
      ([find_titles]), the section mapper ([extract_sections] and the
      assignment loop of [worker_process]);
    - [parse_CRECB_data/4-clean_record_boilerplate.py]: the boilerplate
      fuzzy filter ([levenshtein_leq1], [line_contains_fuzzy_target],
      [clean_speech_text]).

    Modelling conventions.

    - A Python [str] is a [list ascii]; a character is a code point in
      U+0000..U+00FF (Latin-1).  Transcripts with code points above U+00FF
      are outside the model.  Character predicates ([isspace], [\s], [\w],
      [\d], [isupper], line boundaries of [splitlines]) are the
      restrictions of Python's Unicode predicates to that range.
    - Offsets are [nat]; a slice [text[a:b]] is [slice text a b].
    - Regular expressions are values of the type [re], run by a
      backtracking matcher that enumerates the successes in the order in
      which Python's [re] module explores them; the match of Python is the
      first success.
    - [percent_uppercase_alpha] returns an exact rational; the source
      computes a float and compares it with [0.60]. *)

From Stdlib Require Import String.
From Stdlib Require Import List Ascii Arith Bool Lia PeanoNat.
From Stdlib Require Import QArith.
From Stdlib Require Import Sorting.Sorted Sorting.Permutation.
Import ListNotations.

Set Implicit Arguments.
Local Open Scope nat_scope.
Local Open Scope list_scope.

(** ** Python strings *)

Definition str := list ascii.

(** String literals are written [L "..."]. *)
Definition L (s : string) : str := list_ascii_of_string s.
Arguments L s%_string.

Definition code (c : ascii) : nat := nat_of_ascii c.

Definition LF : ascii := ascii_of_nat 10.
Definition CR : ascii := ascii_of_nat 13.
Definition TAB : ascii := ascii_of_nat 9.
Definition SP : ascii := ascii_of_nat 32.
Definition NBSP : ascii := ascii_of_nat 160.

Definition chr_eqb (a b : ascii) : bool := Ascii.eqb a b.

Definition between (lo hi : nat) (c : ascii) : bool :=
  (lo <=? code c) && (code c <=? hi).

Definition is_upper_az (c : ascii) : bool := between 65 90 c.
Definition is_lower_az (c : ascii) : bool := between 97 122 c.
Definition is_alpha_az (c : ascii) : bool := is_upper_az c || is_lower_az c.
Definition is_digit (c : ascii) : bool := between 48 57 c.

(** [str.isspace] on one character, and the class [\s] of [re]:
    U+0009..U+000D, U+001C..U+001F, U+0020, U+0085, U+00A0. *)
Definition isspace (c : ascii) : bool :=
  between 9 13 c || between 28 31 c || (code c =? 32)
  || (code c =? 133) || (code c =? 160).

(** [str.isupper] on one character: the upper-case letters of Latin-1. *)
Definition isupper (c : ascii) : bool :=
  between 65 90 c || between 192 214 c || between 216 222 c.

(** [str.isalnum] on one character, which is what [\w] of [re] tests
    (together with the underscore): ASCII letters and digits, the
    letters of Latin-1 and its numeric characters. *)
Definition isalnum (c : ascii) : bool :=
  is_alpha_az c || is_digit c
  || (code c =? 170) || (code c =? 181) || (code c =? 186)
  || between 178 179 c || (code c =? 185) || between 188 190 c
  || between 192 214 c || between 216 246 c || between 248 255 c.

Definition is_word (c : ascii) : bool := isalnum c || (code c =? 95).

(** The line boundaries of [str.splitlines] below U+0100. *)
Definition is_linebreak (c : ascii) : bool :=
  between 10 13 c || between 28 30 c || (code c =? 133).

(** [str.lower] and [str.upper] on the ASCII letters.  They are only
    applied where the text is then filtered down to ASCII letters, so the
    images of the other characters do not matter there; where they do
    ([line_contains_fuzzy_target]) the full map is [upper_cp] below. *)
Definition lower_az (c : ascii) : ascii :=
  if is_upper_az c then ascii_of_nat (code c + 32) else c.

Definition upper_az (c : ascii) : ascii :=
  if is_lower_az c then ascii_of_nat (code c - 32) else c.

Fixpoint str_eqb (a b : str) : bool :=
  match a, b with
  | [], [] => true
  | x :: a', y :: b' => chr_eqb x y && str_eqb a' b'
  | _, _ => false
  end.

(** [text[a:b]] for [0 <= a] and [0 <= b]; empty when [b <= a]. *)
Definition slice (s : str) (a b : nat) : str := firstn (b - a) (skipn a s).

(** [text[a:]] *)
Definition slice_from (s : str) (a : nat) : str := skipn a s.

Fixpoint dropWhile (p : ascii -> bool) (s : str) : str :=
  match s with
  | [] => []
  | c :: s' => if p c then dropWhile p s' else s
  end.

Definition lstrip_by (p : ascii -> bool) (s : str) : str := dropWhile p s.
Definition rstrip_by (p : ascii -> bool) (s : str) : str :=
  rev (dropWhile p (rev s)).
Definition strip_by (p : ascii -> bool) (s : str) : str :=
  rstrip_by p (lstrip_by p s).

(** [s.strip()], [s.lstrip()] *)
Definition strip (s : str) : str := strip_by isspace s.
Definition lstrip (s : str) : str := lstrip_by isspace s.

Definition mem_chr (c : ascii) (cs : str) : bool := existsb (chr_eqb c) cs.

(** [s.strip(chars)] *)
Definition strip_chars (cs : str) (s : str) : str :=
  strip_by (fun c => mem_chr c cs) s.

(** [s.startswith(p)] *)
Fixpoint startswith (p s : str) : bool :=
  match p, s with
  | [], _ => true
  | x :: p', y :: s' => chr_eqb x y && startswith p' s'
  | _ :: _, [] => false
  end.

(** [p in s] for strings *)
Fixpoint contains (p s : str) : bool :=
  startswith p s ||
  match s with
  | [] => false
  | _ :: s' => contains p s'
  end.

(** [s.replace(a, b)] for single characters *)
Definition replace_chr (a b : ascii) (s : str) : str :=
  map (fun c => if chr_eqb c a then b else c) s.

(** [s.splitlines(keepends=True)]: every line keeps its terminator; a
    carriage return followed by a line feed is one terminator. *)
Fixpoint splitlines_keep (s : str) : list str :=
  match s with
  | [] => []
  | c :: s' =>
      if is_linebreak c then
        match s' with
        | d :: s'' =>
            if chr_eqb c CR && chr_eqb d LF
            then [c; d] :: splitlines_keep s''
            else [c] :: splitlines_keep s'
        | [] => [[c]]
        end
      else
        match splitlines_keep s' with
        | [] => [[c]]
        | l :: ls => (c :: l) :: ls
        end
  end.

(** A line without its terminator. *)
Fixpoint chomp (l : str) : str :=
  match l with
  | [] => []
  | c :: l' => if is_linebreak c then [] else c :: chomp l'
  end.

Definition splitlines (keepends : bool) (s : str) : list str :=
  if keepends then splitlines_keep s else map chomp (splitlines_keep s).

(** [sep.join(parts)] *)
Fixpoint join (sep : str) (parts : list str) : str :=
  match parts with
  | [] => []
  | [p] => p
  | p :: ps => p ++ sep ++ join sep ps
  end.

(** [s.split()]: the maximal runs of non-whitespace characters. *)
Fixpoint split_ws_aux (cur : str) (s : str) : list str :=
  match s with
  | [] => match cur with [] => [] | _ => [rev cur] end
  | c :: s' =>
      if isspace c
      then match cur with
           | [] => split_ws_aux [] s'
           | _ => rev cur :: split_ws_aux [] s'
           end
      else split_ws_aux (c :: cur) s'
  end.

Definition split_ws (s : str) : list str := split_ws_aux [] s.

(** ** Regular expressions

    The fragment of Python's [re] syntax the program uses, with the flags
    resolved in the syntax tree: [Bol] and [Eol] are [^] and [$] under
    [re.MULTILINE], [EolAbs] is [$] without it, a class compiled under
    [re.IGNORECASE] is written with [ci], and [.] is [dot] or (under
    [re.DOTALL]) [any_chr]. *)

Record cursor := Cursor { prev : option ascii; rest : str }.

Inductive re : Type :=
| Eps
| Chr (p : ascii -> bool)
| Bol
| Eol
| EolAbs
| Wordb
| Seq (a b : re)
| Alt (a b : re)
| Rep (lo : nat) (hi : option nat) (greedy : bool) (a : re).

Definition opt_word (o : option ascii) : bool :=
  match o with Some c => is_word c | None => false end.

Definition at_bol (st : cursor) : bool :=
  match prev st with None => true | Some c => chr_eqb c LF end.

Definition at_eol (st : cursor) : bool :=
  match rest st with [] => true | c :: _ => chr_eqb c LF end.

Definition at_eol_abs (st : cursor) : bool :=
  match rest st with
  | [] => true
  | [c] => chr_eqb c LF
  | _ => false
  end.

Definition at_wordb (st : cursor) : bool :=
  xorb (opt_word (prev st)) (opt_word (hd_error (rest st))).

Definition guard (b : bool) (st : cursor) : list cursor :=
  if b then [st] else [].

Definition step_chr (p : ascii -> bool) (st : cursor) : list cursor :=
  match rest st with
  | c :: s' => if p c then [Cursor (Some c) s'] else []
  | [] => []
  end.

Definition progress (st st' : cursor) : bool :=
  length (rest st') <? length (rest st).

Definition hi_pred (hi : option nat) : option nat := option_map pred hi.

Definition hi_open (hi : option nat) : bool :=
  match hi with Some 0 => false | _ => true end.

(** A bounded repetition [a{lo,hi}] of the step [f]; [fuel] bounds the
    number of iterations.  Past the mandatory [lo] iterations only an
    iteration that consumes input is repeated, as in the matcher of
    Python. *)
Fixpoint iter (f : cursor -> list cursor) (fuel lo : nat) (hi : option nat)
              (greedy : bool) (st : cursor) : list cursor :=
  let stop := guard (lo =? 0) st in
  match fuel with
  | 0 => stop
  | S fuel' =>
      let nexts := if lo =? 0 then filter (progress st) (f st) else f st in
      let more :=
        if hi_open hi
        then flat_map (iter f fuel' (pred lo) (hi_pred hi) greedy) nexts
        else [] in
      if greedy then more ++ stop else stop ++ more
  end.

(** All the ways [r] matches at the cursor, in the order in which a
    backtracking matcher tries them: each result is the cursor after the
    match. *)
Fixpoint run (r : re) (st : cursor) {struct r} : list cursor :=
  match r with
  | Eps => [st]
  | Chr p => step_chr p st
  | Bol => guard (at_bol st) st
  | Eol => guard (at_eol st) st
  | EolAbs => guard (at_eol_abs st) st
  | Wordb => guard (at_wordb st) st
  | Seq a b => flat_map (run b) (run a st)
  | Alt a b => run a st ++ run b st
  | Rep lo hi g a => iter (run a) (lo + length (rest st)) lo hi g st
  end.

(** The match at the cursor: the number of characters it consumes. *)
Definition match_len (r : re) (st : cursor) : option nat :=
  match run r st with
  | st' :: _ => Some (length (rest st) - length (rest st'))
  | [] => None
  end.

(** [pattern.match(s)] as a truth value *)
Definition re_match (r : re) (s : str) : bool :=
  match match_len r (Cursor None s) with Some _ => true | None => false end.

(** [pattern.finditer(s)]: the spans [(m.start(), m.end())] of the
    successive matches.  [skip] counts the characters still covered by the
    last match found.  After an empty match the scan moves one character
    on. *)
Fixpoint scan (r : re) (p : option ascii) (s : str) (skip pos : nat)
  : list (nat * nat) :=
  match skip with
  | S k =>
      match s with
      | [] => []
      | c :: s' => scan r (Some c) s' k (S pos)
      end
  | 0 =>
      match match_len r (Cursor p s) with
      | Some n =>
          (pos, pos + n) ::
          match s with
          | [] => []
          | c :: s' => scan r (Some c) s' (pred n) (S pos)
          end
      | None =>
          match s with
          | [] => []
          | c :: s' => scan r (Some c) s' 0 (S pos)
          end
      end
  end.

Definition finditer (r : re) (s : str) : list (nat * nat) :=
  scan r None s 0 0.

(** [pattern.search(s)] as a truth value *)
Definition re_search (r : re) (s : str) : bool :=
  match finditer r s with [] => false | _ => true end.

(** [pattern.sub('', s)]: the text outside the matches. *)
Fixpoint sub_scan (r : re) (p : option ascii) (s : str) (skip : nat) : str :=
  match skip with
  | S k =>
      match s with
      | [] => []
      | c :: s' => sub_scan r (Some c) s' k
      end
  | 0 =>
      match match_len r (Cursor p s) with
      | Some (S k) =>
          match s with
          | [] => []
          | c :: s' => sub_scan r (Some c) s' k
          end
      | _ =>
          match s with
          | [] => []
          | c :: s' => c :: sub_scan r (Some c) s' 0
          end
      end
  end.

Definition sub_empty (r : re) (s : str) : str := sub_scan r None s 0.

(** [pattern.findall(s)] for a pattern without groups *)
Definition findall (r : re) (s : str) : list str :=
  map (fun se => slice s (fst se) (snd se)) (finditer r s).

(** *** Notations of the pattern catalog *)

Definition chr (c : ascii) : re := Chr (chr_eqb c).
Definition ci (c : ascii) : re := Chr (fun x => chr_eqb (lower_az x) (lower_az c)).
Definition any_chr : re := Chr (fun _ => true).
Definition dot : re := Chr (fun c => negb (chr_eqb c LF)).
Definition ws : re := Chr isspace.
Definition digit : re := Chr is_digit.
Definition wordc : re := Chr is_word.
Definition one_of (cs : string) : re := Chr (fun c => mem_chr c (L cs)).
Definition none_of (cs : string) : re :=
  Chr (fun c => negb (mem_chr c (L cs))).
Arguments one_of cs%_string.
Arguments none_of cs%_string.

Fixpoint seqs (rs : list re) : re :=
  match rs with
  | [] => Eps
  | [r] => r
  | r :: rs' => Seq r (seqs rs')
  end.

Fixpoint alts (rs : list re) : re :=
  match rs with
  | [] => Chr (fun _ => false)
  | [r] => r
  | r :: rs' => Alt r (alts rs')
  end.

Definition lit (s : string) : re := seqs (map chr (L s)).
Definition lit_ci (s : string) : re := seqs (map ci (L s)).
Arguments lit s%_string.
Arguments lit_ci s%_string.

Definition star (a : re) : re := Rep 0 None true a.
Definition plus (a : re) : re := Rep 1 None true a.
Definition opt (a : re) : re := Rep 0 (Some 1) true a.
Definition lazy_star (a : re) : re := Rep 0 None false a.
Definition rep (lo hi : nat) (a : re) : re := Rep lo (Some hi) true a.
Definition at_least (lo : nat) (a : re) : re := Rep lo None true a.

(** ** speaker_scraper.py: the pattern catalog *)

Definition upAZ : re := Chr is_upper_az.
Definition loaz : re := Chr is_lower_az.
Definition alpha : re := Chr is_alpha_az.
Definition alpha_apos : re :=
  Chr (fun c => is_alpha_az c || chr_eqb c "'"%char).

(** [[A-Z][a-z]{0,3}[A-Za-z']+] *)
Definition name_token : re := seqs [upAZ; rep 0 3 loaz; plus alpha_apos].

(** [(?:-[A-Za-z']+)*] *)
Definition hyphen_parts : re := star (Seq (chr "-") (plus alpha_apos)).

(** [(?:\s\([^)]*\))?] *)
Definition paren_aside : re :=
  opt (seqs [ws; chr "("; star (none_of ")"); chr ")"]).

Definition honorific : re :=
  alts [ seqs [chr "M"; alts [lit "r"; lit "rs"; lit "s"]; chr "."];
         lit "Miss"; lit "Chairman"; lit "Chairwoman"; lit "HON."; lit "Dr." ].

Definition named_speaker : re :=
  seqs [ honorific; ws; opt (Seq (lit "Counsel") ws);
         star (seqs [upAZ; chr "."; ws]);
         name_token;
         star (seqs [ws; upAZ; chr "."]);
         hyphen_parts;
         star (seqs [ws; name_token; hyphen_parts]);
         opt (seqs [ws; lit "of"; ws; upAZ; plus alpha;
                    star (seqs [ws; upAZ; plus alpha])]);
         opt (Seq ws (lit "[continuing]"));
         paren_aside;
         chr "." ].

Definition role_name : re :=
  alts [ lit "CLERK";
         seqs [lit "Acting"; ws; lit "CHAIR"];
         seqs [lit "ACTING"; ws; lit "CHAIR"];
         lit "CHAIR";
         seqs [lit "CHAIRMAN"; opt (seqs [ws; lit "pro"; ws; lit "tempore"])];
         seqs [lit "PRESIDING"; ws; lit "OFFICER"];
         seqs [lit "SPEAKER"; opt (seqs [ws; lit "pro"; ws; lit "tempore"])];
         seqs [lit "VICE"; ws; lit "PRESIDENT"];
         seqs [lit "PRESIDENT"; ws; lit "pro"; ws; lit "tempore"];
         seqs [lit "ACTING"; ws; lit "PRESIDENT"; ws; lit "pro"; ws;
               lit "tempore"];
         seqs [lit "CHIEF"; ws; lit "JUSTICE"] ].

Definition role_speaker : re :=
  seqs [lit "The"; ws; role_name; paren_aside; chr "."].

Definition SPEAKER_REGEX : re :=
  seqs [Bol; rep 1 2 ws; Alt named_speaker role_speaker].

Definition pad : re := star (one_of " _-").

Definition UNDERLINE_REGEX : re :=
  Alt (seqs [Bol; pad; at_least 3 (chr "_"); pad; Eol])
      (seqs [Bol; pad; at_least 3 (chr "-"); pad; Eol]).

Definition DOC_HEADER_REGEX : re :=
  seqs [Bol; lit "[Congressional Record Volume"; star dot; chr "]"; Eol].

Definition DATE_END_REGEX : re :=
  seqs [rep 1 2 digit; lit ", "; rep 4 4 digit; opt (chr "."); EolAbs].

Definition EQUALS_REGEX : re :=
  seqs [Bol; star (Chr (fun c => chr_eqb c SP || chr_eqb c TAB));
        at_least 5 (chr "="); star dot; Eol].

Definition alnum_az : re := Chr (fun c => is_alpha_az c || is_digit c).

(** The seven patterns of [EXTRAS_PATTERNS], in the order of the list. *)
Definition PERMISSION_PATTERN : re :=
  seqs [chr "("; star (none_of ")");
        lit "asked and was given permission";
        star (none_of ")"); chr ")"; star ws].

Definition RULE_PATTERN : re := at_least 3 (one_of "-_").

Definition TIME_PATTERN : re := seqs [lit "{time}"; star ws; rep 2 4 digit].

Definition ROLL_PATTERN : re :=
  seqs [lit "[Roll";
        star (Chr (fun c => negb (chr_eqb c "]"%char || chr_eqb c CR
                                  || chr_eqb c LF)));
        chr "]"].

Definition PAGE_PATTERN : re :=
  seqs [lit "[[Page "; rep 1 10 alnum_az; lit "]]"].

Definition TITLE_PATTERN : re :=
  seqs [lit_ci "<title>"; lazy_star any_chr; lit_ci "</title>"].

Definition TAG_PATTERN : re :=
  seqs [chr "<"; opt (chr "/"); plus (none_of ">"); chr ">"].

Definition EXTRAS_PATTERNS : list re :=
  [ PERMISSION_PATTERN; RULE_PATTERN; TIME_PATTERN; ROLL_PATTERN;
    PAGE_PATTERN; TITLE_PATTERN; TAG_PATTERN ].

(** [r"\b\w[\w'-]*\b"] of [_find_deeply_indented_titles] *)
Definition WORD_REGEX : re :=
  seqs [Wordb; wordc;
        star (Chr (fun c => is_word c || chr_eqb c "'"%char
                            || chr_eqb c "-"%char));
        Wordb].

(** ** speaker_scraper.py: the functions *)

Definition _clean_extraneous (text : str) : str :=
  fold_left (fun t pat => sub_empty pat t) EXTRAS_PATTERNS text.

(** [EQUALS_REGEX.match(ln)]: the line is a NOTE marker. *)
Definition is_marker (ln : str) : bool := re_match EQUALS_REGEX ln.

(** The loop of [_strip_note_blocks] over the lines, from the state
    [skip]. *)
Fixpoint strip_lines (skip : bool) (lines : list str) : list str :=
  match lines with
  | [] => []
  | ln :: lines' =>
      if is_marker ln then ln :: strip_lines (negb skip) lines'
      else if skip then strip_lines skip lines'
      else ln :: strip_lines skip lines'
  end.

Definition _strip_note_blocks (text : str) : str :=
  concat (strip_lines false (splitlines true text)).

(** The indentation loops: a space counts 1, a tab counts [tabw]. *)
Fixpoint indent_of (tabw : nat) (ln : str) : nat :=
  match ln with
  | [] => 0
  | c :: ln' =>
      if chr_eqb c SP then 1 + indent_of tabw ln'
      else if chr_eqb c TAB then tabw + indent_of tabw ln'
      else 0
  end.

Definition is_crlf (c : ascii) : bool := chr_eqb c CR || chr_eqb c LF.

Definition is_nil {A} (l : list A) : bool :=
  match l with [] => true | _ => false end.

Definition first_isupper (w : str) : bool :=
  match w with c :: _ => isupper c | [] => false end.

(** The test of [_find_deeply_indented_titles] on line [ln] whose
    predecessor is [above]. *)
Definition deep_title_line (tab_width : nat) (above ln : str) : bool :=
  is_nil (strip above)
  && negb (indent_of tab_width ln <=? tab_width)
  && (let stripped := strip_by is_crlf ln in
      let words := findall WORD_REGEX stripped in
      negb (is_nil words)
      && (length words <=? length (filter first_isupper words) * 2)).

Fixpoint deep_titles_from (tab_width : nat) (above : str) (pos : nat)
                          (lines : list str) : list (nat * nat) :=
  match lines with
  | [] => []
  | ln :: lines' =>
      (if deep_title_line tab_width above ln then [(pos, pos)] else [])
      ++ deep_titles_from tab_width ln (pos + length ln) lines'
  end.

Definition _find_deeply_indented_titles (text : str) (tab_width : nat)
  : list (nat * nat) :=
  match splitlines true text with
  | [] => []
  | l0 :: lines' => deep_titles_from tab_width l0 (length l0) lines'
  end.

Definition date_line (indent_threshold : nat) (ln : str) : bool :=
  negb (indent_of indent_threshold ln <? indent_threshold)
  && re_search DATE_END_REGEX (strip ln).

Fixpoint dates_from (indent_threshold : nat) (pos : nat) (lines : list str)
  : list (nat * nat) :=
  match lines with
  | [] => []
  | ln :: lines' =>
      (if date_line indent_threshold ln then [(pos, pos)] else [])
      ++ dates_from indent_threshold (pos + length ln) lines'
  end.

Definition _find_right_justified_dates (text : str) (indent_threshold : nat)
  : list (nat * nat) :=
  dates_from indent_threshold 0 (splitlines true text).

(** *** The event timeline *)

Inductive etype : Type := speaker_ev | end_ev.

(** An event [(etype, start, end, m)]; the match object [m] is only read
    for [m.start()] and [m.end()], which are [start] and [end]. *)
Record event := Event { ev_type : etype; ev_start : nat; ev_end : nat }.

Definition mk_events (ty : etype) (spans : list (nat * nat)) : list event :=
  map (fun se => Event ty (fst se) (snd se)) spans.

(** [events.sort(key=lambda e: e[1])]: Python's sort is stable. *)
Fixpoint insert_event (x : event) (l : list event) : list event :=
  match l with
  | [] => [x]
  | y :: l' =>
      if ev_start x <=? ev_start y then x :: l else y :: insert_event x l'
  end.

Fixpoint sort_events (l : list event) : list event :=
  match l with
  | [] => []
  | x :: l' => insert_event x (sort_events l')
  end.

(** The text scanned by [scrape]: NOTE blocks removed, no-break spaces
    turned into spaces. *)
Definition prepare (text : str) : str :=
  replace_chr NBSP SP (_strip_note_blocks text).

(** The events of all pattern families, in the order of the scans. *)
Definition all_events (text : str) : list event :=
  mk_events speaker_ev (finditer SPEAKER_REGEX text)
  ++ mk_events end_ev (finditer UNDERLINE_REGEX text)
  ++ mk_events end_ev (finditer DOC_HEADER_REGEX text)
  ++ mk_events end_ev (_find_deeply_indented_titles text 2)
  ++ mk_events end_ev (_find_right_justified_dates text 15)
  ++ mk_events end_ev (finditer EQUALS_REGEX text).

Definition timeline (text : str) : list event :=
  sort_events (all_events text).

(** *** The turn assembler *)

(** A yielded pair [(speaker, speech)] together with the slice bounds
    [text[span_start:span_end]] its speech was cut from. *)
Record turn := Turn {
  speaker : str;
  span_start : nat;
  span_end : nat;
  speech : str
}.

Definition clean_speech (raw : str) : str :=
  strip (_clean_extraneous (strip raw)).

(** [text[m.start():m.end()].strip()[:-1]] *)
Definition label_of (text : str) (e : event) : str :=
  removelast (strip (slice text (ev_start e) (ev_end e))).

(** The loop over the sorted events; [cur] is [None] when
    [current_speaker] is [None], and otherwise holds [current_speaker]
    and [speech_start]. *)
Fixpoint assemble (text : str) (cur : option (str * nat))
                  (events : list event) : list turn :=
  match events with
  | [] =>
      match cur with
      | Some (who, speech_start) =>
          [Turn who speech_start (length text)
                (clean_speech (slice_from text speech_start))]
      | None => []
      end
  | e :: events' =>
      let closed :=
        match cur with
        | Some (who, speech_start) =>
            [Turn who speech_start (ev_start e)
                  (clean_speech (slice text speech_start (ev_start e)))]
        | None => []
        end in
      match ev_type e with
      | speaker_ev =>
          closed ++ assemble text (Some (label_of text e, ev_end e)) events'
      | end_ev => closed ++ assemble text None events'
      end
  end.

Definition scrape_turns (text : str) : list turn :=
  let text := prepare text in
  assemble text None (timeline text).

(** The pairs [scrape] yields. *)
Definition scrape (text : str) : list (str * str) :=
  map (fun t => (speaker t, speech t)) (scrape_turns text).

(** ** parse_CRECB_data/3-add_debate_titles.py *)

(** [re.sub(r"[^A-Za-z]", "", s)] *)
Definition only_alpha (s : str) : str := filter is_alpha_az s.

(** [len(re.findall(r"[A-Za-z]", s))] *)
Definition alpha_count (s : str) : nat := length (filter is_alpha_az s).

(** [s.lower()] on the ASCII letters; its results are only read through
    filters that keep ASCII letters. *)
Definition lower (s : str) : str := map lower_az s.

Definition mem_str (w : str) (ws : list str) : bool := existsb (str_eqb w) ws.

(** The characters of [normalize_token] below U+0100; the two dashes
    U+2014 and U+2013 of the source cannot occur in a Latin-1 token. *)
Definition token_punct : str :=
  L ",.;:!?-()[]{}<>'`" ++ [ascii_of_nat 34].

Definition normalize_token (token : str) : str := strip_chars token_punct token.

Definition is_allcaps_alpha_word (token : str) : bool :=
  let cleaned := normalize_token token in
  if alpha_count cleaned <? 2 then false
  else if existsb is_lower_az cleaned then false
  else existsb is_upper_az cleaned.

(** The letters counted by [percent_uppercase_alpha]: those of the tokens
    whose letters do not spell a skip word. *)
Definition counted_letters (line : str) (skip_words : list str) : str :=
  flat_map (fun token =>
              let base := only_alpha token in
              if mem_str (lower base) skip_words then [] else base)
           (split_ws line).

Definition percent_uppercase_alpha (line : str) (skip_words : list str) : Q :=
  let letters := counted_letters line skip_words in
  let upper := filter isupper letters in
  match length letters with
  | 0 => 0
  | S n => Z.of_nat (length upper) # Pos.of_succ_nat n
  end.

Definition exclude_line (line : str) : bool :=
  let l := lower line in
  let cleaned := filter is_lower_az l in
  if contains (L "congressionalrecord") cleaned then true
  else if mem_str cleaned [L "usgovernment"; L "usgoverment"] then true
  else
    let words := findall (plus alpha) l in
    let key := [L "gpo"; L "authenticated"; L "authentication";
                L "authentic"; L "information"] in
    negb (is_nil words) && forallb (fun w => mem_str w key) words.

(** A title [(text, start, end)] *)
Record title_block := Title { tb_text : str; tb_start : nat; tb_end : nat }.

(** An entry [(line, line_start, line_end)] of [block] *)
Definition block_line := (str * nat * nat)%type.

Definition block_text (block : list block_line) : str :=
  concat (map (fun x => fst (fst x)) block).

(** [block[-1][2]] *)
Definition block_end (block : list block_line) : nat :=
  snd (last block ([], 0, 0)).

Definition courtesy_start (s : str) : bool :=
  startswith (L "Mr.") s || startswith (L "Ms.") s || startswith (L "Mrs.") s.

(** The titles after closing [block]: the block is appended unless its
    text, left-stripped, starts with a courtesy title. *)
Definition close_block (titles : list title_block) (block : list block_line)
                       (block_start : nat) : list title_block :=
  if courtesy_start (lstrip (block_text block)) then titles
  else titles ++ [Title (block_text block) block_start (block_end block)].

Definition skip_words : list str := [L "report"].

Definition pct_ok (line : str) : bool :=
  Qle_bool (6 # 10) (percent_uppercase_alpha line skip_words).

(** The [while] loop of the look-ahead: the first line that is not blank. *)
Fixpoint next_nonblank (lines : list str) : option str :=
  match lines with
  | [] => None
  | l :: lines' => if is_nil (strip l) then next_nonblank lines' else Some l
  end.

(** The look-ahead test at a blank line; [after] is [lines[i+1:]]. *)
Definition lookahead_ok (after : list str) : bool :=
  match next_nonblank after with
  | Some l =>
      let look := strip l in
      (8 <=? alpha_count look) && pct_ok look
  | None => false
  end.

Definition alpha_words (stripped : str) : nat :=
  length (filter (existsb is_alpha_az) (split_ws stripped)).

Definition cap_words (stripped : str) : nat :=
  length (filter is_allcaps_alpha_word (split_ws stripped)).

Definition is_strong (stripped : str) : bool :=
  (2 <=? alpha_words stripped) && pct_ok stripped
  && (8 <=? alpha_count stripped).

Definition is_short_final (stripped : str) : bool :=
  (alpha_words stripped =? 1) && (1 <=? cap_words stripped).

(** The state of the loop of [find_titles] after the lines read so far.
    [block_start] is [None] in the source until the first block opens and
    is only read while [block] is not empty; it starts at [0] here. *)
Record ft_state := FT {
  ft_titles : list title_block;
  ft_block : list block_line;
  ft_block_start : nat;
  ft_offset : nat
}.

(** One iteration of the loop on [line], with [after] the lines that
    follow it. *)
Definition ft_step (st : ft_state) (line : str) (after : list str) : ft_state :=
  let titles := ft_titles st in
  let block := ft_block st in
  let block_start := ft_block_start st in
  let stripped := strip line in
  let line_start := ft_offset st in
  let line_end := ft_offset st + length line in
  if is_nil stripped && negb (is_nil block) then
    if lookahead_ok after
    then FT titles (block ++ [(line, line_start, line_end)]) block_start line_end
    else FT (close_block titles block block_start) [] block_start line_end
  else if exclude_line line then
    FT (if is_nil block then titles else close_block titles block block_start)
       [] block_start line_end
  else if is_strong stripped then
    FT titles (block ++ [(line, line_start, line_end)])
       (if is_nil block then line_start else block_start) line_end
  else if negb (is_nil block) && is_short_final stripped then
    FT titles (block ++ [(line, line_start, line_end)]) block_start line_end
  else
    FT (if is_nil block then titles else close_block titles block block_start)
       [] block_start line_end.

Fixpoint ft_loop (st : ft_state) (lines : list str) : ft_state :=
  match lines with
  | [] => st
  | line :: after => ft_loop (ft_step st line after) after
  end.

Definition find_titles (text : str) : list title_block :=
  let st := ft_loop (FT [] [] 0 0) (splitlines true text) in
  if is_nil (ft_block st) then ft_titles st
  else close_block (ft_titles st) (ft_block st) (ft_block_start st).

(** A section [(title, sec_start, sec_end)] *)
Record section := Sec { sec_title : str; sec_start : nat; sec_end : nat }.

Fixpoint extract_sections (text : str) (titles : list title_block)
  : list section :=
  match titles with
  | [] => []
  | t :: titles' =>
      Sec (strip (tb_text t)) (tb_end t)
          (match titles' with
           | t' :: _ => tb_start t'
           | [] => length text
           end)
      :: extract_sections text titles'
  end.

(** [s_start <= pos < s_end] *)
Definition in_section (s : section) (pos : nat) : bool :=
  (sec_start s <=? pos) && (pos <? sec_end s).

(** The assignment loop of [worker_process] for a turn at offset [pos]. *)
Fixpoint assigned_title (sections : list section) (pos : nat) : str :=
  match sections with
  | [] => []
  | s :: sections' =>
      if in_section s pos
      then strip (sec_title s)
      else assigned_title sections' pos
  end.

(** The offsets [len(reconstructed)] recorded before each speech is
    appended, followed by two line feeds. *)
Fixpoint row_offsets (pos : nat) (speeches : list str) : list nat :=
  match speeches with
  | [] => []
  | sp :: speeches' => pos :: row_offsets (pos + length sp + 2) speeches'
  end.

(** The [title] column written by [worker_process], given the cleaned
    text and the titles found in it. *)
Definition assigned_titles (cleaned_text : str) (titles : list title_block)
                           (speeches : list str) : list str :=
  map (assigned_title (extract_sections cleaned_text titles))
      (row_offsets 0 speeches).

(** ** parse_CRECB_data/4-clean_record_boilerplate.py *)

(** [str.upper] on one character, as code points: the sharp s becomes two
    letters, and the micro sign and the y with diaeresis leave Latin-1. *)
Definition upper_cp (c : ascii) : list nat :=
  let n := code c in
  if is_lower_az c then [n - 32]
  else if n =? 223 then [83; 83]
  else if n =? 181 then [924]
  else if n =? 255 then [376]
  else if between 224 254 c && negb (n =? 247) then [n - 32]
  else [n].

(** [line.upper()], a string of code points *)
Definition upper (line : str) : list nat := flat_map upper_cp line.

Definition TARGET : list nat := map code (L "CONGRESSIONAL RECORD").
Definition T_LEN : nat := length TARGET.

Fixpoint cps_eqb (a b : list nat) : bool :=
  match a, b with
  | [], [] => true
  | x :: a', y :: b' => (x =? y) && cps_eqb a' b'
  | _, _ => false
  end.

(** [sum(c1 != c2 for c1, c2 in zip(a, b))] *)
Fixpoint diff_count (a b : list nat) : nat :=
  match a, b with
  | x :: a', y :: b' => (if x =? y then 0 else 1) + diff_count a' b'
  | _, _ => 0
  end.

(** [b[:i] + b[i+1:]] *)
Definition delete_at (i : nat) (b : list nat) : list nat :=
  firstn i b ++ skipn (S i) b.

Definition levenshtein_leq1 (a b : list nat) : bool :=
  if cps_eqb a b then true
  else
    let la := length a in
    let lb := length b in
    if 1 <? (max la lb - min la lb) then false
    else if la =? lb then diff_count a b <=? 1
    else
      let '(a, b) := if lb <? la then (b, a) else (a, b) in
      existsb (fun i => cps_eqb (delete_at i b) a) (seq 0 (length b)).

(** [re.sub(r"[^A-Z ]", "", window)] *)
Definition window_clean (window : list nat) : list nat :=
  filter (fun n => ((65 <=? n) && (n <=? 90)) || (n =? 32)) window.

(** [up[i:i+L]] *)
Definition window_at (up : list nat) (i len : nat) : list nat :=
  firstn len (skipn i up).

(** The inner loop for one window length [len]. *)
Definition fuzzy_at_length (up : list nat) (len : nat) : bool :=
  if (len <=? 0) || (length up <? len) then false
  else existsb (fun i => levenshtein_leq1 (window_clean (window_at up i len))
                                          TARGET)
               (seq 0 (length up - len + 1)).

Definition line_contains_fuzzy_target (line : str) : bool :=
  let up := upper line in
  existsb (fuzzy_at_length up) [T_LEN - 1; T_LEN; T_LEN + 1].

Definition clean_speech_text (text : str) : str :=
  join [LF]
       (filter (fun line => negb (line_contains_fuzzy_target line))
               (splitlines false text)).

(** * The rest of the pipeline

    The functions around the segmentation core: the chamber and offset
    bookkeeping of [2-parse_speeches.py], the reconstruction and grouping
    loops of [3-add_debate_titles.py], the chunking of
    [4-clean_record_boilerplate.py], and the file-name and key helpers
    of the two scrapers.  Network requests, file input and output, the
    OCR and the parsing of HTML, XML and dates are outside the model:
    what these return is an input of the functions below. *)

(** ** Python lists and dictionaries *)

(** [l[a:b]] on a list *)
Definition list_slice {A} (l : list A) (a b : nat) : list A :=
  firstn (b - a) (skipn a l).

(** [l.sort(key=...)] for a key in the naturals: Python's sort is
    stable. *)
Fixpoint insert_by {A} (key : A -> nat) (x : A) (l : list A) : list A :=
  match l with
  | [] => [x]
  | y :: l' => if key x <=? key y then x :: l else y :: insert_by key x l'
  end.

Fixpoint sort_by {A} (key : A -> nat) (l : list A) : list A :=
  match l with
  | [] => []
  | x :: l' => insert_by key x (sort_by key l')
  end.

(** [range(0, stop, step)] for a positive [step]: the multiples of
    [step] below [stop]. *)
Definition range_step (stop step : nat) : list nat :=
  map (fun k => k * step) (seq 0 ((stop + step - 1) / step)).

(** A key of a dictionary: a string, or [None]. *)
Definition key : Type := option str.

Definition key_eqb (a b : key) : bool :=
  match a, b with
  | Some x, Some y => str_eqb x y
  | None, None => true
  | _, _ => false
  end.

(** A dictionary, in insertion order.  [dict_get] is [d.get(k)]: [None]
    stands for a missing key, which [d[k]] turns into a [KeyError]. *)
Definition dict (V : Type) : Type := list (key * V).

Fixpoint dict_get {V} (k : key) (d : dict V) : option V :=
  match d with
  | [] => None
  | (k', v) :: d' => if key_eqb k k' then Some v else dict_get k d'
  end.

(** [d[k] = v] *)
Fixpoint dict_set {V} (k : key) (v : V) (d : dict V) : dict V :=
  match d with
  | [] => [(k, v)]
  | (k', v') :: d' =>
      if key_eqb k k' then (k, v) :: d' else (k', v') :: dict_set k v d'
  end.

(** [del d[k]] for a key of [d] *)
Fixpoint dict_del {V} (k : key) (d : dict V) : dict V :=
  match d with
  | [] => []
  | (k', v') :: d' =>
      if key_eqb k k' then d' else (k', v') :: dict_del k d'
  end.

(** A value of a row of [csv.DictReader]: the text of a field;
    [None], the value of a column for which a short line has no field;
    or the list of the fields of a long line for which the header has
    no column, which the reader keeps under the key [None]. *)
Inductive cell : Type :=
| Field (s : str)
| Missing
| Extras (fields : list str).

(** A row of [csv.DictReader]: the columns with their values. *)
Definition row : Type := dict cell.

(** The exceptions the loops over the rows can raise. *)
Inductive exn : Type := KeyError | TypeError | AttributeError.

(** The outcome of a computation that can raise. *)
Inductive outcome (A : Type) : Type :=
| Ok (a : A)
| Raise (e : exn).
Arguments Ok {A} a.
Arguments Raise {A} e.

(** A loop that applies [f] to the elements of [l] in turn and collects
    the results; the first exception ends it. *)
Fixpoint for_each {A B} (f : A -> outcome B) (l : list A)
  : outcome (list B) :=
  match l with
  | [] => Ok []
  | x :: l' =>
      match f x with
      | Ok y =>
          match for_each f l' with
          | Ok ys => Ok (y :: ys)
          | Raise e => Raise e
          end
      | Raise e => Raise e
      end
  end.

(** [text.find(sub, start)] for [0 <= start]: the lowest index at or
    after [start] where [sub] occurs; [None] stands for [-1]. *)
Fixpoint find_at (sub s : str) (pos : nat) : option nat :=
  if startswith sub s then Some pos
  else match s with
       | [] => None
       | _ :: s' => find_at sub s' (S pos)
       end.

Definition str_find (text sub : str) (start : nat) : option nat :=
  if length text <? start then None
  else find_at sub (skipn start text) start.

(** [str(n)] for a natural number: its decimal digits. *)
Fixpoint digits_of (fuel n : nat) (acc : str) : str :=
  match fuel with
  | 0 => acc
  | S fuel' =>
      let acc' := ascii_of_nat (48 + n mod 10) :: acc in
      if n <? 10 then acc' else digits_of fuel' (n / 10) acc'
  end.

Definition str_of_nat (n : nat) : str := digits_of (S n) n [].

(** [s.split(sep, 1)[1]] for a one-character separator: what follows its
    first occurrence; [None] when [sep] does not occur (the list has one
    element only). *)
Fixpoint after_first (sep : ascii) (s : str) : option str :=
  match s with
  | [] => None
  | c :: s' => if chr_eqb c sep then Some s' else after_first sep s'
  end.

(** [s.rsplit(sep, 1)[0]] for a non-empty [sep]: what precedes the last
    occurrence of [sep], and [s] itself when [sep] does not occur. *)
Fixpoint before_last (sep s : str) : option str :=
  match s with
  | [] => None
  | c :: s' =>
      match before_last sep s' with
      | Some h => Some (c :: h)
      | None => if startswith sep s then Some [] else None
      end
  end.

Definition rsplit1_head (sep s : str) : str :=
  match before_last sep s with Some h => h | None => s end.

(** ** 2-parse_speeches.py *)

Definition HOUSE_REGEX : re := seqs [Bol; star ws; lit "HOUSE"; star ws; Eol].
Definition SENATE_REGEX : re := seqs [Bol; star ws; lit "SENATE"; star ws; Eol].

(** The markers [(m.start(), "H")] and [(m.start(), "S")], sorted by
    offset. *)
Definition determine_chamber_markers (text : str) : list (nat * str) :=
  sort_by fst
    (map (fun se => (fst se, L "H")) (finditer HOUSE_REGEX text)
     ++ map (fun se => (fst se, L "S")) (finditer SENATE_REGEX text)).

(** The loop of [chamber_for_offset] from the value [chamber]: it stops
    at the first marker past [offset]. *)
Fixpoint chamber_loop (chamber : str) (offset : nat)
                      (markers : list (nat * str)) : str :=
  match markers with
  | [] => chamber
  | (m_offset, ch) :: markers' =>
      if m_offset <=? offset then chamber_loop ch offset markers'
      else chamber
  end.

Definition chamber_for_offset (offset : nat) (markers : list (nat * str))
  : str :=
  chamber_loop [] offset markers.

Definition infer_gender (who : str) : str :=
  if startswith (L "Ms.") who || startswith (L "Mrs.") who then L "F"
  else if startswith (L "Mr.") who then L "M"
  else [].

(** A row written by [process_batch] for one speech, with the offset
    [idx] at which the speech was located.  The columns derived from the
    file name are left out. *)
Record speech_row := SpeechRow {
  row_idx : nat;
  row_speaker : str;
  row_gender : str;
  row_chamber : str;
  row_speech : str
}.

(** The loop over the speeches of one file, from the value [cursor]. *)
Fixpoint batch_rows (text : str) (chamber_markers : list (nat * str))
                    (cursor : nat) (speeches : list (str * str))
  : list speech_row :=
  match speeches with
  | [] => []
  | (who, speech_text) :: speeches' =>
      let idx := match str_find text speech_text cursor with
                 | Some i => i
                 | None => cursor
                 end in
      SpeechRow idx who (infer_gender who)
                (chamber_for_offset idx chamber_markers) speech_text
      :: batch_rows text chamber_markers (idx + length speech_text) speeches'
  end.

(** The rows written for a file whose date was extracted and whose
    text [text] was read: lines 125 to 152 of [process_batch].  [scrape]
    raises nothing on a string. *)
Definition file_rows (text : str) : list speech_row :=
  batch_rows text (determine_chamber_markers text) 0 (scrape text).

(** [os.path.basename(p)]: what follows the last slash of [p]. *)
Fixpoint basename (p : str) : str :=
  match p with
  | [] => []
  | c :: p' =>
      if mem_chr "/"%char p' then basename p'
      else if chr_eqb c "/"%char then p' else p
  end.

(** [r'([A-Za-z]+)\s+(\d{1,2}),\s*(\d{4})'] *)
Definition DATE_REGEX : re :=
  seqs [plus alpha; plus ws; rep 1 2 digit; lit ","; star ws; rep 4 4 digit].

Section ProcessBatch.

(** What [extract_date_from_filename] makes of the text of a match of
    [DATE_REGEX] with [strptime] and [strftime]: the date and the
    decade, and [None] when [strptime] raises. *)
Variable parse_date : str -> option (str * str).

(** The text of the file at a path; [None] when opening or reading it
    raises. *)
Variable read_text : str -> option str.

(** [None] stands for the exception raised when the name has no match
    or the match is no date. *)
Definition extract_date_from_filename (filename : str)
  : option (str * str) :=
  match finditer DATE_REGEX filename with
  | (a, b) :: _ => parse_date (slice filename a b)
  | [] => None
  end.

(** The rows [process_batch] writes for the file at [filepath]: none
    when the date cannot be extracted from the name of the file or the
    file cannot be read. *)
Definition process_file (filepath : str) : list speech_row :=
  let filename := basename filepath in
  match extract_date_from_filename filename with
  | None => []
  | Some _ =>
      match read_text filepath with
      | None => []
      | Some text => file_rows text
      end
  end.

(** The rows [process_batch] writes after the header. *)
Definition process_batch (file_list : list str) : list speech_row :=
  flat_map process_file file_list.

End ProcessBatch.

(** The chunks [(i, all_files[start:end])] of [parse_all_files_parallel]
    for [ncpu] workers. *)
Definition file_chunks {A} (all_files : list A) (ncpu : nat)
  : list (nat * list A) :=
  let num_files := length all_files in
  let chunk_size := (num_files + ncpu - 1) / ncpu in
  flat_map (fun i =>
              let start := i * chunk_size in
              let stop := Nat.min (start + chunk_size) num_files in
              if start <? stop then [(i, list_slice all_files start stop)]
              else [])
           (seq 0 ncpu).

(** ** 3-add_debate_titles.py: the loops around the title detector *)

(** The first loop of [worker_process] from the text [reconstructed]
    built so far: the offsets recorded, and the final text. *)
Fixpoint reconstruct (reconstructed : str) (speeches : list str)
  : list nat * str :=
  match speeches with
  | [] => ([], reconstructed)
  | sp :: speeches' =>
      let '(offsets, text) :=
        reconstruct (reconstructed ++ sp ++ [LF; LF]) speeches' in
      (length reconstructed :: offsets, text)
  end.

(** The state of the reading loop of [main].  [last_filename] is
    [None] before the first row and after a row whose file name is
    [None]. *)
Record group_state := Group {
  buffer : dict (list row);
  last_filename : key;
  task_list : list (key * list row)
}.

(** One iteration of the loop on the row [r].  [row["filename"]] raises
    a [KeyError] when the row has no such column; the value is a string
    or [None], and a list, which cannot be a key of [buffer], raises a
    [TypeError]. *)
Definition group_step (st : group_state) (r : row) : outcome group_state :=
  match dict_get (Some (L "filename")) r with
  | None => Raise KeyError
  | Some (Extras _) => Raise TypeError
  | Some v =>
      let fn : key := match v with Field s => Some s | _ => None end in
      let buffer1 :=
        match dict_get fn (buffer st) with
        | None => dict_set fn [] (buffer st)
        | Some _ => buffer st
        end in
      match dict_get fn buffer1 with
      | None => Raise KeyError
      | Some rows =>
          let buffer2 := dict_set fn (rows ++ [r]) buffer1 in
          match last_filename st with
          | Some last =>
              if negb (key_eqb fn (Some last)) then
                match dict_get (Some last) buffer2 with
                | Some rows_last =>
                    Ok (Group (dict_del (Some last) buffer2) fn
                              (task_list st ++ [(Some last, rows_last)]))
                | None => Raise KeyError
                end
              else Ok (Group buffer2 fn (task_list st))
          | None => Ok (Group buffer2 fn (task_list st))
          end
      end
  end.

Fixpoint group_loop (st : group_state) (rows : list row)
  : outcome group_state :=
  match rows with
  | [] => Ok st
  | r :: rows' =>
      match group_step st r with
      | Ok st' => group_loop st' rows'
      | Raise e => Raise e
      end
  end.

(** The task list of [main]: the loop over the rows, and the entry of
    the last file name, if [buffer] has one. *)
Definition group_tasks (rows : list row)
  : outcome (list (key * list row)) :=
  match group_loop (Group [] None []) rows with
  | Ok st =>
      Ok (match dict_get (last_filename st) (buffer st) with
          | Some rows_last =>
              task_list st ++ [(last_filename st, rows_last)]
          | None => task_list st
          end)
  | Raise e => Raise e
  end.

(** ** 4-clean_record_boilerplate.py: the workers *)

(** The body of the loop of [worker]: [row.get("speech", "")] is the
    empty string for a row without the column; a value that is not a
    string has no [splitlines] and raises an [AttributeError]. *)
Definition clean_row (r : row) : outcome row :=
  let speech := match dict_get (Some (L "speech")) r with
                | Some v => v
                | None => Field []
                end in
  match speech with
  | Field s => Ok (dict_set (Some (L "speech")) (Field (clean_speech_text s)) r)
  | Missing => Raise AttributeError
  | Extras _ => Raise AttributeError
  end.

Definition worker (rows : list row) : outcome (list row) :=
  for_each clean_row rows.

(** The chunks handed to the [n] workers by [main]. *)
Definition row_chunks {A} (rows : list A) (n : nat) : list (list A) :=
  let chunk_size := Nat.max 1 (length rows / n) in
  map (fun i => list_slice rows i (i + chunk_size))
      (range_step (length rows) chunk_size).

(** [cleaned_rows]: the rows of the cleaned chunks, one after the
    other; [pool.map] raises what a worker raised. *)
Definition cleaned_rows (rows : list row) (n : nat) : outcome (list row) :=
  match for_each worker (row_chunks rows n) with
  | Ok cleaned_chunks => Ok (concat cleaned_chunks)
  | Raise e => Raise e
  end.

(** ** CRECB_scraper.py and CREC_scraper.py *)

(** The characters of the class of [sanitize]: the backslash, the
    slash, the star, the question mark, the colon, the double quote, the
    angle brackets and the bar. *)
Definition SANITIZE_CHARS : str :=
  L "\/*?:" ++ [ascii_of_nat 34] ++ L "<>|".

Definition sanitize (text : str) : str :=
  sub_empty (Chr (fun c => mem_chr c SANITIZE_CHARS)) text.

(** [get_api_key] from the value [_key_index] of the global: the key
    returned and the new value of the global; [None] stands for an
    [IndexError]. *)
Definition get_api_key (API_KEYS : list str) (_key_index : nat)
  : option (str * nat) :=
  match nth_error API_KEYS _key_index with
  | Some key => Some (key, (_key_index + 1) mod length API_KEYS)
  | None => None
  end.

(** [f"{html_counter}-{gid}.html"], the name [scrape_day] gives a file *)
Definition html_name (html_counter : nat) (gid : str) : str :=
  str_of_nat html_counter ++ L "-" ++ gid ++ L ".html".

(** The section [_fetch_one_granule] files a granule under; [None] when
    the granule is skipped. *)
Definition granule_section (gid : str) : option str :=
  if contains (L "PgH") gid then Some (L "house")
  else if contains (L "PgS") gid then Some (L "senate")
  else None.

(** The text [parse_day] builds from the files that hold blocks, from
    the text [full_text] built so far: the offsets recorded with the
    file names, and the final text. *)
Fixpoint build_full_text (full_text : str) (files : list (str * list str))
  : list (nat * str) * str :=
  match files with
  | [] => ([], full_text)
  | (fname, blocks) :: files' =>
      if is_nil blocks then build_full_text full_text files'
      else
        let marker := [LF] ++ L "===FILE: " ++ fname ++ L "===" ++ [LF] in
        let full_text' :=
          fold_left (fun t block => t ++ marker ++ block ++ [LF; LF])
                    blocks full_text in
        let '(offsets, text) := build_full_text full_text' files' in
        ((length full_text, fname) :: offsets, text)
  end.

(** The loop of [file_for_offset] from the value [last_file]. *)
Fixpoint file_loop (last_file : option str) (start_idx : nat)
                   (filename_by_offset : list (nat * str)) : option str :=
  match filename_by_offset with
  | [] => last_file
  | (off, fname) :: rest =>
      if start_idx <? off then last_file
      else file_loop (Some fname) start_idx rest
  end.

Definition file_for_offset (filename_by_offset : list (nat * str))
                           (start_idx : nat) : option str :=
  file_loop None start_idx filename_by_offset.

Definition chamber_from_file (fname : option str) : str :=
  match fname with
  | None => []
  | Some f =>
      if is_nil f then []
      else if contains (L "PgH") f then L "H"
      else if contains (L "PgS") f then L "S"
      else []
  end.

(** The granule id [parse_day] reads back from the name of the source
    file. *)
Definition granule_id_of (src_file : option str) : str :=
  match src_file with
  | Some f =>
      if negb (is_nil f) && mem_chr "-"%char f then
        match after_first "-"%char f with
        | Some tail => rsplit1_head (L ".html") tail
        | None => []
        end
      else []
  | None => []
  end.

(** ** 1-tesseract_OCR.py: the year of a path *)

(** [int(s)] for a string of ASCII digits *)
Definition int_of_digits (s : str) : nat :=
  fold_left (fun n c => 10 * n + (code c - 48)) s 0.

(** [r"\b(18\d{2}|19\d{2}|2000)\b"]; the group is the whole match. *)
Definition YEAR_REGEX : re :=
  seqs [Wordb;
        alts [Seq (lit "18") (rep 2 2 digit);
              Seq (lit "19") (rep 2 2 digit);
              lit "2000"];
        Wordb].

Definition extract_year_from_path (path : str) : option nat :=
  match finditer YEAR_REGEX path with
  | (a, b) :: _ => Some (int_of_digits (slice path a b))
  | [] => None
  end.

(** * The vocabulary of the statements

    The definitions below are not part of the program: they name the
    properties that the theorems state about it. *)

(** ** What a match is

    The declarative reading of a pattern: [sem r st st'] holds when [r]
    can match from the cursor [st] and leave the cursor at [st'].  The
    matcher [run] enumerates exactly these cursors ([run_spec]). *)

Inductive iter_rel (R : cursor -> cursor -> Prop)
  : nat -> option nat -> cursor -> cursor -> Prop :=
| iter_stop : forall hi st, iter_rel R 0 hi st st
| iter_more : forall lo hi st st1 st',
    hi_open hi = true ->
    R st st1 ->
    (lo = 0 -> progress st st1 = true) ->
    iter_rel R (pred lo) (hi_pred hi) st1 st' ->
    iter_rel R lo hi st st'.

Fixpoint sem (r : re) (st st' : cursor) {struct r} : Prop :=
  match r with
  | Eps => st' = st
  | Chr p => exists c, rest st = c :: rest st' /\ p c = true /\ prev st' = Some c
  | Bol => at_bol st = true /\ st' = st
  | Eol => at_eol st = true /\ st' = st
  | EolAbs => at_eol_abs st = true /\ st' = st
  | Wordb => at_wordb st = true /\ st' = st
  | Seq a b => exists st1, sem a st st1 /\ sem b st1 st'
  | Alt a b => sem a st st' \/ sem b st st'
  | Rep lo hi _ a => iter_rel (sem a) lo hi st st'
  end.

(** The last character of a text, if any. *)
Definition last_chr (pre : str) : option ascii := hd_error (rev pre).

(** The cursor of a text at an offset. *)
Definition cursor_at (text : str) (pos : nat) : cursor :=
  Cursor (last_chr (firstn pos text)) (skipn pos text).

(** [classes_ok P r]: every character class of [r] only accepts
    characters that satisfy [P]. *)
Fixpoint classes_ok (P : ascii -> Prop) (r : re) : Prop :=
  match r with
  | Chr p => forall c, p c = true -> P c
  | Seq a b | Alt a b => classes_ok P a /\ classes_ok P b
  | Rep _ _ _ a => classes_ok P a
  | _ => True
  end.

(** The previous character after reading [w]. *)
Definition prev_after (p : option ascii) (w : str) : option ascii :=
  fold_left (fun _ c => Some c) w p.

(** From [st] to [st'] the text [w] was read, all of whose characters
    satisfy [P]. *)
Definition consumes (P : ascii -> Prop) (st st' : cursor) : Prop :=
  exists w, rest st = w ++ rest st' /\ Forall P w /\
            prev st' = prev_after (prev st) w.

(** Successive spans: each starts at or after [lo], and the next one
    starts at or after its end and strictly after its start. *)
Fixpoint chain (lo : nat) (spans : list (nat * nat)) : Prop :=
  match spans with
  | [] => True
  | (a, b) :: spans' => lo <= a /\ a <= b /\ chain (Nat.max b (S a)) spans'
  end.

(** The orders used on events. *)
Definition is_speaker (e : event) : bool :=
  match ev_type e with speaker_ev => true | end_ev => false end.

Definition start_le (x y : event) : Prop := ev_start x <= ev_start y.

Definition end_lt (x y : event) : Prop := ev_end x < ev_end y.

(** [turn_before a b]: turn [a] starts before turn [b] starts, and the
    slice of [a] ends at or before the start of the slice of [b]. *)
Definition turn_before (a b : turn) : Prop :=
  span_start a < span_start b /\ span_end a <= span_start b.

(** [speech_start] when a speaker is open. *)
Definition cur_start (cur : option (str * nat)) : list nat :=
  match cur with Some (_, speech_start) => [speech_start] | None => [] end.

(** The tokens a speaker line starts with, after its indentation. *)
Definition HONORIFICS : list str :=
  [ L "Mr."; L "Mrs."; L "Ms."; L "Miss"; L "Chairman"; L "Chairwoman";
    L "HON."; L "Dr."; L "The" ].

(** [body] starts with an honorific or role token followed by a
    whitespace character. *)
Definition honorific_prefix (body : str) : Prop :=
  exists h c tail,
    In h HONORIFICS /\ isspace c = true /\ body = h ++ c :: tail.

(** What holds of a speaker event [e] of the timeline of [text]: its
    match starts a line, consists of one or two whitespace characters, a
    body that starts with an honorific, and a period; its label is the
    match, stripped, without that period. *)
Definition speaker_event_ok (text : str) (e : event) : Prop :=
  let m := slice text (ev_start e) (ev_end e) in
  at_bol (cursor_at text (ev_start e)) = true
  /\ (exists w body,
        m = w ++ body ++ ["."%char]
        /\ (length w = 1 \/ length w = 2)
        /\ Forall (fun c => isspace c = true) w
        /\ honorific_prefix body)
  /\ label_of text e ++ ["."%char] = strip m.

(** The number of marker lines among [lines]. *)
Definition markers (lines : list str) : nat := length (filter is_marker lines).

(** None of [lines] is a marker line. *)
Definition no_marker (lines : list str) : bool :=
  forallb (fun ln => negb (is_marker ln)) lines.

(** [pre] is empty or ends with a line feed: what follows it starts a
    line for [^] under [re.MULTILINE]. *)
Definition ends_line (pre : str) : bool :=
  match last_chr pre with None => true | Some c => chr_eqb c LF end.

Definition is_blank_chr (c : ascii) : bool := chr_eqb c SP || chr_eqb c TAB.

(** [s] starts like a marker line: spaces and tabs, then five equals
    signs. *)
Definition marker_prefix (s : str) : Prop :=
  exists ind tail,
    s = ind ++ L "=====" ++ tail /\ Forall (fun c => is_blank_chr c = true) ind.

(** [s] starts with a markup tag: an opening angle bracket, at least one
    character other than a closing bracket, and a closing bracket. *)
Definition tag_at (s : str) : Prop :=
  exists body tail,
    s = "<"%char :: body ++ ">"%char :: tail
    /\ body <> [] /\ ~ In ">"%char body.

(** No suffix of [s] starts with a markup tag. *)
Definition no_tag (s : str) : Prop :=
  forall pre suf, s = pre ++ suf -> ~ tag_at suf.

(** The title blocks come in order: each ends at or after its start and
    at or before the start of the next one. *)
Fixpoint titles_ordered (titles : list title_block) : bool :=
  match titles with
  | [] => true
  | t :: titles' =>
      (tb_start t <=? tb_end t)
      && match titles' with
         | t' :: _ => tb_end t <=? tb_start t'
         | [] => true
         end
      && titles_ordered titles'
  end.

(** What [extract_sections] makes of the title at index [i]. *)
Definition section_of (text : str) (titles : list title_block) (i : nat)
  : option section :=
  match nth_error titles i with
  | Some t =>
      Some (Sec (strip (tb_text t)) (tb_end t)
                (match nth_error titles (S i) with
                 | Some t' => tb_start t'
                 | None => length text
                 end))
  | None => None
  end.

(** The end of the last title, [0] when there is none. *)
Definition last_end (titles : list title_block) : nat :=
  match rev titles with t :: _ => tb_end t | [] => 0 end.

(** The invariant of the loop of [find_titles]: the titles found so far
    are ordered and end before the open block, which starts at
    [block_start] and ends at or before the current offset. *)
Definition ft_inv (st : ft_state) : Prop :=
  titles_ordered (ft_titles st) = true
  /\ match ft_block st with
     | [] => last_end (ft_titles st) <= ft_offset st
     | _ :: _ =>
         last_end (ft_titles st) <= ft_block_start st
         /\ ft_block_start st <= block_end (ft_block st)
         /\ block_end (ft_block st) <= ft_offset st
     end.

(** One edit turns [a] into [b]: a substitution, a deletion or an
    insertion of one character. *)
Inductive edit1 (a b : list nat) : Prop :=
| edit_subst : forall pre x y post,
    a = pre ++ x :: post -> b = pre ++ y :: post -> edit1 a b
| edit_delete : forall pre x post,
    a = pre ++ x :: post -> b = pre ++ post -> edit1 a b
| edit_insert : forall pre x post,
    a = pre ++ post -> b = pre ++ x :: post -> edit1 a b.

(** The condition under which [clean_speech_text] keeps a line. *)
Definition keep_line (line : str) : bool :=
  negb (line_contains_fuzzy_target line).

(** An ASCII letter, upper or lower case, as a code point. *)
Definition is_letter_cp (n : nat) : bool :=
  ((65 <=? n) && (n <=? 90)) || ((97 <=? n) && (n <=? 122)).

(** [w] without its code points other than ASCII letters and spaces. *)
Definition letters_and_spaces (w : list nat) : list nat :=
  filter (fun n => is_letter_cp n || (n =? 32)) w.

(** The upper-case form of an ASCII character, as a code point. *)
Definition ascii_upper (c : ascii) : nat :=
  if is_lower_az c then code c - 32 else code c.

(** The characters of [w] that are ASCII letters or spaces. *)
Definition letters_and_spaces_of (w : str) : str :=
  filter (fun c => is_alpha_az c || chr_eqb c SP) w.

(** [w] is a window of [s]: a run of consecutive elements, 19, 20 or 21
    of them. *)
Definition window_of {A} (w s : list A) : Prop :=
  (exists pre post, s = pre ++ w ++ post)
  /\ (length w = 19 \/ length w = 20 \/ length w = 21).

(** [s] ends with a line feed. *)
Definition ends_lf (s : str) : bool :=
  match last_chr s with Some c => chr_eqb c LF | None => false end.

(** [lines] without its last element when that is the empty line. *)
Definition drop_last_empty (lines : list str) : list str :=
  if is_nil (last lines [LF]) then removelast lines else lines.

(** No character of [l] is a line boundary of [splitlines]. *)
Definition no_linebreak (l : str) : bool :=
  forallb (fun c => negb (is_linebreak c)) l.

(** Lines used in the examples. *)
Definition line (s : string) : str := L s ++ [LF].
Arguments line s%_string.

Definition scenario_A : str :=
  L "  Mr. SMITH. This is a test." ++ [LF] ++ L "  Mr. JONES. A reply." ++ [LF].

(** ** More vocabulary *)

(** [subseq a b]: [a] is [b] with some of its elements deleted. *)
Inductive subseq {A : Type} : list A -> list A -> Prop :=
| subseq_nil : subseq [] []
| subseq_keep : forall x a b, subseq a b -> subseq (x :: a) (x :: b)
| subseq_drop : forall x a b, subseq a b -> subseq a (x :: b).

(** The characters one of which every artifact pattern needs at the
    start of a match. *)
Definition TRIGGERS : str := L "(-_{[<".

(** What a speaker match [(a, b)] of [text] contributes to the turns:
    the label and the offset at which the speech starts. *)
Definition opening (text : str) (se : nat * nat) : str * nat :=
  (label_of text (Event speaker_ev (fst se) (snd se)), snd se).

(** What holds of a title found in the text of [lines]: its span is not
    empty and lies in the text, its text is the text of its span, it
    does not start with a courtesy title, and it starts with a line of
    the text that passes the test of a strong heading. *)
Definition title_ok (lines : list str) (t : title_block) : Prop :=
  tb_start t < tb_end t
  /\ tb_end t <= length (concat lines)
  /\ tb_text t = slice (concat lines) (tb_start t) (tb_end t)
  /\ courtesy_start (lstrip (tb_text t)) = false
  /\ exists l rest,
       tb_text t = l ++ rest /\ In l lines /\ is_strong (strip l) = true.

(** What holds of the open block after the lines [lines]: it is empty,
    or its lines are the last lines read, from the offset
    [block_start] on, the first of them a strong heading. *)
Definition block_ok (lines : list str) (block : list block_line)
                    (block_start : nat) : Prop :=
  block = []
  \/ exists pre l rest,
       concat lines = pre ++ block_text block
       /\ length pre = block_start
       /\ block_end block = length (concat lines)
       /\ block_text block = l ++ rest
       /\ In l lines /\ is_strong (strip l) = true.

Definition ft_inv_text (lines : list str) (st : ft_state) : Prop :=
  ft_offset st = length (concat lines)
  /\ Forall (title_ok lines) (ft_titles st)
  /\ block_ok lines (ft_block st) (ft_block_start st).

(** No two neighbours of the list are equal. *)
Fixpoint adjacent_differ (names : list str) : Prop :=
  match names with
  | a :: (b :: _) as rest => a <> b /\ adjacent_differ rest
  | _ => True
  end.

(** The value of the [filename] column of a row, if it has that
    column. *)
Definition filename_of (r : row) : option cell :=
  dict_get (Some (L "filename")) r.

(** The file name of the row is a string. *)
Definition has_name (r : row) : bool :=
  match filename_of r with Some (Field _) => true | _ => false end.

(** The file name of the row is [None]. *)
Definition no_name (r : row) : bool :=
  match filename_of r with Some Missing => true | _ => false end.

(** What holds of a task [(fn, rows)] of a file: it has rows, all of the
    file [fn]. *)
Definition task_ok (t : str * list row) : Prop :=
  snd t <> []
  /\ Forall (fun r => filename_of r = Some (Field (fst t))) (snd t).

(** Tasks of files, as [main] keeps them. *)
Definition named_tasks (tasks : list (str * list row))
  : list (key * list row) :=
  map (fun t => (Some (fst t), snd t)) tasks.

(** The file name of the last row is [None]. *)
Definition ends_unnamed (rows : list row) : bool :=
  last (map no_name rows) false.

(** The task of the rows whose file name is [None]: all of them in one
    task when the last row is one of them, and no task otherwise. *)
Definition unnamed_task (rows : list row) : list (key * list row) :=
  if ends_unnamed rows then [(None, filter no_name rows)] else [].

(** The entry of [buffer] for the rows whose file name is [None]. *)
Definition none_entry (done : list row) : dict (list row) :=
  match filter no_name done with
  | [] => []
  | unnamed => [(None, unnamed)]
  end.

(** The invariant of the reading loop of [main] after the rows [done]:
    the tasks hold the rows of the files that are complete; the buffer
    holds the rows without a file name and, when the last row has a file
    name, the rows of that file read since the name last changed. *)
Definition group_inv (done : list row) (st : group_state) : Prop :=
  exists named,
    task_list st = named_tasks named
    /\ Forall task_ok named
    /\ match last_filename st with
       | None =>
           buffer st = none_entry done
           /\ (done = [] \/ ends_unnamed done = true)
           /\ concat (map snd named) = filter has_name done
       | Some fn =>
           exists cur,
             buffer st = none_entry done ++ [(Some fn, cur)]
             /\ ends_unnamed done = false
             /\ task_ok (fn, cur)
             /\ concat (map snd named) ++ cur = filter has_name done
             /\ (Forall (fun r => has_name r = true) done ->
                 adjacent_differ (map fst named ++ [fn]))
       end.

(** The text [worker] cleans for a row: its speech, the empty string
    when it has no such column, and none when the value is not a
    string. *)
Definition speech_text (r : row) : option str :=
  match dict_get (Some (L "speech")) r with
  | Some (Field s) => Some s
  | Some _ => None
  | None => Some []
  end.

(** [r'] is [r] with its speech cleaned: the other columns are those of
    [r]. *)
Definition row_cleaned (r r' : row) : Prop :=
  (exists s, speech_text r = Some s
             /\ dict_get (Some (L "speech")) r'
                = Some (Field (clean_speech_text s)))
  /\ forall k, k <> Some (L "speech") -> dict_get k r' = dict_get k r.

(** The order of the chamber markers. *)
Definition by_offset (x y : nat * str) : Prop := fst x <= fst y.

(** The markers at or before [offset]. *)
Definition markers_upto (offset : nat) (markers : list (nat * str))
  : list (nat * str) :=
  filter (fun m => fst m <=? offset) markers.

(** [sub] occurs in [text] at the offset [p]. *)
Definition occurs_at (text : str) (p : nat) (sub : str) : Prop :=
  exists pre post, text = pre ++ sub ++ post /\ length pre = p.

(** The speeches occur in [text] one after the other, the first at or
    after [cursor]. *)
Fixpoint located_from (text : str) (cursor : nat) (speeches : list str)
  : Prop :=
  match speeches with
  | [] => True
  | sp :: speeches' =>
      exists p, cursor <= p /\ occurs_at text p sp
                /\ located_from text (p + length sp) speeches'
  end.

(** The order of the rows of a file: a row ends where a later one
    starts, or before. *)
Definition row_before (a b : speech_row) : Prop :=
  row_idx a + length (row_speech a) <= row_idx b.

(** A character that no pattern of the scraper reacts to: none of the
    trigger characters of the artifact patterns, no equals sign and no
    no-break space. *)
Definition plain_chr (c : ascii) : bool :=
  negb (mem_chr c TRIGGERS) && negb (chr_eqb c NBSP)
  && negb (chr_eqb c "="%char).

(** [k] calls of [get_api_key] in a row from the value [_key_index] of
    the global: the keys returned, and the last value of the global. *)
Fixpoint get_api_keys (API_KEYS : list str) (_key_index k : nat)
  : option (list str * nat) :=
  match k with
  | 0 => Some ([], _key_index)
  | S k' =>
      match get_api_key API_KEYS _key_index with
      | Some (key, next) =>
          match get_api_keys API_KEYS next k' with
          | Some (keys, last) => Some (key :: keys, last)
          | None => None
          end
      | None => None
      end
  end.

(** The part of the text of [parse_day] built from one file: each of its
    blocks after the marker of the file, followed by two line feeds. *)
Definition file_part (file : str * list str) : str :=
  concat (map (fun block =>
                 ([LF] ++ L "===FILE: " ++ fst file ++ L "===" ++ [LF])
                 ++ block ++ [LF; LF])
              (snd file)).

(** The text built from a list of files. *)
Definition files_text (files : list (str * list str)) : str :=
  concat (map file_part files).

(** *** Lists of lines that are the lines of their concatenation *)

Definition starts_lf (l : str) : bool :=
  match l with c :: _ => chr_eqb c LF | [] => false end.

Definition ends_cr (l : str) : bool :=
  match last_chr l with Some c => chr_eqb c CR | None => false end.

(** A line terminator of [splitlines]: one line boundary, or a carriage
    return followed by a line feed. *)
Definition terminator (t : str) : Prop :=
  t = [CR; LF] \/ exists c, t = [c] /\ is_linebreak c = true.

(** A terminated line. *)
Definition line_ok (l : str) : Prop :=
  exists body term,
    l = body ++ term /\ no_linebreak body = true /\ terminator term.

(** A last line: terminated, or not empty and without a line
    boundary. *)
Definition last_ok (l : str) : Prop :=
  line_ok l \/ (no_linebreak l = true /\ l <> []).

(** Every line but the last is terminated, and no line that ends with a
    carriage return is followed by a line that starts with a line
    feed. *)
Fixpoint wf_lines (lines : list str) : Prop :=
  match lines with
  | [] => True
  | l :: rest =>
      match rest with
      | [] => last_ok l
      | l' :: _ =>
          line_ok l /\ ends_cr l && starts_lf l' = false /\ wf_lines rest
      end
  end.

(** The gender [infer_gender] reads from an honorific. *)
Definition gender_of (h : str) : str :=
  if str_eqb h (L "Mr.") then L "M"
  else if str_eqb h (L "Mrs.") || str_eqb h (L "Ms.") then L "F"
  else [].

(** A character of a rule line: a space, an underscore or a dash. *)
Definition rule_chr (c : ascii) : bool := mem_chr c (L " _-").

(** [s] is empty or starts with a line feed: a line ends before it. *)
Definition line_ends (s : str) : bool :=
  match s with [] => true | c :: _ => chr_eqb c LF end.

(** * Properties *)

Unset Implicit Arguments.

(** ** The matcher and the declarative reading of a pattern agree *)

Section Engine.

Lemma in_guard (b : bool) (st st' : cursor) :
  In st' (guard b st) <-> b = true /\ st' = st.
Proof.
  unfold guard. destruct b; simpl; intuition congruence.
Qed.

Lemma in_step_chr (p : ascii -> bool) (st st' : cursor) :
  In st' (step_chr p st) <->
  exists c, rest st = c :: rest st' /\ p c = true /\ prev st' = Some c.
Proof.
  unfold step_chr. destruct st as [pv s], st' as [pv' s']; simpl.
  destruct s as [|c s].
  - split; [intros [] | intros (c & H & _); discriminate].
  - destruct (p c) eqn:Hp; simpl.
    + split.
      * intros [H | []]. inversion H; subst. exists c. auto.
      * intros (d & H & Hd & Hpv). inversion H; subst. left. reflexivity.
    + split; [intros [] |].
      intros (d & H & Hd & _). inversion H; subst. congruence.
Qed.

Lemma iter_rel_shrinks (R : cursor -> cursor -> Prop) :
  (forall st st', R st st' -> length (rest st') <= length (rest st)) ->
  forall lo hi st st',
    iter_rel R lo hi st st' -> length (rest st') <= length (rest st).
Proof.
  intros HR lo hi st st' H.
  induction H as [|lo hi st st1 st' _ Hstep _ _ IH]; [lia |].
  apply HR in Hstep. lia.
Qed.

Lemma sem_shrinks (r : re) :
  forall st st', sem r st st' -> length (rest st') <= length (rest st).
Proof.
  induction r as [|p| | | | |a IHa b IHb|a IHa b IHb|lo hi g a IHa];
    simpl; intros st st' H.
  - subst; lia.
  - destruct H as (c & Hc & _). rewrite Hc. simpl. lia.
  - destruct H as [_ ->]; lia.
  - destruct H as [_ ->]; lia.
  - destruct H as [_ ->]; lia.
  - destruct H as [_ ->]; lia.
  - destruct H as (st1 & H1 & H2). apply IHa in H1. apply IHb in H2. lia.
  - destruct H as [H | H]; auto.
  - eapply iter_rel_shrinks; eauto.
Qed.

Variable f : cursor -> list cursor.
Variable R : cursor -> cursor -> Prop.
Hypothesis f_spec : forall st st', In st' (f st) <-> R st st'.
Hypothesis R_shrinks :
  forall st st', R st st' -> length (rest st') <= length (rest st).

Lemma iter_spec (g : bool) :
  forall fuel lo hi st st',
    lo + length (rest st) <= fuel ->
    (In st' (iter f fuel lo hi g st) <-> iter_rel R lo hi st st').
Proof.
  induction fuel as [|fuel IH]; intros lo hi st st' Hfuel.
  - assert (lo = 0) by lia. subst lo. simpl.
    split.
    + intros [<- | []]. constructor.
    + intros H. inversion H as [|? ? ? st1 ? _ _ Hp _]; subst; [now left |].
      specialize (Hp eq_refl). unfold progress in Hp.
      apply Nat.ltb_lt in Hp. lia.
  - cbn [iter].
    set (nexts := if lo =? 0 then filter (progress st) (f st) else f st).
    set (more := if hi_open hi
                 then flat_map (iter f fuel (pred lo) (hi_pred hi) g) nexts
                 else []).
    assert (Hmore : In st' more <->
                    exists st1, hi_open hi = true /\ R st st1 /\
                                (lo = 0 -> progress st st1 = true) /\
                                iter_rel R (pred lo) (hi_pred hi) st1 st').
    { subst more nexts. destruct (hi_open hi).
      - rewrite in_flat_map. split.
        + intros (st1 & Hin & Hit). exists st1.
          destruct (Nat.eqb_spec lo 0) as [-> | Hlo].
          * apply filter_In in Hin. destruct Hin as [Hin Hp].
            apply f_spec in Hin.
            split; [reflexivity |]. split; [exact Hin |]. split; [auto |].
            assert (Hle : pred 0 + length (rest st1) <= fuel).
            { unfold progress in Hp. apply Nat.ltb_lt in Hp. simpl. lia. }
            apply (proj1 (IH _ _ _ _ Hle)). exact Hit.
          * apply f_spec in Hin.
            split; [reflexivity |]. split; [exact Hin |].
            split; [intros; contradiction |].
            assert (Hle : pred lo + length (rest st1) <= fuel).
            { apply R_shrinks in Hin. lia. }
            apply (proj1 (IH _ _ _ _ Hle)). exact Hit.
        + intros (st1 & _ & HR & Hp & Hit). exists st1.
          destruct (Nat.eqb_spec lo 0) as [-> | Hlo].
          * split.
            -- apply filter_In. split; [apply f_spec; exact HR | auto].
            -- assert (Hle : pred 0 + length (rest st1) <= fuel).
               { specialize (Hp eq_refl). unfold progress in Hp.
                 apply Nat.ltb_lt in Hp. simpl. lia. }
               apply (proj2 (IH _ _ _ _ Hle)). exact Hit.
          * split; [apply f_spec; exact HR |].
            assert (Hle : pred lo + length (rest st1) <= fuel).
            { apply R_shrinks in HR. lia. }
            apply (proj2 (IH _ _ _ _ Hle)). exact Hit.
      - split; [intros [] | intros (? & ? & _); discriminate]. }
    assert (Hstop : In st' (guard (lo =? 0) st) <-> lo = 0 /\ st' = st).
    { rewrite in_guard. rewrite Nat.eqb_eq. tauto. }
    assert (Hiff : iter_rel R lo hi st st' <->
                   (lo = 0 /\ st' = st) \/
                   exists st1, hi_open hi = true /\ R st st1 /\
                               (lo = 0 -> progress st st1 = true) /\
                               iter_rel R (pred lo) (hi_pred hi) st1 st').
    { split.
      - intros H. inversion H; subst; [left; auto |].
        right. eexists; eauto.
      - intros [[-> ->] | (st1 & ? & ? & ? & ?)].
        + constructor.
        + econstructor; eauto. }
    rewrite Hiff. destruct g; rewrite in_app_iff; tauto.
Qed.

End Engine.

Theorem run_spec (r : re) :
  forall st st', In st' (run r st) <-> sem r st st'.
Proof.
  induction r as [|p| | | | |a IHa b IHb|a IHa b IHb|lo hi g a IHa];
    intros st st'; simpl.
  - intuition congruence.
  - apply in_step_chr.
  - apply in_guard.
  - apply in_guard.
  - apply in_guard.
  - apply in_guard.
  - rewrite in_flat_map. split.
    + intros (st1 & H1 & H2). exists st1. split; [apply IHa | apply IHb]; auto.
    + intros (st1 & H1 & H2). exists st1. split; [apply IHa | apply IHb]; auto.
  - rewrite in_app_iff, IHa, IHb. tauto.
  - apply iter_spec; auto.
    apply sem_shrinks.
Qed.

(** *** The fuel of a repetition

    [run] gives a repetition as many iterations as there are mandatory
    iterations and characters left; more fuel changes nothing, so no
    match is lost to the bound. *)

Lemma filter_progress_nil (f : cursor -> list cursor) (st : cursor) :
  length (rest st) = 0 -> filter (progress st) (f st) = [].
Proof.
  intros H0. induction (f st) as [|x l IH]; [reflexivity |].
  simpl. unfold progress at 1. rewrite H0.
  destruct (Nat.ltb_spec (length (rest x)) 0); [lia | exact IH].
Qed.

Lemma flat_map_ext_In {A B} (f g : A -> list B) (l : list A) :
  (forall x, In x l -> f x = g x) -> flat_map f l = flat_map g l.
Proof.
  induction l as [|x l IH]; intros H; [reflexivity |].
  simpl. rewrite (H x) by now left. f_equal. apply IH.
  intros y Hy. apply H. now right.
Qed.

Lemma iter_fuel (f : cursor -> list cursor) (g : bool) :
  (forall st st', In st' (f st) -> length (rest st') <= length (rest st)) ->
  forall fuel1 fuel2 lo hi st,
    lo + length (rest st) <= fuel1 ->
    lo + length (rest st) <= fuel2 ->
    iter f fuel1 lo hi g st = iter f fuel2 lo hi g st.
Proof.
  intros Hf.
  assert (Hzero : forall fuel hi st,
             length (rest st) = 0 -> iter f fuel 0 hi g st = [st]).
  { intros [|fuel] hi st H0; [reflexivity |].
    cbn [iter Nat.eqb]. rewrite (filter_progress_nil f st H0).
    cbn [guard]. destruct (hi_open hi), g; reflexivity. }
  induction fuel1 as [|n IH]; intros fuel2 lo hi st H1 H2.
  - assert (lo = 0) by lia. subst lo. rewrite !Hzero by lia. reflexivity.
  - destruct fuel2 as [|m].
    + assert (lo = 0) by lia. subst lo. rewrite !Hzero by lia. reflexivity.
    + cbn [iter].
      assert (Hmore :
                flat_map (iter f n (pred lo) (hi_pred hi) g)
                  (if lo =? 0 then filter (progress st) (f st) else f st) =
                flat_map (iter f m (pred lo) (hi_pred hi) g)
                  (if lo =? 0 then filter (progress st) (f st) else f st)).
      { apply flat_map_ext_In. intros st1 Hin.
        destruct (Nat.eqb_spec lo 0) as [-> | Hlo].
        - apply filter_In in Hin. destruct Hin as [_ Hp].
          unfold progress in Hp. apply Nat.ltb_lt in Hp.
          apply IH; simpl in *; lia.
        - apply Hf in Hin. apply IH; lia. }
      rewrite Hmore. reflexivity.
Qed.

Lemma run_shrinks (r : re) (st st' : cursor) :
  In st' (run r st) -> length (rest st') <= length (rest st).
Proof. intros H. apply run_spec in H. now apply sem_shrinks in H. Qed.

(** The results of a repetition in [run] do not depend on the fuel. *)
Lemma run_rep_fuel (lo : nat) (hi : option nat) (g : bool) (a : re)
                   (st : cursor) (extra : nat) :
  run (Rep lo hi g a) st =
  iter (run a) (lo + length (rest st) + extra) lo hi g st.
Proof.
  simpl. apply iter_fuel; [apply run_shrinks | lia | lia].
Qed.

(** ** The text a match consumes *)

Lemma prev_after_app (p : option ascii) (u v : str) :
  prev_after p (u ++ v) = prev_after (prev_after p u) v.
Proof. unfold prev_after. apply fold_left_app. Qed.

Lemma prev_after_last (p : option ascii) (w : str) (c : ascii) :
  prev_after p (w ++ [c]) = Some c.
Proof. rewrite prev_after_app. reflexivity. Qed.

Lemma last_chr_app (pre : str) (c : ascii) : last_chr (pre ++ [c]) = Some c.
Proof. unfold last_chr. rewrite rev_app_distr. reflexivity. Qed.

Lemma cursor_at_app (pre s : str) :
  cursor_at (pre ++ s) (length pre) = Cursor (last_chr pre) s.
Proof.
  unfold cursor_at. rewrite firstn_app, Nat.sub_diag, firstn_all, firstn_O.
  rewrite app_nil_r. rewrite skipn_app, Nat.sub_diag, skipn_all. reflexivity.
Qed.

Section Consumed.

Variable P : ascii -> Prop.

Lemma consumes_refl (st : cursor) : consumes P st st.
Proof. exists []. repeat split; auto. Qed.

Lemma consumes_trans (a b c : cursor) :
  consumes P a b -> consumes P b c -> consumes P a c.
Proof.
  intros (u & Hu & Pu & Qu) (v & Hv & Pv & Qv).
  exists (u ++ v). repeat split.
  - rewrite Hu, Hv. apply app_assoc.
  - apply Forall_app; auto.
  - rewrite prev_after_app, <- Qu. exact Qv.
Qed.

Lemma iter_rel_consumes (R : cursor -> cursor -> Prop) :
  (forall st st', R st st' -> consumes P st st') ->
  forall lo hi st st', iter_rel R lo hi st st' -> consumes P st st'.
Proof.
  intros HR lo hi st st' H.
  induction H as [|lo hi st st1 st' _ Hstep _ _ IH].
  - apply consumes_refl.
  - eapply consumes_trans; eauto.
Qed.

Lemma sem_consumes (r : re) :
  classes_ok P r -> forall st st', sem r st st' -> consumes P st st'.
Proof.
  induction r as [|p| | | | |a IHa b IHb|a IHa b IHb|lo hi g a IHa];
    simpl; intros Hok st st' H.
  - subst. apply consumes_refl.
  - destruct H as (c & Hc & Hp & Hprev). exists [c].
    split; [exact Hc |]. split; [repeat constructor; auto | exact Hprev].
  - destruct H as [_ ->]. apply consumes_refl.
  - destruct H as [_ ->]. apply consumes_refl.
  - destruct H as [_ ->]. apply consumes_refl.
  - destruct H as [_ ->]. apply consumes_refl.
  - destruct H as (st1 & H1 & H2). destruct Hok as [Ha Hb].
    eapply consumes_trans; eauto.
  - destruct Hok as [Ha Hb]. destruct H; auto.
  - eapply (@iter_rel_consumes (sem a)); eauto.
Qed.

End Consumed.

Lemma classes_ok_True (r : re) : classes_ok (fun _ => True) r.
Proof. induction r; simpl; auto. Qed.

(** Every match reads a prefix of the remaining text. *)
Lemma sem_prefix (r : re) (st st' : cursor) :
  sem r st st' ->
  exists w, rest st = w ++ rest st' /\ prev st' = prev_after (prev st) w.
Proof.
  intros H. apply (@sem_consumes _ r (classes_ok_True r)) in H.
  destruct H as (w & Hw & _ & Hp). eauto.
Qed.

(** *** Sequences and literals *)

Lemma sem_seqs_cons (r : re) (rs : list re) (st st' : cursor) :
  sem (seqs (r :: rs)) st st' <-> exists st1, sem r st st1 /\ sem (seqs rs) st1 st'.
Proof.
  destruct rs as [|r' rs]; simpl.
  - split.
    + intros H. exists st'. auto.
    + intros (st1 & H & ->). exact H.
  - reflexivity.
Qed.

Lemma sem_seqs_app (rs1 rs2 : list re) (st st' : cursor) :
  sem (seqs (rs1 ++ rs2)) st st' <->
  exists st1, sem (seqs rs1) st st1 /\ sem (seqs rs2) st1 st'.
Proof.
  revert st. induction rs1 as [|r rs1 IH]; intros st.
  - simpl. split.
    + intros H. exists st. auto.
    + intros (st1 & -> & H). exact H.
  - rewrite <- app_comm_cons. rewrite sem_seqs_cons. split.
    + intros (st1 & H1 & H2). apply IH in H2. destruct H2 as (st2 & H2 & H3).
      exists st2. split; [|exact H3]. apply sem_seqs_cons. eauto.
    + intros (st2 & H12 & H3). apply sem_seqs_cons in H12.
      destruct H12 as (st1 & H1 & H2). exists st1. split; [exact H1 |].
      apply IH. eauto.
Qed.

Lemma sem_chr (c : ascii) (st st' : cursor) :
  sem (chr c) st st' <-> rest st = c :: rest st' /\ prev st' = Some c.
Proof.
  unfold chr. simpl. split.
  - intros (d & Hd & He & Hp). apply Ascii.eqb_eq in He. subst d. auto.
  - intros [H1 H2]. exists c. repeat split; auto. apply Ascii.eqb_refl.
Qed.

Lemma sem_lit_list (cs : str) (st st' : cursor) :
  sem (seqs (map chr cs)) st st' <->
  rest st = cs ++ rest st' /\ prev st' = prev_after (prev st) cs.
Proof.
  revert st. induction cs as [|c cs IH]; intros st.
  - simpl. split.
    + intros ->. auto.
    + intros [H1 H2]. destruct st, st'; simpl in *. congruence.
  - change (map chr (c :: cs)) with (chr c :: map chr cs).
    rewrite sem_seqs_cons. split.
    + intros (st1 & H1 & H2). apply sem_chr in H1. apply IH in H2.
      destruct H1 as [H1 H1'], H2 as [H2 H2']. split.
      * rewrite H1, H2. reflexivity.
      * rewrite H2', H1'. reflexivity.
    + intros [H1 H2]. exists (Cursor (Some c) (cs ++ rest st')). split.
      * apply sem_chr. auto.
      * apply IH. simpl. auto.
Qed.

Lemma sem_lit (s : string) (st st' : cursor) :
  sem (lit s) st st' <->
  rest st = L s ++ rest st' /\ prev st' = prev_after (prev st) (L s).
Proof. apply sem_lit_list. Qed.

(** ** [finditer]: the spans it yields *)

Lemma match_len_sem (r : re) (st : cursor) (n : nat) :
  match_len r st = Some n ->
  exists st', sem r st st' /\ n = length (rest st) - length (rest st').
Proof.
  unfold match_len. destruct (run r st) as [|st' l] eqn:Hrun; [discriminate |].
  intros H. inversion H; subst. exists st'. split; [|reflexivity].
  apply run_spec. rewrite Hrun. now left.
Qed.

Lemma match_len_none (r : re) (st : cursor) :
  match_len r st = None <-> forall st', ~ sem r st st'.
Proof.
  unfold match_len. destruct (run r st) as [|st1 l] eqn:Hrun.
  - split; [|reflexivity]. intros _ st' H. apply run_spec in H.
    rewrite Hrun in H. exact H.
  - split; [discriminate |]. intros H. exfalso. apply (H st1).
    apply run_spec. rewrite Hrun. now left.
Qed.

Lemma sem_match_len (r : re) (st st' : cursor) :
  sem r st st' -> exists n, match_len r st = Some n.
Proof.
  intros H. destruct (match_len r st) as [n|] eqn:E; [eauto |].
  exfalso. eapply match_len_none; eauto.
Qed.

Lemma match_len_le (r : re) (st : cursor) (n : nat) :
  match_len r st = Some n -> n <= length (rest st).
Proof.
  intros H. apply match_len_sem in H. destruct H as (st' & _ & ->). lia.
Qed.

Lemma chain_weaken (lo lo' : nat) (spans : list (nat * nat)) :
  lo' <= lo -> chain lo spans -> chain lo' spans.
Proof.
  destruct spans as [|[a b] spans]; simpl; [auto |].
  intros Hle (H1 & H2 & H3). repeat split; auto; lia.
Qed.

Lemma scan_chain (r : re) :
  forall s p skip pos, chain (pos + skip) (scan r p s skip pos).
Proof.
  induction s as [|c s IH]; intros p skip pos.
  - destruct skip; simpl; [|exact I].
    destruct (match_len r (Cursor p [])); simpl; [|exact I].
    repeat split; lia.
  - destruct skip as [|k]; simpl.
    + destruct (match_len r (Cursor p (c :: s))) as [n|]; simpl.
      * repeat split; try lia.
        replace (Nat.max (pos + n) (S pos)) with (S pos + pred n) by lia.
        apply IH.
      * eapply chain_weaken; [|apply IH]. lia.
    + replace (pos + S k) with (S pos + k) by lia. apply IH.
Qed.

Lemma finditer_chain (r : re) (s : str) : chain 0 (finditer r s).
Proof. apply (scan_chain r s None 0 0). Qed.

(** Every span of a chain lies at or after its lower bound, and the spans
    come in order. *)
Lemma chain_In (lo : nat) (spans : list (nat * nat)) (a b : nat) :
  chain lo spans -> In (a, b) spans -> lo <= a /\ a <= b.
Proof.
  revert lo. induction spans as [|[a' b'] spans IH]; intros lo Hc Hin.
  - destruct Hin.
  - simpl in Hc. destruct Hc as (H1 & H2 & H3). destruct Hin as [E | Hin].
    + inversion E; subst. auto.
    + apply (IH _ H3) in Hin. lia.
Qed.

Section ScanText.

Variable r : re.

Lemma scan_sound :
  forall s pre skip a b,
    In (a, b) (scan r (last_chr pre) s skip (length pre)) ->
    match_len r (cursor_at (pre ++ s) a) = Some (b - a)
    /\ a <= b /\ b <= length (pre ++ s).
Proof.
  induction s as [|c s IH]; intros pre skip a b Hin.
  - destruct skip; simpl in Hin; [|destruct Hin].
    destruct (match_len r (Cursor (last_chr pre) [])) as [n|] eqn:E;
      [|destruct Hin].
    destruct Hin as [Heq | []]. inversion Heq; subst.
    rewrite cursor_at_app.
    pose proof (match_len_le _ _ _ E) as Hle. simpl in Hle.
    replace (length pre + n - length pre) with n by lia.
    rewrite length_app. simpl. repeat split; auto; lia.
  - assert (Hstep : forall k,
               In (a, b) (scan r (Some c) s k (S (length pre))) ->
               match_len r (cursor_at (pre ++ c :: s) a) = Some (b - a)
               /\ a <= b /\ b <= length (pre ++ c :: s)).
    { intros k Hk.
      replace (pre ++ c :: s) with ((pre ++ [c]) ++ s)
        by (rewrite <- app_assoc; reflexivity).
      apply IH with (skip := k).
      rewrite last_chr_app, length_app. simpl.
      replace (length pre + 1) with (S (length pre)) by lia. exact Hk. }
    destruct skip as [|k]; simpl in Hin; [|eauto].
    destruct (match_len r (Cursor (last_chr pre) (c :: s))) as [n|] eqn:E;
      [|eauto].
    destruct Hin as [Heq | Hin]; [|eauto].
    inversion Heq; subst.
    rewrite cursor_at_app.
    pose proof (match_len_le _ _ _ E) as Hle. simpl in Hle.
    replace (length pre + n - length pre) with n by lia.
    rewrite length_app. simpl. repeat split; auto; lia.
Qed.

Lemma scan_complete :
  forall s pre skip q n,
    length pre + skip <= q -> q <= length (pre ++ s) ->
    match_len r (cursor_at (pre ++ s) q) = Some n ->
    In (q, q + n) (scan r (last_chr pre) s skip (length pre))
    \/ exists a b, In (a, b) (scan r (last_chr pre) s skip (length pre))
                   /\ a < q /\ q < b.
Proof.
  induction s as [|c s IH]; intros pre skip q n Hlo Hhi Hm.
  - rewrite length_app in Hhi. simpl in Hhi.
    assert (skip = 0) by lia. subst skip.
    assert (q = length pre) by lia. subst q.
    rewrite cursor_at_app in Hm. simpl. rewrite Hm. left. now left.
  - assert (Hstep : forall k,
               S (length pre) + k <= q ->
               In (q, q + n) (scan r (Some c) s k (S (length pre)))
               \/ exists a b, In (a, b) (scan r (Some c) s k (S (length pre)))
                              /\ a < q /\ q < b).
    { intros k Hk.
      specialize (IH (pre ++ [c]) k q n).
      rewrite last_chr_app, length_app in IH. simpl in IH.
      replace (length pre + 1) with (S (length pre)) in IH by lia.
      rewrite <- app_assoc in IH. simpl in IH.
      apply IH; auto. }
    destruct skip as [|k]; simpl.
    + destruct (Nat.eq_dec q (length pre)) as [-> | Hne].
      * rewrite cursor_at_app in Hm. rewrite Hm. left. now left.
      * destruct (match_len r (Cursor (last_chr pre) (c :: s))) as [m|] eqn:E.
        -- destruct (le_lt_dec (S (length pre) + pred m) q) as [Hge | Hlt].
           ++ destruct (Hstep _ Hge) as [H | (a & b & H & Hab)].
              ** left. now right.
              ** right. exists a, b. split; [now right | exact Hab].
           ++ right. exists (length pre), (length pre + m).
              split; [now left | lia].
        -- destruct (Hstep 0) as [H | (a & b & H & Hab)]; [lia | | ].
           ++ left. exact H.
           ++ right. eauto.
    + destruct (Hstep k) as [H | (a & b & H & Hab)]; [lia | | ].
      * left. exact H.
      * right. eauto.
Qed.

(** The spans of [finditer] are matches of the pattern at their start. *)
Lemma finditer_sound (text : str) (a b : nat) :
  In (a, b) (finditer r text) ->
  match_len r (cursor_at text a) = Some (b - a) /\ a <= b /\ b <= length text.
Proof. intros H. apply (scan_sound text [] 0 a b H). Qed.

(** A position where the pattern matches starts a span of [finditer],
    unless it lies strictly inside an earlier span. *)
Lemma finditer_complete (text : str) (q n : nat) :
  q <= length text ->
  match_len r (cursor_at text q) = Some n ->
  In (q, q + n) (finditer r text)
  \/ exists a b, In (a, b) (finditer r text) /\ a < q /\ q < b.
Proof.
  intros Hq Hm. apply (@scan_complete text [] 0 q n); simpl; auto; lia.
Qed.

End ScanText.

(** ** The sorted timeline *)

Lemma insert_event_perm (x : event) (l : list event) :
  Permutation (insert_event x l) (x :: l).
Proof.
  induction l as [|y l IH]; simpl; [reflexivity |].
  destruct (ev_start x <=? ev_start y); [reflexivity |].
  rewrite IH. apply perm_swap.
Qed.

Lemma sort_events_perm (l : list event) : Permutation (sort_events l) l.
Proof.
  induction l as [|x l IH]; simpl; [reflexivity |].
  rewrite insert_event_perm. now constructor.
Qed.

Lemma sort_events_In (l : list event) (e : event) :
  In e (sort_events l) <-> In e l.
Proof.
  split; apply Permutation_in;
    [apply sort_events_perm | symmetry; apply sort_events_perm].
Qed.

Lemma insert_event_sorted (x : event) (l : list event) :
  StronglySorted start_le l -> StronglySorted start_le (insert_event x l).
Proof.
  induction l as [|y l IH]; intros Hs; simpl.
  - repeat constructor.
  - inversion Hs as [|? ? Hl Hy]; subst.
    destruct (Nat.leb_spec (ev_start x) (ev_start y)) as [Hle | Hgt].
    + constructor; [exact Hs |]. constructor; [exact Hle |].
      eapply Forall_impl; [|exact Hy]. unfold start_le. intros; lia.
    + constructor; [auto |].
      eapply Permutation_Forall; [symmetry; apply insert_event_perm |].
      constructor; [unfold start_le; lia | exact Hy].
Qed.

Lemma sort_events_sorted (l : list event) :
  StronglySorted start_le (sort_events l).
Proof.
  induction l; simpl; [constructor | now apply insert_event_sorted].
Qed.

Lemma insert_event_front (x : event) (l : list event) :
  Forall (start_le x) l -> insert_event x l = x :: l.
Proof.
  destruct l as [|y l]; [reflexivity |]. intros H. simpl.
  inversion H; subst. unfold start_le in *.
  destruct (Nat.leb_spec (ev_start x) (ev_start y)); [reflexivity | lia].
Qed.

Lemma sort_events_id (l : list event) :
  StronglySorted start_le l -> sort_events l = l.
Proof.
  induction 1 as [|x l Hl IH Hx]; simpl; [reflexivity |].
  rewrite IH. now apply insert_event_front.
Qed.

(** The sort is stable, so it commutes with the selection of a family. *)
Lemma filter_insert_event (p : event -> bool) (x : event) (l : list event) :
  StronglySorted start_le l ->
  filter p (insert_event x l) =
  if p x then insert_event x (filter p l) else filter p l.
Proof.
  induction 1 as [|y l Hl IH Hy].
  - simpl. destruct (p x); reflexivity.
  - cbn [insert_event].
    destruct (Nat.leb_spec (ev_start x) (ev_start y)) as [Hle | Hgt].
    + assert (Hall : Forall (start_le x) (y :: l)).
      { constructor; [exact Hle |].
        eapply Forall_impl; [|exact Hy]. unfold start_le. intros; lia. }
      remember (y :: l) as yl. simpl. destruct (p x); [|reflexivity].
      symmetry. apply insert_event_front.
      rewrite Forall_forall in Hall |- *.
      intros z Hz. apply Hall. apply filter_In in Hz. tauto.
    + simpl. rewrite IH. destruct (p y), (p x); simpl; try reflexivity.
      destruct (Nat.leb_spec (ev_start x) (ev_start y)); [lia | reflexivity].
Qed.

Lemma filter_sort_events (p : event -> bool) (l : list event) :
  filter p (sort_events l) = sort_events (filter p l).
Proof.
  induction l as [|x l IH]; simpl; [reflexivity |].
  rewrite filter_insert_event by apply sort_events_sorted.
  rewrite IH. destruct (p x); reflexivity.
Qed.

Lemma filter_speaker_mk_speaker (spans : list (nat * nat)) :
  filter is_speaker (mk_events speaker_ev spans) = mk_events speaker_ev spans.
Proof. induction spans; simpl; congruence. Qed.

Lemma filter_speaker_mk_end (spans : list (nat * nat)) :
  filter is_speaker (mk_events end_ev spans) = [].
Proof. induction spans; simpl; auto. Qed.

Lemma chain_events_sorted (lo : nat) (spans : list (nat * nat)) :
  chain lo spans -> StronglySorted start_le (mk_events speaker_ev spans).
Proof.
  revert lo. induction spans as [|[a b] spans IH]; intros lo Hc; simpl.
  - constructor.
  - simpl in Hc. destruct Hc as (H1 & H2 & H3). constructor; [eauto |].
    apply Forall_forall. intros e He. unfold mk_events in He.
    apply in_map_iff in He. destruct He as ([a' b'] & <- & Hin).
    apply (chain_In _ _ _ _ H3) in Hin. unfold start_le. simpl. lia.
Qed.

(** The speaker events of the timeline, in order, are the matches of
    [SPEAKER_REGEX] in the order [finditer] found them. *)
Lemma timeline_speakers (text : str) :
  filter is_speaker (timeline text) =
  mk_events speaker_ev (finditer SPEAKER_REGEX text).
Proof.
  unfold timeline. rewrite filter_sort_events. unfold all_events.
  rewrite !filter_app, filter_speaker_mk_speaker, !filter_speaker_mk_end.
  simpl. rewrite app_nil_r.
  apply sort_events_id. eapply chain_events_sorted. apply finditer_chain.
Qed.

(** ** The shape of a match of [SPEAKER_REGEX] *)

Lemma sem_alts (rs : list re) (st st' : cursor) :
  sem (alts rs) st st' <-> exists r, In r rs /\ sem r st st'.
Proof.
  induction rs as [|r rs IH].
  - simpl. split.
    + intros (c & _ & H & _). discriminate.
    + intros (r & [] & _).
  - destruct rs as [|r' rs].
    + simpl. split.
      * intros H. exists r. auto.
      * intros (r0 & [<- | []] & H). exact H.
    + change (alts (r :: r' :: rs)) with (Alt r (alts (r' :: rs))).
      cbn [sem]. rewrite IH. split.
      * intros [H | (r0 & Hin & H)].
        -- exists r. split; [now left | exact H].
        -- exists r0. split; [now right | exact H].
      * intros (r0 & [<- | Hin] & H); [now left |].
        right. exists r0. auto.
Qed.

(** [\s{1,2}] reads one or two whitespace characters. *)
Lemma sem_rep_1_2_ws (st st' : cursor) :
  sem (rep 1 2 ws) st st' ->
  exists w, rest st = w ++ rest st' /\ Forall (fun c => isspace c = true) w
            /\ (length w = 1 \/ length w = 2).
Proof.
  unfold rep, ws. cbn [sem]. intros H.
  inversion H as [|? ? ? st1 ? _ (c1 & Hc1 & Hs1 & _) _ H1]; subst.
  simpl in H1.
  inversion H1 as [|? ? ? st2 ? _ (c2 & Hc2 & Hs2 & _) _ H2]; subst.
  - exists [c1]. repeat split; auto.
  - simpl in H2. inversion H2 as [|? ? ? ? ? Hopen]; subst.
    + exists [c1; c2]. rewrite Hc1, Hc2. repeat split; auto.
    + discriminate.
Qed.

Lemma sem_honorific (st st' : cursor) :
  sem honorific st st' ->
  exists h, In h (firstn 8 HONORIFICS) /\ rest st = h ++ rest st'.
Proof.
  unfold honorific. rewrite sem_alts. intros (r & Hin & H).
  cbn [In] in Hin.
  destruct Hin as [<- | [<- | [<- | [<- | [<- | [<- | []]]]]]].
  - rewrite sem_seqs_cons in H. destruct H as (s1 & H1 & H).
    rewrite sem_seqs_cons in H. destruct H as (s2 & H2 & H3).
    apply sem_chr in H1. destruct H1 as [H1 _].
    cbn [seqs] in H3. apply sem_chr in H3. destruct H3 as [H3 _].
    rewrite sem_alts in H2. destruct H2 as (r & Hin & H2). cbn [In] in Hin.
    destruct Hin as [<- | [<- | [<- | []]]];
      apply sem_lit in H2; destruct H2 as [H2 _];
      rewrite H1, H2, H3; simpl.
    + exists (L "Mr."). split; [simpl; tauto | reflexivity].
    + exists (L "Mrs."). split; [simpl; tauto | reflexivity].
    + exists (L "Ms."). split; [simpl; tauto | reflexivity].
  - apply sem_lit in H. destruct H as [H _].
    exists (L "Miss"). split; [simpl; tauto | exact H].
  - apply sem_lit in H. destruct H as [H _].
    exists (L "Chairman"). split; [simpl; tauto | exact H].
  - apply sem_lit in H. destruct H as [H _].
    exists (L "Chairwoman"). split; [simpl; tauto | exact H].
  - apply sem_lit in H. destruct H as [H _].
    exists (L "HON."). split; [simpl; tauto | exact H].
  - apply sem_lit in H. destruct H as [H _].
    exists (L "Dr."). split; [simpl; tauto | exact H].
Qed.

Lemma sem_ws (st st' : cursor) :
  sem ws st st' -> exists c, rest st = c :: rest st' /\ isspace c = true.
Proof. unfold ws. simpl. intros (c & H1 & H2 & _). eauto. Qed.

(** A pattern [h \s more... \.]: what it reads is [h], a whitespace
    character, some text and a final period. *)
Lemma sem_token_ws_period (h : re) (more : list re) (st st' : cursor) :
  sem (seqs (h :: ws :: more ++ [chr "."])) st st' ->
  exists sa c tail,
    sem h st sa /\ isspace c = true /\
    rest sa = c :: tail ++ "."%char :: rest st'.
Proof.
  intros H. rewrite sem_seqs_cons in H. destruct H as (sa & Hh & H).
  rewrite sem_seqs_cons in H. destruct H as (sb & Hw & H).
  rewrite sem_seqs_app in H. destruct H as (sc & Hm & Hp).
  cbn [seqs] in Hp. apply sem_chr in Hp. destruct Hp as [Hp _].
  apply sem_ws in Hw. destruct Hw as (c & Hc & Hs).
  apply sem_prefix in Hm. destruct Hm as (tail & Ht & _).
  exists sa, c, tail. repeat split; auto.
  rewrite Hc, Ht, Hp. reflexivity.
Qed.

Theorem speaker_shape (st st' : cursor) :
  sem SPEAKER_REGEX st st' ->
  at_bol st = true /\
  exists w body,
    rest st = w ++ body ++ "."%char :: rest st'
    /\ (length w = 1 \/ length w = 2)
    /\ Forall (fun c => isspace c = true) w
    /\ honorific_prefix body.
Proof.
  unfold SPEAKER_REGEX. intros H.
  rewrite sem_seqs_cons in H. destruct H as (s0 & [Hbol ->] & H).
  rewrite sem_seqs_cons in H. destruct H as (s1 & Hw & H).
  cbn [seqs] in H.
  apply sem_rep_1_2_ws in Hw. destruct Hw as (w & Hw & Hsp & Hlen).
  split; [exact Hbol |]. 
  assert (Hbody : exists body, rest s1 = body ++ "."%char :: rest st'
                               /\ honorific_prefix body).
  { destruct H as [H | H].
    - unfold named_speaker in H.
      match type of H with
      | sem (seqs (?h :: ws :: ?l)) _ _ =>
          change l with (removelast l ++ [chr "."]) in H
      end.
      apply sem_token_ws_period in H.
      destruct H as (sa & c & tail & Hh & Hs & Hr).
      apply sem_honorific in Hh. destruct Hh as (h & Hin & Hh).
      exists (h ++ c :: tail). split.
      + rewrite Hh, Hr, <- app_assoc. reflexivity.
      + exists h, c, tail. repeat split; auto.
        unfold HONORIFICS in *. cbn [firstn In] in Hin. cbn [In]. tauto.
    - unfold role_speaker in H.
      match type of H with
      | sem (seqs (?h :: ws :: ?l)) _ _ =>
          change l with (removelast l ++ [chr "."]) in H
      end.
      apply sem_token_ws_period in H.
      destruct H as (sa & c & tail & Hh & Hs & Hr).
      apply sem_lit in Hh. destruct Hh as [Hh _].
      exists (L "The" ++ c :: tail). split.
      + rewrite Hh, Hr, <- app_assoc. reflexivity.
      + exists (L "The"), c, tail. repeat split; auto.
        simpl. tauto. }
  destruct Hbody as (body & Hb & Hp).
  exists w, body. rewrite Hw, Hb. auto.
Qed.

(** A match of [SPEAKER_REGEX] is never empty. *)
Lemma speaker_match_nonempty (st : cursor) (n : nat) :
  match_len SPEAKER_REGEX st = Some n -> 0 < n.
Proof.
  intros H. apply match_len_sem in H. destruct H as (st' & Hs & ->).
  apply speaker_shape in Hs. destruct Hs as (_ & w & body & Hr & _).
  rewrite Hr. rewrite !length_app. simpl. lia.
Qed.

(** ** Facts about the string primitives *)

Lemma dropWhile_app_stop (p : ascii -> bool) (s : str) (c : ascii) :
  p c = false -> dropWhile p (s ++ [c]) = dropWhile p s ++ [c].
Proof.
  intros Hc. induction s as [|d s IH]; simpl.
  - rewrite Hc. reflexivity.
  - destruct (p d); auto.
Qed.

Lemma rstrip_by_stop (p : ascii -> bool) (s : str) (c : ascii) :
  p c = false -> rstrip_by p (s ++ [c]) = s ++ [c].
Proof.
  intros Hc. unfold rstrip_by. rewrite rev_app_distr. simpl. rewrite Hc.
  simpl. rewrite rev_involutive. reflexivity.
Qed.

(** Stripping a text that ends with a character that is kept only strips
    its left end. *)
Lemma strip_by_stop (p : ascii -> bool) (s : str) (c : ascii) :
  p c = false -> strip_by p (s ++ [c]) = lstrip_by p s ++ [c].
Proof.
  intros Hc. unfold strip_by, lstrip_by.
  rewrite dropWhile_app_stop by assumption. now apply rstrip_by_stop.
Qed.

Lemma dropWhile_idem (p : ascii -> bool) (s : str) :
  dropWhile p (dropWhile p s) = dropWhile p s.
Proof.
  induction s as [|c s IH]; simpl; [reflexivity |].
  destruct (p c) eqn:E; [exact IH |]. simpl. rewrite E. reflexivity.
Qed.

Lemma dropWhile_suffix (p : ascii -> bool) (s : str) :
  exists u, s = u ++ dropWhile p s /\ forallb p u = true.
Proof.
  induction s as [|c s (u & Hu & Hp)]; simpl.
  - exists []. auto.
  - destruct (p c) eqn:E.
    + exists (c :: u). simpl. rewrite E, Hp. split; [congruence | reflexivity].
    + exists []. auto.
Qed.

Lemma dropWhile_head (p : ascii -> bool) (s : str) :
  match dropWhile p s with
  | [] => True
  | c :: _ => p c = false
  end.
Proof.
  induction s as [|c s IH]; simpl; [exact I |].
  destruct (p c) eqn:E; [exact IH | exact E].
Qed.

Lemma dropWhile_fix (p : ascii -> bool) (s : str) :
  match s with [] => True | c :: _ => p c = false end ->
  dropWhile p s = s.
Proof. destruct s as [|c s]; simpl; [auto |]. intros ->. reflexivity. Qed.

(** [rstrip] keeps the first character of a text it does not empty. *)
Lemma rstrip_by_head (p : ascii -> bool) (s : str) :
  match s with [] => True | c :: _ => p c = false end ->
  match rstrip_by p s with [] => True | c :: _ => p c = false end.
Proof.
  unfold rstrip_by. intros Hs.
  destruct (dropWhile_suffix p (rev s)) as (u & Hu & Hp).
  assert (E : s = rev (dropWhile p (rev s)) ++ rev u).
  { rewrite <- rev_app_distr, <- Hu, rev_involutive. reflexivity. }
  destruct (rev (dropWhile p (rev s))) as [|c t]; [exact I |].
  rewrite E in Hs. exact Hs.
Qed.

Lemma strip_by_idem (p : ascii -> bool) (s : str) :
  strip_by p (strip_by p s) = strip_by p s.
Proof.
  unfold strip_by at 1. unfold lstrip_by.
  rewrite dropWhile_fix.
  - unfold strip_by, rstrip_by. rewrite rev_involutive, dropWhile_idem.
    reflexivity.
  - unfold strip_by. apply rstrip_by_head. apply dropWhile_head.
Qed.

Lemma strip_idem (s : str) : strip (strip s) = strip s.
Proof. apply strip_by_idem. Qed.

Lemma slice_full (s : str) (a : nat) : slice s a (length s) = slice_from s a.
Proof.
  unfold slice, slice_from. apply firstn_all2. rewrite length_skipn. lia.
Qed.

Lemma replace_chr_length (a b : ascii) (s : str) :
  length (replace_chr a b s) = length s.
Proof. apply length_map. Qed.

Lemma length_induction {A} (P : list A -> Prop) :
  (forall s, (forall t, length t < length s -> P t) -> P s) ->
  forall s, P s.
Proof.
  intros H s.
  assert (G : forall n t, length t < n -> P t).
  { induction n as [|n IH]; intros t Ht; [lia |].
    apply H. intros u Hu. apply IH. lia. }
  apply (G (S (length s))). lia.
Qed.

Lemma splitlines_keep_cons (c : ascii) (s : str) :
  splitlines_keep (c :: s) =
  if is_linebreak c then
    match s with
    | d :: s'' =>
        if chr_eqb c CR && chr_eqb d LF
        then [c; d] :: splitlines_keep s''
        else [c] :: splitlines_keep s
    | [] => [[c]]
    end
  else
    match splitlines_keep s with
    | [] => [[c]]
    | l :: ls => (c :: l) :: ls
    end.
Proof. reflexivity. Qed.

Lemma concat_splitlines_keep (s : str) : concat (splitlines_keep s) = s.
Proof.
  induction s as [s IH] using length_induction.
  destruct s as [|c s]; [reflexivity |]. rewrite splitlines_keep_cons.
  destruct (is_linebreak c).
  - destruct s as [|d s]; [reflexivity |].
    destruct (chr_eqb c CR && chr_eqb d LF); cbn [concat app].
    + f_equal. f_equal. apply IH. simpl. lia.
    + f_equal. apply IH. simpl. lia.
  - pose proof (IH s ltac:(simpl; lia)) as E.
    destruct (splitlines_keep s) as [|l ls]; cbn [concat app] in *.
    + rewrite <- E. reflexivity.
    + rewrite <- E. reflexivity.
Qed.

(** ** The turn assembler *)

(** One turn per open speaker: the turns start where the speaker matches
    end, in the order of the timeline. *)
Lemma assemble_starts (text : str) :
  forall events cur,
    map span_start (assemble text cur events) =
    cur_start cur ++ map ev_end (filter is_speaker events).
Proof.
  induction events as [|e events IH]; intros cur.
  - destruct cur as [[who st]|]; reflexivity.
  - cbn [assemble filter]. unfold is_speaker at 1.
    destruct (ev_type e); rewrite map_app, IH;
      destruct cur as [[who st]|]; reflexivity.
Qed.

Lemma assemble_speech (text : str) :
  forall events cur,
    Forall (fun t => speech t =
                     clean_speech (slice text (span_start t) (span_end t)))
           (assemble text cur events).
Proof.
  induction events as [|e events IH]; intros cur.
  - destruct cur as [[who st]|]; simpl; constructor; [|constructor].
    simpl. rewrite slice_full. reflexivity.
  - cbn [assemble].
    assert (Hc : Forall (fun t => speech t =
                   clean_speech (slice text (span_start t) (span_end t)))
                 match cur with
                 | Some (who, speech_start) =>
                     [Turn who speech_start (ev_start e)
                        (clean_speech (slice text speech_start (ev_start e)))]
                 | None => []
                 end).
    { destruct cur as [[who st]|]; repeat constructor. }
    destruct (ev_type e); apply Forall_app; auto.
Qed.

(** Every turn carries the label of the speaker event that opened it. *)
Lemma assemble_labels (text : str) :
  forall events cur t,
    In t (assemble text cur events) ->
    (exists who, cur = Some (who, span_start t) /\ speaker t = who)
    \/ exists e, In e events /\ ev_type e = speaker_ev
                 /\ speaker t = label_of text e /\ span_start t = ev_end e.
Proof.
  induction events as [|e events IH]; intros cur t Hin.
  - destruct cur as [[who st]|]; simpl in Hin; [|destruct Hin].
    destruct Hin as [<- | []]. left. exists who. auto.
  - cbn [assemble] in Hin.
    assert (Hclosed :
              In t match cur with
                   | Some (who, speech_start) =>
                       [Turn who speech_start (ev_start e)
                          (clean_speech (slice text speech_start (ev_start e)))]
                   | None => []
                   end ->
              exists who, cur = Some (who, span_start t) /\ speaker t = who).
    { destruct cur as [[who st]|]; simpl; [|intros []].
      intros [<- | []]. exists who. auto. }
    destruct (ev_type e) eqn:Hty; apply in_app_or in Hin;
      destruct Hin as [Hin | Hin]; auto.
    + apply IH in Hin. destruct Hin as [(who & Hc & Hs) | (e' & H1 & H2)].
      * right. exists e. inversion Hc; subst.
        repeat split; auto. now left.
      * right. exists e'. split; [now right | exact H2].
    + apply IH in Hin. destruct Hin as [(who & Hc & _) | (e' & H1 & H2)].
      * discriminate.
      * right. exists e'. split; [now right | exact H2].
Qed.

Lemma assemble_sorted (text : str) :
  forall events cur,
    StronglySorted start_le events ->
    Forall (fun e => ev_type e = speaker_ev -> ev_start e <= ev_end e) events ->
    StronglySorted end_lt (filter is_speaker events) ->
    (forall st e, In st (cur_start cur) -> In e (filter is_speaker events) ->
                  st < ev_end e) ->
    StronglySorted turn_before (assemble text cur events).
Proof.
  induction events as [|e events IH]; intros cur Hs Hw Hd Hcur.
  - destruct cur as [[who st]|]; simpl; repeat constructor.
  - inversion Hs as [|? ? Hs' Hle]; subst.
    inversion Hw as [|? ? Hwe Hw']; subst.
    set (cur' := match ev_type e with
                 | speaker_ev => Some (label_of text e, ev_end e)
                 | end_ev => None
                 end).
    assert (Htail : StronglySorted turn_before (assemble text cur' events)).
    { apply IH; auto.
      - cbn [filter] in Hd. destruct (is_speaker e); [|exact Hd].
        inversion Hd; auto.
      - intros st e' Hst He'. subst cur'.
        destruct (ev_type e) eqn:Hty; [|destruct Hst].
        destruct Hst as [<- | []].
        cbn [filter] in Hd. unfold is_speaker at 1 in Hd. rewrite Hty in Hd.
        inversion Hd as [|? ? _ Hall]; subst.
        rewrite Forall_forall in Hall. apply Hall. exact He'. }
    assert (Hbound : forall t, In t (assemble text cur' events) ->
                               ev_start e <= span_start t
                               /\ forall st, In st (cur_start cur) ->
                                             st < span_start t).
    { intros t Ht. apply assemble_labels in Ht.
      destruct Ht as [(who & Hc & _) | (e' & Hin & Hty & _ & Hst)].
      - subst cur'. destruct (ev_type e) eqn:Hty; [|discriminate].
        inversion Hc; subst. split; [auto |].
        intros st Hst. apply Hcur; [exact Hst |].
        cbn [filter]. unfold is_speaker. rewrite Hty. now left.
      - rewrite Hst. split.
        + rewrite Forall_forall in Hle, Hw'.
          specialize (Hle _ Hin). specialize (Hw' _ Hin Hty).
          unfold start_le in Hle. lia.
        + intros st Hin'. apply Hcur; [exact Hin' |].
          cbn [filter]. destruct (is_speaker e); [right |];
            apply filter_In; unfold is_speaker; rewrite Hty; auto. }
    cbn [assemble]. fold cur'.
    replace (match ev_type e with
             | speaker_ev =>
                 match cur with
                 | Some (who, speech_start) =>
                     [Turn who speech_start (ev_start e)
                        (clean_speech (slice text speech_start (ev_start e)))]
                 | None => []
                 end ++ assemble text (Some (label_of text e, ev_end e)) events
             | end_ev =>
                 match cur with
                 | Some (who, speech_start) =>
                     [Turn who speech_start (ev_start e)
                        (clean_speech (slice text speech_start (ev_start e)))]
                 | None => []
                 end ++ assemble text None events
             end)
      with (match cur with
            | Some (who, speech_start) =>
                [Turn who speech_start (ev_start e)
                   (clean_speech (slice text speech_start (ev_start e)))]
            | None => []
            end ++ assemble text cur' events)
      by (subst cur'; destruct (ev_type e); reflexivity).
    destruct cur as [[who st]|]; [|exact Htail].
    cbn [app]. constructor; [exact Htail |].
    apply Forall_forall. intros t Ht. apply Hbound in Ht.
    destruct Ht as [H1 H2]. unfold turn_before. simpl. split; [|exact H1].
    apply H2. now left.
Qed.

Lemma chain_ends_sorted (lo : nat) (spans : list (nat * nat)) :
  chain lo spans ->
  Forall (fun se => fst se < snd se) spans ->
  StronglySorted end_lt (mk_events speaker_ev spans).
Proof.
  revert lo. induction spans as [|[a b] spans IH]; intros lo Hc Hne; simpl.
  - constructor.
  - simpl in Hc. destruct Hc as (H1 & H2 & H3).
    inversion Hne as [|? ? Hab Hne']; subst.
    constructor; [eauto |].
    apply Forall_forall. intros e He. unfold mk_events in He.
    apply in_map_iff in He. destruct He as ([a' b'] & <- & Hin).
    rewrite Forall_forall in Hne'. pose proof (Hne' _ Hin) as Hlt.
    apply (chain_In _ _ _ _ H3) in Hin. unfold end_lt. simpl in *. lia.
Qed.

Lemma speaker_spans_nonempty (text : str) :
  Forall (fun se => fst se < snd se) (finditer SPEAKER_REGEX text).
Proof.
  apply Forall_forall. intros [a b] Hin. apply finditer_sound in Hin.
  destruct Hin as (Hm & Hab & _). apply speaker_match_nonempty in Hm.
  simpl. lia.
Qed.

Lemma timeline_speaker_spans (text : str) (e : event) :
  In e (timeline text) -> ev_type e = speaker_ev ->
  In (ev_start e, ev_end e) (finditer SPEAKER_REGEX text).
Proof.
  intros Hin Hty.
  assert (H : In e (filter is_speaker (timeline text))).
  { apply filter_In. split; [exact Hin |]. unfold is_speaker. now rewrite Hty. }
  rewrite timeline_speakers in H. unfold mk_events in H.
  apply in_map_iff in H. destruct H as ([a b] & <- & H). exact H.
Qed.

Lemma strongly_sorted_nth {A} (R : A -> A -> Prop) (l : list A) :
  StronglySorted R l ->
  forall i j a b,
    i < j -> nth_error l i = Some a -> nth_error l j = Some b -> R a b.
Proof.
  induction 1 as [|x l Hl IH Hx]; intros i j a b Hij Ha Hb.
  - destruct i; discriminate.
  - destruct j as [|j]; [lia |]. simpl in Hb. destruct i as [|i].
    + simpl in Ha. inversion Ha; subst. rewrite Forall_forall in Hx.
      apply Hx. eapply nth_error_In; eauto.
    + simpl in Ha. apply (IH i j); auto. lia.
Qed.

(** ** The turns are ordered and do not overlap (C1) *)

(** C1.  For every transcript the turns [scrape] yields are sorted by the
    start of their text span and pairwise non-overlapping: each turn
    starts strictly before every later turn starts, and its span ends at
    or before the start of every later turn, so that no offset lies in
    the spans of two turns.  The speech of a turn is computed
    from the slice of its own span alone, so the text between two spans
    reaches no turn.  A span [(start, end)] is the pair of bounds of the
    slice [text[start:end]] taken by [scrape]; when an end marker lies
    inside the match of the speaker line the end precedes the start and
    the slice is empty. *)
Theorem scrape_turns_ordered (text : str) :
  StronglySorted turn_before (scrape_turns text)
  /\ (forall i j a b,
        i < j ->
        nth_error (scrape_turns text) i = Some a ->
        nth_error (scrape_turns text) j = Some b ->
        span_start a < span_start b
        /\ span_end a <= span_start b
        /\ forall p, ~ (span_start a <= p < span_end a
                        /\ span_start b <= p < span_end b))
  /\ Forall (fun t => speech t =
               clean_speech (slice (prepare text) (span_start t) (span_end t)))
            (scrape_turns text)
  /\ scrape text = map (fun t => (speaker t, speech t)) (scrape_turns text).
Proof.
  assert (Hs : StronglySorted turn_before (scrape_turns text)).
  { unfold scrape_turns. apply assemble_sorted.
    - apply sort_events_sorted.
    - apply Forall_forall. intros e Hin Hty.
      apply (timeline_speaker_spans _ _ Hin) in Hty.
      apply finditer_sound in Hty. simpl in Hty. tauto.
    - rewrite timeline_speakers. eapply chain_ends_sorted.
      + apply finditer_chain.
      + apply speaker_spans_nonempty.
    - intros st e []. }
  split; [exact Hs |].
  split.
  - intros i j a b Hij Ha Hb.
    destruct (strongly_sorted_nth _ _ Hs i j a b Hij Ha Hb) as [H1 H2].
    repeat split; auto. intros p. lia.
  - unfold scrape_turns. split; [apply assemble_speech | reflexivity].
Qed.

Lemma scrape_turns_ordered_witness :
  let a := Turn (L "Mr. SMITH") 12 29 (L "This is a test.") in
  let b := Turn (L "Mr. JONES") 41 51 (L "A reply.") in
  span_start a < span_start b
  /\ span_end a <= span_start b
  /\ forall p, ~ (span_start a <= p < span_end a
                  /\ span_start b <= p < span_end b).
Proof.
  apply (proj1 (proj2 (scrape_turns_ordered scenario_A)) 0 1).
  - apply Nat.lt_0_1.
  - vm_compute. reflexivity.
  - vm_compute. reflexivity.
Defined.

(** ** Scenario A (C2) *)

(** C2.  On the two-speaker transcript of scenario A, [scrape] yields
    exactly the two turns of Mr. SMITH and Mr. JONES: the timeline holds
    the two speaker events, the first turn is closed at the start of the
    second speaker event (offset 29), and the turn still open at the end
    of the events is closed at the end of the transcript (offset 51).
    In general a speaker event met while a speaker is open closes the
    turn at the start of the event, and the end of the events closes an
    open turn at the length of the text. *)
Theorem scenario_A_two_turns :
  scrape scenario_A =
    [(L "Mr. SMITH", L "This is a test."); (L "Mr. JONES", L "A reply.")]
  /\ timeline (prepare scenario_A) =
       [Event speaker_ev 0 12; Event speaker_ev 29 41]
  /\ map (fun t => (span_start t, span_end t)) (scrape_turns scenario_A) =
       [(12, 29); (41, 51)]
  /\ (forall text who speech_start a b events,
        assemble text (Some (who, speech_start))
                 (Event speaker_ev a b :: events) =
        Turn who speech_start a (clean_speech (slice text speech_start a))
        :: assemble text (Some (label_of text (Event speaker_ev a b), b))
                    events)
  /\ (forall text who speech_start,
        assemble text (Some (who, speech_start)) [] =
        [Turn who speech_start (length text)
              (clean_speech (slice_from text speech_start))]).
Proof.
  split; [vm_compute; reflexivity |].
  split; [vm_compute; reflexivity |].
  split; [vm_compute; reflexivity |].
  split; reflexivity.
Qed.

(** ** Speaker labels (C9) *)

Lemma finditer_slice (r : re) (text : str) (a b : nat) :
  In (a, b) (finditer r text) ->
  exists st', sem r (cursor_at text a) st'
              /\ skipn a text = slice text a b ++ rest st'.
Proof.
  intros Hin. apply finditer_sound in Hin. destruct Hin as (Hm & Hab & Hb).
  apply match_len_sem in Hm. destruct Hm as (st' & Hs & Hn).
  exists st'. split; [exact Hs |].
  destruct (sem_prefix _ _ _ Hs) as (w & Hw & _). simpl in Hw, Hn.
  unfold slice. rewrite Hw in Hn |- *. rewrite length_app in Hn.
  replace (b - a) with (length w) by lia.
  rewrite firstn_app, Nat.sub_diag, firstn_all. simpl.
  rewrite app_nil_r. reflexivity.
Qed.

Lemma speaker_span_ok (text : str) (a b : nat) :
  In (a, b) (finditer SPEAKER_REGEX text) ->
  speaker_event_ok text (Event speaker_ev a b).
Proof.
  intros Hin. destruct (finditer_slice _ _ _ _ Hin) as (st' & Hs & Hsl).
  apply speaker_shape in Hs. destruct Hs as (Hbol & w & body & Hr & Hlen & Hw & Hh).
  simpl in Hr. rewrite Hsl in Hr.
  assert (Hm : slice text a b = w ++ body ++ ["."%char]).
  { apply (app_inv_tail (rest st')). rewrite Hr, <- !app_assoc. reflexivity. }
  unfold speaker_event_ok. cbn [ev_start ev_end].
  split; [exact Hbol |]. split.
  - exists w, body. auto.
  - unfold label_of. cbn [ev_start ev_end]. rewrite Hm.
    rewrite app_assoc. unfold strip. rewrite strip_by_stop by reflexivity.
    rewrite removelast_last. reflexivity.
Qed.

(** C9, amended.  Every speaker event of the timeline comes from a match
    that starts at a line start with one or two whitespace characters
    (any character of the class [\s]: a space, a tab, a line break, ...),
    continues with an honorific or role token followed by whitespace, and
    ends with a period; its label is the match, stripped of surrounding
    whitespace, without that final period.  Every turn [scrape] emits
    carries the label of such an event. *)
Theorem speaker_labels (text : str) :
  (forall e, In e (timeline (prepare text)) -> ev_type e = speaker_ev ->
             speaker_event_ok (prepare text) e)
  /\ (forall t, In t (scrape_turns text) ->
                exists e, In e (timeline (prepare text))
                          /\ ev_type e = speaker_ev
                          /\ speaker t = label_of (prepare text) e).
Proof.
  split.
  - intros e Hin Hty.
    pose proof (timeline_speaker_spans _ _ Hin Hty) as Hsp.
    apply speaker_span_ok in Hsp. destruct e as [ty a b]. simpl in Hty.
    subst ty. exact Hsp.
  - intros t Ht. unfold scrape_turns in Ht. apply assemble_labels in Ht.
    destruct Ht as [(who & Hc & _) | (e & H1 & H2 & H3 & _)]; [discriminate |].
    eauto.
Qed.

Lemma speaker_labels_witness :
  speaker_event_ok (prepare scenario_A) (Event speaker_ev 0 12).
Proof.
  apply (proj1 (speaker_labels scenario_A)).
  - vm_compute. left. reflexivity.
  - reflexivity.
Defined.

(** C9 as stated fails: a name that ends with an initial keeps the period
    of the initial in its label, and the indentation of a speaker line
    may be a tab. *)
Lemma speaker_labels_counterexample :
  scrape (L "  Mr. Smith J.. hello there") =
    [(L "Mr. Smith J.", L "hello there")]
  /\ last (L "Mr. Smith J.") " "%char = "."%char
  /\ scrape (TAB :: L "Mr. SMITH. hi") = [(L "Mr. SMITH", L "hi")].
Proof.
  split; [vm_compute; reflexivity |].
  split; vm_compute; reflexivity.
Qed.

(** ** NOTE blocks *)

Lemma strip_lines_app (l1 l2 : list str) :
  forall skip,
    strip_lines skip (l1 ++ l2) =
    strip_lines skip l1 ++ strip_lines (xorb skip (Nat.odd (markers l1))) l2.
Proof.
  induction l1 as [|ln l1 IH]; intros skip.
  - simpl. rewrite xorb_false_r. reflexivity.
  - unfold markers. cbn [app strip_lines filter].
    destruct (is_marker ln) eqn:Hm.
    + cbn [length]. rewrite Nat.odd_succ, <- Nat.negb_odd, IH.
      fold (markers l1). cbn [app]. f_equal. f_equal.
      destruct skip, (Nat.odd (markers l1)); reflexivity.
    + fold (markers l1). destruct skip; rewrite IH; reflexivity.
Qed.

Lemma strip_lines_skipping (lines : list str) :
  no_marker lines = true -> strip_lines true lines = [].
Proof.
  induction lines as [|ln lines IH]; simpl; [reflexivity |].
  intros H. apply andb_prop in H. destruct H as [H1 H2].
  apply negb_true_iff in H1. rewrite H1. auto.
Qed.

Lemma strip_lines_keeping (lines : list str) :
  no_marker lines = true -> strip_lines false lines = lines.
Proof.
  induction lines as [|ln lines IH]; simpl; [reflexivity |].
  intros H. apply andb_prop in H. destruct H as [H1 H2].
  apply negb_true_iff in H1. rewrite H1. f_equal. auto.
Qed.

Lemma no_marker_markers (lines : list str) :
  no_marker lines = true -> markers lines = 0.
Proof.
  unfold markers. induction lines as [|ln lines IH]; simpl; [reflexivity |].
  intros H. apply andb_prop in H. destruct H as [H1 H2].
  apply negb_true_iff in H1. rewrite H1. auto.
Qed.

Lemma markers_app (l1 l2 : list str) :
  markers (l1 ++ l2) = markers l1 + markers l2.
Proof. unfold markers. rewrite filter_app, length_app. reflexivity. Qed.

Lemma markers_cons_marker (m : str) (lines : list str) :
  is_marker m = true -> markers (m :: lines) = S (markers lines).
Proof. unfold markers. simpl. intros ->. reflexivity. Qed.

(** The marker lines are all kept, in their order. *)
Lemma strip_lines_markers (lines : list str) :
  forall skip, filter is_marker (strip_lines skip lines) = filter is_marker lines.
Proof.
  induction lines as [|ln lines IH]; intros skip; simpl; [reflexivity |].
  destruct (is_marker ln) eqn:Hm.
  - simpl. rewrite Hm, IH. reflexivity.
  - destruct skip; [apply IH |]. simpl. rewrite Hm. apply IH.
Qed.

(** After a marker that opens a block, everything up to the next marker
    is dropped and the next marker closes the block. *)
Lemma strip_lines_block (pre mid post : list str) (m1 m2 : str) :
  Nat.even (markers pre) = true ->
  is_marker m1 = true -> is_marker m2 = true -> no_marker mid = true ->
  strip_lines false (pre ++ m1 :: mid ++ m2 :: post) =
  strip_lines false pre ++ m1 :: m2 :: strip_lines false post.
Proof.
  intros Hpre H1 H2 Hmid.
  rewrite strip_lines_app. rewrite <- Nat.negb_even, Hpre. cbn [negb xorb].
  f_equal. cbn [strip_lines]. rewrite H1. f_equal. cbn [negb].
  rewrite strip_lines_app, (strip_lines_skipping mid Hmid).
  rewrite (no_marker_markers mid Hmid). cbn [Nat.odd xorb app strip_lines].
  rewrite H2. reflexivity.
Qed.

(** After a marker that closes a block, the lines up to the next marker
    are kept. *)
Lemma strip_lines_after_close (pre mid post : list str) (m : str) :
  Nat.odd (markers pre) = true ->
  is_marker m = true -> no_marker mid = true ->
  strip_lines false (pre ++ m :: mid ++ post) =
  strip_lines false pre ++ m :: mid ++ strip_lines false post.
Proof.
  intros Hpre Hm Hmid.
  rewrite strip_lines_app, Hpre. cbn [xorb].
  f_equal. cbn [strip_lines]. rewrite Hm. f_equal. cbn [negb].
  rewrite strip_lines_app, (strip_lines_keeping mid Hmid).
  rewrite (no_marker_markers mid Hmid). reflexivity.
Qed.

(** After an unpaired last marker everything is dropped. *)
Lemma strip_lines_unpaired (pre post : list str) (m : str) :
  Nat.odd (markers (pre ++ m :: post)) = true ->
  is_marker m = true -> no_marker post = true ->
  strip_lines false (pre ++ m :: post) = strip_lines false pre ++ [m].
Proof.
  intros Hodd Hm Hpost.
  rewrite markers_app in Hodd.
  rewrite (markers_cons_marker m post Hm) in Hodd.
  rewrite (no_marker_markers post Hpost) in Hodd.
  rewrite Nat.add_succ_r, Nat.add_0_r, Nat.odd_succ in Hodd.
  rewrite strip_lines_app. rewrite <- Nat.negb_even, Hodd. cbn [negb xorb].
  f_equal. cbn [strip_lines]. rewrite Hm. cbn [negb].
  rewrite (strip_lines_skipping post Hpost). reflexivity.
Qed.

(** ** An unpaired marker (C10) *)

(** C10.  If the lines of a transcript hold an odd number of NOTE
    markers, then every line after the last marker is removed by
    [_strip_note_blocks]: the stripped text is what is kept of the lines
    before that marker, followed by the marker.  What [scrape] yields
    therefore does not depend on the lines after the last marker: two
    transcripts that agree up to it yield the same turns. *)
Theorem unpaired_marker_drops_rest (text : str) (pre post : list str) (m : str) :
  splitlines true text = pre ++ m :: post ->
  Nat.odd (markers (splitlines true text)) = true ->
  is_marker m = true ->
  no_marker post = true ->
  _strip_note_blocks text = concat (strip_lines false pre) ++ m
  /\ forall text2 post2,
       splitlines true text2 = pre ++ m :: post2 ->
       no_marker post2 = true ->
       scrape_turns text2 = scrape_turns text /\ scrape text2 = scrape text.
Proof.
  intros Hl Hodd Hm Hpost.
  assert (H1 : _strip_note_blocks text = concat (strip_lines false pre) ++ m).
  { unfold _strip_note_blocks. rewrite Hl in *.
    rewrite (strip_lines_unpaired pre post m Hodd Hm Hpost).
    rewrite concat_app. simpl. rewrite app_nil_r. reflexivity. }
  split; [exact H1 |].
  intros text2 post2 Hl2 Hpost2.
  assert (H2 : _strip_note_blocks text2 = _strip_note_blocks text).
  { rewrite H1. unfold _strip_note_blocks. rewrite Hl2.
    rewrite strip_lines_unpaired; auto.
    - rewrite concat_app. simpl. rewrite app_nil_r. reflexivity.
    - rewrite Hl in Hodd.
      rewrite markers_app in Hodd |- *.
      rewrite (markers_cons_marker m post Hm) in Hodd.
      rewrite (markers_cons_marker m post2 Hm).
      rewrite (no_marker_markers post Hpost) in Hodd.
      rewrite (no_marker_markers post2 Hpost2). exact Hodd. }
  assert (H3 : scrape_turns text2 = scrape_turns text).
  { unfold scrape_turns, prepare. rewrite H2. reflexivity. }
  split; [exact H3 |]. unfold scrape. rewrite H3. reflexivity.
Qed.

(** ** Marker lines on the timeline *)

Lemma iter_chr_intro (p : ascii -> bool) (s : str) :
  forall w lo q,
    Forall (fun c => p c = true) w -> lo <= length w ->
    iter_rel (sem (Chr p)) lo None (Cursor q (w ++ s))
             (Cursor (prev_after q w) s).
Proof.
  induction w as [|c w IH]; intros lo q Hw Hlo.
  - simpl in Hlo. assert (lo = 0) by lia. subst. constructor.
  - inversion Hw as [|? ? Hc Hw']; subst.
    apply iter_more with (st1 := Cursor (Some c) (w ++ s)).
    + reflexivity.
    + simpl. exists c. auto.
    + intros _. unfold progress. simpl. apply Nat.ltb_lt. lia.
    + apply IH; auto. simpl in Hlo. lia.
Qed.

Lemma iter_chr_elim (p : ascii -> bool) :
  forall lo hi st st',
    iter_rel (sem (Chr p)) lo hi st st' ->
    exists w, rest st = w ++ rest st'
              /\ Forall (fun c => p c = true) w /\ lo <= length w.
Proof.
  intros lo hi st st' H.
  induction H as [|lo hi st st1 st' _ (c & Hc & Hp & _) _ _ (w & Hw & Hall & Hlen)].
  - exists []. repeat split; auto.
  - exists (c :: w). rewrite Hc, Hw. repeat split; auto. simpl. lia.
Qed.

Lemma all_equals (w : str) :
  Forall (fun c => chr_eqb "="%char c = true) w ->
  w = repeat "="%char (length w).
Proof.
  induction 1 as [|c w Hc _ IH]; simpl; [reflexivity |].
  apply Ascii.eqb_eq in Hc. subst c. f_equal. exact IH.
Qed.

Lemma equals_elim (st st' : cursor) :
  sem EQUALS_REGEX st st' -> at_bol st = true /\ marker_prefix (rest st).
Proof.
  unfold EQUALS_REGEX. intros H.
  rewrite sem_seqs_cons in H. destruct H as (s0 & [Hbol ->] & H).
  rewrite sem_seqs_cons in H. destruct H as (s1 & H1 & H).
  rewrite sem_seqs_cons in H. destruct H as (s2 & H2 & H).
  split; [exact Hbol |].
  apply iter_chr_elim in H1. destruct H1 as (ind & Hind & Hall & _).
  unfold chr in H2. apply iter_chr_elim in H2.
  destruct H2 as (w & Hw & Heq & Hlen).
  apply all_equals in Heq.
  exists ind, (skipn 5 w ++ rest s2). split; [|exact Hall].
  rewrite Hind, Hw. f_equal. rewrite app_assoc. f_equal.
  rewrite Heq. 
  replace (length w) with (5 + (length w - 5)) by lia.
  rewrite repeat_app. rewrite skipn_app. reflexivity.
Qed.

Lemma line_end (s : str) :
  exists u v, s = u ++ v
              /\ Forall (fun c => negb (chr_eqb c LF) = true) u
              /\ forall p, at_eol (Cursor p v) = true.
Proof.
  induction s as [|c s (u & v & Hs & Hu & Hv)].
  - exists [], []. repeat split; auto.
  - destruct (chr_eqb c LF) eqn:E.
    + exists [], (c :: s). repeat split; auto.
    + exists (c :: u), v. rewrite Hs. repeat split; auto.
      constructor; [now rewrite E | exact Hu].
Qed.

Lemma equals_intro (p : option ascii) (s : str) :
  at_bol (Cursor p s) = true -> marker_prefix s ->
  exists st', sem EQUALS_REGEX (Cursor p s) st'.
Proof.
  intros Hbol (ind & tail & Hs & Hind).
  destruct (line_end tail) as (u & v & Ht & Hu & Hv).
  set (p1 := prev_after p ind).
  set (p2 := prev_after p1 (L "=====")).
  set (p3 := prev_after p2 u).
  exists (Cursor p3 v). unfold EQUALS_REGEX.
  apply sem_seqs_cons. exists (Cursor p s). split; [split; auto |].
  apply sem_seqs_cons. exists (Cursor p1 (L "=====" ++ tail)). split.
  { rewrite Hs. apply iter_chr_intro; [exact Hind | lia]. }
  apply sem_seqs_cons. exists (Cursor p2 tail). split.
  { unfold at_least, chr. cbn [sem]. apply iter_chr_intro.
    - repeat constructor.
    - simpl. lia. }
  apply sem_seqs_cons. exists (Cursor p3 v). split.
  { rewrite Ht. unfold star, dot. cbn [sem].
    apply iter_chr_intro; [exact Hu | lia]. }
  cbn [seqs sem]. split; [apply Hv | reflexivity].
Qed.

Lemma is_marker_prefix (ln : str) : is_marker ln = true <-> marker_prefix ln.
Proof.
  unfold is_marker, re_match. split.
  - destruct (match_len EQUALS_REGEX (Cursor None ln)) eqn:E; [|discriminate].
    intros _. apply match_len_sem in E. destruct E as (st' & Hs & _).
    apply equals_elim in Hs. tauto.
  - intros H. destruct (equals_intro None ln eq_refl H) as (st' & Hs).
    apply sem_match_len in Hs. destruct Hs as (n & ->). reflexivity.
Qed.

Lemma marker_prefix_app (s post : str) :
  marker_prefix s -> marker_prefix (s ++ post).
Proof.
  intros (ind & tail & -> & H). exists ind, (tail ++ post).
  split; [|exact H]. rewrite <- !app_assoc. reflexivity.
Qed.

Lemma replace_blank (ind : str) :
  Forall (fun c => is_blank_chr c = true) ind ->
  replace_chr NBSP SP ind = ind.
Proof.
  induction 1 as [|c ind Hc _ IH]; [reflexivity |].
  unfold replace_chr in *. cbn [map]. rewrite IH. f_equal.
  destruct (chr_eqb c NBSP) eqn:E; [|reflexivity].
  apply Ascii.eqb_eq in E. subst c. discriminate.
Qed.

Lemma replace_chr_app (a b : ascii) (x y : str) :
  replace_chr a b (x ++ y) = replace_chr a b x ++ replace_chr a b y.
Proof. apply map_app. Qed.

Lemma marker_prefix_replace (s : str) :
  marker_prefix s -> marker_prefix (replace_chr NBSP SP s).
Proof.
  intros (ind & tail & -> & H). exists ind, (replace_chr NBSP SP tail).
  split; [|exact H]. rewrite !replace_chr_app, (replace_blank ind H).
  reflexivity.
Qed.

Lemma equals_no_lf : classes_ok (fun c => c <> LF) EQUALS_REGEX.
Proof.
  unfold EQUALS_REGEX. simpl. repeat split; intros c H ->; discriminate.
Qed.

Lemma last_chr_app_r (l1 l2 : str) :
  l2 <> [] -> last_chr (l1 ++ l2) = last_chr l2.
Proof.
  unfold last_chr. rewrite rev_app_distr. intros H.
  destruct (rev l2) eqn:E; [|reflexivity].
  apply (f_equal (@rev ascii)) in E. rewrite rev_involutive in E. contradiction.
Qed.

(** The spans of a pattern whose classes reject the line feed do not
    contain the character before a later line start. *)
Lemma finditer_no_lf_inside (r : re) (text : str) (a b q : nat) :
  classes_ok (fun c => c <> LF) r ->
  In (a, b) (finditer r text) ->
  a < q -> q < b -> at_bol (cursor_at text q) = false.
Proof.
  intros Hok Hin Haq Hqb. apply finditer_sound in Hin.
  destruct Hin as (Hm & Hab & Hb). apply match_len_sem in Hm.
  destruct Hm as (st' & Hs & Hn).
  apply (@sem_consumes _ r Hok) in Hs. destruct Hs as (w & Hw & Hall & _).
  simpl in Hw, Hn. rewrite Hw, length_app in Hn.
  assert (Hlen : length w = b - a) by lia.
  assert (Ha : a <= length text) by lia.
  assert (Ht : firstn q text = firstn a text ++ firstn (q - a) w).
  { rewrite <- (firstn_skipn a text) at 1. rewrite Hw.
    rewrite firstn_app, length_firstn, Nat.min_l by exact Ha.
    rewrite (firstn_all2 (n := q)) by (rewrite length_firstn; lia).
    f_equal. rewrite firstn_app.
    replace (q - a - length w) with 0 by lia. rewrite firstn_O, app_nil_r.
    reflexivity. }
  unfold at_bol, cursor_at. cbn [prev]. rewrite Ht.
  destruct (firstn (q - a) w) as [|c u] eqn:E.
  { apply (f_equal (@length ascii)) in E. rewrite length_firstn in E.
    simpl in E. lia. }
  rewrite last_chr_app_r by discriminate.
  destruct (@exists_last _ (c :: u)) as (u' & d & Eu); [discriminate |].
  rewrite Eu, last_chr_app.
  assert (El : In d (c :: u)) by (rewrite Eu; apply in_or_app; right; now left).
  rewrite <- E in El.
  assert (Hd : In d w).
  { rewrite <- (firstn_skipn (q - a) w). apply in_or_app. now left. }
  rewrite Forall_forall in Hall. specialize (Hall _ Hd).
  destruct (chr_eqb d LF) eqn:Ed; [|reflexivity].
  apply Ascii.eqb_eq in Ed. contradiction.
Qed.

Lemma end_events_on_timeline (text : str) (a b : nat) :
  In (a, b) (finditer EQUALS_REGEX text) ->
  In (Event end_ev a b) (timeline text).
Proof.
  intros H. unfold timeline. apply sort_events_In. unfold all_events.
  rewrite !in_app_iff. do 5 right.
  unfold mk_events. apply in_map_iff. exists (a, b). auto.
Qed.

(** A marker at a line start is an end event at its offset. *)
Lemma marker_is_end_event (pre s : str) :
  ends_line pre = true -> marker_prefix s ->
  exists e, In (Event end_ev (length pre) e) (timeline (pre ++ s)).
Proof.
  intros Hpre Hs.
  assert (Hbol : at_bol (cursor_at (pre ++ s) (length pre)) = true).
  { rewrite cursor_at_app. exact Hpre. }
  assert (Hm : exists n, match_len EQUALS_REGEX
                           (cursor_at (pre ++ s) (length pre)) = Some n).
  { rewrite cursor_at_app in Hbol |- *.
    destruct (equals_intro _ _ Hbol Hs) as (st' & Hsem).
    eapply sem_match_len; eauto. }
  destruct Hm as (n & Hm).
  destruct (@finditer_complete EQUALS_REGEX (pre ++ s) (length pre) n)
    as [Hin | (a & b & Hin & Ha & Hb)]; auto.
  - rewrite length_app. lia.
  - exists (length pre + n). now apply end_events_on_timeline.
  - rewrite (finditer_no_lf_inside _ _ _ _ _ equals_no_lf Hin Ha Hb) in Hbol.
    discriminate.
Qed.

Lemma unpaired_marker_drops_rest_witness :
  _strip_note_blocks (line "  Mr. SMITH. Hello." ++ line "=====" ++
                      line "  Mr. JONES. Lost.")
  = concat (strip_lines false [line "  Mr. SMITH. Hello."]) ++ line "=====".
Proof.
  apply (unpaired_marker_drops_rest
           (line "  Mr. SMITH. Hello." ++ line "=====" ++
            line "  Mr. JONES. Lost.")
           [line "  Mr. SMITH. Hello."] [line "  Mr. JONES. Lost."]
           (line "=====")); vm_compute; reflexivity.
Defined.

(** ** Markers toggle the stripping (C4) *)

Lemma ends_line_replace (x : str) :
  ends_line (replace_chr NBSP SP x) = ends_line x.
Proof.
  destruct x as [|c x] using rev_ind; [reflexivity |].
  rewrite replace_chr_app. unfold ends_line. cbn [replace_chr map].
  rewrite !last_chr_app.
  destruct (chr_eqb c NBSP) eqn:E; [|reflexivity].
  apply Ascii.eqb_eq in E. subst c. reflexivity.
Qed.

Lemma strip_lines_In (l : str) (lines : list str) :
  forall skip, In l (strip_lines skip lines) -> In l lines.
Proof.
  induction lines as [|ln lines IH]; intros skip Hin; [destruct Hin |].
  cbn [strip_lines] in Hin. destruct (is_marker ln).
  - destruct Hin as [-> | Hin]; [now left | right; eauto].
  - destruct skip.
    + right; eauto.
    + destruct Hin as [-> | Hin]; [now left | right; eauto].
Qed.

Lemma ends_lf_nonempty (l : str) : ends_lf l = true -> l <> [].
Proof. intros H ->. discriminate. Qed.

(** Lines that all end with a line feed concatenate to a text that is
    empty or ends with a line feed. *)
Lemma ends_line_concat (ls : list str) :
  Forall (fun l => ends_lf l = true) ls -> ends_line (concat ls) = true.
Proof.
  destruct ls as [|l ls] using rev_ind; [reflexivity |]. clear IHls.
  intros H. apply Forall_app in H. destruct H as [_ H].
  inversion H as [|? ? Hl _]; subst.
  rewrite concat_app. cbn [concat]. rewrite app_nil_r.
  unfold ends_line. rewrite last_chr_app_r by now apply ends_lf_nonempty.
  unfold ends_lf in Hl. destruct (last_chr l); [exact Hl | reflexivity].
Qed.

(** C4, amended.  The NOTE markers toggle a skip flag.  The stripped text
    is the concatenation of the kept lines; every marker line is kept, in
    order; the lines between a marker that opens a block (one preceded by
    an even number of markers) and the next marker are removed, and that
    next marker closes the block; the lines between a marker that closes
    a block and the next marker are kept; and every kept marker line that
    starts the text or follows a line feed is the start of an end event
    of the timeline of the scanned text.  In a transcript whose lines all
    end with a line feed that is every kept marker line. *)
Theorem note_blocks_toggle (text : str) :
  _strip_note_blocks text = concat (strip_lines false (splitlines true text))
  /\ filter is_marker (strip_lines false (splitlines true text)) =
     filter is_marker (splitlines true text)
  /\ (forall pre m1 mid m2 post,
        splitlines true text = pre ++ m1 :: mid ++ m2 :: post ->
        Nat.even (markers pre) = true ->
        is_marker m1 = true -> is_marker m2 = true -> no_marker mid = true ->
        strip_lines false (splitlines true text) =
        strip_lines false pre ++ m1 :: m2 :: strip_lines false post)
  /\ (forall pre m mid post,
        splitlines true text = pre ++ m :: mid ++ post ->
        Nat.odd (markers pre) = true ->
        is_marker m = true -> no_marker mid = true ->
        strip_lines false (splitlines true text) =
        strip_lines false pre ++ m :: mid ++ strip_lines false post)
  /\ (forall k1 m k2,
        strip_lines false (splitlines true text) = k1 ++ m :: k2 ->
        is_marker m = true -> ends_line (concat k1) = true ->
        exists e, In (Event end_ev (length (concat k1)) e)
                     (timeline (prepare text)))
  /\ (Forall (fun l => ends_lf l = true) (splitlines true text) ->
      forall k1 m k2,
        strip_lines false (splitlines true text) = k1 ++ m :: k2 ->
        is_marker m = true ->
        exists e, In (Event end_ev (length (concat k1)) e)
                     (timeline (prepare text))).
Proof.
  assert (Hev : forall k1 m k2,
            strip_lines false (splitlines true text) = k1 ++ m :: k2 ->
            is_marker m = true -> ends_line (concat k1) = true ->
            exists e, In (Event end_ev (length (concat k1)) e)
                         (timeline (prepare text))).
  { intros k1 m k2 Hk Hm Hend.
    unfold prepare, _strip_note_blocks. rewrite Hk, concat_app.
    cbn [concat]. rewrite replace_chr_app.
    rewrite <- (replace_chr_length NBSP SP (concat k1)).
    apply marker_is_end_event.
    + rewrite ends_line_replace. exact Hend.
    + apply marker_prefix_replace, marker_prefix_app.
      apply is_marker_prefix. exact Hm. }
  split; [reflexivity |].
  split; [apply strip_lines_markers |].
  split; [|split; [|split; [exact Hev |]]].
  - intros pre m1 mid m2 post -> Hpre H1 H2 Hmid.
    now apply strip_lines_block.
  - intros pre m mid post -> Hpre Hm Hmid.
    now apply strip_lines_after_close.
  - intros Hlf k1 m k2 Hk Hm. apply (Hev k1 m k2 Hk Hm).
    apply ends_line_concat. apply Forall_forall. intros l Hl.
    rewrite Forall_forall in Hlf. apply Hlf.
    apply (strip_lines_In l _ false). rewrite Hk.
    apply in_or_app. now left.
Qed.

Lemma note_blocks_toggle_witness :
  strip_lines false
    (splitlines true (line "=====" ++ line "a note" ++ line "=====" ++
                      line "  Mr. SMITH. Hi."))
  = strip_lines false [] ++ line "=====" :: line "=====" ::
    strip_lines false [line "  Mr. SMITH. Hi."].
Proof.
  apply (proj1 (proj2 (proj2 (note_blocks_toggle
           (line "=====" ++ line "a note" ++ line "=====" ++
            line "  Mr. SMITH. Hi."))))
           [] (line "=====") [line "a note"] (line "=====")
           [line "  Mr. SMITH. Hi."]); vm_compute; reflexivity.
Defined.

(** C4 as stated fails: the speech line below stands strictly between
    two consecutive marker lines, the second and the third, and it is not
    removed; it even reaches a turn. *)
Lemma note_blocks_counterexample :
  let text := line "=====" ++ line "a note" ++ line "=====" ++
              line "  Mr. SMITH. Kept words." ++ line "=====" in
  splitlines true text =
    [line "====="; line "a note"; line "=====";
     line "  Mr. SMITH. Kept words."; line "====="]
  /\ is_marker (line "=====") = true
  /\ is_marker (line "  Mr. SMITH. Kept words.") = false
  /\ _strip_note_blocks text =
       line "=====" ++ line "=====" ++ line "  Mr. SMITH. Kept words." ++
       line "====="
  /\ scrape text = [(L "Mr. SMITH", L "Kept words.")].
Proof.
  cbv zeta. repeat split; vm_compute; reflexivity.
Qed.

(** ** The artifact stripper *)

Lemma finditer_nil_iff (r : re) (s : str) :
  finditer r s = [] <->
  forall q, q <= length s -> match_len r (cursor_at s q) = None.
Proof.
  split.
  - intros Hnil q Hq.
    destruct (match_len r (cursor_at s q)) as [n|] eqn:E; [|reflexivity].
    destruct (finditer_complete r s q n Hq E) as [H | (a & b & H & _)];
      rewrite Hnil in H; destruct H.
  - intros Hall. destruct (finditer r s) as [|[a b] l] eqn:E; [reflexivity |].
    assert (Hin : In (a, b) (finditer r s)) by (rewrite E; now left).
    apply finditer_sound in Hin. destruct Hin as (Hm & Hab & Hb).
    rewrite Hall in Hm by lia. discriminate.
Qed.

Lemma sub_scan_id (r : re) :
  forall s pre,
    (forall q, length pre <= q -> q <= length (pre ++ s) ->
               match_len r (cursor_at (pre ++ s) q) = None) ->
    sub_scan r (last_chr pre) s 0 = s.
Proof.
  induction s as [|c s IH]; intros pre Hall.
  - simpl. destruct (match_len r (Cursor (last_chr pre) [])) as [[|k]|];
      reflexivity.
  - assert (Hhere : match_len r (Cursor (last_chr pre) (c :: s)) = None).
    { rewrite <- cursor_at_app. apply Hall; [lia |].
      rewrite length_app. lia. }
    cbn [sub_scan]. rewrite Hhere. f_equal.
    rewrite <- (last_chr_app pre c). apply IH.
    intros q Hq1 Hq2. rewrite <- app_assoc. simpl.
    rewrite length_app in Hq1. simpl in Hq1.
    rewrite <- app_assoc in Hq2. simpl in Hq2.
    apply Hall; [lia | exact Hq2].
Qed.

(** Where a pattern has no match, removing its matches changes nothing. *)
Lemma sub_empty_no_match (r : re) (s : str) :
  finditer r s = [] -> sub_empty r s = s.
Proof.
  intros H. unfold sub_empty. apply (sub_scan_id r s []).
  intros q _ Hq. simpl in *. now apply finditer_nil_iff.
Qed.

Lemma sub_scan_In (r : re) (c : ascii) :
  forall s p skip, In c (sub_scan r p s skip) -> In c s.
Proof.
  induction s as [|d s IH]; intros p skip Hin.
  - destruct skip; simpl in Hin.
    + destruct (match_len r (Cursor p [])) as [[|k]|]; exact Hin.
    + exact Hin.
  - destruct skip as [|k]; cbn [sub_scan] in Hin.
    + destruct (match_len r (Cursor p (d :: s))) as [[|k]|].
      * destruct Hin as [-> | Hin]; [now left | right; eauto].
      * right; eauto.
      * destruct Hin as [-> | Hin]; [now left | right; eauto].
    + right; eauto.
Qed.

Lemma sub_scan_skip (r : re) :
  forall w s p,
    sub_scan r p (w ++ s) (length w) = sub_scan r (prev_after p w) s 0.
Proof.
  induction w as [|c w IH]; intros s p; [reflexivity |].
  cbn [app length sub_scan]. apply IH.
Qed.

(** *** The markup-tag pattern *)

Lemma first_occurrence (x : ascii) (l : str) :
  In x l -> exists l1 l2, l = l1 ++ x :: l2 /\ ~ In x l1.
Proof.
  induction l as [|c l IH]; [intros [] |].
  intros Hin. destruct (ascii_dec c x) as [-> | Hne].
  - exists [], l. split; [reflexivity | intros []].
  - destruct Hin as [-> | Hin]; [contradiction |].
    destruct (IH Hin) as (l1 & l2 & -> & Hn).
    exists (c :: l1), l2. split; [reflexivity |].
    intros [E | H]; [contradiction | auto].
Qed.

Lemma none_of_gt (c : ascii) :
  negb (mem_chr c (L ">")) = true <-> c <> ">"%char.
Proof.
  unfold mem_chr. simpl. rewrite orb_false_r, negb_true_iff.
  unfold chr_eqb. split.
  - intros H ->. discriminate.
  - intros H. apply Ascii.eqb_neq. exact H.
Qed.

Lemma tag_elim (st st' : cursor) :
  sem TAG_PATTERN st st' ->
  exists body, rest st = "<"%char :: body ++ ">"%char :: rest st'
               /\ body <> [] /\ ~ In ">"%char body.
Proof.
  unfold TAG_PATTERN. intros H.
  rewrite sem_seqs_cons in H. destruct H as (s1 & H1 & H).
  rewrite sem_seqs_cons in H. destruct H as (s2 & H2 & H).
  rewrite sem_seqs_cons in H. destruct H as (s3 & H3 & H4).
  cbn [seqs] in H4. apply sem_chr in H1, H4.
  destruct H1 as [H1 _], H4 as [H4 _].
  unfold opt, chr in H2. cbn [sem] in H2. apply iter_chr_elim in H2.
  destruct H2 as (w1 & Hw1 & Hall1 & _).
  unfold plus, none_of in H3. cbn [sem] in H3. apply iter_chr_elim in H3.
  destruct H3 as (w2 & Hw2 & Hall2 & Hlen).
  exists (w1 ++ w2). split; [|split].
  - rewrite H1, Hw1, Hw2, H4, <- app_assoc. reflexivity.
  - destruct w2; [simpl in Hlen; lia |]. intros E.
    apply app_eq_nil in E. destruct E; discriminate.
  - intros Hin. apply in_app_or in Hin. rewrite Forall_forall in Hall1, Hall2.
    destruct Hin as [Hin | Hin].
    + apply Hall1 in Hin. discriminate.
    + apply Hall2 in Hin. apply none_of_gt in Hin. contradiction.
Qed.

Lemma tag_intro (p : option ascii) (s : str) :
  tag_at s -> exists st', sem TAG_PATTERN (Cursor p s) st'.
Proof.
  intros (body & tail & -> & Hne & Hno).
  exists (Cursor (Some ">"%char) tail). unfold TAG_PATTERN.
  apply sem_seqs_cons. exists (Cursor (Some "<"%char) (body ++ ">"%char :: tail)).
  split; [apply sem_chr; auto |].
  apply sem_seqs_cons. exists (Cursor (Some "<"%char) (body ++ ">"%char :: tail)).
  split; [unfold opt; cbn [sem]; constructor |].
  apply sem_seqs_cons.
  exists (Cursor (prev_after (Some "<"%char) body) (">"%char :: tail)).
  split.
  - unfold plus, none_of. cbn [sem]. apply iter_chr_intro.
    + apply Forall_forall. intros c Hc. apply none_of_gt. intros ->. auto.
    + destruct body; [contradiction | simpl; lia].
  - cbn [seqs]. apply sem_chr. auto.
Qed.

Lemma tag_match_len (p : option ascii) (s : str) (n : nat) :
  match_len TAG_PATTERN (Cursor p s) = Some n ->
  exists body tail, s = "<"%char :: body ++ ">"%char :: tail
                    /\ body <> [] /\ ~ In ">"%char body
                    /\ n = length ("<"%char :: body ++ [">"%char]).
Proof.
  intros H. apply match_len_sem in H. destruct H as (st' & Hs & Hn).
  apply tag_elim in Hs. destruct Hs as (body & Hr & Hne & Hno).
  simpl in Hr. exists body, (rest st'). repeat split; auto.
  rewrite Hn. cbn [rest]. rewrite Hr. cbn [length]. rewrite !length_app.
  cbn [length]. lia.
Qed.

Lemma no_tag_cons (c : ascii) (s : str) :
  ~ tag_at (c :: s) -> no_tag s -> no_tag (c :: s).
Proof.
  intros Hc Hs pre suf E. destruct pre as [|d pre].
  - simpl in E. subst suf. exact Hc.
  - inversion E; subst. eapply Hs. reflexivity.
Qed.

(** Removing the tags leaves no tag: a removal cannot build a new one,
    since a tag runs up to the first closing bracket. *)
Lemma sub_tag_no_tag (s : str) :
  forall p, no_tag (sub_scan TAG_PATTERN p s 0).
Proof.
  induction s as [s IH] using length_induction. intros p.
  destruct s as [|c s].
  - simpl. destruct (match_len TAG_PATTERN (Cursor p [])) as [[|k]|];
      intros pre suf E; symmetry in E; apply app_eq_nil in E;
      destruct E as [_ ->]; intros (b & t & E & _); discriminate.
  - cbn [sub_scan].
    destruct (match_len TAG_PATTERN (Cursor p (c :: s))) as [n|] eqn:Em.
    + apply tag_match_len in Em.
      destruct Em as (body & tail & Es & Hne & Hno & ->).
      inversion Es; subst c s. cbn [length].
      replace (body ++ ">"%char :: tail) with ((body ++ [">"%char]) ++ tail)
        by (rewrite <- app_assoc; reflexivity).
      rewrite sub_scan_skip. apply IH.
      simpl. rewrite !length_app. simpl. lia.
    + apply no_tag_cons; [|apply IH; simpl; lia].
      intros (body & tail & E & Hne & Hno).
      inversion E as [[Ec Eo]]. subst c.
      assert (Hnot : ~ tag_at ("<"%char :: s)).
      { intros Ht. destruct (tag_intro p _ Ht) as (st' & Hsem).
        apply sem_match_len in Hsem. destruct Hsem as (n & Hn).
        rewrite Hn in Em. discriminate. }
      assert (Hin : In ">"%char s).
      { apply (sub_scan_In TAG_PATTERN _ s (Some "<"%char) 0).
        rewrite Eo. apply in_or_app. right. now left. }
      destruct (first_occurrence _ _ Hin) as (l1 & l2 & -> & Hl1).
      destruct l1 as [|d l1].
      * (* the text after the bracket starts with a closing bracket,
           which is kept, but the body of the tag does not *)
        simpl in Eo. cbn [sub_scan] in Eo.
        destruct (match_len TAG_PATTERN
                    (Cursor (Some "<"%char) (">"%char :: l2))) as [n|] eqn:E2.
        -- apply tag_match_len in E2. destruct E2 as (b & t & E2 & _).
           discriminate.
        -- destruct body as [|b body]; [contradiction |].
           inversion Eo; subst b. apply Hno. now left.
      * apply Hnot. exists (d :: l1), l2. repeat split; auto. discriminate.
Qed.

Lemma no_tag_finditer (s : str) : no_tag s -> finditer TAG_PATTERN s = [].
Proof.
  intros H. apply finditer_nil_iff. intros q Hq.
  destruct (match_len TAG_PATTERN (cursor_at s q)) as [n|] eqn:E;
    [|reflexivity].
  apply tag_match_len in E. destruct E as (body & tail & E & Hne & Hno & _).
  exfalso. apply (H (firstn q s) (skipn q s)).
  - symmetry. apply firstn_skipn.
  - exists body, tail. auto.
Qed.

(** *** The title-tag pattern starts with a markup tag *)

Lemma sem_ci (c : ascii) (st st' : cursor) :
  sem (ci c) st st' ->
  exists x, rest st = x :: rest st' /\ lower_az x = lower_az c.
Proof.
  unfold ci. simpl. intros (x & Hx & He & _). exists x. split; [exact Hx |].
  apply Ascii.eqb_eq. exact He.
Qed.

Lemma sem_lit_ci_list (cs : str) :
  forall st st',
    sem (seqs (map ci cs)) st st' ->
    exists w, rest st = w ++ rest st'
              /\ Forall2 (fun c x => lower_az x = lower_az c) cs w.
Proof.
  induction cs as [|c cs IH]; intros st st' H.
  - simpl in H. subst. exists []. split; [reflexivity | constructor].
  - change (map ci (c :: cs)) with (ci c :: map ci cs) in H.
    rewrite sem_seqs_cons in H. destruct H as (s1 & H1 & H2).
    apply sem_ci in H1. destruct H1 as (x & Hx & Hl).
    apply IH in H2. destruct H2 as (w & Hw & Hall).
    exists (x :: w). split; [rewrite Hx, Hw; reflexivity |].
    constructor; assumption.
Qed.

Lemma lower_az_lt (x : ascii) : lower_az x = "<"%char -> x = "<"%char.
Proof.
  destruct x as [[] [] [] [] [] [] [] []]; vm_compute; intros H;
    try reflexivity; discriminate.
Qed.

Lemma lower_az_gt (x : ascii) : lower_az x = ">"%char -> x = ">"%char.
Proof.
  destruct x as [[] [] [] [] [] [] [] []]; vm_compute; intros H;
    try reflexivity; discriminate.
Qed.

Lemma title_is_tag (st st' : cursor) :
  sem TITLE_PATTERN st st' -> tag_at (rest st).
Proof.
  unfold TITLE_PATTERN. intros H.
  rewrite sem_seqs_cons in H. destruct H as (s1 & H1 & _).
  unfold lit_ci in H1. apply sem_lit_ci_list in H1.
  destruct H1 as (w & Hw & Hall).
  change (L "<title>") with ["<"; "t"; "i"; "t"; "l"; "e"; ">"]%char in Hall.
  repeat match goal with
         | H : Forall2 _ (_ :: _) _ |- _ => inversion H; clear H; subst
         | H : Forall2 _ [] _ |- _ => inversion H; clear H; subst
         end.
  repeat match goal with
         | H : lower_az _ = lower_az "<"%char |- _ =>
             apply lower_az_lt in H; subst
         | H : lower_az _ = lower_az ">"%char |- _ =>
             apply lower_az_gt in H; subst
         end.
  rewrite Hw. eexists [_; _; _; _; _], (rest s1).
  split; [reflexivity |]. split; [discriminate |].
  intros Hin. simpl in Hin.
  repeat match goal with
         | H : _ \/ _ |- _ => destruct H
         | H : False |- _ => destruct H
         end; subst; discriminate.
Qed.

Lemma no_tag_no_title (s : str) :
  no_tag s -> finditer TITLE_PATTERN s = [].
Proof.
  intros H. apply finditer_nil_iff. intros q Hq.
  destruct (match_len TITLE_PATTERN (cursor_at s q)) as [n|] eqn:E;
    [|reflexivity].
  apply match_len_sem in E. destruct E as (st' & Hs & _).
  apply title_is_tag in Hs. exfalso.
  apply (H (firstn q s) (skipn q s)); [symmetry; apply firstn_skipn | exact Hs].
Qed.

Lemma clean_extraneous_last (text : str) :
  exists x, _clean_extraneous text = sub_empty TAG_PATTERN x.
Proof.
  unfold _clean_extraneous, EXTRAS_PATTERNS. cbn [fold_left].
  eexists. reflexivity.
Qed.

Lemma strip_by_infix (p : ascii -> bool) (s : str) :
  exists a b, s = a ++ strip_by p s ++ b.
Proof.
  unfold strip_by, lstrip_by, rstrip_by.
  destruct (dropWhile_suffix p s) as (a & Ha & _).
  destruct (dropWhile_suffix p (rev (dropWhile p s))) as (u & Hu & _).
  exists a, (rev u). rewrite <- rev_app_distr, <- Hu, rev_involutive.
  exact Ha.
Qed.

Lemma tag_at_app (s b : str) : tag_at s -> tag_at (s ++ b).
Proof.
  intros (body & tail & -> & Hne & Hno). exists body, (tail ++ b).
  split; [|auto]. cbn [app]. rewrite <- app_assoc. reflexivity.
Qed.

Lemma no_tag_infix (a x b : str) : no_tag (a ++ x ++ b) -> no_tag x.
Proof.
  intros H pre suf -> Ht. apply (H (a ++ pre) (suf ++ b)).
  - rewrite <- !app_assoc. reflexivity.
  - now apply tag_at_app.
Qed.

(** The speech of a turn, cleaned and stripped, holds no markup tag. *)
Lemma clean_speech_no_tag (raw : str) : no_tag (clean_speech raw).
Proof.
  unfold clean_speech, strip.
  destruct (strip_by_infix isspace (_clean_extraneous (strip_by isspace raw)))
    as (a & b & E).
  apply (no_tag_infix a _ b). rewrite <- E.
  destruct (clean_extraneous_last (strip_by isspace raw)) as (x & ->).
  apply sub_tag_no_tag.
Qed.

(** ** What the stripper leaves (C5) *)

(** C5, amended.  The stripper applies each of its seven patterns once, in
    the order of the list, each application removing the matches found in
    one scan from left to right.  For every input the text it returns
    holds no match of the markup-tag pattern and none of the title-tag
    pattern, and removing these two once more changes nothing.  The same
    holds of the speech of every turn [scrape] emits. *)
Theorem clean_extraneous_tags (text : str) :
  _clean_extraneous text =
    sub_empty TAG_PATTERN
      (sub_empty TITLE_PATTERN
        (sub_empty PAGE_PATTERN
          (sub_empty ROLL_PATTERN
            (sub_empty TIME_PATTERN
              (sub_empty RULE_PATTERN
                (sub_empty PERMISSION_PATTERN text))))))
  /\ finditer TAG_PATTERN (_clean_extraneous text) = []
  /\ finditer TITLE_PATTERN (_clean_extraneous text) = []
  /\ sub_empty TAG_PATTERN (_clean_extraneous text) = _clean_extraneous text
  /\ sub_empty TITLE_PATTERN (_clean_extraneous text) = _clean_extraneous text
  /\ (forall transcript,
        Forall (fun t => finditer TAG_PATTERN (speech t) = []
                         /\ finditer TITLE_PATTERN (speech t) = [])
               (scrape_turns transcript)).
Proof.
  split; [reflexivity |].
  assert (H : no_tag (_clean_extraneous text)).
  { destruct (clean_extraneous_last text) as (x & ->). apply sub_tag_no_tag. }
  pose proof (no_tag_finditer _ H) as H1.
  pose proof (no_tag_no_title _ H) as H2.
  do 4 (split; [auto using sub_empty_no_match |]).
  intros transcript. unfold scrape_turns.
  eapply Forall_impl; [|apply assemble_speech].
  intros t ->. split.
  - apply no_tag_finditer, clean_speech_no_tag.
  - apply no_tag_no_title, clean_speech_no_tag.
Qed.

(** C5 as stated fails for the page-break pattern: removing the inner
    annotation joins its neighbours into a new one, which the single
    application leaves in the text; a second run of the stripper removes
    it. *)
Lemma clean_extraneous_counterexample :
  _clean_extraneous (L "[[Page [[Page 1]]1]]") = L "[[Page 1]]"
  /\ finditer PAGE_PATTERN (_clean_extraneous (L "[[Page [[Page 1]]1]]"))
     = [(0, 10)]
  /\ _clean_extraneous (_clean_extraneous (L "[[Page [[Page 1]]1]]")) = [].
Proof. repeat split; vm_compute; reflexivity. Qed.

(** ** The titles [find_titles] returns are ordered *)

Lemma titles_ordered_snoc (titles : list title_block) (t : title_block) :
  titles_ordered titles = true ->
  last_end titles <= tb_start t -> tb_start t <= tb_end t ->
  titles_ordered (titles ++ [t]) = true.
Proof.
  induction titles as [|a titles IH]; intros Ho Hl Ht.
  - simpl. rewrite !andb_true_r. now apply Nat.leb_le.
  - cbn [titles_ordered] in Ho.
    apply andb_prop in Ho. destruct Ho as [Ho Hrest].
    apply andb_prop in Ho. destruct Ho as [Ha Hnext].
    destruct titles as [|b titles].
    + unfold last_end in Hl. simpl in Hl. simpl. rewrite Ha, !andb_true_r.
      apply andb_true_intro. split; now apply Nat.leb_le.
    + change ((a :: b :: titles) ++ [t]) with (a :: (b :: titles) ++ [t]).
      change ((b :: titles) ++ [t]) with (b :: titles ++ [t]) at 1.
      cbn [titles_ordered]. rewrite Ha, Hnext. cbn [andb].
      change (b :: titles ++ [t]) with ((b :: titles) ++ [t]).
      apply IH; auto.
      unfold last_end in *. cbn [rev] in Hl |- *.
      destruct (rev titles ++ [b]) as [|x l] eqn:E.
      * destruct (rev titles); discriminate.
      * exact Hl.
Qed.

Lemma last_end_snoc (titles : list title_block) (t : title_block) :
  last_end (titles ++ [t]) = tb_end t.
Proof. unfold last_end. rewrite rev_app_distr. reflexivity. Qed.

Lemma block_end_snoc (block : list block_line) (x : block_line) :
  block_end (block ++ [x]) = snd x.
Proof. unfold block_end. rewrite last_last. reflexivity. Qed.

Lemma close_block_inv (titles : list title_block) (block : list block_line)
                      (block_start off : nat) :
  titles_ordered titles = true ->
  last_end titles <= block_start ->
  block_start <= block_end block -> block_end block <= off ->
  titles_ordered (close_block titles block block_start) = true
  /\ last_end (close_block titles block block_start) <= off.
Proof.
  intros Ho Hl Hs He. unfold close_block.
  destruct (courtesy_start (lstrip (block_text block))).
  - split; [exact Ho | lia].
  - split.
    + apply titles_ordered_snoc; auto.
    + rewrite last_end_snoc. exact He.
Qed.

Lemma ft_step_inv (st : ft_state) (ln : str) (after : list str) :
  ft_inv st -> ft_inv (ft_step st ln after).
Proof.
  destruct st as [titles block bs off]. unfold ft_inv, ft_step.
  cbn [ft_titles ft_block ft_block_start ft_offset].
  intros [Ho Hb].
  assert (Happend :
            forall bs',
              (match block with
               | [] => bs' = off
               | _ :: _ => bs' = bs
               end) ->
              titles_ordered titles = true /\
              match block ++ [(ln, off, off + length ln)] with
              | [] => last_end titles <= off + length ln
              | _ :: _ =>
                  last_end titles <= bs' /\
                  bs' <= block_end (block ++ [(ln, off, off + length ln)]) /\
                  block_end (block ++ [(ln, off, off + length ln)])
                  <= off + length ln
              end).
  { intros bs' Hbs'. split; [exact Ho |].
    rewrite block_end_snoc. cbn [snd].
    destruct block as [|x block]; cbn [app].
    - subst bs'. lia.
    - subst bs'. destruct Hb as (H1 & H2 & H3). lia. }
  assert (Hclose :
            titles_ordered
              (if is_nil block then titles else close_block titles block bs)
            = true /\
            last_end
              (if is_nil block then titles else close_block titles block bs)
            <= off + length ln).
  { destruct block as [|x block]; cbn [is_nil].
    - split; [exact Ho | lia].
    - destruct Hb as (H1 & H2 & H3).
      destruct (close_block_inv titles (x :: block) bs off Ho H1 H2 H3).
      split; [auto | lia]. }
  destruct (is_nil (strip ln) && negb (is_nil block)) eqn:Eblank.
  - apply andb_prop in Eblank. destruct Eblank as [_ Hne].
    destruct block as [|x block]; [discriminate |].
    destruct (lookahead_ok after);
      cbn [ft_titles ft_block ft_block_start ft_offset].
    + apply (Happend bs). reflexivity.
    + exact Hclose.
  - destruct (exclude_line ln);
      cbn [ft_titles ft_block ft_block_start ft_offset]; [exact Hclose |].
    destruct (is_strong (strip ln));
      cbn [ft_titles ft_block ft_block_start ft_offset].
    + apply Happend. destruct block; reflexivity.
    + destruct (negb (is_nil block) && is_short_final (strip ln)) eqn:Efin;
        cbn [ft_titles ft_block ft_block_start ft_offset]; [|exact Hclose].
      apply andb_prop in Efin. destruct Efin as [Hne _].
      destruct block as [|x block]; [discriminate |].
      apply (Happend bs). reflexivity.
Qed.

Lemma ft_loop_inv (lines : list str) :
  forall st, ft_inv st -> ft_inv (ft_loop st lines).
Proof.
  induction lines as [|ln lines IH]; intros st H; [exact H |].
  cbn [ft_loop]. apply IH. now apply ft_step_inv.
Qed.

(** The title blocks [find_titles] finds satisfy the order that the
    section mapper relies on. *)
Theorem find_titles_ordered (text : str) :
  titles_ordered (find_titles text) = true.
Proof.
  unfold find_titles.
  assert (H : ft_inv (ft_loop (FT [] [] 0 0) (splitlines true text))).
  { apply ft_loop_inv. split; [reflexivity | simpl; unfold last_end; simpl; lia]. }
  destruct (ft_loop (FT [] [] 0 0) (splitlines true text))
    as [titles block bs off].
  unfold ft_inv in H. cbn [ft_titles ft_block ft_block_start ft_offset] in *.
  destruct H as [Ho Hb]. destruct block as [|x block]; cbn [is_nil].
  - exact Ho.
  - destruct Hb as (H1 & H2 & H3).
    apply (close_block_inv titles (x :: block) bs off Ho H1 H2 H3).
Qed.

(** ** The section mapper *)

Lemma extract_sections_nth (text : str) :
  forall titles i,
    nth_error (extract_sections text titles) i = section_of text titles i.
Proof.
  unfold section_of.
  induction titles as [|t titles IH]; intros i.
  - destruct i; reflexivity.
  - destruct i as [|i].
    + simpl. destruct titles; reflexivity.
    + cbn [extract_sections nth_error]. apply IH.
Qed.

Lemma extract_sections_titles (text : str) (titles : list title_block) :
  Forall (fun s => strip (sec_title s) = sec_title s)
         (extract_sections text titles).
Proof.
  induction titles as [|t titles IH]; simpl; constructor; [|exact IH].
  simpl. apply strip_idem.
Qed.

Lemma sections_after (text : str) :
  forall titles t,
    titles_ordered (t :: titles) = true ->
    Forall (fun s => tb_end t <= sec_start s)
           (extract_sections text (t :: titles)).
Proof.
  induction titles as [|t' titles IH]; intros t Ho.
  - simpl. repeat constructor.
  - cbn [titles_ordered] in Ho.
    apply andb_prop in Ho. destruct Ho as [Ho Hrest].
    apply andb_prop in Ho. destruct Ho as [Hse Hnext].
    apply Nat.leb_le in Hnext.
    pose proof (IH t' Hrest) as Hall.
    assert (Ht' : tb_start t' <= tb_end t').
    { cbn [titles_ordered] in Hrest. apply andb_prop in Hrest.
      destruct Hrest as [Hr _]. apply andb_prop in Hr. destruct Hr as [Hr _].
      now apply Nat.leb_le. }
    change (extract_sections text (t :: t' :: titles))
      with (Sec (strip (tb_text t)) (tb_end t) (tb_start t')
            :: extract_sections text (t' :: titles)).
    constructor; [simpl; lia |].
    eapply Forall_impl; [|exact Hall]. simpl. intros; lia.
Qed.

(** Ordered title blocks give pairwise disjoint sections. *)
Lemma sections_disjoint (text : str) :
  forall titles,
    titles_ordered titles = true ->
    StronglySorted (fun a b => sec_end a <= sec_start b)
                   (extract_sections text titles).
Proof.
  induction titles as [|t titles IH]; intros Ho; [constructor |].
  assert (Hrest : titles_ordered titles = true).
  { cbn [titles_ordered] in Ho. apply andb_prop in Ho. tauto. }
  destruct titles as [|t' titles].
  - simpl. repeat constructor.
  - change (extract_sections text (t :: t' :: titles))
      with (Sec (strip (tb_text t)) (tb_end t) (tb_start t')
            :: extract_sections text (t' :: titles)).
    constructor; [auto |].
    pose proof (sections_after text titles t' Hrest) as Hall.
    assert (Ht' : tb_start t' <= tb_end t').
    { cbn [titles_ordered] in Hrest. apply andb_prop in Hrest.
      destruct Hrest as [Hr _]. apply andb_prop in Hr. destruct Hr as [Hr _].
      now apply Nat.leb_le. }
    eapply Forall_impl; [|exact Hall]. simpl. intros; lia.
Qed.

Lemma sorted_sections_unique (sections : list section) (pos : nat) :
  StronglySorted (fun a b => sec_end a <= sec_start b) sections ->
  forall i j s1 s2,
    nth_error sections i = Some s1 -> nth_error sections j = Some s2 ->
    in_section s1 pos = true -> in_section s2 pos = true -> i = j.
Proof.
  induction 1 as [|s sections Hs IH Hall]; intros i j s1 s2 H1 H2 P1 P2.
  - destruct i; discriminate.
  - rewrite Forall_forall in Hall.
    unfold in_section in *.
    apply andb_prop in P1, P2. destruct P1 as [A1 B1], P2 as [A2 B2].
    apply Nat.leb_le in A1, A2. apply Nat.ltb_lt in B1, B2.
    destruct i as [|i], j as [|j]; simpl in H1, H2.
    + reflexivity.
    + inversion H1; subst. apply nth_error_In in H2. apply Hall in H2. lia.
    + inversion H2; subst. apply nth_error_In in H1. apply Hall in H1. lia.
    + f_equal. apply (IH i j s1 s2); auto; unfold in_section;
        apply andb_true_intro; split;
        try (apply Nat.leb_le; assumption); apply Nat.ltb_lt; assumption.
Qed.

Lemma assigned_title_first (sections : list section) (pos : nat) :
  (exists i s, nth_error sections i = Some s /\ in_section s pos = true
               /\ assigned_title sections pos = strip (sec_title s)
               /\ forall k s', k < i -> nth_error sections k = Some s' ->
                               in_section s' pos = false)
  \/ (assigned_title sections pos = []
      /\ forall s, In s sections -> in_section s pos = false).
Proof.
  induction sections as [|s sections IH].
  - right. split; [reflexivity | intros s []].
  - cbn [assigned_title]. destruct (in_section s pos) eqn:E.
    + left. exists 0, s. repeat split; auto. intros k s' Hk. lia.
    + destruct IH as [(i & s0 & Hn & Hp & Ha & Hlt) | (Ha & Hnone)].
      * left. exists (S i), s0. repeat split; auto.
        intros [|k] s' Hk Hs'; simpl in Hs'.
        -- inversion Hs'; subst. exact E.
        -- apply (Hlt k); [lia | exact Hs'].
      * right. split; [exact Ha |]. intros s' [<- | Hin]; auto.
Qed.

(** ** One title per turn (C3) *)

(** C3.  For every transcript and ordered list of title blocks, section
    [i] has the stripped text of title block [i] as title and spans from
    the end of block [i] to the start of block [i+1], or to the end of the
    transcript for the last block.  A turn at offset [pos] lies in at most
    one section (half-open spans: [sec_start <= pos < sec_end], so a turn
    that starts exactly at the start of a section lies in it), it is
    assigned the title of the section it lies in, and the empty title if
    it lies in none.  Each turn gets exactly one title.  The title blocks
    that [find_titles] returns are ordered in this sense. *)
Theorem title_assignment (text : str) (titles : list title_block) :
  titles_ordered titles = true ->
  (forall i, nth_error (extract_sections text titles) i =
             section_of text titles i)
  /\ (forall pos i j s1 s2,
        nth_error (extract_sections text titles) i = Some s1 ->
        nth_error (extract_sections text titles) j = Some s2 ->
        in_section s1 pos = true -> in_section s2 pos = true -> i = j)
  /\ (forall pos s,
        In s (extract_sections text titles) -> in_section s pos = true ->
        assigned_title (extract_sections text titles) pos = sec_title s)
  /\ (forall pos,
        (forall s, In s (extract_sections text titles) ->
                   in_section s pos = false) ->
        assigned_title (extract_sections text titles) pos = [])
  /\ (forall speeches,
        assigned_titles text titles speeches =
          map (assigned_title (extract_sections text titles))
              (row_offsets 0 speeches)
        /\ length (assigned_titles text titles speeches) = length speeches)
  /\ titles_ordered (find_titles text) = true.
Proof.
  intros Ho.
  pose proof (sections_disjoint text titles Ho) as Hd.
  split; [apply extract_sections_nth |].
  split; [intros pos; apply sorted_sections_unique; exact Hd |].
  split; [|split].
  - intros pos s Hin Hp.
    destruct (assigned_title_first (extract_sections text titles) pos)
      as [(i & s0 & Hn & Hp0 & Ha & _) | (_ & Hnone)].
    + apply In_nth_error in Hin. destruct Hin as (j & Hj).
      assert (i = j) by (eapply sorted_sections_unique; eauto). subst j.
      rewrite Hn in Hj. inversion Hj; subst s0. rewrite Ha.
      pose proof (extract_sections_titles text titles) as Hst.
      rewrite Forall_forall in Hst. apply Hst.
      eapply nth_error_In; eauto.
    + rewrite (Hnone s Hin) in Hp. discriminate.
  - intros pos Hnone.
    destruct (assigned_title_first (extract_sections text titles) pos)
      as [(i & s0 & Hn & Hp0 & _) | (Ha & _)]; [|exact Ha].
    apply nth_error_In in Hn. rewrite (Hnone s0 Hn) in Hp0. discriminate.
  - split; [|apply find_titles_ordered].
    intros speeches. split; [reflexivity |].
    unfold assigned_titles. rewrite length_map.
    generalize 0. induction speeches as [|sp speeches IH]; intros n;
      simpl; auto.
Qed.

Lemma title_assignment_witness :
  assigned_title
    (extract_sections (L "TITLE ONE" ++ [LF] ++ L "first text" ++ [LF] ++
                       L "TITLE TWO" ++ [LF] ++ L "second text")
       [Title (line "TITLE ONE") 0 10; Title (line "TITLE TWO") 21 31]) 10
  = L "TITLE ONE".
Proof.
  apply (proj1 (proj2 (proj2 (title_assignment
           (L "TITLE ONE" ++ [LF] ++ L "first text" ++ [LF] ++
            L "TITLE TWO" ++ [LF] ++ L "second text")
           [Title (line "TITLE ONE") 0 10; Title (line "TITLE TWO") 21 31]
           eq_refl))) 10 (Sec (L "TITLE ONE") 10 21)).
  - vm_compute. left. reflexivity.
  - reflexivity.
Defined.

(** ** The title block detector *)

Lemma next_nonblank_spec (after : list str) (l : str) :
  next_nonblank after = Some l <->
  exists blanks rest,
    after = blanks ++ l :: rest
    /\ Forall (fun b => strip b = []) blanks
    /\ strip l <> [].
Proof.
  induction after as [|a after IH]; simpl.
  - split; [discriminate |].
    intros (blanks & rest & E & _). destruct blanks; discriminate.
  - destruct (strip a) as [|c s] eqn:Ea; cbn [is_nil].
    + rewrite IH. split.
      * intros (blanks & rest & -> & Hb & Hl).
        exists (a :: blanks), rest. repeat split; auto.
      * intros (blanks & rest & E & Hb & Hl).
        destruct blanks as [|b blanks].
        -- simpl in E. inversion E; subst. contradiction.
        -- inversion E; subst. inversion Hb; subst.
           exists blanks, rest. auto.
    + split.
      * intros H. inversion H; subst. exists [], after.
        repeat split; auto. rewrite Ea. discriminate.
      * intros (blanks & rest & E & Hb & Hl).
        destruct blanks as [|b blanks].
        -- simpl in E. inversion E; subst. reflexivity.
        -- inversion E; subst. inversion Hb as [|? ? Hb0 _]; subst.
           rewrite Hb0 in Ea. discriminate.
Qed.

Lemma pct_ok_spec (line : str) :
  pct_ok line = true <-> (6 # 10 <= percent_uppercase_alpha line skip_words)%Q.
Proof. apply Qle_bool_iff. Qed.

(** The look-ahead succeeds exactly when, past the blank lines, there is
    a line with at least 8 letters of which (skip words apart) at least
    60% are upper case. *)
Lemma lookahead_ok_spec (after : list str) :
  lookahead_ok after = true <->
  exists blanks l rest,
    after = blanks ++ l :: rest
    /\ Forall (fun b => strip b = []) blanks
    /\ strip l <> []
    /\ 8 <= alpha_count (strip l)
    /\ (6 # 10 <= percent_uppercase_alpha (strip l) skip_words)%Q.
Proof.
  unfold lookahead_ok. split.
  - destruct (next_nonblank after) as [l|] eqn:E; [|discriminate].
    intros H. apply andb_prop in H. destruct H as [H8 Hp].
    apply next_nonblank_spec in E. destruct E as (blanks & rest & E & Hb & Hl).
    exists blanks, l, rest. repeat split; auto.
    + now apply Nat.leb_le.
    + now apply pct_ok_spec.
  - intros (blanks & l & rest & E & Hb & Hl & H8 & Hp).
    assert (En : next_nonblank after = Some l).
    { apply next_nonblank_spec. eauto. }
    rewrite En. apply andb_true_intro. split.
    + now apply Nat.leb_le.
    + now apply pct_ok_spec.
Qed.

(** A heading-like line passes the look-ahead test; the converse fails,
    since the look-ahead does not count the words. *)
Lemma is_strong_lookahead (stripped : str) :
  is_strong stripped = true ->
  (8 <=? alpha_count stripped) && pct_ok stripped = true.
Proof.
  unfold is_strong. intros H.
  apply andb_prop in H. destruct H as [H H8].
  apply andb_prop in H. destruct H as [_ Hp].
  rewrite H8, Hp. reflexivity.
Qed.

(** ** The look-ahead at a blank line (C6) *)

(** C6, amended.  At a blank line met while a block is open, the blank
    line is appended to the block and the scan goes on exactly when the
    look-ahead succeeds: past any further blank lines there is a line
    that, stripped, has at least 8 letters and at least 60% of its
    counted letters in upper case.  The number of words of that line is
    not tested.  Otherwise the block is closed at the blank line: it is
    emitted unless its text starts with a courtesy title, and the block
    becomes empty.  A heading-like line (at least 2 words with a letter
    as well) passes the look-ahead. *)
Theorem blank_line_lookahead (st : ft_state) (ln : str) (after : list str) :
  strip ln = [] ->
  ft_block st <> [] ->
  ft_loop st (ln :: after) = ft_loop (ft_step st ln after) after
  /\ (lookahead_ok after = true ->
      ft_step st ln after =
      FT (ft_titles st)
         (ft_block st ++ [(ln, ft_offset st, ft_offset st + length ln)])
         (ft_block_start st) (ft_offset st + length ln))
  /\ (lookahead_ok after = false ->
      ft_step st ln after =
      FT (if courtesy_start (lstrip (block_text (ft_block st)))
          then ft_titles st
          else ft_titles st ++
               [Title (block_text (ft_block st)) (ft_block_start st)
                      (block_end (ft_block st))])
         [] (ft_block_start st) (ft_offset st + length ln))
  /\ (lookahead_ok after = true <->
      exists blanks l rest,
        after = blanks ++ l :: rest
        /\ Forall (fun b => strip b = []) blanks
        /\ strip l <> []
        /\ 8 <= alpha_count (strip l)
        /\ (6 # 10 <= percent_uppercase_alpha (strip l) skip_words)%Q)
  /\ (forall blanks l rest,
        after = blanks ++ l :: rest ->
        Forall (fun b => strip b = []) blanks ->
        strip l <> [] ->
        is_strong (strip l) = true ->
        lookahead_ok after = true).
Proof.
  intros Hblank Hblock.
  assert (Hcond : is_nil (strip ln) && negb (is_nil (ft_block st)) = true).
  { rewrite Hblank. destruct (ft_block st); [contradiction | reflexivity]. }
  split; [reflexivity |].
  split; [|split; [|split]].
  - intros Hl. unfold ft_step. rewrite Hcond, Hl. reflexivity.
  - intros Hl. unfold ft_step. rewrite Hcond, Hl. reflexivity.
  - apply lookahead_ok_spec.
  - intros blanks l rest E Hb Hne Hs.
    apply lookahead_ok_spec. exists blanks, l, rest.
    apply is_strong_lookahead in Hs. apply andb_prop in Hs.
    destruct Hs as [H8 Hp].
    repeat split; auto; [now apply Nat.leb_le | now apply pct_ok_spec].
Qed.

Lemma blank_line_lookahead_witness :
  ft_step (FT [] [(line "THE CLIMATE EMERGENCY ACT", 0, 26)] 0 26) [LF]
          [line "OF THE YEAR"; line "some body text here"]
  = FT [] ([(line "THE CLIMATE EMERGENCY ACT", 0, 26)] ++ [([LF], 26, 26 + 1)])
       0 (26 + 1).
Proof.
  apply (proj1 (proj2 (blank_line_lookahead
           (FT [] [(line "THE CLIMATE EMERGENCY ACT", 0, 26)] 0 26) [LF]
           [line "OF THE YEAR"; line "some body text here"]
           eq_refl ltac:(discriminate)))).
  vm_compute. reflexivity.
Defined.

(** C6 as stated fails: the line after the blank line has a single word,
    so it is not heading-like, yet the look-ahead accepts it and the
    blank line stays inside the block. *)
Lemma blank_line_lookahead_counterexample :
  is_strong (strip (line "ADJOURNMENT")) = false
  /\ alpha_words (strip (line "ADJOURNMENT")) = 1
  /\ lookahead_ok [line "ADJOURNMENT"; line "some body text here"] = true
  /\ ft_step (FT [] [(line "THE CLIMATE ACT", 0, 16)] 0 16) [LF]
             [line "ADJOURNMENT"; line "some body text here"]
     = FT [] [(line "THE CLIMATE ACT", 0, 16); ([LF], 16, 17)] 0 17
  /\ find_titles (line "THE CLIMATE ACT" ++ [LF] ++ line "ADJOURNMENT" ++
                  line "some body text here")
     = [Title (line "THE CLIMATE ACT" ++ [LF] ++ line "ADJOURNMENT") 0 29].
Proof. repeat split; vm_compute; reflexivity. Qed.

(** ** The boilerplate fuzzy filter *)

Lemma cps_eqb_eq (a b : list nat) : cps_eqb a b = true <-> a = b.
Proof.
  revert b. induction a as [|x a IH]; intros [|y b]; simpl;
    try (split; [discriminate | discriminate]); [tauto |].
  rewrite andb_true_iff, Nat.eqb_eq, IH. split.
  - intros [-> ->]. reflexivity.
  - intros H. inversion H. auto.
Qed.

Lemma diff_count_refl (a : list nat) : diff_count a a = 0.
Proof.
  induction a as [|x a IH]; simpl; [reflexivity |].
  rewrite Nat.eqb_refl. exact IH.
Qed.

Lemma lev_same_length (a b : list nat) :
  length a = length b ->
  levenshtein_leq1 a b = (diff_count a b <=? 1).
Proof.
  intros Hlen. unfold levenshtein_leq1.
  destruct (cps_eqb a b) eqn:E.
  - apply cps_eqb_eq in E. subst b. rewrite diff_count_refl. reflexivity.
  - rewrite Hlen, Nat.max_id, Nat.min_id, Nat.sub_diag, Nat.eqb_refl.
    reflexivity.
Qed.

Lemma cps_eqb_length (a b : list nat) :
  length a <> length b -> cps_eqb a b = false.
Proof.
  intros H. destruct (cps_eqb a b) eqn:E; [|reflexivity].
  apply cps_eqb_eq in E. subst. contradiction.
Qed.

Lemma exists_delete (a b : list nat) :
  existsb (fun i => cps_eqb (delete_at i b) a) (seq 0 (length b)) = true <->
  exists i, i < length b /\ delete_at i b = a.
Proof.
  rewrite existsb_exists. split.
  - intros (i & Hin & He). apply in_seq in Hin. apply cps_eqb_eq in He.
    exists i. split; [lia | exact He].
  - intros (i & Hi & He). exists i. split; [apply in_seq; lia |].
    now apply cps_eqb_eq.
Qed.

Lemma lev_shorter_longer (a b : list nat) :
  length b = S (length a) ->
  levenshtein_leq1 a b =
    existsb (fun i => cps_eqb (delete_at i b) a) (seq 0 (length b))
  /\ levenshtein_leq1 b a =
    existsb (fun i => cps_eqb (delete_at i b) a) (seq 0 (length b)).
Proof.
  intros Hlen. unfold levenshtein_leq1.
  rewrite (cps_eqb_length a b), (cps_eqb_length b a) by lia.
  destruct (Nat.ltb_spec 1 (Nat.max (length a) (length b)
                            - Nat.min (length a) (length b))); [lia |].
  destruct (Nat.ltb_spec 1 (Nat.max (length b) (length a)
                            - Nat.min (length b) (length a))); [lia |].
  destruct (Nat.eqb_spec (length a) (length b)); [lia |].
  destruct (Nat.eqb_spec (length b) (length a)); [lia |].
  destruct (Nat.ltb_spec (length b) (length a)); [lia |].
  destruct (Nat.ltb_spec (length a) (length b)); [|lia].
  split; reflexivity.
Qed.

Lemma lev_far (a b : list nat) :
  S (length a) < length b ->
  levenshtein_leq1 a b = false /\ levenshtein_leq1 b a = false.
Proof.
  intros Hlen. unfold levenshtein_leq1.
  rewrite (cps_eqb_length a b), (cps_eqb_length b a) by lia.
  destruct (Nat.ltb_spec 1 (Nat.max (length a) (length b)
                            - Nat.min (length a) (length b))); [|lia].
  destruct (Nat.ltb_spec 1 (Nat.max (length b) (length a)
                            - Nat.min (length b) (length a))); [|lia].
  split; reflexivity.
Qed.

Lemma fuzzy_at_length_spec (up : list nat) (len : nat) :
  0 < len ->
  (fuzzy_at_length up len = true <->
   exists i, i + len <= length up
             /\ levenshtein_leq1 (window_clean (window_at up i len)) TARGET
                = true).
Proof.
  intros Hpos. unfold fuzzy_at_length.
  destruct (Nat.leb_spec len 0) as [H0 | _]; [lia |]. cbn [orb].
  destruct (Nat.ltb_spec (length up) len) as [Hshort | Hlong].
  - split; [discriminate |]. intros (i & Hi & _). lia.
  - rewrite existsb_exists. split.
    + intros (i & Hin & Hl). apply in_seq in Hin. exists i. split; [lia | auto].
    + intros (i & Hi & Hl). exists i. split; [apply in_seq; lia | exact Hl].
Qed.

Lemma line_contains_fuzzy_target_spec (line : str) :
  line_contains_fuzzy_target line = true <->
  exists len i,
    In len [T_LEN - 1; T_LEN; T_LEN + 1]
    /\ i + len <= length (upper line)
    /\ levenshtein_leq1 (window_clean (window_at (upper line) i len)) TARGET
       = true.
Proof.
  unfold line_contains_fuzzy_target. rewrite existsb_exists. split.
  - intros (len & Hin & Hf). exists len.
    assert (Hpos : 0 < len).
    { simpl in Hin. destruct Hin as [<- | [<- | [<- | []]]];
        vm_compute; lia. }
    apply (fuzzy_at_length_spec _ _ Hpos) in Hf.
    destruct Hf as (i & Hi & Hl). exists i. auto.
  - intros (len & i & Hin & Hi & Hl). exists len. split; [exact Hin |].
    assert (Hpos : 0 < len).
    { simpl in Hin. destruct Hin as [<- | [<- | [<- | []]]];
        vm_compute; lia. }
    apply (fuzzy_at_length_spec _ _ Hpos). eauto.
Qed.

Lemma diff_count_app (pre u v : list nat) :
  diff_count (pre ++ u) (pre ++ v) = diff_count u v.
Proof.
  induction pre as [|x pre IH]; simpl; [reflexivity |].
  rewrite Nat.eqb_refl. exact IH.
Qed.

Lemma diff_count_0 (a b : list nat) :
  length a = length b -> diff_count a b = 0 -> a = b.
Proof.
  revert b. induction a as [|x a IH]; intros [|y b] Hlen Hd;
    try discriminate; [reflexivity |].
  simpl in Hd. destruct (Nat.eqb_spec x y) as [-> | Hne]; [|discriminate].
  f_equal. apply IH; [simpl in Hlen; lia | exact Hd].
Qed.

Lemma diff_count_le1 (a b : list nat) :
  length a = length b ->
  (diff_count a b <= 1 <->
   a = b \/ exists pre x y post, a = pre ++ x :: post /\ b = pre ++ y :: post).
Proof.
  intros Hlen. split.
  - revert b Hlen. induction a as [|x a IH]; intros [|y b] Hlen Hd;
      try discriminate; [now left |].
    simpl in Hd, Hlen. destruct (Nat.eqb_spec x y) as [-> | Hne].
    + destruct (IH b) as [-> | (pre & u & v & post & -> & ->)];
        [lia | exact Hd | now left |].
      right. exists (y :: pre), u, v, post. auto.
    + right. exists [], x, y, a. split; [reflexivity |].
      simpl. f_equal. symmetry. apply diff_count_0; lia.
  - intros [-> | (pre & x & y & post & -> & ->)].
    + rewrite diff_count_refl. lia.
    + rewrite diff_count_app. simpl. rewrite diff_count_refl.
      destruct (x =? y); lia.
Qed.

Lemma delete_at_middle (pre post : list nat) (x : nat) :
  delete_at (length pre) (pre ++ x :: post) = pre ++ post.
Proof.
  unfold delete_at. induction pre as [|y pre IH]; [reflexivity |].
  cbn [length app firstn skipn]. f_equal. exact IH.
Qed.

Lemma delete_at_split (i : nat) (b : list nat) :
  i < length b ->
  exists pre x post, b = pre ++ x :: post /\ delete_at i b = pre ++ post.
Proof.
  intros Hi.
  destruct (skipn i b) as [|x post] eqn:E.
  - apply (f_equal (@length nat)) in E. rewrite length_skipn in E.
    simpl in E. lia.
  - assert (Hb : b = firstn i b ++ x :: post).
    { rewrite <- E. symmetry. apply firstn_skipn. }
    exists (firstn i b), x, post. split; [exact Hb |].
    rewrite Hb at 1.
    replace i with (length (firstn i b)) at 1
      by (rewrite length_firstn; lia).
    apply delete_at_middle.
Qed.

Lemma lev_longer (a b : list nat) :
  length b = S (length a) ->
  (levenshtein_leq1 a b = true <->
   exists pre x post, b = pre ++ x :: post /\ a = pre ++ post)
  /\ (levenshtein_leq1 b a = true <->
      exists pre x post, b = pre ++ x :: post /\ a = pre ++ post).
Proof.
  intros Hlen. destruct (lev_shorter_longer a b Hlen) as [-> ->].
  rewrite exists_delete.
  assert (H : (exists i, i < length b /\ delete_at i b = a) <->
              exists pre x post, b = pre ++ x :: post /\ a = pre ++ post).
  { split.
    - intros (i & Hi & <-).
      destruct (delete_at_split i b Hi) as (pre & x & post & Hb & Hd).
      exists pre, x, post. auto.
    - intros (pre & x & post & -> & ->). exists (length pre). split.
      + rewrite length_app. simpl. lia.
      + apply delete_at_middle. }
  tauto.
Qed.

(** The test [levenshtein_leq1] decides Levenshtein distance at most 1:
    the strings are equal or one edit apart. *)
Theorem levenshtein_leq1_edit (a b : list nat) :
  levenshtein_leq1 a b = true <-> a = b \/ edit1 a b.
Proof.
  destruct (Nat.lt_trichotomy (length a) (length b)) as [Hlt | [Heq | Hgt]].
  - destruct (Nat.eq_dec (length b) (S (length a))) as [Hs | Hs].
    + rewrite (proj1 (lev_longer a b Hs)). split.
      * intros (pre & x & post & -> & ->). right.
        eapply edit_insert; reflexivity.
      * intros [-> | He]; [lia |].
        destruct He as [pre x y post -> -> | pre x post -> -> | pre x post -> ->].
        -- rewrite !length_app in Hs. simpl in Hs. lia.
        -- rewrite !length_app in Hs. simpl in Hs. lia.
        -- eauto.
    + rewrite (proj1 (lev_far a b ltac:(lia))). split; [discriminate |].
      intros [-> | He]; [lia |].
      destruct He as [pre x y post -> -> | pre x post -> -> | pre x post -> ->];
        rewrite !length_app in *; simpl in *; lia.
  - rewrite (lev_same_length a b Heq), Nat.leb_le, (diff_count_le1 a b Heq).
    split.
    + intros [-> | (pre & x & y & post & -> & ->)]; [now left |].
      right. eapply edit_subst; reflexivity.
    + intros [-> | He]; [now left |].
      destruct He as [pre x y post -> -> | pre x post -> -> | pre x post -> ->].
      * right. eauto 6.
      * rewrite !length_app in Heq. simpl in Heq. lia.
      * rewrite !length_app in Heq. simpl in Heq. lia.
  - destruct (Nat.eq_dec (length a) (S (length b))) as [Hs | Hs].
    + rewrite (proj2 (lev_longer b a Hs)). split.
      * intros (pre & x & post & -> & ->). right.
        eapply edit_delete; reflexivity.
      * intros [-> | He]; [lia |].
        destruct He as [pre x y post -> -> | pre x post -> -> | pre x post -> ->].
        -- rewrite !length_app in Hs. simpl in Hs. lia.
        -- eauto.
        -- rewrite !length_app in Hs. simpl in Hs. lia.
    + rewrite (proj2 (lev_far b a ltac:(lia))). split; [discriminate |].
      intros [-> | He]; [lia |].
      destruct He as [pre x y post -> -> | pre x post -> -> | pre x post -> ->];
        rewrite !length_app in *; simpl in *; lia.
Qed.

(** ** What the filter removes (C7) *)

Lemma upper_cp_no_lower (c : ascii) :
  forallb (fun n => negb ((97 <=? n) && (n <=? 122))) (upper_cp c) = true.
Proof.
  destruct c as [[] [] [] [] [] [] [] []]; vm_compute; reflexivity.
Qed.

Lemma upper_no_lower (line : str) (n : nat) :
  In n (upper line) -> (97 <=? n) && (n <=? 122) = false.
Proof.
  unfold upper. rewrite in_flat_map. intros (c & _ & Hn).
  pose proof (upper_cp_no_lower c) as H. rewrite forallb_forall in H.
  apply H in Hn. now apply negb_true_iff in Hn.
Qed.

Lemma window_clean_letters (w : list nat) :
  (forall n, In n w -> (97 <=? n) && (n <=? 122) = false) ->
  window_clean w = letters_and_spaces w.
Proof.
  intros H. unfold window_clean, letters_and_spaces. apply filter_ext_in.
  intros n Hn. unfold is_letter_cp. rewrite (H n Hn).
  now rewrite orb_false_r.
Qed.

Lemma window_at_middle (pre w post : list nat) :
  window_at (pre ++ w ++ post) (length pre) (length w) = w.
Proof.
  unfold window_at. rewrite skipn_app, skipn_all, Nat.sub_diag.
  cbn [skipn app]. rewrite firstn_app, firstn_all, Nat.sub_diag.
  cbn [firstn]. apply app_nil_r.
Qed.

Lemma window_lengths (len : nat) :
  In len [T_LEN - 1; T_LEN; T_LEN + 1] <-> len = 19 \/ len = 20 \/ len = 21.
Proof.
  change [T_LEN - 1; T_LEN; T_LEN + 1] with [19; 20; 21]. simpl.
  intuition congruence.
Qed.

(** The windows of the upper-cased line, with the letters and spaces
    they hold. *)
Lemma fuzzy_windows (line : str) :
  line_contains_fuzzy_target line = true <->
  exists w,
    window_of w (upper line)
    /\ (letters_and_spaces w = map code (L "CONGRESSIONAL RECORD")
        \/ edit1 (letters_and_spaces w)
                 (map code (L "CONGRESSIONAL RECORD"))).
Proof.
  rewrite line_contains_fuzzy_target_spec. split.
  - intros (len & i & Hin & Hi & Hl).
    exists (window_at (upper line) i len).
    assert (Hw : length (window_at (upper line) i len) = len).
    { unfold window_at. rewrite length_firstn, length_skipn. lia. }
    assert (Hdec : upper line =
                   firstn i (upper line) ++ window_at (upper line) i len
                   ++ skipn len (skipn i (upper line))).
    { unfold window_at. now rewrite !firstn_skipn. }
    split.
    + split; [eauto |]. rewrite Hw. now apply window_lengths.
    + apply levenshtein_leq1_edit in Hl.
      rewrite window_clean_letters in Hl; [exact Hl |].
      intros n Hn. apply (upper_no_lower line). rewrite Hdec.
      apply in_or_app. right. apply in_or_app. now left.
  - intros (w & ((pre & post & Hup) & Hlen) & Hm).
    exists (length w), (length pre). split; [now apply window_lengths |].
    split; [rewrite Hup, !length_app; lia |].
    rewrite Hup, window_at_middle. apply levenshtein_leq1_edit.
    rewrite window_clean_letters; [exact Hm |].
    intros n Hn. apply (upper_no_lower line). rewrite Hup.
    apply in_or_app. right. apply in_or_app. now left.
Qed.

Lemma upper_cp_ascii (c : ascii) :
  code c < 128 -> upper_cp c = [ascii_upper c].
Proof.
  destruct c as [[] [] [] [] [] [] [] []]; vm_compute; intros H;
    first [reflexivity | lia].
Qed.

Lemma upper_ascii (line : str) :
  Forall (fun c => code c < 128) line -> upper line = map ascii_upper line.
Proof.
  induction 1 as [|c line Hc _ IH]; [reflexivity |].
  unfold upper in *. cbn [flat_map map]. rewrite IH, (upper_cp_ascii c Hc).
  reflexivity.
Qed.

Lemma letter_upper (c : ascii) :
  is_letter_cp (ascii_upper c) || (ascii_upper c =? 32)
  = is_alpha_az c || chr_eqb c SP.
Proof.
  destruct c as [[] [] [] [] [] [] [] []]; vm_compute; reflexivity.
Qed.

Lemma letters_map_upper (w : str) :
  letters_and_spaces (map ascii_upper w)
  = map ascii_upper (letters_and_spaces_of w).
Proof.
  unfold letters_and_spaces, letters_and_spaces_of.
  induction w as [|c w IH]; [reflexivity |]. cbn [map filter].
  rewrite letter_upper, IH.
  destruct (is_alpha_az c || chr_eqb c SP); reflexivity.
Qed.

(** The same for a line of ASCII characters, in terms of the line
    itself. *)
Lemma fuzzy_windows_ascii (line : str) :
  Forall (fun c => code c < 128) line ->
  (line_contains_fuzzy_target line = true <->
   exists w,
     window_of w line
     /\ (map ascii_upper (letters_and_spaces_of w)
         = map code (L "CONGRESSIONAL RECORD")
         \/ edit1 (map ascii_upper (letters_and_spaces_of w))
                  (map code (L "CONGRESSIONAL RECORD")))).
Proof.
  intros Hascii. rewrite fuzzy_windows, (upper_ascii line Hascii). split.
  - intros (w' & ((pre' & post' & Hup) & Hlen) & Hm).
    apply map_eq_app in Hup. destruct Hup as (pre & r & -> & _ & Hr).
    apply map_eq_app in Hr. destruct Hr as (w & post & -> & <- & _).
    exists w. rewrite length_map in Hlen. rewrite letters_map_upper in Hm.
    split; [split; eauto | exact Hm].
  - intros (w & ((pre & post & ->) & Hlen) & Hm).
    exists (map ascii_upper w). unfold window_of.
    rewrite !map_app, length_map, letters_map_upper.
    split; [split; eauto | exact Hm].
Qed.

(** C7.  The filter keeps the lines for which [line_contains_fuzzy_target]
    is false and removes the others whole.  That test holds of a line
    exactly when, for a window length [T-1], [T] or [T+1] ([T = 20], the
    length of the target phrase) and an offset at which a window of that
    length fits in the upper-cased line, the window without its
    characters other than [A-Z] and the space passes [levenshtein_leq1]
    against the target.  [levenshtein_leq1] holds of two strings of equal
    length exactly when they differ in at most one position, of two
    strings whose lengths differ by one exactly when deleting one
    character of the longer gives the shorter, and of no strings whose
    lengths differ by more; altogether it holds exactly when the strings
    are equal or one edit apart.

    Stated on the text itself: a line is removed exactly when some
    run of 19, 20 or 21 consecutive characters of the upper-cased
    line, reduced to its letters and spaces, is the phrase
    CONGRESSIONAL RECORD or one substitution, deletion or insertion away
    from it.  The letters are the ASCII letters: upper-casing leaves no
    lower-case ASCII letter, and every other character, an accented
    letter as well as a digit or a punctuation mark, is dropped from the
    window.  On a line of ASCII characters upper-casing turns [a-z] into
    [A-Z] and changes nothing else, so that the windows can be taken
    from the line itself and upper-cased after the reduction.

    The line with one flipped letter of scenario C is removed; so is a
    line that holds the phrase in lower case, with a flipped letter and
    a comma, in its middle, and so are the phrase without its last
    letter and the phrase with a letter doubled.  A line with two
    flipped letters is kept,
    and so is a line that spells the phrase with a hyphen after every
    letter: the reduction is applied to each window, not to the line. *)
Theorem fuzzy_filter_spec :
  (forall text,
     clean_speech_text text =
     join [LF] (filter keep_line (splitlines false text)))
  /\ (forall text line,
        In line (filter keep_line (splitlines false text)) <->
        In line (splitlines false text)
        /\ line_contains_fuzzy_target line = false)
  /\ (forall line,
        line_contains_fuzzy_target line = true <->
        exists len i,
          In len [T_LEN - 1; T_LEN; T_LEN + 1]
          /\ i + len <= length (upper line)
          /\ levenshtein_leq1
               (window_clean (window_at (upper line) i len)) TARGET = true)
  /\ (forall a b,
        length a = length b ->
        (levenshtein_leq1 a b = true <-> diff_count a b <= 1))
  /\ (forall a b,
        length b = S (length a) ->
        (levenshtein_leq1 a b = true <->
         exists i, i < length b /\ delete_at i b = a)
        /\ (levenshtein_leq1 b a = true <->
            exists i, i < length b /\ delete_at i b = a))
  /\ (forall a b,
        S (length a) < length b ->
        levenshtein_leq1 a b = false /\ levenshtein_leq1 b a = false)
  /\ (forall a b, levenshtein_leq1 a b = true <-> a = b \/ edit1 a b)
  /\ T_LEN = 20
  /\ line_contains_fuzzy_target (L "CONGRESSIOVAL RECORD") = true
  /\ clean_speech_text (line "Mr. President," ++ line "CONGRESSIOVAL RECORD"
                        ++ L "I rise today.")
     = line "Mr. President," ++ L "I rise today."
  /\ (forall line,
        line_contains_fuzzy_target line = true <->
        exists w,
          window_of w (upper line)
          /\ (letters_and_spaces w = map code (L "CONGRESSIONAL RECORD")
              \/ edit1 (letters_and_spaces w)
                       (map code (L "CONGRESSIONAL RECORD"))))
  /\ (forall line n,
        In n (upper line) -> (97 <=? n) && (n <=? 122) = false)
  /\ (forall line,
        Forall (fun c => code c < 128) line ->
        upper line =
        map (fun c => if is_lower_az c then code c - 32 else code c) line)
  /\ (forall line,
        Forall (fun c => code c < 128) line ->
        (line_contains_fuzzy_target line = true <->
         exists w,
           window_of w line
           /\ (map ascii_upper (letters_and_spaces_of w)
               = map code (L "CONGRESSIONAL RECORD")
               \/ edit1 (map ascii_upper (letters_and_spaces_of w))
                        (map code (L "CONGRESSIONAL RECORD")))))
  /\ line_contains_fuzzy_target
       (L "from the Congressioval, Record of May 3") = true
  /\ line_contains_fuzzy_target (L "the congressional record") = true
  /\ line_contains_fuzzy_target (L "CONGRESSIONAL RECOR") = true
  /\ line_contains_fuzzy_target (L "CONGRESSIONNAL RECORD") = true
  /\ line_contains_fuzzy_target (L "CONGRESSIOVAL RECARD") = false
  /\ line_contains_fuzzy_target
       (L "C-O-N-G-R-E-S-S-I-O-N-A-L R-E-C-O-R-D") = false
  /\ line_contains_fuzzy_target (L "Congress shall make no law.") = false
  /\ clean_speech_text
       (line "Mr. President," ++ line "from the Congressioval, Record of May 3"
        ++ line "C-O-N-G-R-E-S-S-I-O-N-A-L R-E-C-O-R-D" ++ L "I rise today.")
     = line "Mr. President," ++ line "C-O-N-G-R-E-S-S-I-O-N-A-L R-E-C-O-R-D"
       ++ L "I rise today.".
Proof.
  split; [reflexivity |].
  split.
  { intros text ln. rewrite filter_In. unfold keep_line.
    rewrite negb_true_iff. reflexivity. }
  split; [apply line_contains_fuzzy_target_spec |].
  split.
  { intros a b Hlen. rewrite (lev_same_length a b Hlen). apply Nat.leb_le. }
  split.
  { intros a b Hlen. destruct (lev_shorter_longer a b Hlen) as [-> ->].
    split; apply exists_delete. }
  split; [apply lev_far |].
  split; [apply levenshtein_leq1_edit |].
  split; [reflexivity |].
  split; [vm_compute; reflexivity |].
  split; [vm_compute; reflexivity |].
  split; [apply fuzzy_windows |].
  split; [apply upper_no_lower |].
  split; [apply upper_ascii |].
  split; [apply fuzzy_windows_ascii |].
  repeat split; vm_compute; reflexivity.
Qed.

Lemma fuzzy_filter_spec_witness :
  line_contains_fuzzy_target (L "from the Congressioval, Record of May 3")
  = true.
Proof.
  destruct fuzzy_filter_spec
    as (_ & _ & _ & _ & _ & _ & _ & _ & _ & _ & _ & _ & _ & Hascii & _).
  apply (Hascii (L "from the Congressioval, Record of May 3")).
  - repeat constructor.
  - exists (L "Congressioval, Record"). split.
    + split; [exists (L "from the "), (L " of May 3"); reflexivity |].
      right. right. reflexivity.
    + right. apply (@edit_subst _ _ (map code (L "CONGRESSIO")) 86 78
                                (map code (L "AL RECORD"))); reflexivity.
Defined.

(** ** Running the filter twice *)

Lemma chomp_no_linebreak (l : str) : no_linebreak (chomp l) = true.
Proof.
  unfold no_linebreak. induction l as [|c l IH]; simpl; [reflexivity |].
  destruct (is_linebreak c) eqn:E; simpl; [reflexivity |].
  rewrite E. exact IH.
Qed.

Lemma splitlines_no_linebreak (s : str) :
  Forall (fun l => no_linebreak l = true) (splitlines false s).
Proof.
  unfold splitlines. apply Forall_forall. intros l Hin.
  apply in_map_iff in Hin. destruct Hin as (l0 & <- & _).
  apply chomp_no_linebreak.
Qed.

Lemma is_linebreak_LF : is_linebreak LF = true.
Proof. reflexivity. Qed.

Lemma splitlines_keep_line (l rest : str) :
  no_linebreak l = true ->
  splitlines_keep (l ++ LF :: rest) = (l ++ [LF]) :: splitlines_keep rest.
Proof.
  unfold no_linebreak. induction l as [|c l IH]; intros Hl.
  - cbn [app]. rewrite splitlines_keep_cons, is_linebreak_LF.
    destruct rest; reflexivity.
  - cbn [forallb] in Hl. apply andb_prop in Hl. destruct Hl as [Hc Hl].
    apply negb_true_iff in Hc.
    cbn [app]. rewrite splitlines_keep_cons, Hc, (IH Hl). reflexivity.
Qed.

Lemma splitlines_keep_last (l : str) :
  no_linebreak l = true -> l <> [] -> splitlines_keep l = [l].
Proof.
  unfold no_linebreak. induction l as [|c l IH]; intros Hl Hne;
    [contradiction |].
  cbn [forallb] in Hl. apply andb_prop in Hl. destruct Hl as [Hc Hl].
  apply negb_true_iff in Hc. rewrite splitlines_keep_cons, Hc.
  destruct l as [|d l]; [reflexivity |].
  rewrite (IH Hl) by discriminate. reflexivity.
Qed.

Lemma chomp_line (l : str) :
  no_linebreak l = true -> chomp (l ++ [LF]) = l /\ chomp l = l.
Proof.
  unfold no_linebreak. induction l as [|c l IH]; intros Hl.
  - split; reflexivity.
  - cbn [forallb] in Hl. apply andb_prop in Hl. destruct Hl as [Hc Hl].
    apply negb_true_iff in Hc. destruct (IH Hl) as [H1 H2].
    cbn [app chomp]. rewrite Hc, H1, H2. split; reflexivity.
Qed.

Lemma join_cons2 (sep l l2 : str) (ls : list str) :
  join sep (l :: l2 :: ls) = l ++ sep ++ join sep (l2 :: ls).
Proof. reflexivity. Qed.

(** Splitting the joined lines gives the lines back, except for an empty
    last line, which is lost. *)
Lemma splitlines_join (ls : list str) :
  Forall (fun l => no_linebreak l = true) ls ->
  splitlines false (join [LF] ls) = drop_last_empty ls.
Proof.
  unfold splitlines. induction 1 as [|l ls Hl Hls IH]; [reflexivity |].
  destruct ls as [|l2 ls].
  - cbn [join]. unfold drop_last_empty. cbn [last removelast].
    destruct l as [|c l]; [reflexivity |]. cbn [is_nil].
    rewrite (splitlines_keep_last (c :: l) Hl) by discriminate.
    cbn [map]. rewrite (proj2 (chomp_line _ Hl)). reflexivity.
  - rewrite join_cons2. cbn [app].
    rewrite (splitlines_keep_line l _ Hl). cbn [map].
    rewrite (proj1 (chomp_line _ Hl)), IH.
    unfold drop_last_empty.
    change (last (l :: l2 :: ls) [LF]) with (last (l2 :: ls) [LF]).
    destruct (is_nil (last (l2 :: ls) [LF])); reflexivity.
Qed.

Lemma join_cons_ne (sep l : str) (rest : list str) :
  rest <> [] -> join sep (l :: rest) = l ++ sep ++ join sep rest.
Proof. destruct rest; [contradiction | reflexivity]. Qed.

Lemma last_chr_some (l : str) : l <> [] -> exists d, last_chr l = Some d.
Proof.
  intros H. destruct (@exists_last _ l H) as (u & d & ->).
  exists d. apply last_chr_app.
Qed.

Lemma last_chr_join_nonempty (ls : list str) (l : str) :
  l <> [] -> last_chr (join [LF] (ls ++ [l])) = last_chr l.
Proof.
  intros Hl. induction ls as [|l0 ls IH]; [reflexivity |].
  cbn [app]. rewrite join_cons_ne by (destruct ls; discriminate).
  rewrite app_assoc. rewrite last_chr_app_r; [exact IH |].
  intros E. rewrite E in IH. destruct (last_chr_some l Hl) as (d & Hd).
  rewrite Hd in IH. discriminate.
Qed.

Lemma join_snoc_empty (ls : list str) :
  ls <> [] -> join [LF] (ls ++ [[]]) = join [LF] ls ++ [LF].
Proof.
  induction ls as [|l ls IH]; intros Hne; [contradiction |].
  destruct ls as [|l2 ls]; [reflexivity |].
  cbn [app]. rewrite join_cons_ne by discriminate.
  change (l2 :: ls ++ [[]]) with ((l2 :: ls) ++ [[]]).
  rewrite IH by discriminate. rewrite join_cons2, <- !app_assoc.
  reflexivity.
Qed.

(** Joining the lines after dropping an empty last line: the joined text
    without its final line feed, if it has one. *)
Lemma join_drop_last_empty (ls : list str) :
  Forall (fun l => no_linebreak l = true) ls ->
  join [LF] (drop_last_empty ls) =
  if ends_lf (join [LF] ls) then removelast (join [LF] ls) else join [LF] ls.
Proof.
  intros Hall. unfold drop_last_empty.
  destruct ls as [|l0 ls0] using rev_ind; [reflexivity |]. clear IHls0.
  rewrite last_last, removelast_last.
  destruct l0 as [|c l0]; cbn [is_nil].
  - destruct ls0 as [|l1 ls1]; [reflexivity |].
    rewrite join_snoc_empty by discriminate.
    unfold ends_lf. rewrite last_chr_app. cbn [chr_eqb].
    replace (Ascii.eqb LF LF) with true by reflexivity.
    rewrite removelast_last. reflexivity.
  - unfold ends_lf. rewrite last_chr_join_nonempty by discriminate.
    apply Forall_app in Hall. destruct Hall as [_ Hl].
    inversion Hl as [|? ? Hc _]; subst.
    destruct (@exists_last _ (c :: l0)) as (u & d & Eu); [discriminate |].
    rewrite Eu, last_chr_app. rewrite Eu in Hc.
    unfold no_linebreak in Hc. rewrite forallb_app in Hc.
    apply andb_prop in Hc. destruct Hc as [_ Hd]. simpl in Hd.
    rewrite andb_true_r in Hd. apply negb_true_iff in Hd.
    destruct (chr_eqb d LF) eqn:E; [|reflexivity].
    apply Ascii.eqb_eq in E. subst d. discriminate.
Qed.

(** ** The second pass (C8) *)

(** C8, amended.  A second pass of the filter removes no line for holding
    the target phrase: none of the lines of the first output holds it.
    The second output is the first output unless that ends with a line
    feed (its last kept line is empty); then the second output is the
    first without that final line feed. *)
Theorem clean_speech_text_twice (text : str) :
  Forall (fun ln => line_contains_fuzzy_target ln = false)
         (splitlines false (clean_speech_text text))
  /\ clean_speech_text (clean_speech_text text) =
     join [LF] (splitlines false (clean_speech_text text))
  /\ clean_speech_text (clean_speech_text text) =
     if ends_lf (clean_speech_text text)
     then removelast (clean_speech_text text)
     else clean_speech_text text.
Proof.
  set (kept := filter keep_line (splitlines false text)).
  assert (Hk : clean_speech_text text = join [LF] kept) by reflexivity.
  assert (Hnl : Forall (fun l => no_linebreak l = true) kept).
  { apply Forall_forall. intros l Hl. apply filter_In in Hl.
    destruct Hl as [Hl _].
    pose proof (splitlines_no_linebreak text) as H.
    rewrite Forall_forall in H. auto. }
  assert (Hkeep : Forall (fun l => keep_line l = true) kept).
  { apply Forall_forall. intros l Hl. apply filter_In in Hl. tauto. }
  assert (Hsplit : splitlines false (clean_speech_text text)
                   = drop_last_empty kept).
  { rewrite Hk. now apply splitlines_join. }
  assert (Hkeep2 : Forall (fun l => keep_line l = true) (drop_last_empty kept)).
  { unfold drop_last_empty. destruct (is_nil (last kept [LF])); [|exact Hkeep].
    apply Forall_forall. intros l Hl. rewrite Forall_forall in Hkeep.
    apply Hkeep. destruct kept as [|a kept']; [destruct Hl |].
    rewrite (app_removelast_last a) at 1 by discriminate.
    apply in_or_app. now left. }
  assert (Hsecond : clean_speech_text (clean_speech_text text)
                    = join [LF] (drop_last_empty kept)).
  { unfold clean_speech_text at 1. fold keep_line. rewrite Hsplit.
    f_equal. apply forallb_filter_id. apply forallb_forall.
    rewrite Forall_forall in Hkeep2. exact Hkeep2. }
  split; [|split].
  - rewrite Hsplit. eapply Forall_impl; [|exact Hkeep2].
    intros l Hl. unfold keep_line in Hl. now apply negb_true_iff.
  - rewrite Hsecond, Hsplit. reflexivity.
  - rewrite Hsecond, Hk. now apply join_drop_last_empty.
Qed.

(** C8 as stated fails: the second pass drops the line feed that ends the
    first output. *)
Lemma clean_speech_text_counterexample :
  clean_speech_text (L "a" ++ [LF; LF]) = L "a" ++ [LF]
  /\ clean_speech_text (clean_speech_text (L "a" ++ [LF; LF])) = L "a"
  /\ clean_speech_text (clean_speech_text (L "a" ++ [LF; LF]))
     <> clean_speech_text (L "a" ++ [LF; LF]).
Proof. repeat split; vm_compute; try reflexivity. discriminate. Qed.

(** ** The scenarios of the specification, evaluated *)

(** Scenario B: a line of underscores ends the turn at its start, and no
    speaker is open after it. *)
Example scenario_B :
  map (fun t => (speaker t, span_start t, span_end t, speech t))
      (scrape_turns (line "  Mr. SMITH. This is a test." ++
                     line "____________________" ++
                     line "Text that belongs to nobody."))
  = [(L "Mr. SMITH", 12, 29, L "This is a test.")].
Proof. vm_compute. reflexivity. Qed.

(** Scenario D: a heading between blank lines is a title block, and the
    turns after it get its title. *)
Example scenario_D :
  find_titles ([LF] ++ line "THE CLIMATE EMERGENCY ACT" ++ [LF] ++
               line "The bill was read." ++ line "It was passed.")
  = [Title (line "THE CLIMATE EMERGENCY ACT") 1 27]
  /\ assigned_titles
       ([LF] ++ line "THE CLIMATE EMERGENCY ACT" ++ [LF] ++
        line "The bill was read." ++ line "It was passed.")
       [Title (line "THE CLIMATE EMERGENCY ACT") 1 27]
       [L "0123456789012345678901234567"; L "The bill was read."]
     = [[]; L "THE CLIMATE EMERGENCY ACT"].
Proof. split; vm_compute; reflexivity. Qed.

(** Scenario E: an upper-case block that starts with a courtesy title is
    discarded. *)
Example scenario_E :
  is_strong (L "Mr. SPEAKER, I RISE TODAY") = true
  /\ find_titles (line "Mr. SPEAKER, I RISE TODAY" ++ [LF] ++
                  line "to speak of other things.")
     = [].
Proof. split; vm_compute; reflexivity. Qed.

(** The end markers of the other families. *)
Example end_markers :
  timeline (line "  The SPEAKER pro tempore. The House will be in order." ++
            line "[Congressional Record Volume 165, Number 1]" ++
            line "  Mrs. O'NEIL-SMITH of New York. I yield." ++
            [LF] ++
            line "     A Bill To Amend" ++
            line "  Dr. JONES. Thank you." ++
            line "                    January 3, 2019." ++
            line "  Ms. LEE. No." ++
            line " ======= NOTE ======")
  = [ Event speaker_ev 0 26; Event end_ev 55 98;
      Event speaker_ev 99 131; Event end_ev 142 142;
      Event speaker_ev 163 175; Event end_ev 187 187;
      Event speaker_ev 224 234; Event end_ev 239 259 ].
Proof. vm_compute. reflexivity. Qed.
(** * Further properties of the code *)

(** ** The turns of [scrape], one per speaker match *)

Lemma assemble_openings (text : str) :
  forall events cur,
    map (fun t => (speaker t, span_start t)) (assemble text cur events) =
    match cur with Some ws => [ws] | None => [] end
    ++ map (fun e => (label_of text e, ev_end e)) (filter is_speaker events).
Proof.
  induction events as [|e events IH]; intros cur.
  - destruct cur as [[who st]|]; reflexivity.
  - cbn [assemble filter]. unfold is_speaker at 1.
    destruct (ev_type e); rewrite map_app, IH;
      destruct cur as [[who st]|]; reflexivity.
Qed.

(** X1.  [scrape] yields exactly one pair per match of the speaker
    pattern in the prepared text, in the order of the matches: the k-th
    pair carries the label of the k-th match and its speech starts where
    that match ends.  A transcript without a speaker match yields
    nothing. *)
Theorem scrape_one_turn_per_speaker (text : str) :
  map (fun t => (speaker t, span_start t)) (scrape_turns text) =
    map (opening (prepare text)) (finditer SPEAKER_REGEX (prepare text))
  /\ length (scrape text) = length (finditer SPEAKER_REGEX (prepare text))
  /\ (finditer SPEAKER_REGEX (prepare text) = [] -> scrape text = []).
Proof.
  assert (H : map (fun t => (speaker t, span_start t)) (scrape_turns text) =
              map (opening (prepare text))
                  (finditer SPEAKER_REGEX (prepare text))).
  { unfold scrape_turns. rewrite assemble_openings, timeline_speakers.
    unfold mk_events. rewrite map_map. reflexivity. }
  assert (Hlen : length (scrape text) =
                 length (finditer SPEAKER_REGEX (prepare text))).
  { unfold scrape. rewrite length_map.
    rewrite <- (length_map (fun t => (speaker t, span_start t))), H.
    apply length_map. }
  repeat split; auto.
  intros Hnil. rewrite Hnil in Hlen. now apply length_zero_iff_nil.
Qed.

(** ** The speeches are stripped *)

Lemma strip_by_ends (p : ascii -> bool) (s : str) :
  (forall c, hd_error (strip_by p s) = Some c -> p c = false)
  /\ (forall c, last_chr (strip_by p s) = Some c -> p c = false).
Proof.
  split; intros c Hc.
  - pose proof (rstrip_by_head p (lstrip_by p s) (dropWhile_head p s)) as H.
    unfold strip_by in Hc. destruct (rstrip_by p (lstrip_by p s)); [discriminate|].
    simpl in Hc. now inversion Hc; subst.
  - unfold last_chr, strip_by, rstrip_by in Hc. rewrite rev_involutive in Hc.
    pose proof (dropWhile_head p (rev (lstrip_by p s))) as H.
    destruct (dropWhile p (rev (lstrip_by p s))); [discriminate|].
    simpl in Hc. now inversion Hc; subst.
Qed.

(** X2.  The speech of every pair [scrape] yields is stripped: it
    neither starts nor ends with a whitespace character, and stripping
    it again changes nothing. *)
Theorem scrape_speeches_stripped (text : str) :
  Forall (fun t =>
            strip (speech t) = speech t
            /\ (forall c, hd_error (speech t) = Some c -> isspace c = false)
            /\ (forall c, last_chr (speech t) = Some c -> isspace c = false))
         (scrape_turns text).
Proof.
  unfold scrape_turns.
  eapply Forall_impl; [| apply assemble_speech].
  intros t ->. unfold clean_speech. split; [apply strip_idem |].
  apply (strip_by_ends isspace).
Qed.
(** ** The artifact stripper only deletes *)

Lemma subseq_refl {A} (l : list A) : subseq l l.
Proof. induction l; constructor; auto. Qed.

Lemma subseq_trans {A} (a b c : list A) :
  subseq a b -> subseq b c -> subseq a c.
Proof.
  intros H1 H2. revert a H1.
  induction H2 as [|x b c _ IH|x b c _ IH]; intros a H1.
  - exact H1.
  - inversion H1; subst.
    + apply subseq_keep. auto.
    + apply subseq_drop. auto.
  - apply subseq_drop. auto.
Qed.

Lemma subseq_length {A} (a b : list A) : subseq a b -> length a <= length b.
Proof. induction 1; simpl; lia. Qed.

Lemma subseq_nil_l {A} (b : list A) : subseq [] b.
Proof. induction b; constructor; auto. Qed.

Lemma subseq_infix {A} (a x b : list A) : subseq x (a ++ x ++ b).
Proof.
  induction a as [|c a IH]; simpl.
  - induction x as [|c x IH]; simpl; [apply subseq_nil_l |].
    apply subseq_keep. exact IH.
  - apply subseq_drop. exact IH.
Qed.

Lemma subseq_In {A} (a b : list A) (x : A) : subseq a b -> In x a -> In x b.
Proof.
  induction 1 as [|y a b _ IH|y a b _ IH]; simpl; auto.
  intros [->|H]; auto.
Qed.

Lemma sub_scan_subseq (r : re) :
  forall s p skip, subseq (sub_scan r p s skip) s.
Proof.
  induction s as [|c s IH]; intros p skip.
  - destruct skip; simpl; [destruct (match_len r _) as [[|k]|] |]; constructor.
  - destruct skip as [|k]; simpl.
    + destruct (match_len r _) as [[|k]|].
      * apply subseq_keep, IH.
      * apply subseq_drop, IH.
      * apply subseq_keep, IH.
    + apply subseq_drop, IH.
Qed.

Lemma strip_subseq (s : str) : subseq (strip s) s.
Proof.
  destruct (strip_by_infix isspace s) as (a & b & H).
  rewrite H at 2. apply subseq_infix.
Qed.

Lemma clean_extraneous_subseq (text : str) :
  subseq (_clean_extraneous text) text.
Proof.
  unfold _clean_extraneous. generalize EXTRAS_PATTERNS. intros pats.
  revert text. induction pats as [|r pats IH]; intros text; simpl.
  - apply subseq_refl.
  - eapply subseq_trans; [apply IH |]. apply sub_scan_subseq.
Qed.

(** X3.  The artifact stripper only deletes characters: what it returns
    is the input with some characters removed, the others in their
    order, so it is never longer than the input.  Likewise the speech of
    every turn is a subsequence of the slice of the prepared transcript
    it was cut from. *)
Theorem clean_extraneous_only_deletes (text : str) :
  subseq (_clean_extraneous text) text
  /\ length (_clean_extraneous text) <= length text
  /\ (forall c, In c (_clean_extraneous text) -> In c text)
  /\ Forall (fun t => subseq (speech t)
                        (slice (prepare text) (span_start t) (span_end t)))
            (scrape_turns text).
Proof.
  pose proof (clean_extraneous_subseq text) as H.
  repeat split; auto.
  - now apply subseq_length.
  - intros c. now apply subseq_In.
  - unfold scrape_turns. eapply Forall_impl; [| apply assemble_speech].
    intros t ->. unfold clean_speech.
    eapply subseq_trans; [apply strip_subseq |].
    eapply subseq_trans; [apply clean_extraneous_subseq |].
    apply strip_subseq.
Qed.

(** ** Text without trigger characters passes through *)

Lemma sem_lit_first (s : string) (more : list re) (st st' : cursor)
                    (c : ascii) (cs : str) :
  L s = c :: cs ->
  sem (seqs (lit s :: more)) st st' ->
  exists tl, rest st = c :: tl.
Proof.
  intros Hs H. rewrite sem_seqs_cons in H. destruct H as (s1 & H1 & _).
  apply sem_lit in H1. destruct H1 as [H1 _]. rewrite Hs in H1.
  simpl in H1. eauto.
Qed.

Lemma extras_first (r : re) (st st' : cursor) :
  In r EXTRAS_PATTERNS -> sem r st st' ->
  exists c tl, rest st = c :: tl /\ mem_chr c TRIGGERS = true.
Proof.
  unfold EXTRAS_PATTERNS.
  intros [<-|[<-|[<-|[<-|[<-|[<-|[<-|[]]]]]]]] H.
  - unfold PERMISSION_PATTERN in H. rewrite sem_seqs_cons in H.
    destruct H as (s1 & H1 & _). apply sem_chr in H1. destruct H1 as [H1 _].
    rewrite H1. eexists _, _. split; [reflexivity | reflexivity].
  - unfold RULE_PATTERN, at_least, one_of in H. simpl in H.
    apply iter_chr_elim in H. destruct H as (w & Hw & Hall & Hlen).
    destruct w as [|c w]; [simpl in Hlen; lia |].
    inversion Hall as [|? ? Hc _]; subst.
    rewrite Hw. exists c, (w ++ rest st'). split; [reflexivity |].
    unfold mem_chr, TRIGGERS in *. simpl in *.
    destruct (chr_eqb c "-"), (chr_eqb c "_"); simpl in *;
      try discriminate; rewrite ?orb_true_r; reflexivity.
  - destruct (sem_lit_first "{time}" _ st st' "{"%char (L "time}")
                eq_refl H) as (tl & Htl).
    rewrite Htl. eexists _, _. split; reflexivity.
  - destruct (sem_lit_first "[Roll" _ st st' "["%char (L "Roll")
                eq_refl H) as (tl & Htl).
    rewrite Htl. eexists _, _. split; reflexivity.
  - destruct (sem_lit_first "[[Page " _ st st' "["%char (L "[Page ")
                eq_refl H) as (tl & Htl).
    rewrite Htl. eexists _, _. split; reflexivity.
  - apply title_is_tag in H. destruct H as (body & tail & Hs & _).
    rewrite Hs. eexists _, _. split; reflexivity.
  - apply tag_elim in H. destruct H as (body & Hs & _).
    rewrite Hs. eexists _, _. split; reflexivity.
Qed.

Lemma In_skipn {A} (x : A) (n : nat) (l : list A) :
  In x (skipn n l) -> In x l.
Proof.
  intros H. rewrite <- (firstn_skipn n l). apply in_or_app. now right.
Qed.

Lemma sub_empty_no_trigger (r : re) (s : str) :
  In r EXTRAS_PATTERNS ->
  forallb (fun c => negb (mem_chr c TRIGGERS)) s = true ->
  sub_empty r s = s.
Proof.
  intros Hr Hs. apply sub_empty_no_match. apply finditer_nil_iff.
  intros q _. apply match_len_none. intros st' Hsem.
  destruct (extras_first r _ _ Hr Hsem) as (c & tl & Hrest & Hc).
  simpl in Hrest. rewrite forallb_forall in Hs.
  assert (Hin : In c s).
  { apply (In_skipn c q). rewrite Hrest. now left. }
  apply Hs in Hin. rewrite Hc in Hin. discriminate.
Qed.

Lemma clean_speech_no_trigger (text : str) :
  forallb (fun c => negb (mem_chr c TRIGGERS)) text = true ->
  _clean_extraneous text = text /\ clean_speech text = strip text.
Proof.
  intros H.
  assert (Hid : forall t, forallb (fun c => negb (mem_chr c TRIGGERS)) t = true ->
                          _clean_extraneous t = t).
  { intros t Ht. unfold _clean_extraneous.
    assert (Hall : forall pats, incl pats EXTRAS_PATTERNS ->
              fold_left (fun t pat => sub_empty pat t) pats t = t).
    { induction pats as [|r pats IH]; intros Hincl; simpl; [reflexivity |].
      rewrite sub_empty_no_trigger; auto.
      - apply IH. intros x Hx. apply Hincl. now right.
      - apply Hincl. now left. }
    apply Hall. apply incl_refl. }
  split; [now apply Hid |].
  unfold clean_speech. rewrite Hid; [apply strip_idem |].
  apply forallb_forall. intros c Hc.
  rewrite forallb_forall in H. apply H.
  eapply subseq_In; [apply strip_subseq | exact Hc].
Qed.

(** X4.  A text that holds none of the characters [(], [-], [_], [{],
    [[] and [<] passes through the artifact stripper unchanged: every
    one of the seven patterns needs one of them at the start of a
    match.  The speech cut from such a slice is the slice, stripped. *)
Theorem clean_extraneous_passthrough (text : str) :
  forallb (fun c => negb (mem_chr c TRIGGERS)) text = true ->
  _clean_extraneous text = text /\ clean_speech text = strip text.
Proof. apply clean_speech_no_trigger. Qed.

Lemma clean_extraneous_passthrough_witness :
  _clean_extraneous (L "Mr. President, I rise today.") =
  L "Mr. President, I rise today.".
Proof.
  apply (clean_extraneous_passthrough (L "Mr. President, I rise today.")).
  reflexivity.
Defined.
(** ** Texts without a marker *)

Lemma startswith_iff (p s : str) :
  startswith p s = true <-> exists b, s = p ++ b.
Proof.
  revert s. induction p as [|x p IH]; intros s; simpl.
  - split; eauto.
  - destruct s as [|y s].
    + split; [discriminate | intros (b & H); discriminate].
    + rewrite andb_true_iff, IH. unfold chr_eqb. rewrite Ascii.eqb_eq. split.
      * intros (-> & b & ->). eauto.
      * intros (b & H). inversion H; subst. eauto.
Qed.

Lemma contains_iff (p s : str) :
  contains p s = true <-> exists a b, s = a ++ p ++ b.
Proof.
  induction s as [|c s IH].
  - simpl. rewrite orb_false_r, startswith_iff. split.
    + intros (b & H). exists [], b. exact H.
    + intros (a & b & H). destruct a; simpl in H.
      * eauto.
      * discriminate.
  - cbn [contains]. rewrite orb_true_iff, startswith_iff, IH. split.
    + intros [(b & H) | (a & b & H)].
      * exists [], b. exact H.
      * exists (c :: a), b. simpl. now rewrite H.
    + intros (a & b & H). destruct a as [|c' a]; simpl in H.
      * left. eauto.
      * right. inversion H; subst. eauto.
Qed.

Lemma In_concat_split (l : str) (ls : list str) :
  In l ls -> exists a b, concat ls = a ++ l ++ b.
Proof.
  intros H. apply in_split in H. destruct H as (l1 & l2 & ->).
  exists (concat l1), (concat l2). rewrite concat_app. reflexivity.
Qed.

Lemma no_equals_no_marker (text : str) :
  contains (L "=====") text = false ->
  no_marker (splitlines true text) = true.
Proof.
  intros H. apply forallb_forall. intros ln Hin.
  destruct (is_marker ln) eqn:E; [|reflexivity].
  apply is_marker_prefix in E. destruct E as (ind & tail & Hln & _).
  apply In_concat_split in Hin. destruct Hin as (a & b & Hc).
  simpl in Hc. rewrite concat_splitlines_keep in Hc.
  assert (Hcon : contains (L "=====") text = true).
  { apply contains_iff. exists (a ++ ind), (tail ++ b).
    rewrite Hc, Hln. rewrite <- !app_assoc. reflexivity. }
  rewrite Hcon in H. discriminate.
Qed.

Lemma strip_note_blocks_id (text : str) :
  contains (L "=====") text = false -> _strip_note_blocks text = text.
Proof.
  intros H. unfold _strip_note_blocks.
  rewrite strip_lines_keeping by now apply no_equals_no_marker.
  apply concat_splitlines_keep.
Qed.

Lemma no_equals_no_match (text : str) :
  contains (L "=====") text = false -> finditer EQUALS_REGEX text = [].
Proof.
  intros H. apply finditer_nil_iff. intros q Hq. apply match_len_none.
  intros st' Hsem. apply equals_elim in Hsem.
  destruct Hsem as (_ & ind & tail & Hrest & _). simpl in Hrest.
  assert (Hcon : contains (L "=====") text = true).
  { apply contains_iff. exists (firstn q text ++ ind), tail.
    rewrite <- (firstn_skipn q text) at 1. rewrite Hrest.
    rewrite <- !app_assoc. reflexivity. }
  rewrite Hcon in H. discriminate.
Qed.

Lemma replace_nbsp_equals (c : ascii) :
  (if chr_eqb c NBSP then SP else c) = "="%char -> c = "="%char.
Proof.
  destruct (chr_eqb c NBSP); [discriminate | auto].
Qed.

Lemma no_equals_replace (text : str) :
  contains (L "=====") text = false ->
  contains (L "=====") (replace_chr NBSP SP text) = false.
Proof.
  intros H. destruct (contains _ (replace_chr _ _ _)) eqn:E; [|reflexivity].
  apply contains_iff in E. destruct E as (a & b & E).
  unfold replace_chr in E.
  apply map_eq_app in E. destruct E as (a' & r & -> & _ & E).
  apply map_eq_app in E. destruct E as (p & b' & -> & E & _).
  assert (Hp : p = L "=====").
  { destruct p as [|c1 [|c2 [|c3 [|c4 [|c5 [|c6 p]]]]]]; try discriminate.
    simpl in E. injection E as E1 E2 E3 E4 E5.
    apply replace_nbsp_equals in E1, E2, E3, E4, E5. subst. reflexivity. }
  subst p.
  assert (Hcon : contains (L "=====") (a' ++ L "=====" ++ b') = true)
    by (apply contains_iff; eauto).
  rewrite Hcon in H. discriminate.
Qed.

(** X5.  A transcript that nowhere holds five equals signs in a row has
    no NOTE marker: [_strip_note_blocks] returns it unchanged, the text
    [scrape] scans is the transcript with its no-break spaces turned
    into spaces, and the marker pattern has no match, neither in the
    transcript nor in the text [scrape] scans, so that no event of the
    timeline comes from it. *)
Theorem strip_note_blocks_without_equals (text : str) :
  contains (L "=====") text = false ->
  _strip_note_blocks text = text
  /\ prepare text = replace_chr NBSP SP text
  /\ finditer EQUALS_REGEX text = []
  /\ finditer EQUALS_REGEX (prepare text) = [].
Proof.
  intros H.
  pose proof (strip_note_blocks_id text H) as Hid.
  assert (Hp : prepare text = replace_chr NBSP SP text)
    by (unfold prepare; now rewrite Hid).
  repeat split; auto.
  - now apply no_equals_no_match.
  - rewrite Hp. apply no_equals_no_match. now apply no_equals_replace.
Qed.

Lemma strip_note_blocks_without_equals_witness :
  _strip_note_blocks scenario_A = scenario_A.
Proof.
  apply (proj1 (strip_note_blocks_without_equals scenario_A eq_refl)).
Defined.

(** ** Where the line scanners put their markers *)

Lemma splitlines_keep_nonempty (s : str) :
  Forall (fun l => l <> []) (splitlines_keep s).
Proof.
  induction s as [s IH] using length_induction.
  destruct s as [|c s]; [constructor |]. rewrite splitlines_keep_cons.
  destruct (is_linebreak c).
  - destruct s as [|d s]; [repeat constructor; discriminate |].
    destruct (chr_eqb c CR && chr_eqb d LF).
    + constructor; [discriminate |]. apply IH. simpl. lia.
    + constructor; [discriminate |]. apply IH. simpl. lia.
  - pose proof (IH s ltac:(simpl; lia)) as E.
    destruct (splitlines_keep s) as [|l ls].
    + repeat constructor. discriminate.
    + inversion E; subst. constructor; [discriminate | assumption].
Qed.

Lemma dates_from_spec (th : nat) :
  forall lines pos a b,
    In (a, b) (dates_from th pos lines) <->
    a = b /\ exists pre ln post,
               lines = pre ++ ln :: post
               /\ a = pos + length (concat pre)
               /\ date_line th ln = true.
Proof.
  induction lines as [|l lines IH]; intros pos a b; cbn [dates_from].
  - split; [intros [] | intros (_ & pre & ln & post & H & _)].
    destruct pre; discriminate.
  - rewrite in_app_iff, IH. split.
    + intros [H | (Hab & pre & ln & post & Hl & Ha & Hd)].
      * destruct (date_line th l) eqn:E; [|destruct H].
        destruct H as [H|[]]. inversion H; subst. split; auto.
        exists [], l, lines. simpl. repeat split; auto.
      * split; auto. exists (l :: pre), ln, post. subst lines.
        cbn [concat app]. rewrite length_app. repeat split; auto. lia.
    + intros (Hab & pre & ln & post & Hl & Ha & Hd).
      destruct pre as [|l' pre]; simpl in Hl; inversion Hl; subst.
      * left. rewrite Hd. left. simpl. f_equal; lia.
      * right. split; auto. exists pre, ln, post. repeat split; auto.
        cbn [concat]. rewrite length_app. lia.
Qed.

Lemma deep_titles_from_spec (tw : nat) :
  forall lines above pos a b,
    In (a, b) (deep_titles_from tw above pos lines) <->
    a = b /\ exists pre ab ln post,
               above :: lines = pre ++ ab :: ln :: post
               /\ a + length above = pos + length (concat pre) + length ab
               /\ deep_title_line tw ab ln = true.
Proof.
  induction lines as [|l lines IH]; intros above pos a b;
    cbn [deep_titles_from].
  - split; [intros [] | intros (_ & pre & ab & ln & post & H & _)].
    destruct pre as [|x [|y pre]]; discriminate.
  - rewrite in_app_iff, IH. split.
    + intros [H | (Hab & pre & ab & ln & post & Hl & Ha & Hd)].
      * destruct (deep_title_line tw above l) eqn:E; [|destruct H].
        destruct H as [H|[]]. inversion H; subst. split; auto.
        exists [], above, l, lines. simpl. repeat split; auto; lia.
      * split; auto. exists (above :: pre), ab, ln, post.
        rewrite Hl. cbn [concat app]. rewrite length_app.
        repeat split; auto. lia.
    + intros (Hab & pre & ab & ln & post & Hl & Ha & Hd).
      destruct pre as [|l' pre]; simpl in Hl; inversion Hl; subst.
      * left. rewrite Hd. left. simpl in Ha. f_equal; lia.
      * right. split; auto. exists pre, ab, ln, post. repeat split; auto.
        cbn [concat] in Ha. rewrite length_app in Ha. lia.
Qed.

Lemma Forall_mid {A} (P : A -> Prop) (pre post : list A) (x : A) :
  Forall P (pre ++ x :: post) -> P x.
Proof.
  intros H. rewrite Forall_forall in H. apply H.
  apply in_or_app. right. now left.
Qed.

Lemma deep_titles_iff (text : str) (tab_width a b : nat) :
  In (a, b) (_find_deeply_indented_titles text tab_width) <->
  a = b /\ exists pre above ln post,
             splitlines true text = pre ++ above :: ln :: post
             /\ a = length (concat pre) + length above
             /\ deep_title_line tab_width above ln = true.
Proof.
  unfold _find_deeply_indented_titles.
  destruct (splitlines true text) as [|l0 lines].
  - split; [intros [] | intros (_ & pre & ab & ln & post & H & _)].
    destruct pre; discriminate.
  - rewrite deep_titles_from_spec. split.
    + intros (Hab & pre & ab & ln & post & Hl & Ha & Hd). split; auto.
      exists pre, ab, ln, post. repeat split; auto. lia.
    + intros (Hab & pre & ab & ln & post & Hl & Ha & Hd). split; auto.
      exists pre, ab, ln, post. repeat split; auto. lia.
Qed.

Lemma deep_titles_inside (text : str) (tab_width a b : nat) :
  In (a, b) (_find_deeply_indented_titles text tab_width) ->
  a = b /\ 0 < a /\ a < length text.
Proof.
  intros Hin. apply deep_titles_iff in Hin.
  destruct Hin as (Hab & pre & ab & ln & post & Hl & Ha & _).
  split; [exact Hab |].
  pose proof (splitlines_keep_nonempty text) as Hne.
  simpl in Hl. rewrite Hl in Hne.
  assert (Hab' : ab <> []) by apply (Forall_mid _ _ _ _ Hne).
  assert (Hln : ln <> []).
  { apply (Forall_mid (fun l => l <> []) (pre ++ [ab]) post ln).
    now rewrite <- app_assoc. }
  rewrite <- (concat_splitlines_keep text), Hl.
  rewrite concat_app. cbn [concat]. rewrite !length_app.
  destruct ab; [contradiction |]. destruct ln; [contradiction |].
  simpl in *. lia.
Qed.

(** X6.  [_find_deeply_indented_titles] reports exactly the lines that
    pass its test and follow another line: an offset is reported, as a
    span of width zero, when and only when it is the start of a line
    [ln] whose predecessor [above] is blank, whose indentation is deeper
    than [tab_width], and half of whose words at least start with an
    upper-case character.  The first line of the text is never
    reported, and every offset reported lies strictly inside the
    text. *)
Theorem deep_titles_spec (text : str) (tab_width a b : nat) :
  (In (a, b) (_find_deeply_indented_titles text tab_width) <->
   a = b /\ exists pre above ln post,
              splitlines true text = pre ++ above :: ln :: post
              /\ a = length (concat pre) + length above
              /\ deep_title_line tab_width above ln = true)
  /\ (In (a, b) (_find_deeply_indented_titles text tab_width) ->
      0 < a /\ a < length text)
  /\ (forall above ln,
        deep_title_line tab_width above ln = true <->
        strip above = []
        /\ tab_width < indent_of tab_width ln
        /\ findall WORD_REGEX (strip_by is_crlf ln) <> []
        /\ length (findall WORD_REGEX (strip_by is_crlf ln))
           <= 2 * length (filter first_isupper
                            (findall WORD_REGEX (strip_by is_crlf ln)))).
Proof.
  split; [apply deep_titles_iff |]. split.
  - intros H. apply deep_titles_inside in H. tauto.
  - intros above ln. unfold deep_title_line.
    rewrite !andb_true_iff, negb_true_iff, Nat.leb_gt, negb_true_iff,
      Nat.leb_le.
    assert (Hnil : forall A (l : list A), is_nil l = true <-> l = []).
    { intros A [|x l]; simpl; split; congruence. }
    assert (Hnn : forall A (l : list A), is_nil l = false <-> l <> []).
    { intros A [|x l]; simpl; split; congruence. }
    rewrite Hnil, Hnn. split.
    + intros ((H1 & H2) & H3 & H4). repeat split; auto. lia.
    + intros (H1 & H2 & H3 & H4). repeat split; auto. lia.
Qed.

(** ** Events and spans stay inside the text *)

Lemma all_events_bounds (text : str) (e : event) :
  In e (all_events text) ->
  ev_start e <= ev_end e /\ ev_end e <= length text.
Proof.
  assert (Hre : forall r ty,
            In e (mk_events ty (finditer r text)) ->
            ev_start e <= ev_end e /\ ev_end e <= length text).
  { intros r ty H. unfold mk_events in H. apply in_map_iff in H.
    destruct H as ([a b] & <- & H). apply finditer_sound in H. simpl. lia. }
  unfold all_events. rewrite !in_app_iff.
  intros [H|[H|[H|[H|[H|H]]]]]; eauto.
  - unfold mk_events in H. apply in_map_iff in H.
    destruct H as ([a b] & <- & H).
    apply deep_titles_inside in H. simpl. lia.
  - unfold mk_events in H. apply in_map_iff in H.
    destruct H as ([a b] & <- & H).
    unfold _find_right_justified_dates in H. apply dates_from_spec in H.
    destruct H as (-> & pre & ln & post & Hl & Ha & _). simpl.
    split; [lia |].
    rewrite <- (concat_splitlines_keep text). simpl in Hl. rewrite Hl.
    rewrite concat_app, length_app. lia.
Qed.

Lemma assemble_bounds (text : str) :
  forall events cur,
    Forall (fun e => ev_start e <= length text /\ ev_end e <= length text)
           events ->
    (forall s, In s (cur_start cur) -> s <= length text) ->
    Forall (fun t => span_start t <= length text
                     /\ span_end t <= length text)
           (assemble text cur events).
Proof.
  induction events as [|e events IH]; intros cur Hev Hcur.
  - destruct cur as [[who st]|]; simpl; constructor; [|constructor].
    simpl. split; [apply Hcur; now left | lia].
  - inversion Hev as [|? ? (He1 & He2) Hev']; subst. cbn [assemble].
    assert (Hc : Forall (fun t => span_start t <= length text
                                  /\ span_end t <= length text)
                 match cur with
                 | Some (who, speech_start) =>
                     [Turn who speech_start (ev_start e)
                        (clean_speech (slice text speech_start (ev_start e)))]
                 | None => []
                 end).
    { destruct cur as [[who st]|]; repeat constructor; simpl; auto.
      apply Hcur. now left. }
    destruct (ev_type e); apply Forall_app; split; auto; apply IH; auto.
    + intros s [<-|[]]. exact He2.
    + intros s [].
Qed.

(** X7.  No event of the timeline and no slice of [scrape] reaches
    outside the text: every event starts at or before its end and ends
    at or before the end of the text, and the two bounds of the slice of
    every turn are offsets of the prepared transcript. *)
Theorem timeline_within_text (text : str) :
  Forall (fun e => ev_start e <= ev_end e /\ ev_end e <= length text)
         (timeline text)
  /\ Forall (fun t => span_start t <= length (prepare text)
                      /\ span_end t <= length (prepare text))
            (scrape_turns text).
Proof.
  assert (H : forall x, Forall (fun e => ev_start e <= ev_end e
                                         /\ ev_end e <= length x)
                               (timeline x)).
  { intros x. apply Forall_forall. intros e He.
    unfold timeline in He. apply (proj1 (sort_events_In _ _)) in He.
    now apply all_events_bounds. }
  split; [apply H |].
  unfold scrape_turns. apply assemble_bounds.
  - eapply Forall_impl; [| apply H]. simpl. intros e. lia.
  - intros s [].
Qed.

(** X8.  [_find_right_justified_dates] reports, as spans of width zero,
    exactly the offsets at which a line that passes its test starts:
    a line indented by at least [indent_threshold], a tab counting for
    the whole threshold, whose stripped text the date pattern finds a
    match in.  A line that starts with a tab passes the indentation
    test whatever the threshold. *)
Theorem right_justified_dates_spec (text : str) (indent_threshold a b : nat) :
  (In (a, b) (_find_right_justified_dates text indent_threshold) <->
   a = b /\ exists pre ln post,
              splitlines true text = pre ++ ln :: post
              /\ a = length (concat pre)
              /\ indent_threshold <= indent_of indent_threshold ln
              /\ re_search DATE_END_REGEX (strip ln) = true)
  /\ (forall ln, indent_threshold
                 <= indent_of indent_threshold (TAB :: ln)).
Proof.
  split.
  - unfold _find_right_justified_dates. rewrite dates_from_spec.
    unfold date_line. split.
    + intros (Hab & pre & ln & post & Hl & Ha & Hd). split; auto.
      apply andb_true_iff in Hd. destruct Hd as [Hi Hs].
      apply negb_true_iff, Nat.ltb_ge in Hi.
      exists pre, ln, post. repeat split; auto.
    + intros (Hab & pre & ln & post & Hl & Ha & Hi & Hs). split; auto.
      exists pre, ln, post. repeat split; auto.
      apply andb_true_iff. split; [|exact Hs].
      apply negb_true_iff, Nat.ltb_ge. exact Hi.
  - intros ln. cbn [indent_of]. 
    replace (chr_eqb TAB SP) with false by reflexivity.
    replace (chr_eqb TAB TAB) with true by reflexivity. lia.
Qed.
(** ** The shape of a date line *)

Lemma iter_chr_elim_hi (p : ascii -> bool) :
  forall lo hi st st',
    iter_rel (sem (Chr p)) lo hi st st' ->
    exists w, rest st = w ++ rest st'
              /\ Forall (fun c => p c = true) w
              /\ lo <= length w
              /\ (forall h, hi = Some h -> length w <= h)
              /\ prev st' = prev_after (prev st) w.
Proof.
  intros lo hi st st' H.
  induction H as [|lo hi st st1 st' Hopen (c & Hc & Hp & Hprev) _ _
                   (w & Hw & Hall & Hlen & Hhi & Hpr)].
  - exists []. repeat split; auto. intros h _. simpl. lia.
  - exists (c :: w). rewrite Hc, Hw. repeat split; auto.
    + simpl. lia.
    + intros h ->. simpl in *. destruct h; [discriminate |].
      specialize (Hhi h eq_refl). lia.
    + rewrite Hpr, Hprev. reflexivity.
Qed.

Lemma iter_chr_intro_hi (p : ascii -> bool) (s : str) :
  forall w lo hi q,
    Forall (fun c => p c = true) w -> lo <= length w ->
    (forall h, hi = Some h -> length w <= h) ->
    iter_rel (sem (Chr p)) lo hi (Cursor q (w ++ s))
             (Cursor (prev_after q w) s).
Proof.
  induction w as [|c w IH]; intros lo hi q Hw Hlo Hhi.
  - simpl in Hlo. assert (lo = 0) by lia. subst. constructor.
  - inversion Hw as [|? ? Hc Hw']; subst.
    apply iter_more with (st1 := Cursor (Some c) (w ++ s)).
    + destruct hi as [[|h]|]; try reflexivity.
      specialize (Hhi 0 eq_refl). simpl in Hhi. lia.
    + simpl. exists c. auto.
    + intros _. unfold progress. simpl. apply Nat.ltb_lt. lia.
    + apply IH; auto.
      * simpl in Hlo. lia.
      * intros h Hh. destruct hi as [h0|]; [|discriminate].
        simpl in Hh. inversion Hh; subst.
        specialize (Hhi h0 eq_refl). simpl in Hhi. lia.
Qed.

Lemma re_search_iff (r : re) (s : str) :
  re_search r s = true <->
  exists q st', q <= length s /\ sem r (cursor_at s q) st'.
Proof.
  unfold re_search. split.
  - destruct (finditer r s) as [|[a b] l] eqn:E; [discriminate |]. intros _.
    assert (Hin : In (a, b) (finditer r s)) by (rewrite E; now left).
    apply finditer_sound in Hin. destruct Hin as (Hm & Hab & Hb).
    apply match_len_sem in Hm. destruct Hm as (st' & Hsem & _).
    exists a, st'. split; [lia | exact Hsem].
  - intros (q & st' & Hq & Hsem).
    destruct (finditer r s) as [|x l] eqn:E; [|reflexivity].
    apply sem_match_len in Hsem. destruct Hsem as (n & Hn).
    rewrite (proj1 (finditer_nil_iff r s) E q Hq) in Hn. discriminate.
Qed.

Lemma date_end_elim (st st' : cursor) :
  sem DATE_END_REGEX st st' ->
  exists w y dot tail,
    rest st = w ++ L ", " ++ y ++ dot ++ tail
    /\ 1 <= length w <= 2
    /\ Forall (fun c => is_digit c = true) w
    /\ length y = 4
    /\ Forall (fun c => is_digit c = true) y
    /\ (dot = [] \/ dot = ["."%char])
    /\ (tail = [] \/ tail = [LF]).
Proof.
  unfold DATE_END_REGEX. intros H.
  rewrite sem_seqs_cons in H. destruct H as (s1 & H1 & H).
  rewrite sem_seqs_cons in H. destruct H as (s2 & H2 & H).
  rewrite sem_seqs_cons in H. destruct H as (s3 & H3 & H).
  rewrite sem_seqs_cons in H. destruct H as (s4 & H4 & H).
  cbn [seqs sem] in H. destruct H as [Heol ->].
  change (iter_rel (sem (Chr is_digit)) 1 (Some 2) st s1) in H1.
  apply iter_chr_elim_hi in H1.
  destruct H1 as (w & Hw & Hwd & Hw1 & Hw2 & _).
  apply sem_lit in H2. destruct H2 as [H2 _].
  change (iter_rel (sem (Chr is_digit)) 4 (Some 4) s2 s3) in H3.
  apply iter_chr_elim_hi in H3.
  destruct H3 as (y & Hy & Hyd & Hy1 & Hy2 & _).
  change (iter_rel (sem (Chr (chr_eqb "."%char))) 0 (Some 1) s3 s4) in H4.
  apply iter_chr_elim_hi in H4.
  destruct H4 as (dot & Hdot & Hdd & _ & Hd2 & _).
  exists w, y, dot, (rest s4).
  rewrite Hw, H2, Hy, Hdot.
  specialize (Hw2 2 eq_refl). specialize (Hy2 4 eq_refl).
  specialize (Hd2 1 eq_refl).
  repeat split; auto; try lia.
  - destruct dot as [|c [|c' dot]]; auto; [|simpl in Hd2; lia].
    inversion Hdd as [|? ? Hc _]; subst.
    apply Ascii.eqb_eq in Hc. subst. now right.
  - unfold at_eol_abs in Heol. destruct (rest s4) as [|c [|c' t]]; auto.
    + apply Ascii.eqb_eq in Heol. subst. now right.
    + discriminate.
Qed.

Lemma date_end_intro (p : option ascii) (d : ascii) (y dot tail : str) :
  is_digit d = true ->
  length y = 4 -> Forall (fun c => is_digit c = true) y ->
  dot = [] \/ dot = ["."%char] ->
  tail = [] \/ tail = [LF] ->
  exists st', sem DATE_END_REGEX (Cursor p (d :: L ", " ++ y ++ dot ++ tail)) st'.
Proof.
  intros Hd Hy Hyd Hdot Htail. unfold DATE_END_REGEX. eexists.
  rewrite sem_seqs_cons.
  exists (Cursor (Some d) (L ", " ++ y ++ dot ++ tail)). split.
  { change (iter_rel (sem (Chr is_digit)) 1 (Some 2)
              (Cursor p ([d] ++ L ", " ++ y ++ dot ++ tail))
              (Cursor (prev_after p [d]) (L ", " ++ y ++ dot ++ tail))).
    apply iter_chr_intro_hi; simpl; auto.
    intros h Hh. inversion Hh. lia. }
  rewrite sem_seqs_cons.
  exists (Cursor (Some " "%char) (y ++ dot ++ tail)). split.
  { apply sem_lit. split; reflexivity. }
  rewrite sem_seqs_cons.
  exists (Cursor (prev_after (Some " "%char) y) (dot ++ tail)). split.
  { change (iter_rel (sem (Chr is_digit)) 4 (Some 4)
              (Cursor (Some " "%char) (y ++ dot ++ tail))
              (Cursor (prev_after (Some " "%char) y) (dot ++ tail))).
    apply iter_chr_intro_hi; auto; [lia |].
    intros h Hh. inversion Hh. lia. }
  rewrite sem_seqs_cons.
  exists (Cursor (prev_after (prev_after (Some " "%char) y) dot) tail). split.
  { change (iter_rel (sem (Chr (chr_eqb "."%char))) 0 (Some 1)
              (Cursor (prev_after (Some " "%char) y) (dot ++ tail))
              (Cursor (prev_after (prev_after (Some " "%char) y) dot) tail)).
    apply iter_chr_intro_hi.
    - destruct Hdot as [-> | ->]; repeat constructor.
    - lia.
    - intros h Hh. inversion Hh. destruct Hdot as [-> | ->]; simpl; lia. }
  cbn [seqs sem]. split; [|reflexivity].
  destruct Htail as [-> | ->]; reflexivity.
Qed.

Lemma date_end_search (s : str) :
  re_search DATE_END_REGEX s = true <->
  exists pre d y dot tail,
    s = pre ++ d :: L ", " ++ y ++ dot ++ tail
    /\ is_digit d = true
    /\ length y = 4
    /\ Forall (fun c => is_digit c = true) y
    /\ (dot = [] \/ dot = ["."%char])
    /\ (tail = [] \/ tail = [LF]).
Proof.
  rewrite re_search_iff. split.
  - intros (q & st' & Hq & Hsem). apply date_end_elim in Hsem.
    destruct Hsem as (w & y & dot & tail & Hrest & Hlen & Hw & Hy & Hyd
                      & Hdot & Htail).
    simpl in Hrest.
    destruct w as [|d1 [|d2 [|d3 w]]]; simpl in Hlen; try lia.
    + exists (firstn q s), d1, y, dot, tail.
      inversion Hw; subst. repeat split; auto.
      rewrite <- (firstn_skipn q s) at 1. rewrite Hrest. reflexivity.
    + exists (firstn q s ++ [d1]), d2, y, dot, tail.
      inversion Hw as [|? ? _ Hw']; subst. inversion Hw'; subst.
      repeat split; auto.
      rewrite <- (firstn_skipn q s) at 1. rewrite Hrest.
      rewrite <- app_assoc. reflexivity.
  - intros (pre & d & y & dot & tail & Hs & Hd & Hy & Hyd & Hdot & Htail).
    destruct (date_end_intro (last_chr pre) d y dot tail Hd Hy Hyd Hdot Htail)
      as (st' & Hsem).
    exists (length pre), st'. subst s. split.
    + rewrite length_app. lia.
    + rewrite cursor_at_app. exact Hsem.
Qed.

(** X9.  A line passes the test of [_find_right_justified_dates] exactly
    when its indentation reaches the threshold and its stripped text
    ends with a digit, a comma, a space, four digits and at most one
    period.  Whatever precedes that digit is accepted, a second digit of
    the day included. *)
Theorem date_line_shape (indent_threshold : nat) (ln : str) :
  date_line indent_threshold ln = true <->
  indent_threshold <= indent_of indent_threshold ln
  /\ exists pre d y dot,
       strip ln = pre ++ d :: L ", " ++ y ++ dot
       /\ is_digit d = true
       /\ length y = 4
       /\ Forall (fun c => is_digit c = true) y
       /\ (dot = [] \/ dot = ["."%char]).
Proof.
  unfold date_line.
  rewrite andb_true_iff, negb_true_iff, Nat.ltb_ge, date_end_search.
  split.
  - intros (Hi & pre & d & y & dot & tail & Hs & Hd & Hy & Hyd & Hdot & Htail).
    split; [exact Hi |]. exists pre, d, y, dot.
    destruct Htail as [-> | ->].
    + rewrite app_nil_r in Hs. repeat split; auto.
    + exfalso.
      assert (Hlast : last_chr (strip ln) = Some LF).
      { rewrite Hs.
        replace (pre ++ d :: L ", " ++ y ++ dot ++ [LF])
          with ((pre ++ d :: L ", " ++ y ++ dot) ++ [LF]).
        - apply last_chr_app.
        - rewrite <- app_assoc. simpl. rewrite <- app_assoc. reflexivity. }
      apply (proj2 (strip_by_ends isspace ln)) in Hlast. discriminate.
  - intros (Hi & pre & d & y & dot & Hs & Hd & Hy & Hyd & Hdot).
    split; [exact Hi |]. exists pre, d, y, dot, [].
    rewrite app_nil_r. repeat split; auto.
Qed.
(** ** The titles are slices of the text *)

Lemma slice_app_l (s t : str) (a b : nat) :
  b <= length s -> slice (s ++ t) a b = slice s a b.
Proof.
  intros Hb. unfold slice. rewrite skipn_app, firstn_app.
  replace (b - a - length (skipn a s)) with 0
    by (rewrite length_skipn; lia).
  simpl. apply app_nil_r.
Qed.

Lemma slice_middle (pre x post : str) :
  slice (pre ++ x ++ post) (length pre) (length pre + length x) = x.
Proof.
  unfold slice. rewrite skipn_app, skipn_all, Nat.sub_diag. simpl.
  replace (length pre + length x - length pre) with (length x) by lia.
  rewrite firstn_app, firstn_all, Nat.sub_diag. simpl. apply app_nil_r.
Qed.

Lemma concat_snoc (lines : list str) (ln : str) :
  concat (lines ++ [ln]) = concat lines ++ ln.
Proof. rewrite concat_app. simpl. now rewrite app_nil_r. Qed.

Lemma block_text_snoc (block : list block_line) (x : block_line) :
  block_text (block ++ [x]) = block_text block ++ fst (fst x).
Proof.
  unfold block_text. rewrite map_app, concat_app. simpl.
  now rewrite app_nil_r.
Qed.

Lemma title_ok_mono (lines : list str) (ln : str) (t : title_block) :
  title_ok lines t -> title_ok (lines ++ [ln]) t.
Proof.
  intros (H1 & H2 & H3 & H4 & l & rest & H5 & H6 & H7).
  unfold title_ok. rewrite concat_snoc, length_app.
  repeat split; auto; try lia.
  - rewrite slice_app_l; auto.
  - exists l, rest. repeat split; auto. apply in_or_app. now left.
Qed.

Lemma strong_nonempty (l : str) : is_strong (strip l) = true -> l <> [].
Proof. intros H ->. discriminate. Qed.

Lemma close_block_ok (lines : list str) (titles : list title_block)
                     (block : list block_line) (block_start : nat) :
  Forall (title_ok lines) titles ->
  block <> [] -> block_ok lines block block_start ->
  Forall (title_ok lines) (close_block titles block block_start).
Proof.
  intros Ht Hne [Hnil | (pre & l & rest & Hc & Hpre & Hend & Htxt & Hin & Hs)];
    [contradiction |].
  unfold close_block.
  destruct (courtesy_start (lstrip (block_text block))) eqn:E; [exact Ht |].
  apply Forall_app. split; [exact Ht |]. constructor; [|constructor].
  unfold title_ok. cbn [tb_start tb_end tb_text].
  assert (Hlen : length (concat lines) = block_start + length (block_text block)).
  { rewrite Hc, length_app. lia. }
  assert (Hl : l <> []) by now apply strong_nonempty.
  assert (Hpos : 0 < length (block_text block)).
  { rewrite Htxt, length_app. destruct l; [contradiction | simpl; lia]. }
  repeat split; auto; try lia.
  - rewrite Hend, Hc, <- Hpre.
    rewrite <- (app_nil_r (block_text block)) at 2.
    rewrite length_app. symmetry.
    rewrite <- (app_nil_r (block_text block)) at 1 2.
    rewrite <- app_assoc.
    replace (length (block_text block ++ []))
      with (length (block_text block)) by now rewrite app_nil_r.
    apply (slice_middle pre (block_text block) []).
  - exists l, rest. auto.
Qed.

Lemma block_append_ok (lines : list str) (block : list block_line)
                      (block_start : nat) (ln : str) (a : nat) :
  block <> [] -> block_ok lines block block_start ->
  block_ok (lines ++ [ln])
           (block ++ [(ln, a, length (concat lines) + length ln)])
           block_start.
Proof.
  intros Hne [Hnil | (pre & l & rest & Hc & Hpre & Hend & Htxt & Hin & Hs)];
    [contradiction |].
  right. exists pre, l, (rest ++ ln).
  rewrite block_text_snoc, concat_snoc, block_end_snoc, length_app.
  cbn [fst snd]. repeat split; auto.
  - rewrite Hc. now rewrite app_assoc.
  - rewrite Htxt. now rewrite app_assoc.
  - apply in_or_app. now left.
Qed.

Lemma block_open_ok (lines : list str) (ln : str) (a : nat) :
  is_strong (strip ln) = true ->
  block_ok (lines ++ [ln]) [(ln, a, length (concat lines) + length ln)]
           (length (concat lines)).
Proof.
  intros Hs. right. exists (concat lines), ln, [].
  unfold block_text, block_end. cbn [map concat last fst snd].
  rewrite concat_snoc, length_app, !app_nil_r.
  repeat split; auto. apply in_or_app. right. now left.
Qed.

Lemma ft_step_inv_text (lines : list str) (st : ft_state) (ln : str)
                       (after : list str) :
  ft_inv_text lines st -> ft_inv_text (lines ++ [ln]) (ft_step st ln after).
Proof.
  intros (Hoff & Ht & Hb).
  assert (Hoff' : ft_offset st + length ln = length (concat (lines ++ [ln]))).
  { rewrite concat_snoc, length_app. lia. }
  assert (Hmono : Forall (title_ok (lines ++ [ln])) (ft_titles st)).
  { apply (Forall_impl _ (title_ok_mono lines ln)). exact Ht. }
  assert (Hclose : ft_block st <> [] ->
            Forall (title_ok (lines ++ [ln]))
                   (close_block (ft_titles st) (ft_block st)
                                (ft_block_start st))).
  { intros Hne. apply (Forall_impl _ (title_ok_mono lines ln)).
    now apply close_block_ok. }
  assert (Hclose' :
            Forall (title_ok (lines ++ [ln]))
                   (if is_nil (ft_block st) then ft_titles st
                    else close_block (ft_titles st) (ft_block st)
                                     (ft_block_start st))).
  { destruct (ft_block st) eqn:E; cbn [is_nil]; [exact Hmono |].
    apply Hclose. discriminate. }
  assert (Happ : ft_block st <> [] ->
            block_ok (lines ++ [ln])
                     (ft_block st ++
                        [(ln, ft_offset st, ft_offset st + length ln)])
                     (ft_block_start st)).
  { intros Hne. rewrite Hoff. now apply block_append_ok. }
  assert (Hnn : forall b : list block_line,
                  negb (is_nil b) = true -> b <> []).
  { intros [|x b]; simpl; congruence. }
  unfold ft_step.
  destruct (is_nil (strip ln) && negb (is_nil (ft_block st))) eqn:E1.
  { apply andb_true_iff in E1. destruct E1 as [_ E1]. apply Hnn in E1.
    destruct (lookahead_ok after); (split; [exact Hoff' |]);
      cbn [ft_titles ft_block ft_block_start]; split; auto.
    now left. }
  destruct (exclude_line ln).
  { split; [exact Hoff' |]. cbn [ft_titles ft_block ft_block_start].
    split; [exact Hclose' | now left]. }
  destruct (is_strong (strip ln)) eqn:E3.
  { split; [exact Hoff' |]. cbn [ft_titles ft_block ft_block_start].
    split; [exact Hmono |].
    destruct (ft_block st) eqn:E; cbn [is_nil].
    - rewrite Hoff. simpl. now apply block_open_ok.
    - apply Happ. discriminate. }
  destruct (negb (is_nil (ft_block st)) && is_short_final (strip ln)) eqn:E4.
  { apply andb_true_iff in E4. destruct E4 as [E4 _]. apply Hnn in E4.
    split; [exact Hoff' |]. cbn [ft_titles ft_block ft_block_start].
    split; auto. }
  split; [exact Hoff' |]. cbn [ft_titles ft_block ft_block_start].
  split; [exact Hclose' | now left].
Qed.

Lemma ft_loop_inv_text :
  forall after lines st,
    ft_inv_text lines st -> ft_inv_text (lines ++ after) (ft_loop st after).
Proof.
  induction after as [|ln after IH]; intros lines st H; simpl.
  - now rewrite app_nil_r.
  - replace (lines ++ ln :: after) with ((lines ++ [ln]) ++ after)
      by (rewrite <- app_assoc; reflexivity).
    apply IH. now apply ft_step_inv_text.
Qed.

Lemma find_titles_ok (text : str) :
  Forall (title_ok (splitlines true text)) (find_titles text).
Proof.
  unfold find_titles.
  assert (H : ft_inv_text (splitlines true text)
                (ft_loop (FT [] [] 0 0) (splitlines true text))).
  { apply (ft_loop_inv_text (splitlines true text) [] (FT [] [] 0 0)).
    split; [reflexivity |]. split; [constructor | now left]. }
  destruct H as (_ & Ht & Hb).
  destruct (ft_block _) eqn:E; cbn [is_nil]; [exact Ht |].
  apply close_block_ok; auto. discriminate.
Qed.

(** X10.  Every title [find_titles] returns is a slice of the text: its
    span is not empty, lies inside the text, and the text of the title
    is exactly the text between its two offsets. *)
Theorem find_titles_slices (text : str) :
  Forall (fun t => tb_start t < tb_end t
                   /\ tb_end t <= length text
                   /\ tb_text t = slice text (tb_start t) (tb_end t))
         (find_titles text).
Proof.
  eapply Forall_impl; [| apply find_titles_ok].
  intros t (H1 & H2 & H3 & _). simpl in *.
  rewrite concat_splitlines_keep in *. auto.
Qed.

(** X11.  No title [find_titles] returns starts, once its leading
    whitespace is dropped, with [Mr.], [Ms.] or [Mrs.]; and every title
    starts with a line of the text that is a strong heading: stripped,
    it has at least two words with a letter, at least eight letters, and
    at least 60% of its counted letters in upper case. *)
Theorem find_titles_headings (text : str) :
  Forall (fun t =>
            courtesy_start (lstrip (tb_text t)) = false
            /\ exists l rest,
                 tb_text t = l ++ rest
                 /\ In l (splitlines true text)
                 /\ 2 <= alpha_words (strip l)
                 /\ 8 <= alpha_count (strip l)
                 /\ (6 # 10 <= percent_uppercase_alpha (strip l) skip_words)%Q)
         (find_titles text).
Proof.
  eapply Forall_impl; [| apply find_titles_ok].
  intros t (_ & _ & _ & H4 & l & rest & H5 & H6 & H7).
  split; [exact H4 |]. exists l, rest. repeat split; auto.
  - unfold is_strong in H7. rewrite !andb_true_iff in H7.
    destruct H7 as ((H7 & _) & _). now apply Nat.leb_le.
  - unfold is_strong in H7. rewrite !andb_true_iff in H7.
    destruct H7 as (_ & H7). now apply Nat.leb_le.
  - unfold is_strong in H7. rewrite !andb_true_iff in H7.
    destruct H7 as ((_ & H7) & _). now apply pct_ok_spec.
Qed.
(** ** The reconstructed text and its offsets *)

Lemma reconstruct_spec :
  forall speeches acc,
    reconstruct acc speeches =
    (row_offsets (length acc) speeches,
     acc ++ concat (map (fun sp => sp ++ [LF; LF]) speeches)).
Proof.
  induction speeches as [|sp speeches IH]; intros acc; cbn [reconstruct].
  - simpl. now rewrite app_nil_r.
  - rewrite IH. cbn [row_offsets map concat]. f_equal.
    + f_equal. f_equal. rewrite !length_app. simpl. lia.
    + rewrite <- !app_assoc. reflexivity.
Qed.

Lemma row_offsets_ge (speeches : list str) :
  forall pos, Forall (fun o => pos <= o) (row_offsets pos speeches).
Proof.
  induction speeches as [|sp speeches IH]; intros pos; simpl; constructor.
  - lia.
  - eapply Forall_impl; [| apply IH]. simpl. intros o. lia.
Qed.

Lemma row_offsets_sorted (speeches : list str) :
  forall pos, StronglySorted lt (row_offsets pos speeches).
Proof.
  induction speeches as [|sp speeches IH]; intros pos; simpl; constructor.
  - apply IH.
  - eapply Forall_impl; [| apply row_offsets_ge]. simpl. intros o. lia.
Qed.

Lemma row_offsets_locate :
  forall speeches acc k off sp,
    nth_error (row_offsets (length acc) speeches) k = Some off ->
    nth_error speeches k = Some sp ->
    exists pre post,
      acc ++ concat (map (fun sp => sp ++ [LF; LF]) speeches)
      = pre ++ (sp ++ [LF; LF]) ++ post
      /\ length pre = off.
Proof.
  induction speeches as [|s speeches IH]; intros acc k off sp Hoff Hsp.
  - destruct k; discriminate.
  - destruct k as [|k]; simpl in Hoff, Hsp.
    + inversion Hoff; inversion Hsp; subst.
      exists acc, (concat (map (fun sp => sp ++ [LF; LF]) speeches)).
      split; reflexivity.
    + cbn [map concat].
      replace (length acc + length s + 2)
        with (length (acc ++ s ++ [LF; LF])) in Hoff
        by (rewrite !length_app; simpl; lia).
      destruct (IH _ _ _ _ Hoff Hsp) as (pre & post & Heq & Hlen).
      exists pre, post. split; [|exact Hlen].
      rewrite <- Heq. rewrite <- !app_assoc. reflexivity.
Qed.

(** X12.  The first loop of [worker_process] records for each speech
    the offset at which it starts in the reconstructed text: the
    offsets are those of [row_offsets], they increase strictly, and the
    text at the offset of a speech is that speech followed by two line
    feeds. *)
Theorem reconstruct_offsets (speeches : list str) :
  fst (reconstruct [] speeches) = row_offsets 0 speeches
  /\ StronglySorted lt (fst (reconstruct [] speeches))
  /\ forall k off sp,
       nth_error (fst (reconstruct [] speeches)) k = Some off ->
       nth_error speeches k = Some sp ->
       slice (snd (reconstruct [] speeches)) off (off + length sp) = sp
       /\ slice (snd (reconstruct [] speeches))
                (off + length sp) (off + length sp + 2) = [LF; LF].
Proof.
  rewrite reconstruct_spec. cbn [fst snd length app].
  split; [reflexivity |]. split; [apply row_offsets_sorted |].
  intros k off sp Hoff Hsp.
  destruct (row_offsets_locate speeches [] k off sp Hoff Hsp)
    as (pre & post & Heq & Hlen).
  simpl in Heq. rewrite Heq. subst off. split.
  - rewrite <- app_assoc. apply slice_middle.
  - replace (pre ++ (sp ++ [LF; LF]) ++ post)
      with ((pre ++ sp) ++ [LF; LF] ++ post)
      by (rewrite <- !app_assoc; reflexivity).
    replace (length pre + length sp) with (length (pre ++ sp))
      by apply length_app.
    apply (slice_middle (pre ++ sp) [LF; LF] post).
Qed.

(** ** The share of upper-case letters *)

(** X13.  [percent_uppercase_alpha] returns a share: a rational between
    0 and 1, whatever the line and the words to skip; it is 0 for a line
    none of whose letters are counted. *)
Theorem percent_uppercase_alpha_bounds (line : str) (skip : list str) :
  (0 <= percent_uppercase_alpha line skip)%Q
  /\ (percent_uppercase_alpha line skip <= 1)%Q
  /\ (counted_letters line skip = [] ->
      percent_uppercase_alpha line skip = 0%Q).
Proof.
  unfold percent_uppercase_alpha.
  pose proof (filter_length_le isupper (counted_letters line skip)) as Hle.
  destruct (counted_letters line skip) as [|c letters] eqn:E.
  - simpl. repeat split; auto; unfold Qle; simpl; lia.
  - cbn [length] in *. repeat split.
    + unfold Qle. simpl. lia.
    + unfold Qle. cbn [Qnum Qden]. rewrite Znat.Zpos_P_of_succ_nat. lia.
    + discriminate.
Qed.

(** ** The rows are grouped by file *)

Lemma str_eqb_eq (a b : str) : str_eqb a b = true <-> a = b.
Proof.
  revert b. induction a as [|x a IH]; intros [|y b]; simpl;
    try (split; [discriminate | discriminate]); [tauto |].
  rewrite andb_true_iff, IH. unfold chr_eqb. rewrite Ascii.eqb_eq.
  split; [intros (-> & ->); reflexivity | intros H; inversion H; auto].
Qed.

Lemma str_eqb_refl (a : str) : str_eqb a a = true.
Proof. now apply str_eqb_eq. Qed.

Lemma str_eqb_neq (a b : str) : str_eqb a b = false <-> a <> b.
Proof.
  rewrite <- str_eqb_eq. destruct (str_eqb a b); split; congruence.
Qed.

Lemma key_eqb_refl (k : key) : key_eqb k k = true.
Proof. destruct k; simpl; [apply str_eqb_refl | reflexivity]. Qed.

Lemma key_eqb_eq (a b : key) : key_eqb a b = true <-> a = b.
Proof.
  destruct a as [a|], b as [b|]; simpl; rewrite ?str_eqb_eq;
    split; congruence.
Qed.

Lemma adjacent_snoc (names : list str) (a b : str) :
  adjacent_differ (names ++ [a]) -> a <> b ->
  adjacent_differ ((names ++ [a]) ++ [b]).
Proof.
  induction names as [|x names IH]; intros H Hab.
  - simpl. auto.
  - destruct names as [|y names].
    + simpl in *. destruct H as [H _]. auto.
    + cbn [app adjacent_differ] in *. destruct H as [Hxy H].
      split; [exact Hxy |]. apply IH; auto.
Qed.

Lemma filter_snoc {A} (f : A -> bool) (l : list A) (x : A) :
  filter f (l ++ [x]) = filter f l ++ (if f x then [x] else []).
Proof. rewrite filter_app. reflexivity. Qed.

Lemma ends_unnamed_snoc (done : list row) (r : row) :
  ends_unnamed (done ++ [r]) = no_name r.
Proof. unfold ends_unnamed. rewrite map_app. apply last_last. Qed.

Lemma none_entry_named (done : list row) (r : row) :
  no_name r = false -> none_entry (done ++ [r]) = none_entry done.
Proof.
  intros H. unfold none_entry. now rewrite filter_snoc, H, app_nil_r.
Qed.

Lemma none_entry_unnamed (done : list row) (r : row) :
  no_name r = true ->
  none_entry (done ++ [r]) = [(None, filter no_name done ++ [r])].
Proof.
  intros H. unfold none_entry. rewrite filter_snoc, H.
  destruct (filter no_name done); reflexivity.
Qed.

Lemma none_entry_get (done : list row) (k : str) (d : dict (list row)) :
  dict_get (Some k) (none_entry done ++ d) = dict_get (Some k) d.
Proof. unfold none_entry. destruct (filter no_name done); reflexivity. Qed.

Lemma none_entry_set (done : list row) (k : str) (v : list row)
                     (d : dict (list row)) :
  dict_set (Some k) v (none_entry done ++ d)
  = none_entry done ++ dict_set (Some k) v d.
Proof. unfold none_entry. destruct (filter no_name done); reflexivity. Qed.

Lemma none_entry_del (done : list row) (k : str) (d : dict (list row)) :
  dict_del (Some k) (none_entry done ++ d)
  = none_entry done ++ dict_del (Some k) d.
Proof. unfold none_entry. destruct (filter no_name done); reflexivity. Qed.

Ltac dict_simpl :=
  repeat (progress
            (rewrite ?none_entry_get, ?none_entry_set, ?none_entry_del,
               ?str_eqb_refl;
             try match goal with
                 | H : str_eqb _ _ = false |- _ => rewrite H
                 end;
             cbn [dict_get dict_set dict_del key_eqb negb])).

Lemma named_tasks_snoc (named : list (str * list row)) (fn : str)
                       (cur : list row) :
  named_tasks named ++ [(Some fn, cur)] = named_tasks (named ++ [(fn, cur)]).
Proof. unfold named_tasks. now rewrite map_app. Qed.

(** A row of a file: the named entry of the buffer grows, or the entry
    of the file before is moved to the tasks. *)
Lemma group_step_named (done : list row) (st : group_state) (r : row)
                       (fn : str) :
  group_inv done st -> filename_of r = Some (Field fn) ->
  exists st', group_step st r = Ok st' /\ group_inv (done ++ [r]) st'.
Proof.
  intros (named & Htl & Hok & Hcase) Hfn.
  assert (Hhas : has_name r = true) by (unfold has_name; now rewrite Hfn).
  assert (Hno : no_name r = false) by (unfold no_name; now rewrite Hfn).
  unfold group_step. unfold filename_of in Hfn. rewrite Hfn.
  destruct (last_filename st) as [last|] eqn:Hlast.
  - destruct Hcase as (cur & Hbuf & Hend & (Hne & Hall) & Hcat & Hadj).
    cbn [fst snd] in Hne, Hall. rewrite Hbuf.
    destruct (str_eqb fn last) eqn:E.
    + apply str_eqb_eq in E. subst last. dict_simpl.
      eexists. split; [reflexivity |].
      exists named. cbn [task_list last_filename buffer].
      split; [exact Htl |]. split; [exact Hok |].
      exists (cur ++ [r]). rewrite (none_entry_named done r Hno).
      split; [reflexivity |]. rewrite ends_unnamed_snoc.
      split; [exact Hno |]. split.
      * split; cbn [fst snd]; [destruct cur; discriminate |].
        apply Forall_app. split; [exact Hall |]. repeat constructor.
        exact Hfn.
      * split.
        -- rewrite filter_snoc, Hhas, app_assoc, Hcat. reflexivity.
        -- intros Hd. apply Hadj. apply Forall_app in Hd. tauto.
    + dict_simpl.
      eexists. split; [reflexivity |].
      exists (named ++ [(last, cur)]). cbn [task_list last_filename buffer].
      split; [rewrite Htl; apply named_tasks_snoc |].
      split; [apply Forall_app; split; [exact Hok |];
              repeat constructor; [exact Hne | exact Hall] |].
      exists [r]. rewrite (none_entry_named done r Hno).
      split; [reflexivity |]. rewrite ends_unnamed_snoc.
      split; [exact Hno |]. split.
      * split; cbn [fst snd]; [discriminate |]. repeat constructor.
        exact Hfn.
      * split.
        -- rewrite filter_snoc, Hhas, map_app, concat_app.
           cbn [map concat snd]. rewrite app_nil_r, Hcat. reflexivity.
        -- intros Hd. apply Forall_app in Hd. rewrite map_app.
           cbn [map fst]. apply adjacent_snoc; [tauto |].
           apply str_eqb_neq in E. congruence.
  - destruct Hcase as (Hbuf & Hor & Hcat). rewrite Hbuf.
    rewrite <- (app_nil_r (none_entry done)). dict_simpl.
    eexists. split; [reflexivity |].
    exists named. cbn [task_list last_filename buffer].
    split; [exact Htl |]. split; [exact Hok |].
    exists [r]. rewrite (none_entry_named done r Hno).
    split; [reflexivity |]. rewrite ends_unnamed_snoc.
    split; [exact Hno |]. split.
    + split; cbn [fst snd]; [discriminate |]. repeat constructor. exact Hfn.
    + split.
      * rewrite filter_snoc, Hhas, Hcat. reflexivity.
      * intros Hd. apply Forall_app in Hd. destruct Hd as [Hd _].
        assert (Hnil : named = []).
        { destruct Hor as [-> | Hend].
          - simpl in Hcat. destruct named as [|[n rs] named]; [reflexivity |].
            inversion Hok as [|? ? (Hne & _) _]; subst. cbn [fst snd] in *.
            simpl in Hcat. destruct rs; [contradiction | discriminate].
          - exfalso.
            destruct done as [|d0 done] using rev_ind; [discriminate |].
            rewrite ends_unnamed_snoc in Hend.
            apply Forall_app in Hd. destruct Hd as [_ Hd].
            inversion Hd as [|? ? Hh _]; subst.
            unfold has_name, no_name in *.
            destruct (filename_of d0) as [[| |]|]; discriminate. }
        subst named. simpl. exact I.
Qed.

(** A row whose file name is [None]: it joins the rows of its kind, and
    the entry of the file before is moved to the tasks. *)
Lemma group_step_unnamed (done : list row) (st : group_state) (r : row) :
  group_inv done st -> filename_of r = Some Missing ->
  exists st', group_step st r = Ok st' /\ group_inv (done ++ [r]) st'.
Proof.
  intros (named & Htl & Hok & Hcase) Hfn.
  assert (Hhas : has_name r = false) by (unfold has_name; now rewrite Hfn).
  assert (Hno : no_name r = true) by (unfold no_name; now rewrite Hfn).
  unfold group_step. unfold filename_of in Hfn. rewrite Hfn.
  pose proof (none_entry_unnamed done r Hno) as Hnew.
  destruct (last_filename st) as [last|] eqn:Hlast.
  - destruct Hcase as (cur & Hbuf & Hend & (Hne & Hall) & Hcat & Hadj).
    cbn [fst snd] in Hne, Hall. rewrite Hbuf. unfold none_entry.
    destruct (filter no_name done) as [|u us] eqn:Hf;
      cbn [app dict_get dict_set dict_del key_eqb negb];
      rewrite ?str_eqb_refl;
      cbn [app dict_get dict_set dict_del key_eqb negb];
      (eexists; split; [reflexivity |]);
      exists (named ++ [(last, cur)]); cbn [task_list last_filename buffer];
      (split; [rewrite Htl; apply named_tasks_snoc |]);
      (split; [apply Forall_app; split; [exact Hok |];
               repeat constructor; [exact Hne | exact Hall] |]);
      rewrite Hnew, ends_unnamed_snoc, filter_snoc, Hhas, app_nil_r,
        map_app, concat_app; cbn [map concat snd]; rewrite app_nil_r;
      repeat split; auto.
  - destruct Hcase as (Hbuf & Hor & Hcat). rewrite Hbuf. unfold none_entry.
    destruct (filter no_name done) as [|u us] eqn:Hf;
      cbn [app dict_get dict_set dict_del key_eqb negb];
      (eexists; split; [reflexivity |]);
      exists named; cbn [task_list last_filename buffer];
      (split; [exact Htl |]); (split; [exact Hok |]);
      rewrite Hnew, ends_unnamed_snoc, filter_snoc, Hhas, app_nil_r;
      repeat split; auto.
Qed.

Lemma group_step_inv (done : list row) (st : group_state) (r : row) :
  group_inv done st -> has_name r || no_name r = true ->
  exists st', group_step st r = Ok st' /\ group_inv (done ++ [r]) st'.
Proof.
  intros Hinv Hr. unfold has_name, no_name in Hr.
  destruct (filename_of r) as [[fn| |l]|] eqn:E; try discriminate.
  - now apply (group_step_named done st r fn).
  - now apply group_step_unnamed.
Qed.

Lemma group_loop_inv :
  forall rows done st,
    group_inv done st ->
    Forall (fun r => has_name r || no_name r = true) rows ->
    exists st', group_loop st rows = Ok st'
                /\ group_inv (done ++ rows) st'.
Proof.
  induction rows as [|r rows IH]; intros done st Hinv Hall.
  - exists st. rewrite app_nil_r. auto.
  - inversion Hall as [|? ? Hr Hall']; subst.
    destruct (group_step_inv done st r Hinv Hr) as (st1 & Hstep & Hinv1).
    cbn [group_loop]. rewrite Hstep.
    destruct (IH (done ++ [r]) st1 Hinv1 Hall') as (st' & Hloop & Hinv').
    exists st'. split; [exact Hloop |].
    rewrite <- app_assoc in Hinv'. exact Hinv'.
Qed.

Lemma group_inv_init : group_inv [] (Group [] None []).
Proof.
  exists []. cbn [task_list last_filename buffer]. repeat split; auto.
Qed.

(** The loop stops at the first row that has no [filename] column, or
    a list in it. *)
Lemma group_loop_raise (pre : list row) (r : row) (post : list row) (e : exn) :
  Forall (fun r => has_name r || no_name r = true) pre ->
  (forall st, group_step st r = Raise e) ->
  group_tasks (pre ++ r :: post) = Raise e.
Proof.
  intros Hpre Hr. unfold group_tasks.
  destruct (group_loop_inv pre [] _ group_inv_init Hpre) as (st & Hloop & _).
  assert (H : forall rows st0 st1,
             group_loop st0 rows = Ok st1 ->
             group_loop st0 (rows ++ r :: post) = Raise e).
  { induction rows as [|x rows IH]; intros st0 st1 H; cbn [group_loop app] in *.
    - now rewrite Hr.
    - destruct (group_step st0 x); [eapply IH; eauto | discriminate]. }
  now rewrite (H pre _ st Hloop).
Qed.

(** X14.  The reading loop of [main] groups the rows of the input into
    tasks by file name.  When every row has a [filename] column that
    holds a string or [None], the loop raises nothing; the tasks of the
    files, one after the other, hold the rows that have a file name, in
    the order of the input, every task has at least one row and all its
    rows carry its file name.  The rows whose file name is [None], as
    the reader gives it to a line that is too short, are kept apart:
    they are put together in one last task when the last row is one of
    them, and they are in no task otherwise.  When every row has a file
    name no row is lost, repeated or reordered, and two tasks in a row
    have different file names; a file whose rows come in two runs gives
    two tasks.  The first row that has no [filename] column makes the
    loop raise a [KeyError], and the first row that has a list in it a
    [TypeError]. *)
Theorem group_tasks_spec (rows : list row) :
  (Forall (fun r => has_name r || no_name r = true) rows ->
   exists named,
     group_tasks rows = Ok (named_tasks named ++ unnamed_task rows)
     /\ concat (map snd named) = filter has_name rows
     /\ Forall task_ok named
     /\ (Forall (fun r => has_name r = true) rows ->
         group_tasks rows = Ok (named_tasks named)
         /\ concat (map snd named) = rows
         /\ adjacent_differ (map fst named)))
  /\ (forall pre r post,
        rows = pre ++ r :: post ->
        Forall (fun r => has_name r || no_name r = true) pre ->
        (filename_of r = None -> group_tasks rows = Raise KeyError)
        /\ (forall l, filename_of r = Some (Extras l) ->
                      group_tasks rows = Raise TypeError))
  /\ (let a := [(Some (L "filename"), Field (L "a.txt"))] in
      let b := [(Some (L "filename"), Field (L "b.txt"))] in
      let u := [(Some (L "filename"), Missing)] in
      group_tasks [a; u; b]
      = Ok [(Some (L "a.txt"), [a]); (Some (L "b.txt"), [b])]
      /\ group_tasks [u; a; u]
         = Ok [(Some (L "a.txt"), [a]); (None, [u; u])]
      /\ group_tasks [a; b; a]
         = Ok [(Some (L "a.txt"), [a]); (Some (L "b.txt"), [b]);
               (Some (L "a.txt"), [a])]).
Proof.
  split; [| split; [| repeat split; vm_compute; reflexivity]].
  - intros Hall.
    destruct (group_loop_inv rows [] _ group_inv_init Hall)
      as (st & Hloop & Hinv).
    cbn [app] in Hinv. destruct Hinv as (named & Htl & Hok & Hcase).
    assert (Hnames : Forall (fun r => has_name r = true) rows ->
                     ends_unnamed rows = false /\ filter has_name rows = rows).
    { intros Hn. split.
      - destruct rows as [|d0 rows] using rev_ind; [reflexivity |].
        rewrite ends_unnamed_snoc. apply Forall_app in Hn.
        destruct Hn as [_ Hn]. inversion Hn as [|? ? Hh _]; subst.
        unfold has_name, no_name in *.
        destruct (filename_of d0) as [[| |]|]; congruence.
      - clear -Hn. induction Hn as [|x l Hx _ IH]; [reflexivity |].
        cbn [filter]. now rewrite Hx, IH. }
    unfold group_tasks. rewrite Hloop.
    destruct (last_filename st) as [fn|] eqn:Hlast.
    + destruct Hcase as (cur & Hbuf & Hend & Htok & Hcat & Hadj).
      exists (named ++ [(fn, cur)]).
      rewrite Hbuf, none_entry_get. cbn [dict_get key_eqb].
      rewrite str_eqb_refl, Htl, named_tasks_snoc.
      unfold unnamed_task. rewrite Hend, app_nil_r.
      split; [reflexivity |].
      split; [rewrite map_app, concat_app; cbn [map concat snd];
              now rewrite app_nil_r |].
      split; [apply Forall_app; split;
              [exact Hok | constructor; [exact Htok | constructor]] |].
      intros Hn. destruct (Hnames Hn) as [_ Hfil].
      split; [reflexivity |]. split.
      * rewrite map_app, concat_app. cbn [map concat snd].
        now rewrite app_nil_r, Hcat.
      * rewrite map_app. cbn [map fst]. now apply Hadj.
    + destruct Hcase as (Hbuf & Hor & Hcat).
      exists named. rewrite Hbuf, Htl. unfold unnamed_task, none_entry.
      assert (Hshape : match (if ends_unnamed rows
                              then filter no_name rows else []) with
                       | [] => ends_unnamed rows = false
                       | _ => ends_unnamed rows = true
                       end -> True) by auto.
      clear Hshape.
      destruct Hor as [-> | Hend].
      * cbn. rewrite app_nil_r. repeat split; auto.
        simpl in Hcat. destruct named as [|[n rs] named]; [exact I |].
        inversion Hok as [|? ? (Hne & _) _]; subst. cbn [fst snd] in *.
        simpl in Hcat. destruct rs; [contradiction | discriminate].
      * rewrite Hend.
        assert (Hf : filter no_name rows <> []).
        { destruct rows as [|d0 rows] using rev_ind; [discriminate |].
          rewrite ends_unnamed_snoc in Hend. rewrite filter_snoc, Hend.
          destruct (filter no_name rows); discriminate. }
        destruct (filter no_name rows) as [|u us]; [contradiction |].
        cbn [dict_get key_eqb]. split; [reflexivity |].
        split; [exact Hcat |]. split; [exact Hok |].
        intros Hn. destruct (Hnames Hn) as [Hcontra _]. congruence.
  - intros pre r post -> Hpre. split.
    + intros Hr. apply group_loop_raise; [exact Hpre |].
      intros st. unfold group_step. unfold filename_of in Hr.
      now rewrite Hr.
    + intros l Hr. apply group_loop_raise; [exact Hpre |].
      intros st. unfold group_step. unfold filename_of in Hr.
      now rewrite Hr.
Qed.

Lemma group_tasks_spec_witness :
  let r1 := [(Some (L "filename"), Field (L "a.txt"));
             (Some (L "speech"), Field (L "one"))] in
  let r2 := [(Some (L "filename"), Missing); (Some (L "speech"), Missing)] in
  let r3 := [(Some (L "filename"), Field (L "b.txt"));
             (Some (L "speech"), Field (L "three"))] in
  exists named,
    group_tasks [r1; r2; r3] = Ok (named_tasks named ++ unnamed_task [r1; r2; r3])
    /\ concat (map snd named) = filter has_name [r1; r2; r3]
    /\ Forall task_ok named
    /\ (Forall (fun r => has_name r = true) [r1; r2; r3] ->
        group_tasks [r1; r2; r3] = Ok (named_tasks named)
        /\ concat (map snd named) = [r1; r2; r3]
        /\ adjacent_differ (map fst named)).
Proof.
  intros r1 r2 r3.
  apply (proj1 (group_tasks_spec [r1; r2; r3])).
  repeat constructor.
Defined.
(** ** More on the fuzzy filter *)

Lemma edit1_sym (a b : list nat) : edit1 a b -> edit1 b a.
Proof.
  intros [pre x y post Ha Hb | pre x post Ha Hb | pre x post Ha Hb].
  - eapply edit_subst; eauto.
  - eapply edit_insert; eauto.
  - eapply edit_delete; eauto.
Qed.

Lemma edit1_length (a b : list nat) :
  edit1 a b -> length a <= S (length b) /\ length b <= S (length a).
Proof.
  intros [pre x y post -> -> | pre x post -> -> | pre x post -> ->];
    rewrite !length_app; simpl; lia.
Qed.

(** X15.  [levenshtein_leq1] does not depend on the order of its two
    arguments, holds of every string against itself, and only holds of
    strings whose lengths differ by at most one. *)
Theorem levenshtein_leq1_symmetric (a b : list nat) :
  levenshtein_leq1 a b = levenshtein_leq1 b a
  /\ levenshtein_leq1 a a = true
  /\ (levenshtein_leq1 a b = true ->
      length a <= S (length b) /\ length b <= S (length a)).
Proof.
  assert (Hsym : forall x y, levenshtein_leq1 x y = true ->
                             levenshtein_leq1 y x = true).
  { intros x y H. apply levenshtein_leq1_edit in H.
    apply levenshtein_leq1_edit. destruct H as [-> | H]; [now left |].
    right. now apply edit1_sym. }
  repeat split.
  - destruct (levenshtein_leq1 a b) eqn:E1, (levenshtein_leq1 b a) eqn:E2;
      auto.
    + apply Hsym in E1. congruence.
    + apply Hsym in E2. congruence.
  - apply levenshtein_leq1_edit. now left.
  - apply levenshtein_leq1_edit in H. destruct H as [-> | H]; [lia |].
    now apply edit1_length in H.
  - apply levenshtein_leq1_edit in H. destruct H as [-> | H]; [lia |].
    now apply edit1_length in H.
Qed.

Lemma filter_firstn_length {A} (f : A -> bool) (n : nat) (l : list A) :
  length (filter f (firstn n l)) <= length (filter f l).
Proof.
  revert n. induction l as [|x l IH]; intros [|n]; simpl; try lia.
  specialize (IH n). destruct (f x); simpl; lia.
Qed.

Lemma filter_skipn_length {A} (f : A -> bool) (n : nat) (l : list A) :
  length (filter f (skipn n l)) <= length (filter f l).
Proof.
  revert n. induction l as [|x l IH]; intros [|n]; simpl; try lia.
  specialize (IH n). destruct (f x); simpl; lia.
Qed.

(** X16.  A line is only removed by the filter when, upper-cased, it
    holds at least 19 characters that are upper-case ASCII letters or
    spaces: a line with fewer of them, a blank or a short line for
    one, is always kept. *)
Theorem fuzzy_filter_needs_letters (line : str) :
  length (window_clean (upper line)) < T_LEN - 1 ->
  line_contains_fuzzy_target line = false
  /\ keep_line line = true.
Proof.
  intros Hlen.
  assert (H : line_contains_fuzzy_target line = false).
  { destruct (line_contains_fuzzy_target line) eqn:E; [|reflexivity].
    apply line_contains_fuzzy_target_spec in E.
    destruct E as (len & i & _ & _ & Hlev).
    apply levenshtein_leq1_edit in Hlev.
    assert (Hw : length (window_clean (window_at (upper line) i len))
                 <= length (window_clean (upper line))).
    { unfold window_clean, window_at.
      etransitivity; [apply filter_firstn_length |].
      apply filter_skipn_length. }
    assert (Ht : length TARGET
                 <= S (length (window_clean (window_at (upper line) i len)))).
    { destruct Hlev as [-> | Hlev]; [lia |].
      now apply edit1_length in Hlev. }
    change (length TARGET) with 20 in Ht. change T_LEN with 20 in Hlen.
    simpl in Hlen. lia. }
  split; [exact H |]. unfold keep_line. now rewrite H.
Qed.

Lemma fuzzy_filter_needs_letters_witness :
  line_contains_fuzzy_target (L "I yield back.") = false
  /\ keep_line (L "I yield back.") = true.
Proof.
  apply (fuzzy_filter_needs_letters (L "I yield back.")).
  vm_compute. lia.
Defined.

(** ** Chunks *)

Lemma firstn_plus {A} (a b : nat) (l : list A) :
  firstn (a + b) l = firstn a l ++ firstn b (skipn a l).
Proof.
  revert l. induction a as [|a IH]; intros l; simpl; [reflexivity |].
  destruct l as [|x l]; simpl.
  - now rewrite firstn_nil.
  - now rewrite IH.
Qed.

Lemma list_slice_step {A} (l : list A) (a cs : nat) :
  list_slice l a (a + cs) = firstn cs (skipn a l).
Proof. unfold list_slice. f_equal. lia. Qed.

Lemma concat_steps {A} (l : list A) (cs m : nat) :
  concat (map (fun k => firstn cs (skipn (k * cs) l)) (seq 0 m)) =
  firstn (m * cs) l.
Proof.
  induction m as [|m IH]; [reflexivity |].
  rewrite seq_S, map_app, concat_app, IH. cbn [map concat plus].
  rewrite app_nil_r. replace (S m * cs) with (m * cs + cs) by lia.
  now rewrite firstn_plus.
Qed.

Lemma ceil_div_covers (len cs : nat) :
  0 < cs -> len <= (len + cs - 1) / cs * cs.
Proof.
  intros Hcs.
  pose proof (Nat.div_mod_eq (len + cs - 1) cs) as H.
  pose proof (Nat.mod_upper_bound (len + cs - 1) cs ltac:(lia)) as Hm.
  nia.
Qed.

Lemma ceil_div_tight (len cs k : nat) :
  0 < cs -> k < (len + cs - 1) / cs -> k * cs < len.
Proof.
  intros Hcs Hk.
  pose proof (Nat.div_mod_eq (len + cs - 1) cs) as H.
  assert (S k * cs <= (len + cs - 1) / cs * cs) by (apply Nat.mul_le_mono_r; lia).
  nia.
Qed.

Lemma chunk_nonempty {A} (l : list A) (cs a : nat) :
  0 < cs -> a < length l ->
  firstn cs (skipn a l) <> [] /\ length (firstn cs (skipn a l)) <= cs.
Proof.
  intros Hcs Ha. split.
  - intros H. apply (f_equal (@length A)) in H.
    rewrite length_firstn, length_skipn in H. simpl in H. lia.
  - rewrite length_firstn. lia.
Qed.

Lemma row_chunks_spec {A} (rows : list A) (n : nat) :
  concat (row_chunks rows n) = rows
  /\ Forall (fun c => c <> [] /\ length c <= Nat.max 1 (length rows / n))
            (row_chunks rows n).
Proof.
  unfold row_chunks, range_step.
  set (cs := Nat.max 1 (length rows / n)).
  assert (Hcs : 0 < cs) by (unfold cs; lia).
  rewrite map_map. split.
  - erewrite map_ext; [| intros k; apply list_slice_step].
    rewrite concat_steps. apply firstn_all2.
    now apply ceil_div_covers.
  - apply Forall_forall. intros c Hc. apply in_map_iff in Hc.
    destruct Hc as (k & <- & Hk). apply in_seq in Hk.
    rewrite list_slice_step. apply chunk_nonempty; auto.
    apply ceil_div_tight; auto. lia.
Qed.

Lemma dict_get_set_same {V} (k : key) (v : V) (d : dict V) :
  dict_get k (dict_set k v d) = Some v.
Proof.
  induction d as [|[k0 v0] d IH]; cbn [dict_set dict_get].
  - now rewrite key_eqb_refl.
  - destruct (key_eqb k k0) eqn:E; cbn [dict_get].
    + now rewrite key_eqb_refl.
    + rewrite E. exact IH.
Qed.

Lemma dict_get_set_other {V} (k k' : key) (v : V) (d : dict V) :
  k' <> k -> dict_get k' (dict_set k v d) = dict_get k' d.
Proof.
  intros Hne.
  assert (Hf : key_eqb k' k = false).
  { destruct (key_eqb k' k) eqn:E; [|reflexivity].
    apply key_eqb_eq in E. contradiction. }
  induction d as [|[k0 v0] d IH]; cbn [dict_set dict_get].
  - now rewrite Hf.
  - destruct (key_eqb k k0) eqn:E; cbn [dict_get].
    + apply key_eqb_eq in E. subst k0. now rewrite Hf.
    + destruct (key_eqb k' k0); [reflexivity | exact IH].
Qed.

(** The loop over the chunks of a list does what the loop over the list
    does. *)
Lemma for_each_app {A B} (f : A -> outcome B) (l1 l2 : list A) :
  for_each f (l1 ++ l2) =
  match for_each f l1 with
  | Ok ys1 =>
      match for_each f l2 with
      | Ok ys2 => Ok (ys1 ++ ys2)
      | Raise e => Raise e
      end
  | Raise e => Raise e
  end.
Proof.
  induction l1 as [|x l1 IH]; cbn [app for_each].
  - destruct (for_each f l2); reflexivity.
  - destruct (f x); [|reflexivity]. rewrite IH.
    destruct (for_each f l1); [|reflexivity].
    destruct (for_each f l2); reflexivity.
Qed.

Lemma for_each_concat {A B} (f : A -> outcome B) (chunks : list (list A)) :
  match for_each (for_each f) chunks with
  | Ok cleaned => Ok (concat cleaned)
  | Raise e => Raise e
  end = for_each f (concat chunks).
Proof.
  induction chunks as [|c chunks IH]; [reflexivity |].
  cbn [for_each concat]. rewrite for_each_app, <- IH.
  destruct (for_each f c); [|reflexivity].
  destruct (for_each (for_each f) chunks); reflexivity.
Qed.

Lemma for_each_ok {A B} (f : A -> outcome B) (R : A -> B -> Prop)
                  (l : list A) :
  Forall (fun x => exists y, f x = Ok y /\ R x y) l ->
  exists ys, for_each f l = Ok ys /\ Forall2 R l ys.
Proof.
  induction 1 as [|x l (y & Hy & HR) _ (ys & Hys & HF)]; cbn [for_each].
  - exists []. auto.
  - rewrite Hy, Hys. exists (y :: ys). auto.
Qed.

Lemma for_each_raise {A B} (f : A -> outcome B) (e : exn) (l : list A) :
  (forall x e', f x = Raise e' -> e' = e) ->
  (exists x, In x l /\ f x = Raise e) ->
  for_each f l = Raise e.
Proof.
  intros Honly. induction l as [|x l IH]; intros (x0 & Hin & Hx0).
  - destruct Hin.
  - cbn [for_each]. destruct (f x) as [y|e'] eqn:E.
    + rewrite IH; [reflexivity |]. destruct Hin as [-> | Hin];
        [congruence | eauto].
    + f_equal. eapply Honly. exact E.
Qed.

Lemma clean_row_ok (r : row) (s : str) :
  speech_text r = Some s ->
  exists r', clean_row r = Ok r' /\ row_cleaned r r'.
Proof.
  intros Hs. unfold clean_row. unfold speech_text in Hs.
  exists (dict_set (Some (L "speech")) (Field (clean_speech_text s)) r).
  split.
  - destruct (dict_get (Some (L "speech")) r) as [[t| |l]|];
      inversion Hs; subst; reflexivity.
  - split.
    + exists s. split.
      * unfold speech_text.
        destruct (dict_get (Some (L "speech")) r) as [[t| |l]|];
          inversion Hs; subst; reflexivity.
      * apply dict_get_set_same.
    + intros k Hk. now apply dict_get_set_other.
Qed.

Lemma clean_row_raise (r : row) :
  (speech_text r = None -> clean_row r = Raise AttributeError)
  /\ (forall e, clean_row r = Raise e -> e = AttributeError).
Proof.
  unfold clean_row, speech_text.
  destruct (dict_get (Some (L "speech")) r) as [[t| |l]|]; split;
    intros; congruence.
Qed.

(** X17.  The chunks [main] hands to its workers cut the rows into
    consecutive pieces: for a positive number [n] of processes the
    chunks, one after the other, are the rows in their order, every
    chunk has at least one row and at most [max(1, len(rows) // n)]
    rows, and cleaning the chunks gives what cleaning the rows in one
    loop gives.  When the speech of every row is a string, or the
    column is not there, the cleaned rows collected from the workers
    are the rows of the input in the order of the input, each with its
    speech filtered and its other columns as they were.  When the
    speech of some row is not a string, as the [None] the reader gives
    a line that is too short, an [AttributeError] is raised and no row
    is returned. *)
Theorem cleaned_rows_spec (rows : list row) (n : nat) :
  0 < n ->
  concat (row_chunks rows n) = rows
  /\ Forall (fun c => c <> [] /\ length c <= Nat.max 1 (length rows / n))
            (row_chunks rows n)
  /\ cleaned_rows rows n = worker rows
  /\ (Forall (fun r => speech_text r <> None) rows ->
      exists out,
        cleaned_rows rows n = Ok out /\ Forall2 row_cleaned rows out)
  /\ ((exists r, In r rows /\ speech_text r = None) ->
      cleaned_rows rows n = Raise AttributeError).
Proof.
  intros _. destruct (row_chunks_spec rows n) as [Hc Hf].
  assert (Hclean : cleaned_rows rows n = worker rows).
  { unfold cleaned_rows, worker. rewrite for_each_concat, Hc. reflexivity. }
  split; [exact Hc |]. split; [exact Hf |]. split; [exact Hclean |].
  rewrite Hclean. unfold worker. split.
  - intros Hall. apply for_each_ok.
    eapply Forall_impl; [| exact Hall]. cbn beta. intros r Hr.
    destruct (speech_text r) as [s|] eqn:E; [|contradiction].
    now apply (clean_row_ok r s).
  - intros (r & Hin & Hr). apply for_each_raise.
    + intros x e. apply clean_row_raise.
    + exists r. split; [exact Hin |]. now apply clean_row_raise.
Qed.

Lemma cleaned_rows_spec_witness :
  let r1 := [(Some (L "speaker"), Field (L "Mr. SMITH"));
             (Some (L "speech"), Field (L "one"))] in
  let r2 := [(Some (L "speaker"), Field (L "Mr. JONES"));
             (Some (L "speech"), Missing)] in
  let r3 := [(Some (L "speaker"), Field (L "Mr. SMITH"));
             (Some (L "speech"), Field (L "three"))] in
  (exists out, cleaned_rows [r1; r3] 2 = Ok out
               /\ Forall2 row_cleaned [r1; r3] out)
  /\ cleaned_rows [r1; r2; r3] 2 = Raise AttributeError.
Proof.
  intros r1 r2 r3. split.
  - apply (cleaned_rows_spec [r1; r3] 2); [lia |].
    repeat constructor; discriminate.
  - apply (cleaned_rows_spec [r1; r2; r3] 2); [lia |].
    exists r2. split; [right; left; reflexivity | reflexivity].
Defined.
(** ** Chamber markers *)

Lemma insert_by_In {A} (key : A -> nat) (x y : A) (l : list A) :
  In y (insert_by key x l) <-> y = x \/ In y l.
Proof.
  induction l as [|z l IH]; simpl.
  - intuition.
  - destruct (key x <=? key z); simpl; [intuition |].
    rewrite IH. intuition.
Qed.

Lemma sort_by_In {A} (key : A -> nat) (y : A) (l : list A) :
  In y (sort_by key l) <-> In y l.
Proof.
  induction l as [|x l IH]; simpl; [tauto |].
  rewrite insert_by_In, IH. intuition.
Qed.

Lemma insert_by_sorted {A} (key : A -> nat) (x : A) (l : list A) :
  StronglySorted (fun a b => key a <= key b) l ->
  StronglySorted (fun a b => key a <= key b) (insert_by key x l).
Proof.
  induction 1 as [|y l Hl IH Hy]; simpl.
  - repeat constructor.
  - destruct (key x <=? key y) eqn:E.
    + apply Nat.leb_le in E. constructor; [now constructor |].
      constructor; [exact E |].
      eapply Forall_impl; [| exact Hy]. simpl. intros z. lia.
    + apply Nat.leb_gt in E. constructor; [exact IH |].
      apply Forall_forall. intros z Hz. apply insert_by_In in Hz.
      destruct Hz as [-> | Hz]; [lia |].
      rewrite Forall_forall in Hy. now apply Hy.
Qed.

Lemma sort_by_sorted {A} (key : A -> nat) (l : list A) :
  StronglySorted (fun a b => key a <= key b) (sort_by key l).
Proof.
  induction l as [|x l IH]; simpl; [constructor |].
  now apply insert_by_sorted.
Qed.

Lemma last_cons {A} (l : list A) : forall x d, last (x :: l) d = last l x.
Proof.
  induction l as [|y l IH]; intros x d; [reflexivity |].
  change (last (x :: y :: l) d) with (last (y :: l) d).
  rewrite (IH y d), (IH y x). reflexivity.
Qed.

Lemma markers_upto_nil (offset : nat) (ms : list (nat * str)) :
  Forall (fun m => offset < fst m) ms -> markers_upto offset ms = [].
Proof.
  induction 1 as [|m l Hm _ IH]; [reflexivity |]. unfold markers_upto.
  simpl. destruct (fst m <=? offset) eqn:E; [|exact IH].
  apply Nat.leb_le in E. lia.
Qed.

Lemma chamber_loop_spec (offset : nat) :
  forall ms chamber,
    StronglySorted by_offset ms ->
    chamber_loop chamber offset ms =
    snd (last (markers_upto offset ms) (0, chamber)).
Proof.
  induction ms as [|[m ch] ms IH]; intros chamber Hs;
    [reflexivity |].
  inversion Hs as [|? ? Hs' Hall]; subst.
  cbn [chamber_loop markers_upto filter fst].
  destruct (m <=? offset) eqn:E.
  - rewrite IH by assumption. rewrite last_cons. unfold markers_upto.
    destruct (filter _ ms) as [|y l]; [reflexivity |].
    rewrite !last_cons. reflexivity.
  - apply Nat.leb_gt in E.
    assert (Hnil : filter (fun x => fst x <=? offset) ms = []).
    { apply markers_upto_nil. eapply Forall_impl; [| exact Hall].
      unfold by_offset. simpl. intros y. lia. }
    rewrite Hnil. reflexivity.
Qed.

Lemma chamber_regex_elim (word : string) (st st' : cursor) :
  sem (seqs [Bol; star ws; lit word; star ws; Eol]) st st' ->
  at_bol st = true
  /\ exists w1 w2,
       rest st = w1 ++ L word ++ w2 ++ rest st'
       /\ Forall (fun c => isspace c = true) w1
       /\ Forall (fun c => isspace c = true) w2.
Proof.
  intros H.
  rewrite sem_seqs_cons in H. destruct H as (s0 & [Hbol ->] & H).
  rewrite sem_seqs_cons in H. destruct H as (s1 & H1 & H).
  rewrite sem_seqs_cons in H. destruct H as (s2 & H2 & H).
  rewrite sem_seqs_cons in H. destruct H as (s3 & H3 & H).
  cbn [seqs sem] in H. destruct H as [_ ->].
  split; [exact Hbol |].
  apply iter_chr_elim in H1. destruct H1 as (w1 & Hw1 & Hall1 & _).
  apply sem_lit in H2. destruct H2 as [H2 _].
  apply iter_chr_elim in H3. destruct H3 as (w2 & Hw2 & Hall2 & _).
  exists w1, w2. rewrite Hw1, H2, Hw2. auto.
Qed.

Lemma chamber_match (word : string) (text : str) (a b : nat) :
  In (a, b) (finditer (seqs [Bol; star ws; lit word; star ws; Eol]) text) ->
  at_bol (cursor_at text a) = true
  /\ exists w tail,
       Forall (fun c => isspace c = true) w
       /\ skipn a text = w ++ L word ++ tail.
Proof.
  intros H. apply finditer_slice in H. destruct H as (st' & Hsem & _).
  apply chamber_regex_elim in Hsem.
  destruct Hsem as (Hbol & w1 & w2 & Hrest & H1 & _).
  split; [exact Hbol |]. exists w1, (w2 ++ rest st'). split; [exact H1 |].
  exact Hrest.
Qed.

Lemma chamber_markers_In (text : str) (a : nat) (ch : str) :
  In (a, ch) (determine_chamber_markers text) <->
  (ch = L "H" /\ exists b, In (a, b) (finditer HOUSE_REGEX text))
  \/ (ch = L "S" /\ exists b, In (a, b) (finditer SENATE_REGEX text)).
Proof.
  unfold determine_chamber_markers.
  rewrite sort_by_In, in_app_iff, !in_map_iff. split.
  - intros [([x b] & Heq & Hin) | ([x b] & Heq & Hin)];
      simpl in Heq; inversion Heq; subst; [left | right]; eauto.
  - intros [(-> & b & Hin) | (-> & b & Hin)]; [left | right];
      exists (a, b); auto.
Qed.

(** X18.  The chamber markers are sorted by offset, one for each match
    of the two chamber patterns; a marker sits at the start of a line
    from which only whitespace, line breaks included, precedes the word
    [HOUSE] or [SENATE].  [chamber_for_offset] on these markers returns
    the chamber of the last marker at or before the offset, and the
    empty string when every marker lies after the offset. *)
Theorem chamber_for_offset_spec (text : str) (offset : nat) :
  StronglySorted by_offset (determine_chamber_markers text)
  /\ (forall a ch,
        In (a, ch) (determine_chamber_markers text) <->
        (ch = L "H" /\ exists b, In (a, b) (finditer HOUSE_REGEX text))
        \/ (ch = L "S" /\ exists b, In (a, b) (finditer SENATE_REGEX text)))
  /\ (forall a ch,
        In (a, ch) (determine_chamber_markers text) ->
        at_bol (cursor_at text a) = true
        /\ exists w tail,
             Forall (fun c => isspace c = true) w
             /\ (ch = L "H" /\ skipn a text = w ++ L "HOUSE" ++ tail
                 \/ ch = L "S" /\ skipn a text = w ++ L "SENATE" ++ tail))
  /\ chamber_for_offset offset (determine_chamber_markers text) =
     snd (last (markers_upto offset (determine_chamber_markers text)) (0, []))
  /\ (Forall (fun m => offset < fst m) (determine_chamber_markers text) ->
      chamber_for_offset offset (determine_chamber_markers text) = []).
Proof.
  assert (Hs : StronglySorted by_offset (determine_chamber_markers text)).
  { unfold determine_chamber_markers. apply (sort_by_sorted fst). }
  assert (Hspec : chamber_for_offset offset (determine_chamber_markers text) =
     snd (last (markers_upto offset (determine_chamber_markers text)) (0, []))).
  { unfold chamber_for_offset. now apply chamber_loop_spec. }
  split; [exact Hs |]. split; [apply chamber_markers_In |].
  split; [| split; [exact Hspec |]].
  - intros a ch Hin. apply chamber_markers_In in Hin.
    destruct Hin as [(-> & b & Hin) | (-> & b & Hin)].
    + destruct (chamber_match "HOUSE" text a b Hin) as (Hbol & w & tail & Hw & Heq).
      split; [exact Hbol |]. exists w, tail. split; [exact Hw |]. now left.
    + destruct (chamber_match "SENATE" text a b Hin) as (Hbol & w & tail & Hw & Heq).
      split; [exact Hbol |]. exists w, tail. split; [exact Hw |]. now right.
  - intros Hall. rewrite Hspec, markers_upto_nil by exact Hall.
    reflexivity.
Qed.
(** ** Locating the speeches in the file *)

Lemma find_at_ge (sub : str) :
  forall s pos i, find_at sub s pos = Some i -> pos <= i.
Proof.
  induction s as [|c s IH]; intros pos i H; cbn [find_at] in H.
  - destruct (startswith sub []); inversion H; lia.
  - destruct (startswith sub (c :: s)); [inversion H; lia |].
    apply IH in H. lia.
Qed.

Lemma str_find_ge (text sub : str) (start i : nat) :
  str_find text sub start = Some i -> start <= i.
Proof.
  unfold str_find. destruct (length text <? start); [discriminate |].
  apply find_at_ge.
Qed.

Lemma find_at_found (sub post : str) :
  forall pre pos,
    exists i pre' post',
      find_at sub (pre ++ sub ++ post) pos = Some i
      /\ pre ++ sub ++ post = pre' ++ sub ++ post'
      /\ i = pos + length pre'
      /\ length pre' <= length pre.
Proof.
  induction pre as [|c pre IH]; intros pos.
  - exists pos, [], post. simpl.
    assert (H : startswith sub (sub ++ post) = true)
      by (apply startswith_iff; eauto).
    destruct (sub ++ post) eqn:E; cbn [find_at]; rewrite H; auto.
  - cbn [app find_at].
    destruct (startswith sub (c :: pre ++ sub ++ post)) eqn:E.
    + apply startswith_iff in E. destruct E as (b & Hb).
      exists pos, [], b. simpl. repeat split; auto. lia.
    + destruct (IH (S pos)) as (i & pre' & post' & Hf & Heq & Hi & Hlen).
      exists i, (c :: pre'), post'. simpl.
      split; [exact Hf |]. split; [now rewrite Heq |]. lia.
Qed.

Lemma str_find_found (text sub : str) (start p : nat) :
  start <= p -> occurs_at text p sub ->
  exists i, str_find text sub start = Some i
            /\ start <= i /\ i <= p /\ occurs_at text i sub.
Proof.
  intros Hsp (pre & post & Ht & Hp). unfold str_find.
  assert (Hlen : (length text <? start) = false).
  { apply Nat.ltb_ge. rewrite Ht, length_app. lia. }
  rewrite Hlen.
  assert (Hskip : skipn start text = skipn start pre ++ sub ++ post).
  { rewrite Ht, skipn_app.
    replace (start - length pre) with 0 by lia. reflexivity. }
  rewrite Hskip.
  destruct (find_at_found sub post (skipn start pre) start)
    as (i & pre' & post' & Hf & Heq & Hi & Hle).
  exists i. rewrite length_skipn in Hle.
  repeat split; auto; try lia.
  exists (firstn start text ++ pre'), post'. split.
  - rewrite <- app_assoc, <- Heq, <- Hskip. symmetry. apply firstn_skipn.
  - rewrite length_app, length_firstn.
    assert (start <= length text) by (apply Nat.ltb_ge in Hlen; lia). lia.
Qed.

Lemma batch_rows_columns (text : str) (ms : list (nat * str)) :
  forall speeches cursor,
    map (fun r => (row_speaker r, row_speech r))
        (batch_rows text ms cursor speeches) = speeches
    /\ Forall (fun r => cursor <= row_idx r
                        /\ row_gender r = infer_gender (row_speaker r)
                        /\ row_chamber r = chamber_for_offset (row_idx r) ms)
              (batch_rows text ms cursor speeches).
Proof.
  induction speeches as [|[who sp] speeches IH]; intros cursor;
    cbn [batch_rows map].
  - split; constructor.
  - destruct (IH (match str_find text sp cursor with
                  | Some i => i
                  | None => cursor
                  end + length sp)) as [IH1 IH2].
    assert (Hge : cursor <= match str_find text sp cursor with
                            | Some i => i
                            | None => cursor
                            end).
    { destruct (str_find text sp cursor) eqn:E; [|lia].
      now apply str_find_ge in E. }
    split.
    + rewrite IH1. reflexivity.
    + constructor; [cbn; auto |].
      eapply Forall_impl; [| exact IH2]. cbn. intros r (H1 & H2 & H3).
      repeat split; auto. lia.
Qed.

Lemma batch_rows_sorted (text : str) (ms : list (nat * str)) :
  forall speeches cursor,
    StronglySorted row_before (batch_rows text ms cursor speeches).
Proof.
  induction speeches as [|[who sp] speeches IH]; intros cursor;
    cbn [batch_rows]; constructor.
  - apply IH.
  - eapply Forall_impl;
      [| apply (proj2 (batch_rows_columns text ms speeches _))].
    unfold row_before. cbn. intros r (H & _). exact H.
Qed.

Lemma process_file_cases (parse_date : str -> option (str * str))
                          (read_text : str -> option str) (filepath : str) :
  process_file parse_date read_text filepath = []
  \/ exists text, read_text filepath = Some text
                  /\ process_file parse_date read_text filepath
                     = file_rows text.
Proof.
  unfold process_file.
  destruct (extract_date_from_filename _ _); [|now left].
  destruct (read_text filepath) as [text|]; [|now left].
  right. exists text. auto.
Qed.

(** X19.  [process_batch] writes the rows of its files in the order of
    the file list.  For a file it writes no row when [DATE_REGEX] has no
    match in the name of the file, when the match is no date, or when
    the file cannot be read.  Otherwise the rows are the pairs of
    [scrape] on the text of the file, in their order, one row each, with
    the gender and the chamber computed from the speaker and the offset
    of the row alone.  In every case the offsets at which the speeches
    are located never go back: a row is located at or after the end of
    the row before it, whether its speech was found in the text or the
    fall-back to the cursor was taken. *)
Theorem process_batch_rows (parse_date : str -> option (str * str))
                           (read_text : str -> option str)
                           (file_list : list str) (filepath : str) :
  process_batch parse_date read_text file_list
  = concat (map (process_file parse_date read_text) file_list)
  /\ (finditer DATE_REGEX (basename filepath) = [] ->
      process_file parse_date read_text filepath = [])
  /\ (extract_date_from_filename parse_date (basename filepath) = None ->
      process_file parse_date read_text filepath = [])
  /\ (read_text filepath = None ->
      process_file parse_date read_text filepath = [])
  /\ (forall date text,
        extract_date_from_filename parse_date (basename filepath)
        = Some date ->
        read_text filepath = Some text ->
        map (fun r => (row_speaker r, row_speech r))
            (process_file parse_date read_text filepath) = scrape text
        /\ length (process_file parse_date read_text filepath)
           = length (scrape text)
        /\ Forall (fun r =>
                     row_gender r = infer_gender (row_speaker r)
                     /\ row_chamber r =
                        chamber_for_offset (row_idx r)
                                           (determine_chamber_markers text))
                  (process_file parse_date read_text filepath))
  /\ StronglySorted row_before (process_file parse_date read_text filepath)
  /\ finditer DATE_REGEX (basename (L "/raw/1923/March 3, 1923.txt"))
     = [(0, 13)]
  /\ finditer DATE_REGEX (basename (L "/raw/March 3, 1923/notes.txt")) = [].
Proof.
  split; [apply flat_map_concat_map |].
  split.
  { intros H. unfold process_file, extract_date_from_filename.
    now rewrite H. }
  split; [intros H; unfold process_file; now rewrite H |].
  split.
  { intros H. unfold process_file. rewrite H.
    now destruct (extract_date_from_filename _ _). }
  split.
  { intros date text Hd Hr. unfold process_file. rewrite Hd, Hr.
    unfold file_rows.
    destruct (batch_rows_columns text (determine_chamber_markers text)
                (scrape text) 0) as [H1 H2].
    split; [exact H1 |]. split.
    - rewrite <- H1 at 2. now rewrite length_map.
    - eapply Forall_impl; [| exact H2]. cbn. tauto. }
  split.
  { unfold process_file.
    destruct (extract_date_from_filename _ _); [|constructor].
    destruct (read_text filepath); [|constructor].
    apply batch_rows_sorted. }
  split; vm_compute; reflexivity.
Qed.

Lemma process_batch_rows_witness :
  let parse_date := fun _ : str => Some (L "1923-03-03", L "1920s") in
  let read_text := fun _ : str => Some scenario_A in
  map (fun r => (row_speaker r, row_speech r))
      (process_file parse_date read_text (L "/raw/1923/March 3, 1923.txt"))
  = scrape scenario_A.
Proof.
  intros parse_date read_text.
  destruct (process_batch_rows parse_date read_text []
              (L "/raw/1923/March 3, 1923.txt"))
    as (_ & _ & _ & _ & H & _).
  apply (H (L "1923-03-03", L "1920s") scenario_A); reflexivity.
Defined.

Lemma located_from_weaken (text : str) (speeches : list str) (c c' : nat) :
  c' <= c -> located_from text c speeches -> located_from text c' speeches.
Proof.
  destruct speeches as [|sp speeches]; [auto |].
  intros Hc (p & Hp & Hocc & Hrest). exists p. repeat split; auto. lia.
Qed.

Lemma batch_rows_found (text : str) (ms : list (nat * str)) :
  forall speeches cursor,
    located_from text cursor (map snd speeches) ->
    Forall (fun r => occurs_at text (row_idx r) (row_speech r))
           (batch_rows text ms cursor speeches).
Proof.
  induction speeches as [|[who sp] speeches IH]; intros cursor Hloc;
    cbn [batch_rows]; [constructor |].
  cbn [map snd located_from] in Hloc.
  destruct Hloc as (p & Hp & Hocc & Hrest).
  destruct (str_find_found text sp cursor p Hp Hocc)
    as (i & Hf & Hci & Hip & Hocc').
  rewrite Hf. constructor; [exact Hocc' |].
  apply IH. eapply located_from_weaken; [| exact Hrest]. lia.
Qed.

Lemma slice_decompose (text : str) (s e : nat) :
  s <= length text ->
  exists post,
    text = firstn s text ++ slice text s e ++ post
    /\ length (firstn s text) = s
    /\ length (slice text s e) <= e - s.
Proof.
  intros Hs. exists (skipn (e - s) (skipn s text)). unfold slice.
  rewrite firstn_skipn, firstn_skipn. repeat split.
  - rewrite length_firstn. lia.
  - rewrite length_firstn. lia.
Qed.

Lemma turns_located (text : str) :
  forall turns cursor,
    StronglySorted turn_before turns ->
    Forall (fun t => span_start t <= length text
                     /\ speech t = strip (slice text (span_start t)
                                                (span_end t))) turns ->
    Forall (fun t => cursor <= span_start t) turns ->
    located_from text cursor (map speech turns).
Proof.
  induction turns as [|t turns IH]; intros cursor Hs Hok Hc; [exact I |].
  inversion Hs as [|? ? Hs' Hbefore]; subst.
  inversion Hok as [|? ? (Hlen & Hsp) Hok']; subst.
  inversion Hc as [|? ? Hct Hc']; subst.
  cbn [map located_from].
  destruct (slice_decompose text (span_start t) (span_end t) Hlen)
    as (post & Htext & Hpre & Hslice).
  destruct (strip_by_infix isspace (slice text (span_start t) (span_end t)))
    as (a & b & Hab).
  fold (strip (slice text (span_start t) (span_end t))) in Hab.
  rewrite <- Hsp in Hab.
  exists (span_start t + length a). split; [lia |]. split.
  - exists (firstn (span_start t) text ++ a), (b ++ post). split.
    + rewrite Htext at 1. rewrite Hab. rewrite <- !app_assoc. reflexivity.
    + rewrite length_app. lia.
  - apply IH; auto.
    rewrite Hab, !length_app in Hslice.
    eapply Forall_impl; [| exact Hbefore]. unfold turn_before.
    intros t' (H1 & H2). lia.
Qed.

Lemma plain_no_trigger (s : str) :
  forallb plain_chr s = true ->
  forallb (fun c => negb (mem_chr c TRIGGERS)) s = true.
Proof.
  rewrite !forallb_forall. intros H c Hc. apply H in Hc.
  unfold plain_chr in Hc. rewrite !andb_true_iff in Hc. tauto.
Qed.

Lemma plain_prepare (text : str) :
  forallb plain_chr text = true -> prepare text = text.
Proof.
  intros H. unfold prepare. rewrite strip_note_blocks_id.
  - unfold replace_chr. rewrite <- (map_id text) at 2.
    apply map_ext_in. intros c Hc. rewrite forallb_forall in H.
    apply H in Hc. unfold plain_chr in Hc. rewrite !andb_true_iff in Hc.
    destruct Hc as ((_ & Hc) & _). apply negb_true_iff in Hc.
    now rewrite Hc.
  - destruct (contains (L "=====") text) eqn:E; [|reflexivity].
    apply contains_iff in E. destruct E as (a & b & ->).
    rewrite forallb_forall in H.
    assert (Hin : In "="%char (a ++ L "=====" ++ b)).
    { apply in_or_app. right. now left. }
    apply H in Hin. discriminate.
Qed.

Lemma scrape_turns_sorted (text : str) :
  StronglySorted turn_before (scrape_turns text).
Proof.
  unfold scrape_turns. apply assemble_sorted.
  - apply sort_events_sorted.
  - apply Forall_forall. intros e Hin Hty.
    apply (timeline_speaker_spans _ _ Hin) in Hty.
    apply finditer_sound in Hty. simpl in Hty. tauto.
  - rewrite timeline_speakers. eapply chain_ends_sorted.
    + apply finditer_chain.
    + apply speaker_spans_nonempty.
  - intros st e [].
Qed.

Lemma scrape_turns_bounds (text : str) :
  Forall (fun t => span_start t <= length (prepare text)
                   /\ span_end t <= length (prepare text))
         (scrape_turns text).
Proof.
  unfold scrape_turns. apply assemble_bounds.
  - apply Forall_forall. intros e He.
    unfold timeline in He. apply (proj1 (sort_events_In _ _)) in He.
    apply all_events_bounds in He. lia.
  - intros s [].
Qed.

(** X20.  In a transcript without a trigger character of the artifact
    patterns, without an equals sign and without a no-break space,
    [process_batch] finds every speech where it stands: the text
    [scrape] scans is the transcript itself, every speech is its slice
    stripped, and the offset of every row is an offset at which the
    speech of the row occurs in the transcript, so that the fall-back
    to the cursor is never taken.  The same holds of the rows written
    for a file with that text, whether the date could be extracted from
    its name or not. *)
Theorem file_rows_located (text : str) :
  forallb plain_chr text = true ->
  prepare text = text
  /\ Forall (fun t => speech t =
                      strip (slice text (span_start t) (span_end t)))
            (scrape_turns text)
  /\ Forall (fun r =>
               occurs_at text (row_idx r) (row_speech r)
               /\ slice text (row_idx r) (row_idx r + length (row_speech r))
                  = row_speech r)
            (file_rows text)
  /\ (forall parse_date read_text filepath,
        read_text filepath = Some text ->
        Forall (fun r =>
                  occurs_at text (row_idx r) (row_speech r)
                  /\ slice text (row_idx r)
                           (row_idx r + length (row_speech r))
                     = row_speech r)
               (process_file parse_date read_text filepath)).
Proof.
  intros Hplain.
  assert (Hmain :
    prepare text = text
    /\ Forall (fun t => speech t =
                        strip (slice text (span_start t) (span_end t)))
              (scrape_turns text)
    /\ Forall (fun r =>
                 occurs_at text (row_idx r) (row_speech r)
                 /\ slice text (row_idx r)
                          (row_idx r + length (row_speech r))
                    = row_speech r)
              (file_rows text));
    [| destruct Hmain as (H1 & H2 & H3); repeat split; auto;
       intros parse_date read_text filepath Hr;
       destruct (process_file_cases parse_date read_text filepath)
         as [-> | (text' & Hr' & ->)]; [constructor |];
       rewrite Hr in Hr'; inversion Hr'; subst; exact H3].
  pose proof (plain_prepare text Hplain) as Hprep.
  assert (Hsp : Forall (fun t => speech t =
                          strip (slice text (span_start t) (span_end t)))
                       (scrape_turns text)).
  { unfold scrape_turns. rewrite Hprep.
    eapply Forall_impl; [| apply assemble_speech]. intros t ->.
    apply clean_speech_no_trigger. apply plain_no_trigger.
    apply forallb_forall. intros c Hc. rewrite forallb_forall in Hplain.
    apply Hplain. unfold slice in Hc.
    apply (In_skipn c (span_start t)).
    rewrite <- (firstn_skipn (span_end t - span_start t)
                  (skipn (span_start t) text)).
    apply in_or_app. now left. }
  split; [exact Hprep |]. split; [exact Hsp |].
  assert (Hloc : located_from text 0 (map snd (scrape text))).
  { unfold scrape. rewrite map_map. cbn [snd].
    apply turns_located.
    - apply scrape_turns_sorted.
    - pose proof (scrape_turns_bounds text) as Hb. rewrite Hprep in Hb.
      rewrite Forall_forall in *. intros t Ht. split.
      + apply Hb. exact Ht.
      + apply Hsp. exact Ht.
    - apply Forall_forall. intros t _. lia. }
  unfold file_rows.
  eapply Forall_impl;
    [| apply (batch_rows_found text _ (scrape text) 0 Hloc)].
  intros r Hocc. split; [exact Hocc |].
  destruct Hocc as (pre & post & Ht & Hp). rewrite Ht, <- Hp.
  apply slice_middle.
Qed.

Lemma file_rows_located_witness :
  Forall (fun r =>
            occurs_at scenario_A (row_idx r) (row_speech r)
            /\ slice scenario_A (row_idx r)
                     (row_idx r + length (row_speech r)) = row_speech r)
         (file_rows scenario_A).
Proof.
  apply (file_rows_located scenario_A). reflexivity.
Defined.
(** ** The chunks of files *)

Lemma firstn_min_length {A} (a : nat) (l : list A) :
  firstn (Nat.min a (length l)) l = firstn a l.
Proof.
  destruct (Nat.le_gt_cases a (length l)) as [H | H].
  - now rewrite Nat.min_l.
  - rewrite Nat.min_r by lia. rewrite firstn_all, firstn_all2 by lia.
    reflexivity.
Qed.

Lemma file_chunk_at {A} (l : list A) (cs i : nat) :
  let start := i * cs in
  let stop := Nat.min (start + cs) (length l) in
  concat (map snd (if start <? stop
                   then [(i, list_slice l start stop)] else []))
  = firstn cs (skipn start l).
Proof.
  cbv zeta. destruct (i * cs <? Nat.min (i * cs + cs) (length l)) eqn:E.
  - apply Nat.ltb_lt in E. cbn [map snd concat]. rewrite app_nil_r.
    unfold list_slice.
    replace (Nat.min (i * cs + cs) (length l) - i * cs)
      with (Nat.min cs (length (skipn (i * cs) l)))
      by (rewrite length_skipn; lia).
    apply firstn_min_length.
  - apply Nat.ltb_ge in E. cbn [map concat].
    destruct cs as [|cs]; [reflexivity |].
    rewrite skipn_all2 by lia. now rewrite firstn_nil.
Qed.

Lemma concat_flat_map_snd {A B} (F : nat -> list (B * list A))
                          (G : nat -> list A) (idxs : list nat) :
  (forall i, concat (map snd (F i)) = G i) ->
  concat (map snd (flat_map F idxs)) = concat (map G idxs).
Proof.
  intros H. induction idxs as [|i idxs IH]; [reflexivity |].
  cbn [flat_map map concat]. rewrite map_app, concat_app, H, IH.
  reflexivity.
Qed.

Lemma flat_map_ids {B} (F : nat -> list (nat * B)) :
  (forall i, F i = [] \/ exists x, F i = [(i, x)]) ->
  forall m a,
    StronglySorted lt (map fst (flat_map F (seq a m)))
    /\ Forall (fun i => a <= i) (map fst (flat_map F (seq a m)))
    /\ length (flat_map F (seq a m)) <= m.
Proof.
  intros HF. induction m as [|m IH]; intros a.
  - simpl. repeat constructor.
  - cbn [seq flat_map]. destruct (IH (S a)) as (Hs & Hge & Hlen).
    destruct (HF a) as [-> | (x & ->)]; cbn [app map fst length].
    + repeat split; auto.
      eapply Forall_impl; [| exact Hge]. simpl. intros i. lia.
    + repeat split.
      * constructor; [exact Hs |].
        eapply Forall_impl; [| exact Hge]. simpl. intros i. lia.
      * constructor; [lia |].
        eapply Forall_impl; [| exact Hge]. simpl. intros i. lia.
      * lia.
Qed.

(** X21.  The chunks [parse_all_files_parallel] hands to its workers
    cut the list of files into consecutive pieces: for a positive
    number of workers the chunks, one after the other, are the files in
    their order, so that every file is parsed once; no chunk is empty
    or longer than the chunk size, there are at most [ncpu] chunks, and
    their batch numbers increase and stay below [ncpu]. *)
Theorem file_chunks_cover {A} (all_files : list A) (ncpu : nat) :
  0 < ncpu ->
  concat (map snd (file_chunks all_files ncpu)) = all_files
  /\ Forall (fun c => snd c <> []
                      /\ length (snd c)
                         <= (length all_files + ncpu - 1) / ncpu
                      /\ fst c < ncpu)
            (file_chunks all_files ncpu)
  /\ StronglySorted lt (map fst (file_chunks all_files ncpu))
  /\ length (file_chunks all_files ncpu) <= ncpu.
Proof.
  intros Hn. unfold file_chunks.
  set (cs := (length all_files + ncpu - 1) / ncpu).
  assert (Hcover : length all_files <= ncpu * cs).
  { unfold cs. rewrite Nat.mul_comm. now apply ceil_div_covers. }
  split; [| split].
  - rewrite (concat_flat_map_snd _
               (fun i => firstn cs (skipn (i * cs) all_files)))
      by (intros i; apply (file_chunk_at all_files cs i)).
    rewrite concat_steps. now apply firstn_all2.
  - apply Forall_forall. intros c Hc. apply in_flat_map in Hc.
    destruct Hc as (i & Hi & Hc). apply in_seq in Hi.
    destruct (i * cs <? Nat.min (i * cs + cs) (length all_files)) eqn:E;
      [|destruct Hc].
    destruct Hc as [<- | []]. apply Nat.ltb_lt in E. cbn [fst snd].
    unfold list_slice.
    assert (Hlen : length (firstn (Nat.min (i * cs + cs) (length all_files)
                                   - i * cs)
                                  (skipn (i * cs) all_files))
                   = Nat.min (i * cs + cs) (length all_files) - i * cs).
    { rewrite length_firstn, length_skipn. lia. }
    repeat split; try lia.
    intros Hnil. rewrite Hnil in Hlen. simpl in Hlen. lia.
  - assert (HF : forall i,
              (fun i => if i * cs <? Nat.min (i * cs + cs) (length all_files)
                        then [(i, list_slice all_files (i * cs)
                                    (Nat.min (i * cs + cs) (length all_files)))]
                        else []) i = []
              \/ exists x,
                  (fun i => if i * cs <? Nat.min (i * cs + cs) (length all_files)
                            then [(i, list_slice all_files (i * cs)
                                        (Nat.min (i * cs + cs)
                                                 (length all_files)))]
                            else []) i = [(i, x)]).
    { intros i. cbv beta.
      destruct (i * cs <? Nat.min (i * cs + cs) (length all_files));
        [right; eexists; reflexivity | left; reflexivity]. }
    destruct (flat_map_ids _ HF ncpu 0) as (Hs & _ & Hlen).
    split; assumption.
Qed.

Lemma file_chunks_cover_witness :
  concat (map snd (file_chunks [1; 2; 3; 4; 5; 6; 7] 3)) =
  [1; 2; 3; 4; 5; 6; 7].
Proof.
  apply (file_chunks_cover [1; 2; 3; 4; 5; 6; 7] 3). lia.
Defined.

(** ** File names and keys of the scrapers *)

Lemma sub_chr_filter (p : ascii -> bool) :
  forall s q, sub_scan (Chr p) q s 0 = filter (fun c => negb (p c)) s.
Proof.
  induction s as [|c s IH]; intros q; [reflexivity |].
  cbn [sub_scan filter]. unfold match_len. cbn [run step_chr rest].
  destruct (p c); cbn [negb length rest].
  - replace (S (length s) - length s) with 1 by lia. apply IH.
  - now rewrite IH.
Qed.

Lemma filter_idem {A} (f : A -> bool) (l : list A) :
  filter f (filter f l) = filter f l.
Proof.
  induction l as [|x l IH]; [reflexivity |]. cbn [filter].
  destruct (f x) eqn:E; [|exact IH]. cbn [filter]. rewrite E. now f_equal.
Qed.

Lemma filter_all {A} (f : A -> bool) (l : list A) :
  forallb f l = true -> filter f l = l.
Proof.
  induction l as [|x l IH]; [reflexivity |]. cbn [filter forallb].
  intros H. apply andb_true_iff in H. destruct H as [Hx Hl].
  rewrite Hx. f_equal. now apply IH.
Qed.

(** X22.  [sanitize] deletes the nine characters of its class and
    nothing else: what it returns is the text without them, the other
    characters in their order.  None of the nine is left, a second pass
    changes nothing, the pieces of a text are cleaned independently,
    and a text without any of them is returned as it is. *)
Theorem sanitize_spec (text more : str) :
  sanitize text = filter (fun c => negb (mem_chr c SANITIZE_CHARS)) text
  /\ (forall c, In c (sanitize text) ->
                In c text /\ mem_chr c SANITIZE_CHARS = false)
  /\ sanitize (sanitize text) = sanitize text
  /\ sanitize (text ++ more) = sanitize text ++ sanitize more
  /\ (forallb (fun c => negb (mem_chr c SANITIZE_CHARS)) text = true ->
      sanitize text = text).
Proof.
  assert (H : forall s, sanitize s =
                        filter (fun c => negb (mem_chr c SANITIZE_CHARS)) s).
  { intros s. unfold sanitize, sub_empty. apply sub_chr_filter. }
  rewrite !H. repeat split.
  - apply filter_In in H0. tauto.
  - apply filter_In in H0. destruct H0 as [_ H0].
    now apply negb_true_iff in H0.
  - apply filter_idem.
  - apply filter_app.
  - apply filter_all.
Qed.

Lemma map_nth_seq {A} (l : list A) (d : A) :
  map (fun j => nth j l d) (seq 0 (length l)) = l.
Proof.
  induction l as [|x l IH]; [reflexivity |].
  cbn [length seq map nth]. f_equal.
  rewrite <- seq_shift, map_map. exact IH.
Qed.

Lemma get_api_keys_spec (keys : list str) :
  forall k idx,
    idx < length keys ->
    get_api_keys keys idx k =
    Some (map (fun j => nth ((idx + j) mod length keys) keys []) (seq 0 k),
          (idx + k) mod length keys).
Proof.
  induction k as [|k IH]; intros idx Hidx.
  - cbn [get_api_keys seq map]. rewrite Nat.add_0_r, Nat.mod_small by lia.
    reflexivity.
  - cbn [get_api_keys]. unfold get_api_key.
    rewrite (nth_error_nth' keys [] Hidx).
    rewrite IH by (apply Nat.mod_upper_bound; lia).
    cbn [seq map]. rewrite Nat.add_0_r, (Nat.mod_small idx) by lia.
    f_equal. f_equal.
    + f_equal. rewrite <- seq_shift, map_map. apply map_ext. intros j.
      rewrite Nat.Div0.add_mod_idemp_l. f_equal. f_equal. lia.
    + rewrite Nat.Div0.add_mod_idemp_l. f_equal. lia.
Qed.

(** X23.  [get_api_key] hands out the keys in turn: from an index
    inside the list, [k] calls in a row raise no error and return the
    keys at the indices [idx], [idx + 1], ... taken modulo the number of
    keys, and leave the index at [(idx + k)] modulo that number; as many
    calls as there are keys, from index 0, return every key once, in
    the order of the list, and leave the index at 0.  With no key the
    first call fails. *)
Theorem get_api_key_round_robin (API_KEYS : list str) (idx k : nat) :
  (idx < length API_KEYS ->
   get_api_keys API_KEYS idx k =
   Some (map (fun j => nth ((idx + j) mod length API_KEYS) API_KEYS [])
             (seq 0 k),
         (idx + k) mod length API_KEYS))
  /\ (API_KEYS <> [] ->
      get_api_keys API_KEYS 0 (length API_KEYS) = Some (API_KEYS, 0))
  /\ get_api_key [] idx = None.
Proof.
  split; [apply get_api_keys_spec |]. split.
  - intros Hne.
    assert (Hlen : 0 < length API_KEYS)
      by (destruct API_KEYS; [contradiction | simpl; lia]).
    rewrite get_api_keys_spec by exact Hlen.
    cbn [Nat.add]. rewrite Nat.Div0.mod_same.
    assert (Hm : map (fun j => nth (j mod length API_KEYS) API_KEYS [])
                     (seq 0 (length API_KEYS)) = API_KEYS).
    { transitivity (map (fun j => nth j API_KEYS [])
                        (seq 0 (length API_KEYS))).
      - apply map_ext_in. intros j Hj. apply in_seq in Hj.
        rewrite Nat.mod_small by lia. reflexivity.
      - apply map_nth_seq. }
    rewrite Hm. reflexivity.
  - unfold get_api_key. destruct idx; reflexivity.
Qed.

Lemma get_api_key_round_robin_witness :
  get_api_keys [L "k1"; L "k2"; L "k3"] 0 3 =
  Some ([L "k1"; L "k2"; L "k3"], 0).
Proof.
  apply (proj1 (proj2 (get_api_key_round_robin [L "k1"; L "k2"; L "k3"] 0 0))).
  discriminate.
Defined.

(** *** The granule id in a file name *)

Lemma code_ascii_of_nat (n : nat) : n < 256 -> code (ascii_of_nat n) = n.
Proof. intros H. unfold code. now apply nat_ascii_embedding. Qed.

Lemma digits_of_digits :
  forall fuel n acc,
    Forall (fun c => is_digit c = true) acc ->
    Forall (fun c => is_digit c = true) (digits_of fuel n acc).
Proof.
  induction fuel as [|fuel IH]; intros n acc Hacc; cbn [digits_of];
    [exact Hacc |].
  assert (Hd : is_digit (ascii_of_nat (48 + n mod 10)) = true).
  { pose proof (Nat.mod_upper_bound n 10 ltac:(lia)) as Hm.
    unfold is_digit, between. rewrite code_ascii_of_nat by lia.
    apply andb_true_iff. split; apply Nat.leb_le; lia. }
  destruct (n <? 10); [now constructor |].
  apply IH. now constructor.
Qed.

Lemma str_of_nat_digits (n : nat) :
  Forall (fun c => is_digit c = true) (str_of_nat n)
  /\ str_of_nat n <> [].
Proof.
  split; [apply digits_of_digits; constructor |].
  unfold str_of_nat. cbn [digits_of].
  assert (Hne : forall fuel m acc, acc <> [] -> digits_of fuel m acc <> []).
  { induction fuel as [|fuel IH]; intros m acc Hacc; cbn [digits_of];
      [exact Hacc |].
    destruct (m <? 10); [discriminate |]. apply IH. discriminate. }
  destruct (n <? 10); [discriminate |]. apply Hne. discriminate.
Qed.

Lemma after_first_app (sep : ascii) (pre tail : str) :
  Forall (fun c => chr_eqb c sep = false) pre ->
  after_first sep (pre ++ sep :: tail) = Some tail.
Proof.
  induction 1 as [|c pre Hc _ IH]; cbn [app after_first].
  - unfold chr_eqb. now rewrite Ascii.eqb_refl.
  - now rewrite Hc.
Qed.

Lemma startswith_length (p s : str) :
  startswith p s = true -> length p <= length s.
Proof.
  intros H. apply startswith_iff in H. destruct H as (b & ->).
  rewrite length_app. lia.
Qed.

Lemma before_last_short (sep : str) :
  forall s, length s < length sep -> before_last sep s = None.
Proof.
  induction s as [|c s IH]; intros Hlen; [reflexivity |].
  cbn [before_last]. rewrite IH by (simpl in Hlen; lia).
  destruct (startswith sep (c :: s)) eqn:E; [|reflexivity].
  apply startswith_length in E. lia.
Qed.

Lemma before_last_end (sep : str) :
  sep <> [] -> forall g, before_last sep (g ++ sep) = Some g.
Proof.
  intros Hne. induction g as [|c g IH].
  - destruct sep as [|c sep]; [contradiction |]. cbn [app before_last].
    rewrite before_last_short by (simpl; lia).
    assert (H : startswith (c :: sep) (c :: sep) = true)
      by (apply startswith_iff; exists []; now rewrite app_nil_r).
    now rewrite H.
  - cbn [app before_last]. now rewrite IH.
Qed.

Lemma digit_not_dash (c : ascii) :
  is_digit c = true -> chr_eqb c "-"%char = false.
Proof.
  intros H. destruct (chr_eqb c "-"%char) eqn:E; [|reflexivity].
  apply Ascii.eqb_eq in E. subst c. discriminate.
Qed.

(** X24.  The granule id [parse_day] reads back from the name
    [scrape_day] gave a file is the granule id the name was made from,
    whatever the number of the file and whatever the id, an id that
    itself holds dashes or [.html] included. *)
Theorem granule_id_round_trip (html_counter : nat) (gid : str) :
  granule_id_of (Some (html_name html_counter gid)) = gid.
Proof.
  destruct (str_of_nat_digits html_counter) as [Hd Hne].
  assert (Hdash : Forall (fun c => chr_eqb c "-"%char = false)
                         (str_of_nat html_counter)).
  { eapply Forall_impl; [| exact Hd]. apply digit_not_dash. }
  unfold granule_id_of, html_name.
  assert (Hnil : is_nil (str_of_nat html_counter ++ L "-" ++ gid ++ L ".html")
                 = false).
  { destruct (str_of_nat html_counter); [contradiction | reflexivity]. }
  assert (Hmem : mem_chr "-"%char
                   (str_of_nat html_counter ++ L "-" ++ gid ++ L ".html")
                 = true).
  { unfold mem_chr. apply existsb_exists. exists "-"%char. split.
    - apply in_or_app. right. now left.
    - reflexivity. }
  rewrite Hnil, Hmem. cbn [negb andb].
  change (L "-" ++ gid ++ L ".html") with ("-"%char :: gid ++ L ".html").
  rewrite after_first_app by exact Hdash.
  unfold rsplit1_head. rewrite before_last_end; [reflexivity | discriminate].
Qed.
(** ** From an offset back to the file *)

Lemma fold_blocks (marker : str) (blocks : list str) :
  forall t,
    fold_left (fun t block => t ++ marker ++ block ++ [LF; LF]) blocks t =
    t ++ concat (map (fun block => marker ++ block ++ [LF; LF]) blocks).
Proof.
  induction blocks as [|b blocks IH]; intros t; cbn [fold_left map concat].
  - now rewrite app_nil_r.
  - rewrite IH. rewrite <- !app_assoc. reflexivity.
Qed.

Lemma build_full_text_step (acc fname : str) (blocks : list str)
                           (files : list (str * list str)) :
  build_full_text acc ((fname, blocks) :: files) =
  if is_nil blocks then build_full_text acc files
  else
    ((length acc, fname)
       :: fst (build_full_text (acc ++ file_part (fname, blocks)) files),
     snd (build_full_text (acc ++ file_part (fname, blocks)) files)).
Proof.
  cbn [build_full_text]. destruct (is_nil blocks); [reflexivity |].
  rewrite fold_blocks. unfold file_part. cbn [fst snd].
  destruct (build_full_text _ files). reflexivity.
Qed.

Lemma file_part_nil (fname : str) : file_part (fname, []) = [].
Proof. reflexivity. Qed.

Lemma file_part_length (fname : str) (blocks : list str) :
  blocks <> [] -> 0 < length (file_part (fname, blocks)).
Proof.
  destruct blocks as [|b blocks]; [contradiction |]. intros _.
  unfold file_part. cbn [snd map concat]. rewrite !length_app.
  simpl. lia.
Qed.

Lemma build_full_text_text :
  forall files acc,
    snd (build_full_text acc files) = acc ++ files_text files.
Proof.
  induction files as [|[fname blocks] files IH]; intros acc.
  - simpl. unfold files_text. simpl. now rewrite app_nil_r.
  - rewrite build_full_text_step. unfold files_text in *.
    cbn [map concat]. destruct blocks as [|b blocks]; cbn [is_nil].
    + rewrite IH, file_part_nil. reflexivity.
    + cbn [snd]. rewrite IH, <- app_assoc. reflexivity.
Qed.

Lemma build_full_text_offsets :
  forall files acc,
    Forall (fun o => length acc <= fst o) (fst (build_full_text acc files))
    /\ StronglySorted (fun x y => fst x < fst y)
                      (fst (build_full_text acc files))
    /\ map snd (fst (build_full_text acc files)) =
       map fst (filter (fun f => negb (is_nil (snd f))) files).
Proof.
  induction files as [|[fname blocks] files IH]; intros acc.
  - simpl. repeat constructor.
  - rewrite build_full_text_step. cbn [filter snd].
    destruct blocks as [|b blocks]; cbn [is_nil negb]; [apply IH |].
    destruct (IH (acc ++ file_part (fname, b :: blocks))) as (Hge & Hs & Hm).
    pose proof (file_part_length fname (b :: blocks) ltac:(discriminate))
      as Hpos.
    rewrite length_app in Hge. cbn [fst map]. repeat split.
    + constructor; [simpl; lia |].
      eapply Forall_impl; [| exact Hge]. simpl. intros o. lia.
    + constructor; [exact Hs |].
      eapply Forall_impl; [| exact Hge]. simpl. intros o. lia.
    + now rewrite Hm.
Qed.

Lemma file_loop_stop (last : option str) (pos : nat)
                     (offsets : list (nat * str)) :
  Forall (fun o => pos < fst o) offsets -> file_loop last pos offsets = last.
Proof.
  intros H. destruct H as [|[off fname] l Ho _]; [reflexivity |].
  cbn [file_loop]. simpl in Ho.
  apply Nat.ltb_lt in Ho. now rewrite Ho.
Qed.

Lemma file_loop_part :
  forall files acc last pos pre fname blocks post,
    files = pre ++ (fname, blocks) :: post ->
    blocks <> [] ->
    length acc + length (files_text pre) <= pos ->
    pos < length acc + length (files_text (pre ++ [(fname, blocks)])) ->
    file_loop last pos (fst (build_full_text acc files)) = Some fname.
Proof.
  induction files as [|[f bl] files IH];
    intros acc last pos pre fname blocks post Hfiles Hne Hlo Hhi.
  - destruct pre; discriminate.
  - rewrite build_full_text_step.
    destruct pre as [|[f' bl'] pre]; cbn [app] in Hfiles;
      inversion Hfiles; subst.
    + unfold files_text in Hlo, Hhi. cbn [app map concat] in Hlo, Hhi.
      rewrite app_nil_r in Hhi. simpl in Hlo.
      destruct blocks as [|b blocks]; [contradiction |]. cbn [is_nil fst].
      cbn [file_loop].
      replace (pos <? length acc) with false
        by (symmetry; apply Nat.ltb_ge; lia).
      apply file_loop_stop.
      destruct (build_full_text_offsets post
                  (acc ++ file_part (fname, b :: blocks))) as (Hge & _).
      rewrite length_app in Hge.
      eapply Forall_impl; [| exact Hge]. intros o Ho. cbn beta in Ho. lia.
    + unfold files_text in Hlo, Hhi. cbn [app map concat] in Hlo, Hhi.
      rewrite length_app in Hlo, Hhi.
      destruct bl' as [|b bl']; cbn [is_nil].
      * rewrite file_part_nil in Hlo, Hhi. simpl in Hlo, Hhi.
        eapply IH; eauto.
      * cbn [fst file_loop].
        replace (pos <? length acc) with false
          by (symmetry; apply Nat.ltb_ge; lia).
        eapply (IH (acc ++ file_part (f', b :: bl'))); eauto;
          rewrite length_app; unfold files_text; lia.
Qed.

(** X25.  [parse_day] maps an offset of the text it builds back to the
    file the text at that offset came from: the text is the parts of the
    files one after the other, the offsets recorded, one for each file
    that has blocks, increase strictly, and for every offset inside the
    part of a file [file_for_offset] returns the name of that file.
    Without a file that has blocks it returns [None]. *)
Theorem file_for_offset_spec (files : list (str * list str)) :
  snd (build_full_text [] files) = files_text files
  /\ StronglySorted (fun x y => fst x < fst y)
                    (fst (build_full_text [] files))
  /\ map snd (fst (build_full_text [] files)) =
     map fst (filter (fun f => negb (is_nil (snd f))) files)
  /\ (forall pre fname blocks post pos,
        files = pre ++ (fname, blocks) :: post ->
        blocks <> [] ->
        length (files_text pre) <= pos ->
        pos < length (files_text (pre ++ [(fname, blocks)])) ->
        file_for_offset (fst (build_full_text [] files)) pos = Some fname)
  /\ (Forall (fun f => snd f = []) files ->
      forall pos,
        file_for_offset (fst (build_full_text [] files)) pos = None).
Proof.
  destruct (build_full_text_offsets files []) as (_ & Hs & Hm).
  repeat split; auto.
  - apply (build_full_text_text files []).
  - intros pre fname blocks post pos Hfiles Hne Hlo Hhi.
    unfold file_for_offset. eapply file_loop_part; eauto.
  - intros Hall pos. unfold file_for_offset.
    assert (Hnil : fst (build_full_text [] files) = []).
    { destruct (fst (build_full_text [] files)) as [|x l] eqn:E;
        [reflexivity |].
      apply (f_equal (@length _)) in Hm. rewrite length_map in Hm.
      assert (Hf : filter (fun f : str * list str => negb (is_nil (snd f)))
                          files = []).
      { clear Hm Hs E. induction Hall as [|f fs Hf _ IH]; [reflexivity |].
        cbn [filter]. rewrite Hf. exact IH. }
      rewrite Hf in Hm. discriminate. }
    rewrite Hnil. reflexivity.
Qed.

Lemma file_for_offset_spec_witness :
  file_for_offset
    (fst (build_full_text []
            [(L "1-A.html", [L "x"]); (L "2-B.html", []);
             (L "3-C.html", [L "z"])]))
    30 = Some (L "3-C.html").
Proof.
  apply (proj1 (proj2 (proj2 (proj2 (file_for_offset_spec
           [(L "1-A.html", [L "x"]); (L "2-B.html", []);
            (L "3-C.html", [L "z"])]))))
         [(L "1-A.html", [L "x"]); (L "2-B.html", [])]
         (L "3-C.html") [L "z"] [] 30).
  - reflexivity.
  - discriminate.
  - vm_compute. lia.
  - vm_compute. lia.
Defined.

(** ** The chamber in a file name *)

Lemma startswith_app_disjoint (suf : str) :
  forall p g,
    (forall c, In c suf -> ~ In c p) ->
    startswith p (g ++ suf) = startswith p g.
Proof.
  induction p as [|x p IH]; intros g Hdis; [reflexivity |].
  destruct g as [|c g]; cbn [app startswith].
  - destruct suf as [|y suf]; [reflexivity |].
    destruct (chr_eqb x y) eqn:E; [|reflexivity].
    apply Ascii.eqb_eq in E. subst y. exfalso.
    apply (Hdis x); now left.
  - rewrite IH; [reflexivity |].
    intros d Hd Hp. apply (Hdis d Hd). now right.
Qed.

Lemma contains_app_disjoint (p suf : str) :
  p <> [] ->
  (forall c, In c suf -> ~ In c p) ->
  forall g, contains p (g ++ suf) = contains p g.
Proof.
  intros Hne Hdis.
  assert (Hsuf : forall s, (forall c, In c s -> ~ In c p) ->
                           contains p s = false).
  { induction s as [|c s IH]; intros Hs.
    - destruct p; [contradiction | reflexivity].
    - cbn [contains]. rewrite IH by (intros d Hd; apply Hs; now right).
      rewrite orb_false_r. destruct p as [|x p]; [contradiction |].
      cbn [startswith]. destruct (chr_eqb x c) eqn:E; [|reflexivity].
      apply Ascii.eqb_eq in E. subst c. exfalso.
      apply (Hs x); now left. }
  induction g as [|c g IH].
  - simpl app. rewrite Hsuf by exact Hdis.
    destruct p; [contradiction | reflexivity].
  - cbn [app contains].
    change (c :: g ++ suf) with ((c :: g) ++ suf).
    rewrite startswith_app_disjoint by exact Hdis.
    rewrite IH. reflexivity.
Qed.

Lemma contains_skip_prefix (p pre s : str) (x : ascii) (p' : str) :
  p = x :: p' ->
  Forall (fun c => chr_eqb x c = false) pre ->
  contains p (pre ++ s) = contains p s.
Proof.
  intros -> H. induction H as [|c pre Hc _ IH]; [reflexivity |].
  cbn [app contains startswith]. rewrite Hc. exact IH.
Qed.

Lemma contains_html_name (p : str) (x : ascii) (p' : str)
                         (html_counter : nat) (gid : str) :
  p = x :: p' ->
  is_digit x = false -> chr_eqb x "-"%char = false ->
  (forall c, In c (L ".html") -> ~ In c p) ->
  contains p (html_name html_counter gid) = contains p gid.
Proof.
  intros Hp Hx Hdash Hdis. unfold html_name.
  rewrite (contains_skip_prefix p (str_of_nat html_counter) _ x p' Hp).
  - change (L "-" ++ gid ++ L ".html") with ([("-")%char] ++ gid ++ L ".html").
    rewrite (contains_skip_prefix p ["-"%char] _ x p' Hp)
      by (repeat constructor; exact Hdash).
    apply contains_app_disjoint; [subst p; discriminate | exact Hdis].
  - destruct (str_of_nat_digits html_counter) as [Hd _].
    eapply Forall_impl; [| exact Hd]. intros c Hc.
    destruct (chr_eqb x c) eqn:E; [|reflexivity].
    apply Ascii.eqb_eq in E. subst c. congruence.
Qed.

(** X26.  The chamber [parse_day] reads from the name of a file agrees
    with the section [_fetch_one_granule] filed the granule under: the
    name [scrape_day] makes from a number and a granule id holds [PgH]
    ([PgS]) exactly when the id does, the number and the extension
    adding none, so that the chamber is [H] when the section is
    [house], [S] when it is [senate], and empty when the granule has no
    section. *)
Theorem chamber_from_file_agrees (html_counter : nat) (gid : str) :
  contains (L "PgH") (html_name html_counter gid) = contains (L "PgH") gid
  /\ contains (L "PgS") (html_name html_counter gid) = contains (L "PgS") gid
  /\ chamber_from_file (Some (html_name html_counter gid)) =
     match granule_section gid with
     | Some section =>
         if str_eqb section (L "house") then L "H" else L "S"
     | None => []
     end.
Proof.
  assert (HH : contains (L "PgH") (html_name html_counter gid)
               = contains (L "PgH") gid).
  { apply (contains_html_name (L "PgH") "P"%char (L "gH")); try reflexivity.
    intros c Hc Hp. simpl in Hc, Hp.
    repeat (destruct Hc as [<- | Hc];
            [repeat (destruct Hp as [Hp | Hp]; [discriminate |]); exact Hp |]).
    exact Hc. }
  assert (HS : contains (L "PgS") (html_name html_counter gid)
               = contains (L "PgS") gid).
  { apply (contains_html_name (L "PgS") "P"%char (L "gS")); try reflexivity.
    intros c Hc Hp. simpl in Hc, Hp.
    repeat (destruct Hc as [<- | Hc];
            [repeat (destruct Hp as [Hp | Hp]; [discriminate |]); exact Hp |]).
    exact Hc. }
  split; [exact HH |]. split; [exact HS |].
  unfold chamber_from_file, granule_section. rewrite HH, HS.
  assert (Hnil : is_nil (html_name html_counter gid) = false).
  { unfold html_name. destruct (str_of_nat_digits html_counter) as [_ Hne].
    destruct (str_of_nat html_counter); [contradiction | reflexivity]. }
  rewrite Hnil.
  destruct (contains (L "PgH") gid); [reflexivity |].
  destruct (contains (L "PgS") gid); reflexivity.
Qed.
(** ** Stripping the NOTE blocks twice *)

Lemma terminator_nonempty (t : str) : terminator t -> t <> [].
Proof. intros [-> | (c & -> & _)]; discriminate. Qed.

Lemma line_ok_nonempty (l : str) : line_ok l -> l <> [].
Proof.
  intros (body & term & -> & _ & Ht) H. apply app_eq_nil in H.
  destruct H as [_ H]. now apply terminator_nonempty in Ht.
Qed.

Lemma last_ok_nonempty (l : str) : last_ok l -> l <> [].
Proof. intros [H | [_ H]]; [now apply line_ok_nonempty | exact H]. Qed.

Lemma wf_lines_tail (l : str) (rest : list str) :
  wf_lines (l :: rest) -> wf_lines rest.
Proof. destruct rest as [|l' rest]; cbn [wf_lines]; [auto | tauto]. Qed.

Lemma wf_lines_head (l : str) (rest : list str) :
  wf_lines (l :: rest) -> last_ok l.
Proof.
  destruct rest as [|l' rest]; cbn [wf_lines]; [auto |].
  intros (H & _). now left.
Qed.

Lemma wf_lines_cons (l : str) (lines : list str) :
  line_ok l -> wf_lines lines ->
  (forall l' rest, lines = l' :: rest -> ends_cr l && starts_lf l' = false) ->
  wf_lines (l :: lines).
Proof.
  intros Hl Hw Hg. destruct lines as [|l' rest]; cbn [wf_lines].
  - now left.
  - repeat split; auto. eapply Hg. reflexivity.
Qed.

Lemma splitlines_keep_body :
  forall body term s,
    no_linebreak body = true -> terminator term ->
    (ends_cr term = true -> starts_lf s = false) ->
    splitlines_keep (body ++ term ++ s) = (body ++ term) :: splitlines_keep s.
Proof.
  induction body as [|x body IH]; intros term s Hb Ht Hg.
  - cbn [app]. destruct Ht as [-> | (c & -> & Hc)].
    + reflexivity.
    + cbn [app]. rewrite splitlines_keep_cons, Hc.
      destruct s as [|d s]; [reflexivity |].
      destruct (chr_eqb c CR && chr_eqb d LF) eqn:E; [|reflexivity].
      apply andb_true_iff in E. destruct E as [E1 E2].
      unfold ends_cr, last_chr in Hg. cbn [rev app hd_error] in Hg.
      specialize (Hg E1). cbn [starts_lf] in Hg. congruence.
  - cbn [no_linebreak forallb] in Hb. apply andb_true_iff in Hb.
    destruct Hb as [Hx Hb]. apply negb_true_iff in Hx.
    cbn [app]. rewrite splitlines_keep_cons, Hx.
    rewrite (IH term s Hb Ht Hg). reflexivity.
Qed.

Lemma ends_cr_app (body term : str) :
  term <> [] -> ends_cr (body ++ term) = ends_cr term.
Proof. intros H. unfold ends_cr. now rewrite last_chr_app_r. Qed.

Lemma starts_lf_app (l s : str) : l <> [] -> starts_lf (l ++ s) = starts_lf l.
Proof. destruct l; [contradiction | reflexivity]. Qed.

Lemma wf_lines_concat :
  forall lines, wf_lines lines -> splitlines_keep (concat lines) = lines.
Proof.
  induction lines as [|l rest IH]; intros Hw; [reflexivity |].
  destruct rest as [|l' rest].
  - cbn [wf_lines] in Hw. cbn [concat].
    destruct Hw as [(body & term & -> & Hb & Ht) | [Hn Hne]].
    + rewrite <- app_assoc.
      rewrite (splitlines_keep_body body term [] Hb Ht); [reflexivity |].
      reflexivity.
    + rewrite app_nil_r. now apply splitlines_keep_last.
  - cbn [wf_lines] in Hw. destruct Hw as (Hl & Hg & Hw).
    pose proof (last_ok_nonempty l' (wf_lines_head l' rest Hw)) as Hne.
    destruct Hl as (body & term & -> & Hb & Ht).
    change (concat ((body ++ term) :: l' :: rest))
      with ((body ++ term) ++ concat (l' :: rest)).
    rewrite <- app_assoc.
    rewrite (splitlines_keep_body body term _ Hb Ht).
    + now rewrite (IH Hw).
    + intros He. rewrite ends_cr_app in Hg by now apply terminator_nonempty.
      rewrite He in Hg. cbn [andb] in Hg.
      cbn [concat]. now rewrite starts_lf_app.
Qed.

Lemma splitlines_keep_hd (d : ascii) (s : str) :
  exists tl rest, splitlines_keep (d :: s) = (d :: tl) :: rest.
Proof.
  rewrite splitlines_keep_cons. destruct (is_linebreak d).
  - destruct s as [|e s]; [eauto |].
    destruct (chr_eqb d CR && chr_eqb e LF); eauto.
  - destruct (splitlines_keep s); eauto.
Qed.

Lemma line_ok_cons (c : ascii) (l : str) :
  is_linebreak c = false -> line_ok l -> line_ok (c :: l).
Proof.
  intros Hc (body & term & -> & Hb & Ht).
  exists (c :: body), term. repeat split; auto.
  cbn [no_linebreak forallb]. rewrite Hc. exact Hb.
Qed.

Lemma last_ok_cons (c : ascii) (l : str) :
  is_linebreak c = false -> last_ok l -> last_ok (c :: l).
Proof.
  intros Hc [H | [Hn Hne]].
  - left. now apply line_ok_cons.
  - right. split; [|discriminate].
    unfold no_linebreak in *. cbn [forallb]. rewrite Hc. exact Hn.
Qed.

Lemma wf_lines_splitlines (s : str) : wf_lines (splitlines_keep s).
Proof.
  induction s as [s IH] using length_induction.
  destruct s as [|c s]; [exact I |]. rewrite splitlines_keep_cons.
  destruct (is_linebreak c) eqn:Hc.
  - assert (Hline : line_ok [c]).
    { exists [], [c]. repeat split. right. eauto. }
    destruct s as [|d s]; [now left |].
    destruct (chr_eqb c CR && chr_eqb d LF) eqn:E.
    + apply andb_true_iff in E. destruct E as [E1 E2].
      apply Ascii.eqb_eq in E1, E2. subst c d.
      apply wf_lines_cons.
      * exists [], [CR; LF]. repeat split. now left.
      * apply IH. simpl. lia.
      * intros l' rest _. reflexivity.
    + apply wf_lines_cons; [exact Hline | apply IH; simpl; lia |].
      intros l' rest Heq.
      destruct (splitlines_keep_hd d s) as (tl & rest' & Hhd).
      rewrite Hhd in Heq. inversion Heq; subst.
      unfold ends_cr, last_chr. cbn [rev app hd_error starts_lf]. exact E.
  - pose proof (IH s ltac:(simpl; lia)) as Hw.
    destruct (splitlines_keep s) as [|l ls].
    + right. split; [|discriminate].
      unfold no_linebreak. cbn [forallb]. now rewrite Hc.
    + destruct ls as [|l' ls]; cbn [wf_lines] in *.
      * now apply last_ok_cons.
      * destruct Hw as (Hl & Hg & Hw). repeat split; auto.
        -- now apply line_ok_cons.
        -- change (c :: l) with ([c] ++ l).
           rewrite ends_cr_app by now apply line_ok_nonempty.
           exact Hg.
Qed.

Lemma strip_lines_skip_head :
  forall lines k rest,
    strip_lines true lines = k :: rest -> is_marker k = true.
Proof.
  induction lines as [|l lines IH]; intros k rest H; [discriminate |].
  cbn [strip_lines] in H. destruct (is_marker l) eqn:E.
  - inversion H; subst. exact E.
  - eapply IH. exact H.
Qed.

Lemma strip_lines_keep_head (l : str) (lines : list str) :
  exists rest, strip_lines false (l :: lines) = l :: rest.
Proof. cbn [strip_lines]. destruct (is_marker l); eauto. Qed.

Lemma marker_not_lf (k : str) : is_marker k = true -> starts_lf k = false.
Proof.
  intros H. apply is_marker_prefix in H.
  destruct H as (ind & tail & -> & Hind).
  destruct ind as [|c ind]; [reflexivity |].
  inversion Hind as [|? ? Hc _]; subst. cbn [app starts_lf].
  unfold is_blank_chr in Hc. apply orb_true_iff in Hc.
  destruct Hc as [Hc | Hc]; apply Ascii.eqb_eq in Hc; subst c; reflexivity.
Qed.

Lemma wf_lines_keep (l : str) (lines : list str) (skip : bool) :
  wf_lines (l :: lines) ->
  wf_lines (strip_lines skip lines) ->
  wf_lines (l :: strip_lines skip lines).
Proof.
  intros Hw Hk.
  destruct (strip_lines skip lines) as [|k rest] eqn:E.
  - cbn [wf_lines]. now apply wf_lines_head in Hw.
  - destruct lines as [|l' lines]; [discriminate |].
    cbn [wf_lines] in Hw. destruct Hw as (Hl & Hg & _).
    change (line_ok l /\ ends_cr l && starts_lf k = false
            /\ wf_lines (k :: rest)).
    repeat split; auto.
    destruct skip.
    + apply strip_lines_skip_head in E. apply marker_not_lf in E.
      rewrite E. apply andb_false_r.
    + destruct (strip_lines_keep_head l' lines) as (rest' & Hk').
      rewrite Hk' in E. inversion E; subst. exact Hg.
Qed.

Lemma wf_lines_strip :
  forall lines skip, wf_lines lines -> wf_lines (strip_lines skip lines).
Proof.
  induction lines as [|l lines IH]; intros skip Hw; [exact I |].
  pose proof (wf_lines_tail l lines Hw) as Ht.
  cbn [strip_lines]. destruct (is_marker l).
  - apply wf_lines_keep; auto.
  - destruct skip; [now apply IH |]. apply wf_lines_keep; auto.
Qed.

Lemma strip_lines_idem :
  forall lines skip,
    strip_lines skip (strip_lines skip lines) = strip_lines skip lines.
Proof.
  induction lines as [|l lines IH]; intros skip; [reflexivity |].
  cbn [strip_lines]. destruct (is_marker l) eqn:E.
  - cbn [strip_lines]. rewrite E, IH. reflexivity.
  - destruct skip; [apply IH |].
    cbn [strip_lines]. rewrite E, IH. reflexivity.
Qed.

(** X27.  [_strip_note_blocks] is idempotent: the lines of the stripped
    text are the lines it kept, so a second pass over the stripped text
    keeps all of them and returns the same text.  Stripping the NOTE
    blocks of a transcript beforehand therefore does not change what
    [scrape] yields. *)
Theorem strip_note_blocks_idempotent (text : str) :
  splitlines true (_strip_note_blocks text) =
    strip_lines false (splitlines true text)
  /\ _strip_note_blocks (_strip_note_blocks text) = _strip_note_blocks text
  /\ prepare (_strip_note_blocks text) = prepare text
  /\ scrape_turns (_strip_note_blocks text) = scrape_turns text
  /\ scrape (_strip_note_blocks text) = scrape text.
Proof.
  assert (Hsplit : splitlines true (_strip_note_blocks text) =
                   strip_lines false (splitlines true text)).
  { unfold _strip_note_blocks. cbn [splitlines].
    apply wf_lines_concat. apply wf_lines_strip. apply wf_lines_splitlines. }
  assert (Hidem : _strip_note_blocks (_strip_note_blocks text)
                  = _strip_note_blocks text).
  { unfold _strip_note_blocks at 1. rewrite Hsplit, strip_lines_idem.
    reflexivity. }
  assert (Hprep : prepare (_strip_note_blocks text) = prepare text).
  { unfold prepare. now rewrite Hidem. }
  repeat split; auto.
  - unfold scrape_turns. now rewrite Hprep.
  - unfold scrape, scrape_turns. now rewrite Hprep.
Qed.
(** ** The gender of a speaker *)

Lemma dropWhile_app_all (p : ascii -> bool) (w s : str) :
  Forall (fun c => p c = true) w -> dropWhile p (w ++ s) = dropWhile p s.
Proof.
  induction 1 as [|c w Hc _ IH]; [reflexivity |]. cbn [app dropWhile].
  now rewrite Hc.
Qed.

Lemma honorific_head (h : str) :
  In h HONORIFICS -> exists x tl, h = x :: tl /\ isspace x = false.
Proof.
  unfold HONORIFICS.
  intros [<-|[<-|[<-|[<-|[<-|[<-|[<-|[<-|[<-|[]]]]]]]]]];
    eexists _, _; split; reflexivity.
Qed.

Lemma speaker_label_body (text : str) (a b : nat) :
  speaker_event_ok text (Event speaker_ev a b) ->
  exists h c tail,
    In h HONORIFICS /\ isspace c = true
    /\ label_of text (Event speaker_ev a b) = h ++ c :: tail.
Proof.
  intros (_ & (w & body & Hm & _ & Hw & (h & c & tail & Hh & Hc & Hbody))
          & Hlabel).
  exists h, c, tail. repeat split; auto.
  cbn [ev_start ev_end] in Hm, Hlabel. rewrite Hm in Hlabel.
  rewrite app_assoc in Hlabel. unfold strip in Hlabel.
  rewrite strip_by_stop in Hlabel by reflexivity.
  apply app_inv_tail in Hlabel. rewrite Hlabel.
  unfold lstrip_by. rewrite dropWhile_app_all by exact Hw.
  rewrite Hbody. destruct (honorific_head h Hh) as (x & tl & -> & Hx).
  cbn [app dropWhile]. now rewrite Hx.
Qed.

Lemma infer_gender_honorific (h : str) (c : ascii) (tail : str) :
  In h HONORIFICS -> infer_gender (h ++ c :: tail) = gender_of h.
Proof.
  unfold HONORIFICS.
  intros [<-|[<-|[<-|[<-|[<-|[<-|[<-|[<-|[<-|[]]]]]]]]]]; reflexivity.
Qed.

Lemma scrape_turn_label (text : str) (t : turn) :
  In t (scrape_turns text) ->
  exists h c tail,
    In h HONORIFICS /\ isspace c = true /\ speaker t = h ++ c :: tail.
Proof.
  intros Ht. unfold scrape_turns in Ht. apply assemble_labels in Ht.
  destruct Ht as [(who & Hc & _) | (e & H1 & H2 & H3 & _)]; [discriminate |].
  pose proof (timeline_speaker_spans _ _ H1 H2) as Hsp.
  apply speaker_span_ok in Hsp. apply speaker_label_body in Hsp.
  destruct e as [ty a b]. simpl in H2. subst ty. rewrite H3. exact Hsp.
Qed.

(** X28.  The gender column is decided by the honorific the speaker
    line starts with: the label of every row starts, without leading
    whitespace, with one of the tokens of the speaker pattern followed
    by a whitespace character, and the gender is [M] for [Mr.], [F] for
    [Mrs.] and [Ms.], and empty for the six other tokens: [Miss],
    [Chairman], [Chairwoman], [HON.], [Dr.] and [The].  The same holds
    of the rows written for a file with that text, whether the date
    could be extracted from its name or not. *)
Theorem gender_by_honorific (text : str) :
  Forall (fun r =>
            exists h c tail,
              In h HONORIFICS /\ isspace c = true
              /\ row_speaker r = h ++ c :: tail
              /\ row_gender r = gender_of h)
         (file_rows text)
  /\ map (fun h => (h, gender_of h)) HONORIFICS =
     [(L "Mr.", L "M"); (L "Mrs.", L "F"); (L "Ms.", L "F");
      (L "Miss", []); (L "Chairman", []); (L "Chairwoman", []);
      (L "HON.", []); (L "Dr.", []); (L "The", [])]
  /\ (forall parse_date read_text filepath,
        read_text filepath = Some text ->
        Forall (fun r =>
                  exists h c tail,
                    In h HONORIFICS /\ isspace c = true
                    /\ row_speaker r = h ++ c :: tail
                    /\ row_gender r = gender_of h)
               (process_file parse_date read_text filepath)).
Proof.
  assert (Hrows :
    Forall (fun r =>
              exists h c tail,
                In h HONORIFICS /\ isspace c = true
                /\ row_speaker r = h ++ c :: tail
                /\ row_gender r = gender_of h)
           (file_rows text));
    [| split; [exact Hrows |]; split; [reflexivity |];
       intros parse_date read_text filepath Hr;
       destruct (process_file_cases parse_date read_text filepath)
         as [-> | (text' & Hr' & ->)]; [constructor |];
       rewrite Hr in Hr'; inversion Hr'; subst; exact Hrows].
  apply Forall_forall. intros r Hr. unfold file_rows in Hr.
  destruct (batch_rows_columns text (determine_chamber_markers text)
              (scrape text) 0) as [Hcols Hrows].
  rewrite Forall_forall in Hrows. destruct (Hrows r Hr) as (_ & Hg & _).
  assert (Hin : In (row_speaker r, row_speech r) (scrape text)).
  { rewrite <- Hcols.
    apply (in_map (fun r => (row_speaker r, row_speech r))). exact Hr. }
  unfold scrape in Hin. apply in_map_iff in Hin.
  destruct Hin as (t & Heq & Ht).
  assert (Hsp : speaker t = row_speaker r) by congruence.
  destruct (scrape_turn_label text t Ht) as (h & c & tail & Hh & Hc & Hl).
  exists h, c, tail. rewrite Hg, <- Hsp, Hl. repeat split; auto.
  now apply infer_gender_honorific.
Qed.

(** ** The year of a path *)

Lemma year_elim (st st' : cursor) :
  sem YEAR_REGEX st st' ->
  exists w,
    rest st = w ++ rest st'
    /\ ((exists d1 d2, w = "1"%char :: "8"%char :: [d1; d2]
                       /\ is_digit d1 = true /\ is_digit d2 = true)
        \/ (exists d1 d2, w = "1"%char :: "9"%char :: [d1; d2]
                          /\ is_digit d1 = true /\ is_digit d2 = true)
        \/ w = L "2000").
Proof.
  unfold YEAR_REGEX. intros H.
  rewrite sem_seqs_cons in H. destruct H as (s0 & [_ ->] & H).
  rewrite sem_seqs_cons in H. destruct H as (s1 & H1 & H).
  cbn [seqs sem] in H. destruct H as [_ ->].
  apply sem_alts in H1. destruct H1 as (r & Hr & H1).
  assert (Hcent : forall (cc : string),
            sem (Seq (lit cc) (rep 2 2 digit)) st s1 ->
            exists d1 d2, rest st = L cc ++ [d1; d2] ++ rest s1
                          /\ is_digit d1 = true /\ is_digit d2 = true).
  { intros cc (s2 & Hl & Hd). apply sem_lit in Hl. destruct Hl as [Hl _].
    change (iter_rel (sem (Chr is_digit)) 2 (Some 2) s2 s1) in Hd.
    apply iter_chr_elim_hi in Hd.
    destruct Hd as (w & Hw & Hall & Hlo & Hhi & _).
    specialize (Hhi 2 eq_refl).
    destruct w as [|d1 [|d2 [|d3 w]]]; simpl in Hlo, Hhi; try lia.
    inversion Hall as [|? ? Hd1 Hall']; subst.
    inversion Hall' as [|? ? Hd2 _]; subst.
    exists d1, d2. rewrite Hl, Hw. auto. }
  destruct Hr as [<- | [<- | [<- | []]]].
  - destruct (Hcent "18"%string H1) as (d1 & d2 & Hrest & Hd1 & Hd2).
    exists ("1"%char :: "8"%char :: [d1; d2]). split; [exact Hrest |].
    left. eauto.
  - destruct (Hcent "19"%string H1) as (d1 & d2 & Hrest & Hd1 & Hd2).
    exists ("1"%char :: "9"%char :: [d1; d2]). split; [exact Hrest |].
    right. left. eauto.
  - apply sem_lit in H1. destruct H1 as [H1 _].
    exists (L "2000"). split; [exact H1 |]. right. now right.
Qed.

Lemma digit_value (d : ascii) :
  is_digit d = true -> 48 <= code d <= 57.
Proof.
  unfold is_digit, between. intros H. apply andb_true_iff in H.
  destruct H as [H1 H2]. apply Nat.leb_le in H1, H2. lia.
Qed.

(** X29.  [extract_year_from_path] only returns years from 1800 to
    2000: the year it returns lies in that range and is the number
    written by four consecutive digits of the path. *)
Theorem extract_year_range (path : str) (year : nat) :
  extract_year_from_path path = Some year ->
  1800 <= year <= 2000
  /\ exists pre w post,
       path = pre ++ w ++ post
       /\ length w = 4
       /\ Forall (fun c => is_digit c = true) w
       /\ int_of_digits w = year.
Proof.
  unfold extract_year_from_path.
  destruct (finditer YEAR_REGEX path) as [|[a b] l] eqn:E; [discriminate |].
  intros Hy. inversion Hy as [Hyear]. clear Hy.
  assert (Hin : In (a, b) (finditer YEAR_REGEX path)) by (rewrite E; now left).
  destruct (finditer_slice _ _ _ _ Hin) as (st' & Hsem & Hsl).
  apply year_elim in Hsem. destruct Hsem as (w & Hrest & Hw).
  simpl in Hrest. rewrite Hsl in Hrest. apply app_inv_tail in Hrest.
  rewrite Hrest.
  assert (Hpath : path = firstn a path ++ w ++ rest st').
  { rewrite <- Hrest, <- Hsl. symmetry. apply firstn_skipn. }
  destruct Hw as [(d1 & d2 & -> & Hd1 & Hd2)
                 | [(d1 & d2 & -> & Hd1 & Hd2) | ->]].
  - pose proof (digit_value d1 Hd1). pose proof (digit_value d2 Hd2).
    split.
    + unfold int_of_digits. cbn [fold_left].
      change (code "1"%char) with 49. change (code "8"%char) with 56. lia.
    + exists (firstn a path), ("1"%char :: "8"%char :: [d1; d2]), (rest st').
      repeat split; auto; repeat constructor; auto.
  - pose proof (digit_value d1 Hd1). pose proof (digit_value d2 Hd2).
    split.
    + unfold int_of_digits. cbn [fold_left].
      change (code "1"%char) with 49. change (code "9"%char) with 57. lia.
    + exists (firstn a path), ("1"%char :: "9"%char :: [d1; d2]), (rest st').
      repeat split; auto; repeat constructor; auto.
  - split.
    + vm_compute. lia.
    + exists (firstn a path), (L "2000"), (rest st').
      repeat split; auto; repeat constructor.
Qed.

Lemma extract_year_range_witness :
  1800 <= 1923 <= 2000
  /\ exists pre w post,
       L "/raw/1923/March 3, 1923.pdf" = pre ++ w ++ post
       /\ length w = 4
       /\ Forall (fun c => is_digit c = true) w
       /\ int_of_digits w = 1923.
Proof.
  apply (extract_year_range (L "/raw/1923/March 3, 1923.pdf") 1923).
  vm_compute. reflexivity.
Defined.
(** ** Rule lines end a turn *)

Lemma underline_no_lf : classes_ok (fun c => c <> LF) UNDERLINE_REGEX.
Proof.
  unfold UNDERLINE_REGEX. simpl. repeat split; intros c H ->; discriminate.
Qed.

Lemma underline_on_timeline (text : str) (a b : nat) :
  In (a, b) (finditer UNDERLINE_REGEX text) ->
  In (Event end_ev a b) (timeline text).
Proof.
  intros H. unfold timeline. apply sort_events_In. unfold all_events.
  rewrite !in_app_iff. right. left.
  unfold mk_events. apply in_map_iff. exists (a, b). auto.
Qed.

Lemma Forall_repeat {A} (P : A -> Prop) (x : A) (n : nat) :
  P x -> Forall P (repeat x n).
Proof. intros H. induction n; simpl; constructor; auto. Qed.

Lemma rule_intro (p : option ascii) (x : ascii) (ind trail post : str)
                 (n : nat) :
  at_bol (Cursor p (ind ++ repeat x n ++ trail ++ post)) = true ->
  Forall (fun c => rule_chr c = true) ind ->
  Forall (fun c => rule_chr c = true) trail ->
  3 <= n -> line_ends post = true ->
  exists st',
    sem (seqs [Bol; pad; at_least 3 (chr x); pad; Eol])
        (Cursor p (ind ++ repeat x n ++ trail ++ post)) st'.
Proof.
  intros Hbol Hind Htrail Hn Hpost.
  set (p1 := prev_after p ind).
  set (p2 := prev_after p1 (repeat x n)).
  set (p3 := prev_after p2 trail).
  exists (Cursor p3 post).
  apply sem_seqs_cons. eexists. split; [split; [exact Hbol | reflexivity] |].
  apply sem_seqs_cons. exists (Cursor p1 (repeat x n ++ trail ++ post)). split.
  { unfold pad, star, one_of. cbn [sem].
    apply iter_chr_intro; [exact Hind | lia]. }
  apply sem_seqs_cons. exists (Cursor p2 (trail ++ post)). split.
  { unfold at_least, chr. cbn [sem]. apply iter_chr_intro.
    - apply Forall_repeat. unfold chr_eqb. apply Ascii.eqb_refl.
    - rewrite repeat_length. exact Hn. }
  apply sem_seqs_cons. exists (Cursor p3 post). split.
  { unfold pad, star, one_of. cbn [sem].
    apply iter_chr_intro; [exact Htrail | lia]. }
  cbn [seqs sem]. split; [|reflexivity].
  unfold at_eol. cbn [rest]. exact Hpost.
Qed.

(** X30.  A rule line is an end marker: when a line that starts the
    text or follows a line feed consists of spaces, underscores and
    dashes, with at least three underscores in a row or at least three
    dashes in a row, and ends at a line feed or at the end of the text,
    the timeline holds an end event at the offset where that line
    starts. *)
Theorem rule_line_is_end_event (pre ind trail post : str) (dash : bool)
                               (n : nat) :
  ends_line pre = true ->
  forallb rule_chr (ind ++ trail) = true ->
  3 <= n ->
  line_ends post = true ->
  exists e,
    In (Event end_ev (length pre) e)
       (timeline (pre ++ ind
                  ++ repeat (if dash then "-"%char else "_"%char) n
                  ++ trail ++ post)).
Proof.
  intros Hpre Hrule Hn Hpost.
  set (x := if dash then "-"%char else "_"%char).
  set (s := ind ++ repeat x n ++ trail ++ post).
  rewrite forallb_app in Hrule. apply andb_true_iff in Hrule.
  destruct Hrule as [Hind Htrail].
  rewrite forallb_forall in Hind, Htrail.
  assert (Hbol : at_bol (cursor_at (pre ++ s) (length pre)) = true).
  { rewrite cursor_at_app. exact Hpre. }
  assert (Hm : exists k, match_len UNDERLINE_REGEX
                           (cursor_at (pre ++ s) (length pre)) = Some k).
  { rewrite cursor_at_app in Hbol |- *.
    destruct (rule_intro (last_chr pre) x ind trail post n Hbol)
      as (st' & Hsem); auto.
    - apply Forall_forall. exact Hind.
    - apply Forall_forall. exact Htrail.
    - apply (sem_match_len UNDERLINE_REGEX _ st').
      unfold UNDERLINE_REGEX. cbn [sem]. subst x.
      destruct dash; [right | left]; exact Hsem. }
  destruct Hm as (k & Hm).
  destruct (@finditer_complete UNDERLINE_REGEX (pre ++ s) (length pre) k)
    as [Hin | (a & b & Hin & Ha & Hb)]; auto.
  - rewrite length_app. lia.
  - exists (length pre + k). now apply underline_on_timeline.
  - rewrite (finditer_no_lf_inside _ _ _ _ _ underline_no_lf Hin Ha Hb)
      in Hbol.
    discriminate.
Qed.

Lemma rule_line_is_end_event_witness :
  exists e,
    In (Event end_ev (length (line "  Mr. SMITH. This is a test.")) e)
       (timeline (line "  Mr. SMITH. This is a test." ++ L "  "
                  ++ repeat "_"%char 20 ++ [] ++ line "")).
Proof.
  apply (rule_line_is_end_event (line "  Mr. SMITH. This is a test.")
           (L "  ") [] (line "") false 20).
  - reflexivity.
  - reflexivity.
  - lia.
  - reflexivity.
Defined.
